(** * Chunk-parallel delta-rule attention: the forward engine and its oracle

    A shallow embedding of [fla/ops/delta_rule/parallel.py]: the two Triton
    kernels of the forward pass ([chunk_transform_qk_fwd_kernel],
    [parallel_delta_rule_fwd_kernel]), the copy kernel
    [save_intra_chunk_attn], the host functions that launch them
    ([chunk_transform_qk_fwd], [ParallelDeltaRuleFunction.forward],
    [parallel_delta_rule]) and the torch reference
    [naive_delta_rule_parallel].

    Arithmetic is exact: the element type is an arbitrary commutative ring
    [R], so the dtype casts [.to(...)] of the source are the identity and
    [allow_tf32=False] has no counterpart.  The value [d ** -0.5] is a symbol
    [inv_sqrt d] of the ring.  Host code runs in a small monad that carries
    a log of the device work it starts and may raise a Python exception. *)

From Stdlib Require Import List ZArith Lia Bool Arith Ring String.
From Stdlib Require Import DecimalString.
Import ListNotations.

Set Implicit Arguments.

(** ** Python exceptions and the log of device work *)

Inductive exn : Type :=
| AssertionError (msg : string)
| DeprecationWarning (msg : string)
| NotImplementedError (msg : string)
| ValueError          (* unpacking a shape of the wrong rank *)
| IndexError          (* [shape[i]] past the rank *)
| CompilationError    (* Triton rejects an operand while compiling a kernel *)
| EinopsError         (* [rearrange]: the axis is not divisible *)
| RuntimeError        (* torch: shapes cannot be broadcast *)
| Unmodelled.         (* the call is outside what this embedding covers *)

Inductive kernel_id : Type :=
| K_chunk_transform_qk_fwd
| K_parallel_delta_rule_fwd
| K_save_intra_chunk_attn.

(** What the host asks of the device, in program order.  [Launch] records
    the kernel, its grid and the block sizes [BT] and [BS] it is compiled
    for ([BS] is [0] for the kernels that have no such parameter). *)
Inductive event : Type :=
| Warn (seq_len num_heads : nat)
| SolverCall (chunk_size : nat)
| Launch (kernel : kernel_id) (grid : nat * nat) (BT BS : nat).

Definition M (A : Type) : Type := list event -> list event * (exn + A).

Definition ret {A} (a : A) : M A := fun tr => (tr, inr a).

Definition bind {A B} (m : M A) (f : A -> M B) : M B :=
  fun tr => match m tr with
            | (tr', inl e) => (tr', inl e)
            | (tr', inr a) => f a tr'
            end.

Definition raise {A} (e : exn) : M A := fun tr => (tr, inl e).

Definition emit (ev : event) : M unit := fun tr => (tr ++ [ev], inr tt).

Definition py_assert (b : bool) (msg : string) : M unit :=
  if b then ret tt else raise (AssertionError msg).

Definition lift {A} (r : exn + A) : M A := fun tr => (tr, r).

Declare Scope py_scope.
Delimit Scope py_scope with py.
Notation "x <- m ;; k" := (bind m (fun x => k))
  (at level 61, m at next level, right associativity) : py_scope.
Notation "' p <- m ;; k" := (bind m (fun x => match x with p => k end))
  (at level 61, p pattern, m at next level, right associativity) : py_scope.
Notation "m ;;; k" := (bind m (fun _ => k))
  (at level 61, right associativity) : py_scope.

(** The same for host code that starts no device work (the oracle). *)
Definition ebind {A B} (m : exn + A) (f : A -> exn + B) : exn + B :=
  match m with inl e => inl e | inr a => f a end.

(** ** Shapes *)

(** [B, H, T, K = x.shape] *)
Definition unpack4 (s : list nat) : exn + (nat * nat * nat * nat) :=
  match s with
  | [a; b; c; d] => inr (a, b, c, d)
  | _ => inl ValueError
  end.

(** [x.shape[i]] for [i >= 0] *)
Definition shape_at (s : list nat) (i : nat) : exn + nat :=
  match nth_error s i with Some d => inr d | None => inl IndexError end.

(** [x.shape[-1]] *)
Definition shape_last (s : list nat) : exn + nat :=
  match rev s with d :: _ => inr d | [] => inl IndexError end.

(** [triton.cdiv] *)
Definition cdiv (a b : nat) : nat := (a + b - 1) / b.

(** [triton.next_power_of_2]: the smallest power of two that is at least
    [n], and [0] at [0] (the bit-smearing of the library gives that). *)
Definition next_power_of_2 (n : nat) : nat :=
  if n =? 0 then 0 else 2 ^ Nat.log2_up n.

(** ** Python's [range] *)

Fixpoint range_from (n : nat) (start step : Z) : list Z :=
  match n with
  | O => []
  | S n' => start :: range_from n' (start + step) step
  end.

Definition py_range (start stop step : Z) : list Z :=
  if (0 <? step)%Z
  then range_from (Z.to_nat ((stop - start + step - 1) / step)) start step
  else if (step <? 0)%Z
  then range_from (Z.to_nat ((start - stop - step - 1) / (- step))) start step
  else [].

(** Program identifiers of a two-dimensional launch grid. *)
Definition grid_ids (g : nat * nat) : list (nat * nat) :=
  list_prod (seq 0 (fst g)) (seq 0 (snd g)).

(** A launch runs every program of the grid on the device state.  The
    programs of one launch write disjoint blocks, so the order is immaterial;
    the embedding runs them in the order of [grid_ids]. *)
Definition launch {S} (g : nat * nat) (program : nat -> nat -> S -> S) (s : S) : S :=
  fold_left (fun s id => program (fst id) (snd id) s) (grid_ids g) s.

(** ** The element type *)

(** The operations of the element type, the symbol [inv_sqrt d] for
    [d ** -0.5], and [uninit], what [torch.empty_like] leaves in memory it
    has not written. *)
Class Scalar (R : Type) : Type := {
  rO : R;
  rI : R;
  radd : R -> R -> R;
  rmul : R -> R -> R;
  rsub : R -> R -> R;
  ropp : R -> R;
  inv_sqrt : nat -> R;
  uninit : R
}.

Declare Scope R_scope.
Delimit Scope R_scope with R.
Notation "a + b" := (radd a b) : R_scope.
Notation "a * b" := (rmul a b) : R_scope.
Notation "a - b" := (rsub a b) : R_scope.
Notation "- a" := (ropp a) : R_scope.

(** ** Tensors, blocks and block pointers *)

Section Engine.

Context {R : Type} {ops : Scalar R}.

(** A matrix is read by row and column; a block is a matrix held in
    registers, of the shape its block pointer gives.  The data of a
    contiguous [B, H, T, D] tensor is read as [x i_bh t d]: [x i_bh] is the
    [(T, D)] matrix the kernels address as [x + i_bh * T * D].  The gates, of
    shape [B, H, T], are read as [beta i_bh t 0]. *)
Definition Mat : Type := nat -> nat -> R.
Definition Block : Type := nat -> nat -> R.
Definition Tdata : Type := nat -> Mat.

Record tensor : Type := Tensor { shape : list nat; data : Tdata }.

Definition zeros : Tdata := fun _ _ _ => rO.
Definition empty : Tdata := fun _ _ _ => uninit.

(** [tl.make_block_ptr(base, shape, strides, offsets, block_shape, order)]:
    strides and order fix the memory layout of [base]; the embedding reads
    [base] by coordinates, and a pointer with strides [(1, K)] is the
    pointer to the transposed matrix. *)
Record block_ptr : Type := make_block_ptr {
  base : Mat;
  ptr_shape : nat * nat;
  offsets : Z * Z;
  block_shape : nat * nat
}.

Definition in_bounds (n : nat) (i : Z) : bool :=
  ((0 <=? i) && (i <? Z.of_nat n))%Z.

(** [tl.load(p, boundary_check=(0, 1))]: coordinates outside the tensor
    read as zero. *)
Definition tl_load (p : block_ptr) : Block :=
  fun i j =>
    let r := (fst (offsets p) + Z.of_nat i)%Z in
    let c := (snd (offsets p) + Z.of_nat j)%Z in
    if in_bounds (fst (ptr_shape p)) r && in_bounds (snd (ptr_shape p)) c
    then base p (Z.to_nat r) (Z.to_nat c) else rO.

(** [tl.store(p, b, boundary_check=(0, 1))]: the matrix after the store. *)
Definition tl_store (p : block_ptr) (b : Block) : Mat :=
  fun r c =>
    let i := (Z.of_nat r - fst (offsets p))%Z in
    let j := (Z.of_nat c - snd (offsets p))%Z in
    if in_bounds (fst (block_shape p)) i && in_bounds (snd (block_shape p)) j
       && (r <? fst (ptr_shape p)) && (c <? snd (ptr_shape p))
    then b (Z.to_nat i) (Z.to_nat j) else base p r c.

(** The tensor after slice [i_bh] has been replaced. *)
Definition upd (y : Tdata) (i_bh : nat) (m : Mat) : Tdata :=
  fun bh => if bh =? i_bh then m else y bh.

(** ** Block arithmetic *)

Fixpoint sum_n (n : nat) (f : nat -> R) : R :=
  match n with
  | O => rO
  | S n' => (sum_n n' f + f n')%R
  end.

(** [tl.dot(a, b)] for [a] of shape [(_, n)] and [b] of shape [(n, _)]. *)
Definition tl_dot (n : nat) (a b : Block) : Block :=
  fun i j => sum_n n (fun m => a i m * b m j)%R.

Definition tl_trans (a : Block) : Block := fun i j => a j i.

Definition tl_zeros : Block := fun _ _ => rO.

(** [tl.where(m, a, 0)] *)
Definition tl_where (m : nat -> nat -> bool) (a : Block) : Block :=
  fun i j => if m i j then a i j else rO.

Definition badd (a b : Block) : Block := fun i j => (a i j + b i j)%R.
Definition bsub (a b : Block) : Block := fun i j => (a i j - b i j)%R.

(** [a * s] for a scalar [s] *)
Definition bscale (a : Block) (s : R) : Block := fun i j => (a i j * s)%R.

(** [a * beta[:, None]] *)
Definition brow_scale (a : Block) (beta : Block) : Block :=
  fun i j => (a i j * beta i 0)%R.

(** The gates of slice [i_bh] as a one-column matrix of shape [(T, 1)], for
    the one-dimensional block pointer [(T,)]. *)
Definition make_block_ptr1 (b : Mat) (T : nat) (off : Z) (BT : nat) : block_ptr :=
  make_block_ptr b (T, 1) (off, 0%Z) (BT, 1).

(** ** The intra-chunk kernel *)

(** Device state of [chunk_transform_qk_fwd_kernel]: the tensors it
    writes, [o], [q_new], [k_new] and [A_local] ([None] unless attention
    scores are asked for). *)
Definition transform_state : Type := (Tdata * Tdata * Tdata * option Tdata)%type.

Definition chunk_transform_qk_fwd_kernel
    (q k v beta : Tdata) (A : Tdata) (scale : R)
    (T K V BK BV BT : nat) (OUTPUT_ATTENTIONS : bool)
    (i_t i_bh : nat) (st : transform_state) : transform_state :=
  let '(o, q_new, k_new, A_local) := st in
  let row0 := Z.of_nat (i_t * BT) in
  let p_q := make_block_ptr (q i_bh) (T, K) (row0, 0%Z) (BT, BK) in
  let p_k := make_block_ptr (k i_bh) (T, K) (row0, 0%Z) (BT, BK) in
  let p_v := make_block_ptr (v i_bh) (T, V) (row0, 0%Z) (BT, BV) in
  let b_q := bscale (tl_load p_q) scale in
  let b_k := tl_load p_k in
  let b_v := tl_load p_v in
  let p_T := make_block_ptr (A i_bh) (T, BT) (row0, 0%Z) (BT, BT) in
  let b_T := tl_load p_T in
  let b_qk := tl_where (fun i j => j <=? i) (tl_dot BK b_q (tl_trans b_k)) in
  let b_kk := tl_where (fun i j => j <? i) (tl_dot BK b_k (tl_trans b_k)) in
  let p_beta := make_block_ptr1 (beta i_bh) T row0 BT in
  let b_beta := tl_load p_beta in
  let b_k_beta := brow_scale b_k b_beta in
  let b_qkT := tl_dot BT b_qk b_T in
  let A_local' :=
    if OUTPUT_ATTENTIONS
    then option_map (fun a =>
           let p_a := make_block_ptr (a i_bh) (T, BT) (row0, 0%Z) (BT, BT) in
           upd a i_bh (tl_store p_a b_qkT)) A_local
    else A_local in
  let b_kkT := tl_dot BT b_kk b_T in
  let p_o := make_block_ptr (o i_bh) (T, V) (row0, 0%Z) (BT, BV) in
  let o' := upd o i_bh (tl_store p_o (tl_dot BT b_qkT b_v)) in
  let p_q_new := make_block_ptr (q_new i_bh) (T, K) (row0, 0%Z) (BT, BK) in
  let q_new' := upd q_new i_bh (tl_store p_q_new (bsub b_q (tl_dot BT b_qkT b_k_beta))) in
  let p_k_new := make_block_ptr (k_new i_bh) (T, K) (row0, 0%Z) (BT, BK) in
  let b_k_new := bsub b_k (tl_dot BT (tl_trans b_kkT) b_k_beta) in
  let k_new' := upd k_new i_bh (tl_store p_k_new b_k_new) in
  (o', q_new', k_new', A_local').

(** [chunk_transform_qk_fwd].  A [None] scale reaches [* scale] in the
    kernel: Triton rejects the product when it compiles the kernel, so the
    launch raises and no program runs. *)
Definition chunk_transform_qk_fwd
    (q k v beta : tensor) (A : tensor) (scale : option R)
    (chunk_size : nat) (output_attentions : bool)
  : M (tensor * tensor * tensor * option tensor) :=
  (' (B, H, T, K) <- lift (unpack4 (shape k)) ;;
   let BT := chunk_size in
   let q_new := empty in
   let k_new := empty in
   let o := empty in
   let grid := (cdiv T BT, B * H) in
   V <- lift (shape_last (shape v)) ;;
   let A_local := if output_attentions then Some empty else None in
   match scale with
   | None => raise CompilationError
   | Some scale =>
       emit (Launch K_chunk_transform_qk_fwd grid BT 0) ;;;
       let '(o, q_new, k_new, A_local) :=
         launch grid
           (chunk_transform_qk_fwd_kernel (data q) (data k) (data v) (data beta)
              (data A) scale T K V (next_power_of_2 K) (next_power_of_2 V) BT
              output_attentions)
           (o, q_new, k_new, A_local) in
       ret (Tensor (shape q) q_new, Tensor (shape k) k_new, Tensor (shape v) o,
            option_map (Tensor (shape A)) A_local)
   end)%py.

(** ** The inter-chunk kernel *)

(** What one program of [parallel_delta_rule_fwd_kernel] carries through
    its loops: the query block [b_q], the output block [b_o], and the
    attention tensor it stores scores into ([None] unless asked for:
    [OUTPUT_ATTENTIONS] is [attn is not None]). *)
Definition scan_state : Type := (Block * Block * option Tdata)%type.

(** The body of the two loops over key blocks.  The first loop masks the
    scores with [m_s], the second does not: [masked] tells which. *)
Definition scan_body (masked : bool)
    (k k2 v beta : Tdata) (T K V BT BS BK BV : nat) (i_t i_bh : nat)
    (offset : Z) (st : scan_state) : scan_state :=
  let '(b_q, b_o, attn) := st in
  let p_k := make_block_ptr (tl_trans (k i_bh)) (K, T) (0%Z, offset) (BK, BS) in
  let p_k2 := make_block_ptr (k2 i_bh) (T, K) (offset, 0%Z) (BS, BK) in
  let p_v := make_block_ptr (v i_bh) (T, V) (offset, 0%Z) (BS, BV) in
  let p_beta := make_block_ptr1 (beta i_bh) T offset BS in
  let b_k := tl_load p_k in
  let b_v := tl_load p_v in
  let b_beta := tl_load p_beta in
  let m_s := fun i : nat =>
    (offset - Z.of_nat i_t * Z.of_nat BT + Z.of_nat BS <=? Z.of_nat i)%Z in
  let b_s := tl_dot BK b_q b_k in
  let b_s := if masked then tl_where (fun i _ => m_s i) b_s else b_s in
  let b_o := badd b_o (tl_dot BS b_s b_v) in
  let b_k2 := brow_scale (tl_load p_k2) b_beta in
  let b_q := bsub b_q (tl_dot BS b_s b_k2) in
  let attn :=
    option_map (fun a =>
      let p_a := make_block_ptr (a i_bh) (T, T)
                   (Z.of_nat (i_t * BT), offset) (BT, BS) in
      upd a i_bh (tl_store p_a b_s)) attn in
  (b_q, b_o, attn).

(** Offsets of the key blocks that overlap the query block,
    [range((i_t + 1) * BT - 2 * BS, i_t * BT - BS, -BS)], and of those
    before it, [range(i_t * BT - BS, -BS, -BS)]. *)
Definition overlap_offsets (BT BS i_t : nat) : list Z :=
  py_range ((Z.of_nat i_t + 1) * Z.of_nat BT - 2 * Z.of_nat BS)
           (Z.of_nat i_t * Z.of_nat BT - Z.of_nat BS) (- Z.of_nat BS).

Definition disjoint_offsets (BT BS i_t : nat) : list Z :=
  py_range (Z.of_nat i_t * Z.of_nat BT - Z.of_nat BS)
           (- Z.of_nat BS) (- Z.of_nat BS).

Definition parallel_delta_rule_fwd_kernel
    (q k k2 v beta o : Tdata) (T K V BT BS BK BV : nat)
    (i_t i_bh : nat) (st : Tdata * option Tdata) : Tdata * option Tdata :=
  let '(o_new, attn) := st in
  let row0 := Z.of_nat (i_t * BT) in
  let p_q := make_block_ptr (q i_bh) (T, K) (row0, 0%Z) (BT, BK) in
  let b_q := badd tl_zeros (tl_load p_q) in
  let p_o := make_block_ptr (o i_bh) (T, V) (row0, 0%Z) (BT, BV) in
  let b_o := badd tl_zeros (tl_load p_o) in
  let st1 :=
    fold_left (fun st offset =>
                 scan_body true k k2 v beta T K V BT BS BK BV i_t i_bh offset st)
              (overlap_offsets BT BS i_t) (b_q, b_o, attn) in
  let '(b_q, b_o, attn) :=
    fold_left (fun st offset =>
                 scan_body false k k2 v beta T K V BT BS BK BV i_t i_bh offset st)
              (disjoint_offsets BT BS i_t) st1 in
  let p_o_new := make_block_ptr (o_new i_bh) (T, V) (row0, 0%Z) (BT, BV) in
  (upd o_new i_bh (tl_store p_o_new b_o), attn).

(** ** The copy of the diagonal blocks *)

Definition save_intra_chunk_attn (A_local : Tdata) (T BT : nat)
    (i_t i_bh : nat) (A : Tdata) : Tdata :=
  let row0 := Z.of_nat (i_t * BT) in
  let p_A := make_block_ptr (A i_bh) (T, T) (row0, row0) (BT, BT) in
  let p_A_local := make_block_ptr (A_local i_bh) (T, BT) (row0, 0%Z) (BT, BT) in
  let b_A_local := tl_load p_A_local in
  upd A i_bh (tl_store p_A b_A_local).

(** ** The operator *)

(** [fwd_prepare_T(k, beta, chunk_size)] of [fla.ops.delta_rule.wy_fast],
    the solver of the per-chunk correction matrices: its code is not part
    of the inspected sources, so the engine takes it as a parameter.  It
    returns a tensor of shape [B, H, T, chunk_size]. *)
Variable fwd_prepare_T : tensor -> tensor -> nat -> tensor.

(** [ParallelDeltaRuleFunction.forward].  The kernels address every tensor
    with the sizes read from [k.shape] and [v.shape]. *)
Definition forward (q k v beta : tensor) (scale : option R)
    (output_attentions : bool) : M (tensor * option tensor) :=
  (V <- lift (shape_last (shape v)) ;;
   ' (B, H, T, K) <- lift (unpack4 (shape k)) ;;
   Kq <- lift (shape_last (shape q)) ;;
   py_assert (Kq <=? 128) "The maximum supported sequence length is 128." ;;;
   let BT := 128 in
   let BS := 32 in
   let BK := next_power_of_2 K in
   let BV := next_power_of_2 V in
   py_assert (BT mod BS =? 0) EmptyString ;;;
   emit (SolverCall BS) ;;;
   let A := fwd_prepare_T k beta BS in
   let attn := if output_attentions then Some zeros else None in
   ' (q_new, k_new, o, A_local) <-
       chunk_transform_qk_fwd q k v beta A scale BS output_attentions ;;
   let grid := (cdiv T BT, B * H) in
   let o_new := empty in
   emit (Launch K_parallel_delta_rule_fwd grid BT BS) ;;;
   let '(o_new, attn) :=
     launch grid
       (parallel_delta_rule_fwd_kernel (data q_new) (data k_new) (data k)
          (data v) (data beta) (data o) T K V BT BS BK BV)
       (o_new, attn) in
   if output_attentions then
     let grid := (cdiv T BS, B * H) in
     match attn, A_local with
     | Some attn, Some A_local =>
         emit (Launch K_save_intra_chunk_attn grid BS 0) ;;;
         let attn := launch grid (save_intra_chunk_attn (data A_local) T BS) attn in
         ret (Tensor (shape v) o_new, Some (Tensor [B; H; T; T] attn))
     | _, _ => raise Unmodelled
     end
   else ret (Tensor (shape v) o_new, option_map (Tensor [B; H; T; T]) attn))%py.

(** [ParallelDeltaRuleFunction.backward] *)
Definition backward (do : tensor) (d_attn : option tensor)
  : M (list (option tensor)) :=
  raise (NotImplementedError "Backward pass is not implemented. Stay tuned!").

(** [parallel_delta_rule], the public entry point; [scale],
    [output_attentions] and [head_first] default to [None], [False] and
    [False]. *)
Definition parallel_delta_rule (q k v beta : tensor) (scale : option R)
    (output_attentions head_first : bool) : M (tensor * option tensor) :=
  (if head_first then
     raise (DeprecationWarning
       "head_first is deprecated and will be removed in a future version. Please use head_first=False for now instead.")
   else
     d1 <- lift (if negb head_first then shape_at (shape q) 1 else inr 0) ;;
     d2 <- lift (if negb head_first then shape_at (shape q) 2 else inr 0) ;;
     (if negb head_first && (d1 <? d2) then emit (Warn d1 d2) else ret tt) ;;;
     forward q k v beta scale output_attentions)%py.

(** ** The reference computation *)

(** A tensor of shape [b h n c d]: [x bh n] is chunk [n] of slice [bh]. *)
Definition chunked : Type := nat -> nat -> Block.

(** [rearrange(x, 'b h (n c) d -> b h n c d', c=c)] and its inverse. *)
Definition rearrange_split (c : nat) (x : Tdata) : chunked :=
  fun bh n i d => x bh (n * c + i) d.

Definition rearrange_merge (c : nat) (x : chunked) : Tdata :=
  fun bh t d => x bh (t / c) (t mod c) d.

(** [x @ y] over an inner axis of size [n], and [x @ y.transpose(-1, -2)]. *)
Definition matmul (n : nat) (x y : Block) : Block :=
  fun i j => sum_n n (fun m => x i m * y m j)%R.

Definition matmul_t (n : nat) (x y : Block) : Block :=
  fun i j => sum_n n (fun m => x i m * y j m)%R.

(** [torch.triu(torch.ones(BN, BN), diagonal=d)] as a predicate. *)
Definition triu (d : nat) : nat -> nat -> bool := fun i j => i + d <=? j.

Definition masked_fill (mask : nat -> nat -> bool) (x : Block) : Block :=
  fun i j => if mask i j then rO else x i j.

Definition eye : Block := fun i j => if i =? j then rI else rO.

(** A torch tensor is an array in memory.  The embedding reads tensors as
    functions and tabulates the correction matrices, which are read many
    times: inside the shape the values are the same. *)
Definition tab2 (n m : nat) (f : Block) : Block :=
  let rows := map (fun i => map (f i) (seq 0 m)) (seq 0 n) in
  fun i j => nth j (nth i rows []) rO.

Definition tab_chunks (nbh nn c : nat) (f : chunked) : chunked :=
  let tbl :=
    map (fun bh => map (fun n => let g := f bh n in
                                 map (fun i => map (g i) (seq 0 c)) (seq 0 c))
                       (seq 0 nn))
        (seq 0 nbh) in
  fun bh n i j => nth j (nth i (nth n (nth bh tbl []) []) []) rO.

(** [T = -(k_beta @ k.transpose(-1, -2)).masked_fill(mask, 0)] *)
Definition T_init (d_k : nat) (k k_beta : chunked) : chunked :=
  fun bh n i j =>
    (- masked_fill (triu 0) (matmul_t d_k (k_beta bh n) (k bh n)) i j)%R.

(** [T[..., i, :i] = T[..., i, :i] + (T[..., i, :, None] * T[..., :, :i]).sum(-2)] *)
Definition T_row (BN i : nat) (T : chunked) : chunked :=
  fun bh n =>
    let Tp := T bh n in
    tab2 BN BN (fun r c =>
      if (r =? i) && (c <? i)
      then (Tp i c + sum_n BN (fun m => Tp i m * Tp m c))%R
      else Tp r c).

(** The correction matrices of the reference: the loop over
    [range(1, BN)] and [T = T + torch.eye(BN)]. *)
Definition oracle_T (nbh nn d_k BN : nat) (k k_beta : chunked) : chunked :=
  let T := fold_left (fun T i => T_row BN i T) (seq 1 (BN - 1))
                     (T_init d_k k k_beta) in
  tab_chunks nbh nn BN (fun bh n => let Tp := T bh n in
                                    fun i j => (Tp i j + eye i j)%R).

(** [x[:, :, j:j+n]] for [j >= 0]: rows past the end of the tensor are
    absent, and read as zero where a product sums over them. *)
Definition rows_from (x : Mat) (l : nat) (j : Z) : Block :=
  fun r c => if in_bounds l (j + Z.of_nat r)%Z
             then x (Z.to_nat (j + Z.of_nat r)) c else rO.

(** [A[:, :, i:i+n, j:j+m] = b] on one slice. *)
Definition slice_assign (A : Mat) (sh : nat * nat) (i j : Z) (n m : nat)
    (b : Block) : Mat :=
  tl_store (make_block_ptr A sh (i, j) (n, m)) b.

Definition efold {A S} (f : S -> A -> exn + S) : list A -> S -> exn + S :=
  fix go (l : list A) (s : S) : exn + S :=
    match l with
    | [] => inr s
    | a :: l' => ebind (f s a) (go l')
    end.

(** What the loops over key blocks carry: [q_i], [o_i] (per slice) and
    the attention tensor [A]. *)
Definition oracle_state : Type := ((nat -> Block) * (nat -> Block) * Tdata)%type.

(** The body of the loops over [j].  In the first loop ([masked]) the mask
    has [BM] rows and [masked_fill_] needs it to broadcast against [A_ij],
    which has the rows of [q_i]: torch raises otherwise. *)
Definition oracle_body (masked : bool) (k v k_beta : Tdata)
    (l d_k BM BN : nat) (i : Z) (st : oracle_state) (j : Z)
  : exn + oracle_state :=
  let '(q_i, o_i, A) := st in
  let rows_i := Nat.min BM (l - Z.to_nat i) in
  let k_j := fun bh => rows_from (k bh) l j in
  let A_ij := fun bh => matmul_t d_k (q_i bh) (k_j bh) in
  let mask := fun r : nat => (j + Z.of_nat BN <=? i + Z.of_nat r)%Z in
  if masked && negb (rows_i =? BM) && negb (BM =? 1) then inl RuntimeError
  else
    let A_ij := if masked
                then fun bh => masked_fill (fun r _ => negb (mask r)) (A_ij bh)
                else A_ij in
    let A := fun bh => slice_assign (A bh) (l, l) i j BM BN (A_ij bh) in
    let q_i := fun bh => bsub (q_i bh) (matmul BN (A_ij bh) (rows_from (k_beta bh) l j)) in
    let o_i := fun bh => badd (o_i bh) (matmul BN (A_ij bh) (rows_from (v bh) l j)) in
    inr (q_i, o_i, A).

(** The body of [for i in range(0, l, BM)]. *)
Definition oracle_block (q k v k_beta o_intra : Tdata)
    (l d_k d_v BM BN : nat) (st : Tdata * Tdata) (i : Z)
  : exn + (Tdata * Tdata) :=
  let '(A, o) := st in
  let q_i := fun bh => rows_from (q bh) l i in
  let o_i := fun bh => rows_from (o_intra bh) l i in
  ebind (efold (oracle_body true k v k_beta l d_k BM BN i)
               (py_range (i + Z.of_nat BM - 2 * Z.of_nat BN)
                         (i - Z.of_nat BN) (- Z.of_nat BN))
               (q_i, o_i, A)) (fun st1 =>
  ebind (efold (oracle_body false k v k_beta l d_k BM BN i)
               (py_range (i - Z.of_nat BN) (- Z.of_nat BN) (- Z.of_nat BN))
               st1) (fun st2 =>
  let '(q_i, o_i, A) := st2 in
  inr (A, fun bh => slice_assign (o bh) (l, d_v) i 0%Z BM d_v (o_i bh)))).

Definition shape_eqb (s1 s2 : list nat) : bool :=
  if list_eq_dec Nat.eq_dec s1 s2 then true else false.

(** The first part of [naive_delta_rule_parallel], up to the second
    [rearrange]: the scaled queries, the gated values and keys, the
    correction matrices and the chunk-local tensors.  The result is
    [(q, k, v, k_beta, o_intra, A_local)] as the loops over blocks read
    them. *)
Definition oracle_intra (q k v beta : Tdata) (nbh l d_k BN : nat)
  : Tdata * Tdata * Tdata * Tdata * Tdata * chunked :=
  let q1 := fun bh t d => (q bh t d * inv_sqrt d_k)%R in
  let v1 := fun bh t d => (v bh t d * beta bh t 0)%R in
  let k_beta := fun bh t d => (k bh t d * beta bh t 0)%R in
  let q5 := rearrange_split BN q1 in
  let k5 := rearrange_split BN k in
  let v5 := rearrange_split BN v1 in
  let k_beta5 := rearrange_split BN k_beta in
  let T := oracle_T nbh (l / BN) d_k BN k5 k_beta5 in
  let A_local := fun bh n =>
    matmul BN (masked_fill (triu 1) (matmul_t d_k (q5 bh n) (k5 bh n))) (T bh n) in
  let o_intra := fun bh n => matmul BN (A_local bh n) (v5 bh n) in
  let k5' := fun bh n =>
    bsub (k5 bh n)
         (matmul BN
            (tl_trans (matmul BN (masked_fill (triu 0)
                                    (matmul_t d_k (k5 bh n) (k5 bh n))) (T bh n)))
            (k_beta5 bh n)) in
  let q5' := fun bh n => bsub (q5 bh n) (matmul BN (A_local bh n) (k_beta5 bh n)) in
  (rearrange_merge BN q5', rearrange_merge BN k5', rearrange_merge BN v5,
   rearrange_merge BN k_beta5, rearrange_merge BN o_intra, A_local).

(** [naive_delta_rule_parallel(q, k, v, beta, BM=128, BN=32)].  The
    embedding covers inputs of matching shapes ([q], [k] of shape
    [b, h, l, d_k], [v] of shape [b, h, l, d_v], [beta] of shape [b, h, l])
    and block sizes with [BN] dividing [BM]; other calls are [Unmodelled].
    [o_i] is a view of [o_intra] and [o_i += ...] writes through it; the
    rows it writes are not read again, so the embedding keeps [o_intra]. *)
Definition naive_delta_rule_parallel (q k v beta : tensor) (BM BN : nat)
  : exn + (tensor * tensor) :=
  ebind (unpack4 (shape q)) (fun '(b, h, l, d_k) =>
  ebind (shape_last (shape v)) (fun d_v =>
  if negb (shape_eqb (shape k) [b; h; l; d_k]
           && shape_eqb (shape v) [b; h; l; d_v]
           && shape_eqb (shape beta) [b; h; l]
           && (0 <? BN) && (BM mod BN =? 0))
  then inl Unmodelled
  else if negb (l mod BN =? 0) then inl EinopsError
  else
    let '(q2, k2, v2, k_beta2, o_intra, A_local) :=
      oracle_intra (data q) (data k) (data v) (data beta) (b * h) l d_k BN in
    let A := zeros in
    let o := empty in
    ebind (efold (oracle_block q2 k2 v2 k_beta2 o_intra l d_k d_v BM BN)
                 (py_range 0 (Z.of_nat l) (Z.of_nat BM)) (A, o)) (fun '(A, o) =>
    let A := fold_left (fun A i => fun bh =>
               slice_assign (A bh) (l, l) (Z.of_nat (i * BN)) (Z.of_nat (i * BN))
                            BN BN (A_local bh i))
             (seq 0 (l / BN)) A in
    inr (Tensor (shape v) o, Tensor [b; h; l; l] A)))).

(** A solver that returns the correction matrices of the reference
    computation, also for a last chunk that is shorter than the chunk size:
    an instance of the parameter [fwd_prepare_T]. *)
Definition reference_solver (k beta : tensor) (chunk_size : nat) : tensor :=
  match unpack4 (shape k) with
  | inr (b, h, l, d_k) =>
      let k5 := rearrange_split chunk_size (data k) in
      let k_beta5 :=
        rearrange_split chunk_size
          (fun bh t d => (data k bh t d * data beta bh t 0)%R) in
      let T := oracle_T (b * h) (cdiv l chunk_size) d_k chunk_size k5 k_beta5 in
      Tensor [b; h; l; chunk_size] (rearrange_merge chunk_size T)
  | inl _ => Tensor [] zeros
  end.

End Engine.

Arguments Mat : clear implicits.
Arguments Block : clear implicits.
Arguments Tdata : clear implicits.
Arguments chunked : clear implicits.
Arguments tensor : clear implicits.
Arguments block_ptr : clear implicits.
Arguments scan_state : clear implicits.
Arguments transform_state : clear implicits.
Arguments oracle_state : clear implicits.

(** * What the kernels compute, and what the specification asks *)

Section Specification.

Context {R : Type} {ops : Scalar R}.

(** ** The device part of [forward] as a function *)

(** The blocks one program of [chunk_transform_qk_fwd_kernel] stores:
    [(o, q_new, k_new, A_local)]. *)
Definition transform_blocks
    (q k v beta A : Tdata R) (scale : R) (T K V BK BV BT : nat)
    (i_t i_bh : nat) : Block R * Block R * Block R * Block R :=
  let row0 := Z.of_nat (i_t * BT) in
  let b_q := bscale (tl_load (make_block_ptr (q i_bh) (T, K) (row0, 0%Z) (BT, BK))) scale in
  let b_k := tl_load (make_block_ptr (k i_bh) (T, K) (row0, 0%Z) (BT, BK)) in
  let b_v := tl_load (make_block_ptr (v i_bh) (T, V) (row0, 0%Z) (BT, BV)) in
  let b_T := tl_load (make_block_ptr (A i_bh) (T, BT) (row0, 0%Z) (BT, BT)) in
  let b_qk := tl_where (fun i j => j <=? i) (tl_dot BK b_q (tl_trans b_k)) in
  let b_kk := tl_where (fun i j => j <? i) (tl_dot BK b_k (tl_trans b_k)) in
  let b_beta := tl_load (make_block_ptr1 (beta i_bh) T row0 BT) in
  let b_k_beta := brow_scale b_k b_beta in
  let b_qkT := tl_dot BT b_qk b_T in
  let b_kkT := tl_dot BT b_kk b_T in
  (tl_dot BT b_qkT b_v,
   bsub b_q (tl_dot BT b_qkT b_k_beta),
   bsub b_k (tl_dot BT (tl_trans b_kkT) b_k_beta),
   b_qkT).

(** A program that stores the block [val i_t i_bh] at rows [i_t * BT] of
    slice [i_bh] of a [(T, C)] tensor, through a block pointer of shape
    [(BT, BC)]. *)
Definition block_write (T C BT BC : nat) (val : nat -> nat -> Block R)
    (i_t i_bh : nat) (y : Tdata R) : Tdata R :=
  upd y i_bh
    (tl_store (make_block_ptr (y i_bh) (T, C) (Z.of_nat (i_t * BT), 0%Z) (BT, BC))
              (val i_t i_bh)).

(** The loops of [parallel_delta_rule_fwd_kernel] on the two blocks they
    compute with. *)
Definition scan_qo (masked : bool)
    (k k2 v beta : Tdata R) (T K V BT BS BK BV : nat) (i_t i_bh : nat)
    (st : Block R * Block R) (offset : Z) : Block R * Block R :=
  let '(b_q, b_o) := st in
  let b_k := tl_load (make_block_ptr (tl_trans (k i_bh)) (K, T) (0%Z, offset) (BK, BS)) in
  let b_v := tl_load (make_block_ptr (v i_bh) (T, V) (offset, 0%Z) (BS, BV)) in
  let b_beta := tl_load (make_block_ptr1 (beta i_bh) T offset BS) in
  let m_s := fun i : nat =>
    (offset - Z.of_nat i_t * Z.of_nat BT + Z.of_nat BS <=? Z.of_nat i)%Z in
  let b_s := tl_dot BK b_q b_k in
  let b_s := if masked then tl_where (fun i _ => m_s i) b_s else b_s in
  let b_k2 := brow_scale (tl_load (make_block_ptr (k2 i_bh) (T, K) (offset, 0%Z) (BS, BK))) b_beta in
  (bsub b_q (tl_dot BS b_s b_k2), badd b_o (tl_dot BS b_s b_v)).

(** The scores a program stores into the attention tensor at one key
    block, given the query block it holds then. *)
Definition scan_scores (masked : bool) (k : Tdata R) (T K BT BS BK : nat)
    (i_t i_bh : nat) (b_q : Block R) (offset : Z) : Block R :=
  let b_k := tl_load (make_block_ptr (tl_trans (k i_bh)) (K, T) (0%Z, offset) (BK, BS)) in
  let m_s := fun i : nat =>
    (offset - Z.of_nat i_t * Z.of_nat BT + Z.of_nat BS <=? Z.of_nat i)%Z in
  let b_s := tl_dot BK b_q b_k in
  if masked then tl_where (fun i _ => m_s i) b_s else b_s.

(** The key blocks a program visits, in order, each with the flag of the
    loop it belongs to. *)
Definition scan_offsets (BT BS i_t : nat) : list (bool * Z) :=
  map (pair true) (overlap_offsets BT BS i_t)
  ++ map (pair false) (disjoint_offsets BT BS i_t).

Definition scan_init (q o : Tdata R) (T K V BT BK BV : nat) (i_t i_bh : nat)
  : Block R * Block R :=
  let row0 := Z.of_nat (i_t * BT) in
  (badd tl_zeros (tl_load (make_block_ptr (q i_bh) (T, K) (row0, 0%Z) (BT, BK))),
   badd tl_zeros (tl_load (make_block_ptr (o i_bh) (T, V) (row0, 0%Z) (BT, BV)))).

Definition scan_blocks (q k k2 v beta o : Tdata R) (T K V BT BS BK BV : nat)
    (i_t i_bh : nat) (offs : list (bool * Z)) : Block R * Block R :=
  fold_left (fun st mo =>
               scan_qo (fst mo) k k2 v beta T K V BT BS BK BV i_t i_bh st (snd mo))
            offs (scan_init q o T K V BT BK BV i_t i_bh).

(** The device part of [forward] for block sizes [BT] and [BS]: the three
    launches on the tensors' data. *)
Definition engine_run (BT BS : nat) (A q k v beta : Tdata R) (scale : R)
    (B H T K V : nat) (output_attentions : bool) : Tdata R * option (Tdata R) :=
  let BK := next_power_of_2 K in
  let BV := next_power_of_2 V in
  let '(o, q_new, k_new, A_local) :=
    launch (cdiv T BS, B * H)
      (chunk_transform_qk_fwd_kernel q k v beta A scale T K V BK BV BS
         output_attentions)
      (empty, empty, empty, if output_attentions then Some empty else None) in
  let '(o_new, attn) :=
    launch (cdiv T BT, B * H)
      (parallel_delta_rule_fwd_kernel q_new k_new k v beta o T K V BT BS BK BV)
      (empty, if output_attentions then Some zeros else None) in
  (o_new,
   if output_attentions then
     match attn, A_local with
     | Some attn, Some A_local =>
         Some (launch (cdiv T BS, B * H) (save_intra_chunk_attn A_local T BS) attn)
     | _, _ => None
     end
   else attn).

(** The tensor after the programs [ids] of a launch of [block_write]. *)
Definition writes (T C BT BC : nat) (val : nat -> nat -> Block R)
    (ids : list (nat * nat)) (y : Tdata R) : Tdata R :=
  fold_left (fun y id => block_write T C BT BC val (fst id) (snd id) y) ids y.

(** ** The stores of the scan into the attention tensor *)

(** [tl.store(p_a, b_s)] of the scan: the block of scores for the key block
    at [offset] goes to rows [i_t * BT ..], columns [offset ..] of slice
    [i_bh]. *)
Definition attn_store (T BT BS i_t i_bh : nat) (offset : Z) (b_s : Block R)
    (a : Tdata R) : Tdata R :=
  upd a i_bh
    (tl_store (make_block_ptr (a i_bh) (T, T) (Z.of_nat (i_t * BT), offset) (BT, BS))
              b_s).

(** The attention tensor after one program has visited the key blocks
    [offs], starting from the blocks [st]. *)
Fixpoint scan_attn (k k2 v beta : Tdata R) (T K V BT BS BK BV : nat)
    (i_t i_bh : nat) (offs : list (bool * Z)) (st : Block R * Block R)
    (a : Tdata R) : Tdata R :=
  match offs with
  | [] => a
  | mo :: rest =>
      scan_attn k k2 v beta T K V BT BS BK BV i_t i_bh rest
        (scan_qo (fst mo) k k2 v beta T K V BT BS BK BV i_t i_bh st (snd mo))
        (attn_store T BT BS i_t i_bh (snd mo)
           (scan_scores (fst mo) k T K BT BS BK i_t i_bh (fst st) (snd mo)) a)
  end.

(** The attention tensor after the programs [ids] of the scan. *)
Definition scan_attn_all (q k k2 v beta o : Tdata R) (T K V BT BS BK BV : nat)
    (ids : list (nat * nat)) (a : Tdata R) : Tdata R :=
  fold_left (fun a id =>
               scan_attn k k2 v beta T K V BT BS BK BV (fst id) (snd id)
                 (scan_offsets BT BS (fst id))
                 (scan_init q o T K V BT BK BV (fst id) (snd id)) a)
            ids a.

(** The attention tensor after the programs [ids] of the copy kernel. *)
Definition save_all (A_local : Tdata R) (T BT : nat) (ids : list (nat * nat))
    (a : Tdata R) : Tdata R :=
  fold_left (fun a id => save_intra_chunk_attn A_local T BT (fst id) (snd id) a) ids a.

(** ** The intra-chunk transformer of the specification *)

(** Rows [i_t * BT ..] of a matrix, and how many of them the tensor has. *)
Definition chunk_of (x : Mat R) (BT i_t : nat) : Block R :=
  fun r c => x (i_t * BT + r) c.

Definition chunk_rows (T BT i_t : nat) : nat := Nat.min BT (T - i_t * BT).

(** For one chunk of [n] rows and [K] key features: the masked scores
    [S_qk] (row >= col kept) and [S_kk] (row > col kept), their products
    with the correction matrix [Tm], and
    [O = S_qk' V], [Q' = Q scale - S_qk' (K * gate)],
    [K' = K - (S_kk')^t (K * gate)].  The result is [(O, Q', K', S_qk')]. *)
Definition intra_chunk (n K : nat) (Q Kc Vc : Block R) (gate : nat -> R)
    (Tm : Block R) (scale : R) : Block R * Block R * Block R * Block R :=
  let Qs : Block R := fun i c => (Q i c * scale)%R in
  let S_qk : Block R := fun i j =>
    if j <=? i then sum_n K (fun c => Qs i c * Kc j c)%R else rO in
  let S_kk : Block R := fun i j =>
    if j <? i then sum_n K (fun c => Kc i c * Kc j c)%R else rO in
  let S_qk' : Block R := fun i j => sum_n n (fun m => S_qk i m * Tm m j)%R in
  let S_kk' : Block R := fun i j => sum_n n (fun m => S_kk i m * Tm m j)%R in
  let Kg : Block R := fun i c => (Kc i c * gate i)%R in
  (fun i c => sum_n n (fun m => S_qk' i m * Vc m c)%R,
   fun i c => (Qs i c - sum_n n (fun m => S_qk' i m * Kg m c))%R,
   fun i c => (Kc i c - sum_n n (fun m => S_kk' m i * Kg m c))%R,
   S_qk').

(** The transformer on whole tensors: chunk [t / BT] of each slice. *)
Definition intra_at (q k v beta A : Tdata R) (scale : R) (T K BT : nat)
    (bh t : nat) : Block R * Block R * Block R * Block R :=
  let i_t := t / BT in
  intra_chunk (chunk_rows T BT i_t) K
    (chunk_of (q bh) BT i_t) (chunk_of (k bh) BT i_t) (chunk_of (v bh) BT i_t)
    (fun r => beta bh (i_t * BT + r) 0) (chunk_of (A bh) BT i_t) scale.

Definition intra_O q k v beta A scale T K BT : Tdata R :=
  fun bh t c => fst (fst (fst (intra_at q k v beta A scale T K BT bh t))) (t mod BT) c.
Definition intra_Q q k v beta A scale T K BT : Tdata R :=
  fun bh t c => snd (fst (fst (intra_at q k v beta A scale T K BT bh t))) (t mod BT) c.
Definition intra_K q k v beta A scale T K BT : Tdata R :=
  fun bh t c => snd (fst (intra_at q k v beta A scale T K BT bh t)) (t mod BT) c.
Definition intra_S q k v beta A scale T K BT : Tdata R :=
  fun bh t c => snd (intra_at q k v beta A scale T K BT bh t) (t mod BT) c.

(** ** The inter-chunk scanner of the specification *)

(** One visit of key block [n] (rows [n * BS ..] of the keys) by query
    chunk [i]: the scores [S = Q'_running K'^t] under the causal mask (a
    query row sees a key block that ends at or before it), then
    [O += S V] and [Q'_running -= S (K_original * gate)]. *)
Definition visit (Kc Ko Vm : Mat R) (gate : nat -> R) (T K BT BS i : nat)
    (st : Block R * Block R) (n : nat) : Block R * Block R :=
  let '(Qr, Oacc) := st in
  let nk := chunk_rows T BS n in
  let S : Block R := fun r s =>
    if n * BS + BS <=? i * BT + r
    then sum_n K (fun c => Qr r c * Kc (n * BS + s)%nat c)%R else rO in
  (fun r c => (Qr r c - sum_n nk (fun s => S r s * (Ko (n * BS + s)%nat c * gate (n * BS + s)%nat)))%R,
   fun r c => (Oacc r c + sum_n nk (fun s => S r s * Vm (n * BS + s)%nat c))%R).

(** The key blocks visited for query chunk [i]: every block that starts
    before the last key block of the chunk, nearest first, down to block
    [0]. *)
Definition visited (BT BS i : nat) : list nat :=
  rev (seq 0 ((i + 1) * (BT / BS) - 1)).

Definition scanner (Q' K' Ko Vm : Mat R) (gate : nat -> R) (O0 : Mat R)
    (T K BT BS i : nat) : Block R * Block R :=
  fold_left (visit K' Ko Vm gate T K BT BS i) (visited BT BS i)
            (chunk_of Q' BT i, chunk_of O0 BT i).

(** ** Agreement of scanner inputs and states *)

(** Two states agree on row [r]. *)
Definition row_agree (K V r : nat) (st st' : Block R * Block R) : Prop :=
  (forall c, c < K -> fst st r c = fst st' r c)
  /\ (forall c, c < V -> snd st r c = snd st' r c).

(** Two families of scanner inputs agree on every key block that ends at
    or before time [tq]. *)
Definition past_agree (T K V BS tq : nat)
    (Kc Ko Vm : Mat R) (gate : nat -> R) (Kc' Ko' Vm' : Mat R) (gate' : nat -> R)
  : Prop :=
  forall t, t < T -> (t / BS + 1) * BS <= tq ->
    (forall c, c < K -> Kc t c = Kc' t c)
    /\ (forall c, c < K -> Ko t c = Ko' t c)
    /\ (forall c, c < V -> Vm t c = Vm' t c)
    /\ gate t = gate' t.

(** Well-formed input: [q], [k] of shape [B, H, T, K], [v] of shape
    [B, H, T, V], [beta] of shape [B, H, T]. *)
Definition valid_shapes (q k v beta : tensor R) (B H T K V : nat) : Prop :=
  shape q = [B; H; T; K] /\ shape k = [B; H; T; K]
  /\ shape v = [B; H; T; V] /\ shape beta = [B; H; T].

(** ** The contract of the solver *)

(** The correction matrix of a chunk is lower triangular: in the row of
    time [t], the columns after [t mod chunk_size] are zero. *)
Definition solver_triangular (solver : tensor R -> tensor R -> nat -> tensor R)
  : Prop :=
  forall k beta BS bh t c,
    t mod BS < c -> c < BS -> data (solver k beta BS) bh t c = rO.

(** The correction matrix is built by forward substitution: its rows up
    to time [t0] are determined by the keys and gates up to [t0]. *)
Definition solver_causal (solver : tensor R -> tensor R -> nat -> tensor R)
  : Prop :=
  forall k k' beta beta' B H T K BS bh t0,
    shape k = [B; H; T; K] -> shape k' = [B; H; T; K] ->
    (forall t c, t <= t0 -> t < T -> c < K -> data k bh t c = data k' bh t c) ->
    (forall t, t <= t0 -> t < T -> data beta bh t 0 = data beta' bh t 0) ->
    forall t c, t <= t0 -> t < T -> c < BS ->
      data (solver k beta BS) bh t c = data (solver k' beta' BS) bh t c.

(** Entries above the diagonal are zero. *)
Definition upper_zero (a : Tdata R) : Prop :=
  forall bh r c, r < c -> a bh r c = rO.

(** ** Invariants of the forward substitution *)

(** Zero on and above the diagonal, inside the block. *)
Definition upper0 (BN : nat) (T : Block R) : Prop :=
  forall r c, r < BN -> c < BN -> r <= c -> T r c = rO.

(** Agreement on the rows whose time is at most [t0], inside the block. *)
Definition rows_agree (BN n t0 : nat) (T T' : Block R) : Prop :=
  forall r c, r < BN -> c < BN -> n * BN + r <= t0 -> T r c = T' r c.

(** ** The loops of the reference as functions *)

(** The body of the loops over [j] on [q_i] and [o_i]. *)
Definition oracle_qo (masked : bool) (k v k_beta : Tdata R) (l d_k BN : nat)
    (i : Z) (st : (nat -> Block R) * (nat -> Block R)) (j : Z)
  : (nat -> Block R) * (nat -> Block R) :=
  let '(q_i, o_i) := st in
  let k_j := fun bh => rows_from (k bh) l j in
  let A_ij := fun bh => matmul_t d_k (q_i bh) (k_j bh) in
  let mask := fun r : nat => (j + Z.of_nat BN <=? i + Z.of_nat r)%Z in
  let A_ij := if masked
              then fun bh => masked_fill (fun r _ => negb (mask r)) (A_ij bh)
              else A_ij in
  (fun bh => bsub (q_i bh) (matmul BN (A_ij bh) (rows_from (k_beta bh) l j)),
   fun bh => badd (o_i bh) (matmul BN (A_ij bh) (rows_from (v bh) l j))).

(** [o_i] when the loops of the block at [i_t * BM] are done. *)
Definition oracle_o_block (q k v k_beta o_intra : Tdata R) (l d_k BM BN : nat)
    (i_t : nat) : nat -> Block R :=
  let i := Z.of_nat (i_t * BM) in
  snd (fold_left
         (fun st mo => oracle_qo (fst mo) k v k_beta l d_k BN i st (snd mo))
         (scan_offsets BM BN i_t)
         (fun bh => rows_from (q bh) l i, fun bh => rows_from (o_intra bh) l i)).

(** [o] after the blocks [idx]. *)
Definition oracle_o (val : nat -> nat -> Block R) (l d_v BM : nat)
    (idx : list nat) (o : Tdata R) : Tdata R :=
  fold_left (fun o i_t => fun bh =>
               slice_assign (o bh) (l, d_v) (Z.of_nat (i_t * BM)) 0%Z BM d_v
                            (val i_t bh))
            idx o.

(** On the input [(k, beta)] the solver returns the correction matrices
    of the reference computation. *)
Definition solver_is_reference (solver : tensor R -> tensor R -> nat -> tensor R)
    (k beta : tensor R) (B H T : nat) : Prop :=
  forall bh t c, bh < B * H -> t < T -> c < 32 ->
    data (solver k beta 32) bh t c = data (reference_solver k beta 32) bh t c.

End Specification.

(** ** Properties of the log *)

(** Events that are work on the device. *)
Definition device_work (ev : event) : bool :=
  match ev with
  | Warn _ _ => false
  | SolverCall _ => true
  | Launch _ _ _ _ => true
  end.

(** The block sizes of an event are the ones [forward] fixes: chunks of
    [32] for the solver, the intra-chunk kernel, the key blocks of the scan
    and the copy of the diagonal blocks; query blocks of [128]. *)
Definition fixed_sizes (ev : event) : Prop :=
  match ev with
  | Warn _ _ => True
  | SolverCall c => c = 32
  | Launch K_chunk_transform_qk_fwd _ BT _ => BT = 32
  | Launch K_parallel_delta_rule_fwd _ BT BS => BT = 128 /\ BS = 32
  | Launch K_save_intra_chunk_attn _ BT _ => BT = 32
  end.

(** The log of a call on well-formed input that passes the checks. *)
Definition forward_log (B H T : nat) (output_attentions : bool) : list event :=
  [SolverCall 32;
   Launch K_chunk_transform_qk_fwd (cdiv T 32, B * H) 32 0;
   Launch K_parallel_delta_rule_fwd (cdiv T 128, B * H) 128 32]
  ++ (if output_attentions
      then [Launch K_save_intra_chunk_attn (cdiv T 32, B * H) 32 0] else []).

(** ** Integer instance and concrete inputs *)

#[export] Instance Z_scalar : Scalar Z := {|
  rO := 0%Z; rI := 1%Z;
  radd := Z.add; rmul := Z.mul; rsub := Z.sub; ropp := Z.opp;
  inv_sqrt := fun _ => 1%Z;
  uninit := 7%Z
|}.

(** The ring laws of the integers, for the operations of [Z_scalar]. *)
Definition Z_ring : @ring_theory Z rO rI radd rmul rsub ropp (@eq Z) := Zth.

(** A tensor of the given shape with the same value everywhere. *)
Definition const_tensor (sh : list nat) (x : Z) : tensor Z :=
  Tensor sh (fun _ _ _ => x).

(** One batch, one head, two time steps, one feature. *)
Definition ex_q : tensor Z := Tensor [1; 1; 2; 1] (fun _ t _ => 1 + Z.of_nat t)%Z.
Definition ex_k : tensor Z := Tensor [1; 1; 2; 1] (fun _ t _ => 2 + Z.of_nat t)%Z.
Definition ex_v : tensor Z := Tensor [1; 1; 2; 1] (fun _ t _ => 3 + Z.of_nat t)%Z.
Definition ex_beta : tensor Z := Tensor [1; 1; 2] (fun _ _ _ => 2%Z).

(** The same input with key, value and gate changed at time [1]. *)
Definition ex_k' : tensor Z :=
  Tensor [1; 1; 2; 1] (fun _ t _ => if Nat.eqb t 0 then 2%Z else 9%Z).
Definition ex_v' : tensor Z :=
  Tensor [1; 1; 2; 1] (fun _ t _ => if Nat.eqb t 0 then 3%Z else 8%Z).
Definition ex_beta' : tensor Z :=
  Tensor [1; 1; 2] (fun _ t _ => if Nat.eqb t 0 then 2%Z else 7%Z).

(** Queries and keys of width [129]. *)
Definition wide_q : tensor Z := const_tensor [1; 1; 2; 129] 1%Z.
Definition wide_k : tensor Z := const_tensor [1; 1; 2; 129] 1%Z.

(** One batch, one head, [128] time steps, one feature; every gate is [2]. *)
Definition cx_q : tensor Z := const_tensor [1; 1; 128; 1] 1%Z.
Definition cx_k : tensor Z := const_tensor [1; 1; 128; 1] 1%Z.
Definition cx_v : tensor Z := const_tensor [1; 1; 128; 1] 1%Z.
Definition cx_beta : tensor Z := const_tensor [1; 1; 128] 2%Z.

(** The same with every gate [1]. *)
Definition cx_ones : tensor Z := const_tensor [1; 1; 128] 1%Z.

(** One entry of the output of a call, if the call returns. *)
Definition output_at {X : Type} (r : exn + (tensor Z * X)) (bh t c : nat)
  : option Z :=
  match r with
  | inr (o, _) => Some (data o bh t c)
  | inl _ => None
  end.

(** ** The attention matrices of the engine and of the reference *)

Section AttentionEntries.
Context {R : Type} {ops : Scalar R}.

(** The state of the scanner of query chunk [i] when it reaches key block
    [n]: the blocks after [n] have been visited. *)
Definition scanner_before (Q' K' Ko Vm : Mat R) (gate : nat -> R) (O0 : Mat R)
    (T K BT BS i n : nat) : Block R * Block R :=
  fold_left (visit K' Ko Vm gate T K BT BS i)
            (rev (seq (n + 1) ((i + 1) * (BT / BS) - 1 - (n + 1))))
            (chunk_of Q' BT i, chunk_of O0 BT i).

(** The attention matrix the kernels leave, entry by entry: the local
    scores of the transformer inside a chunk, the scores of the running
    query against the corrected key of an earlier chunk, zero for a later
    chunk. *)
Definition attention_entry (q k v beta A : Tdata R) (scale : R)
    (T K BT BS : nat) : Tdata R :=
  fun bh tq tk =>
    if tq / BS =? tk / BS
    then intra_S q k v beta A scale T K BS bh tq (tk mod BS)
    else if tk / BS <? tq / BS
    then
      let Qr := fst (scanner_before (intra_Q q k v beta A scale T K BS bh)
                       (intra_K q k v beta A scale T K BS bh)
                       (k bh) (v bh) (fun t => beta bh t 0)
                       (intra_O q k v beta A scale T K BS bh)
                       T K BT BS (tq / BT) (tk / BS)) in
      sum_n K (fun c => Qr (tq mod BT) c
                        * intra_K q k v beta A scale T K BS bh tk c)%R
    else rO.

(** The scores the reference stores for the key block at [j], given the
    query rows it holds. *)
Definition oracle_scores (masked : bool) (k : Tdata R) (l d_k BN : nat) (i : Z)
    (q_i : nat -> Block R) (j : Z) : nat -> Block R :=
  let k_j := fun bh => rows_from (k bh) l j in
  let A_ij := fun bh => matmul_t d_k (q_i bh) (k_j bh) in
  let mask := fun r : nat => (j + Z.of_nat BN <=? i + Z.of_nat r)%Z in
  if masked
  then fun bh => masked_fill (fun r _ => negb (mask r)) (A_ij bh)
  else A_ij.

(** The attention tensor of the reference after the key blocks [offs] of
    the block of rows at [i]. *)
Fixpoint oracle_attn (k v k_beta : Tdata R) (l d_k BM BN : nat) (i : Z)
    (offs : list (bool * Z)) (st : (nat -> Block R) * (nat -> Block R))
    (A : Tdata R) : Tdata R :=
  match offs with
  | [] => A
  | mo :: rest =>
      oracle_attn k v k_beta l d_k BM BN i rest
        (oracle_qo (fst mo) k v k_beta l d_k BN i st (snd mo))
        (fun bh => slice_assign (A bh) (l, l) i (snd mo) BM BN
                     (oracle_scores (fst mo) k l d_k BN i (fst st) (snd mo) bh))
  end.

(** The attention tensor of the reference after the blocks of rows [idx]. *)
Definition oracle_attn_all (q k v k_beta o_intra : Tdata R) (l d_k BM BN : nat)
    (idx : list nat) (A : Tdata R) : Tdata R :=
  fold_left (fun A i_t =>
               oracle_attn k v k_beta l d_k BM BN (Z.of_nat (i_t * BM))
                 (scan_offsets BM BN i_t)
                 (fun bh => rows_from (q bh) l (Z.of_nat (i_t * BM)),
                  fun bh => rows_from (o_intra bh) l (Z.of_nat (i_t * BM))) A)
            idx A.

(** The copy of the chunk-local scores onto the diagonal blocks. *)
Definition oracle_diag (A_local : chunked R) (l BN : nat) (idx : list nat)
    (A : Tdata R) : Tdata R :=
  fold_left (fun A i => fun bh =>
               slice_assign (A bh) (l, l) (Z.of_nat (i * BN)) (Z.of_nat (i * BN))
                            BN BN (A_local bh i))
            idx A.

End AttentionEntries.

(** * Rotary position embeddings

    A shallow embedding of [fla/modules/rotary.py]: the reference
    [rotate_half] and [rotary_embedding_ref], the Triton kernel
    [rotary_embedding_kernel], the host function [rotary_embedding_fwdbwd]
    that launches it, and the autograd function [RotaryEmbeddingFunction]
    behind [rotary_embedding].

    The kernel addresses memory through raw pointers, so a tensor is a flat
    buffer read by offset, contiguous in the order of its shape ([input_guard]
    makes the arguments contiguous).  Index arithmetic is exact: the sizes are
    taken to fit the integer type of the kernel and the launch grid the limits
    of the device.  The autotuner is taken to run the kernel once.  The
    programs of a launch run one after the other, in the order of
    [grid_ids3].  Arithmetic is that of the ring [R], as for the delta rule:
    the casts [.to(tl.float32)] are the identity. *)

Inductive dtype : Type := float16 | bfloat16 | float32 | float64 | int32 | int64.

Definition dtype_eqb (a b : dtype) : bool :=
  match a, b with
  | float16, float16 | bfloat16, bfloat16 | float32, float32
  | float64, float64 | int32, int32 | int64, int64 => true
  | _, _ => false
  end.

(** [str(dtype)] *)
Definition dtype_str (a : dtype) : string :=
  match a with
  | float16 => "torch.float16"
  | bfloat16 => "torch.bfloat16"
  | float32 => "torch.float32"
  | float64 => "torch.float64"
  | int32 => "torch.int32"
  | int64 => "torch.int64"
  end.

(** [str(n)] for a size *)
Definition nat_str (n : nat) : string := NilEmpty.string_of_uint (Nat.to_uint n).

(** The exceptions of the rotary module. *)
Inductive rotary_exn : Type :=
| RotaryAssertionError (msg : string)
| RotaryValueError          (* unpacking a shape or a tuple of the wrong length *)
| RotaryIndexError          (* [shape[i]] past the rank *)
| RotaryZeroDivisionError   (* [triton.cdiv(x, 0)] *)
| RotaryRuntimeError        (* torch: sizes do not match *)
| RotaryUnmodelled.         (* the call is outside what this embedding covers *)

Definition rbind {A B} (m : rotary_exn + A) (f : A -> rotary_exn + B)
  : rotary_exn + B :=
  match m with inl e => inl e | inr a => f a end.

Definition rassert (b : bool) (msg : string) : rotary_exn + unit :=
  if b then inr tt else inl (RotaryAssertionError msg).

Declare Scope rotary_scope.
Delimit Scope rotary_scope with rotary.
Notation "x <- m ;; k" := (rbind m (fun x => k))
  (at level 61, m at next level, right associativity) : rotary_scope.
Notation "' p <- m ;; k" := (rbind m (fun x => match x with p => k end))
  (at level 61, p pattern, m at next level, right associativity) : rotary_scope.
Notation "m ;;; k" := (rbind m (fun _ => k))
  (at level 61, right associativity) : rotary_scope.

(** [a, b, c, d = x.shape] and [a, b = x.shape] *)
Definition runpack4 (s : list nat) : rotary_exn + (nat * nat * nat * nat) :=
  match s with
  | [a; b; c; d] => inr (a, b, c, d)
  | _ => inl RotaryValueError
  end.

Definition runpack2 (s : list nat) : rotary_exn + (nat * nat) :=
  match s with
  | [a; b] => inr (a, b)
  | _ => inl RotaryValueError
  end.

(** [x.shape[0]] and [x.shape[-1]] *)
Definition rshape_first (s : list nat) : rotary_exn + nat :=
  match s with d :: _ => inr d | [] => inl RotaryIndexError end.

Definition rshape_last (s : list nat) : rotary_exn + nat :=
  match rev s with d :: _ => inr d | [] => inl RotaryIndexError end.

(** [triton.cdiv(a, b)]: Python's [//] raises on a zero divisor. *)
Definition py_cdiv (a b : nat) : rotary_exn + nat :=
  if b =? 0 then inl RotaryZeroDivisionError else inr (cdiv a b).

(** Program identifiers of a three-dimensional launch grid. *)
Definition grid_ids3 (g : nat * nat * nat) : list (nat * nat * nat) :=
  list_prod (list_prod (seq 0 (fst (fst g))) (seq 0 (snd (fst g)))) (seq 0 (snd g)).

(** The lanes of a block of shape [(n, m)], in row-major order. *)
Definition lanes (n m : nat) : list (nat * nat) := list_prod (seq 0 n) (seq 0 m).

(** A tensor of integers: shape, dtype and the flat buffer. *)
Record itensor : Type := ITensor { ishape : list nat; idtype : dtype; imem : Z -> Z }.

(** [seqlen_offsets: Union[int, torch.Tensor]] *)
Inductive seqlen_offsets_t : Type :=
| OffsetInt (off : Z)
| OffsetTensor (offs : itensor).

Section Rotary.

Context {R : Type} {ops : Scalar R}.

(** A tensor of numbers: shape, dtype and the flat buffer. *)
Record ftensor : Type := FTensor { fshape : list nat; fdtype : dtype; fmem : Z -> R }.

(** The number of elements of a shape. *)
Definition numel (s : list nat) : nat := fold_right Nat.mul 1 s.

(** ** The reference *)

(** [rotate_half(x, interleaved)], for a tensor whose last axis has size
    [D]; the element [(p, d)] is at offset [p * D + d].
    Not interleaved: [x.chunk(2, dim=-1)] gives chunks of sizes [ceil(D / 2)]
    and the rest, one chunk only when [D = 1], and two empty ones when
    [D = 0].  Interleaved: [torch.stack] needs [x[..., ::2]] and
    [x[..., 1::2]] of the same size. *)
Definition rotate_half (x : ftensor) (interleaved : bool) : rotary_exn + ftensor :=
  match rev (fshape x) with
  | [] => inl (if interleaved then RotaryIndexError else RotaryRuntimeError)
  | D :: _ =>
      if negb interleaved then
        if D =? 1 then inl RotaryValueError
        else
          let h1 := (D + 1) / 2 in
          let n2 := D - h1 in
          inr (FTensor (fshape x) (fdtype x)
                 (fun a =>
                    let p := (a / Z.of_nat D)%Z in
                    let d := (a mod Z.of_nat D)%Z in
                    if (d <? Z.of_nat n2)%Z
                    then (- fmem x (p * Z.of_nat D + Z.of_nat h1 + d)%Z)%R
                    else fmem x (p * Z.of_nat D + (d - Z.of_nat n2))%Z))
      else
        if negb (D mod 2 =? 0) then inl RotaryRuntimeError
        else
          inr (FTensor (fshape x) (fdtype x)
                 (fun a =>
                    if (a mod 2 =? 0)%Z
                    then (- fmem x (a + 1)%Z)%R
                    else fmem x (a - 1)%Z))
  end.

(** [x[..., lo:hi]] for [lo <= hi <= D], as a contiguous tensor. *)
Definition narrow_last (x : ftensor) (lead : list nat) (D lo hi : nat) : ftensor :=
  let w := hi - lo in
  FTensor (lead ++ [w]) (fdtype x)
    (fun a => fmem x ((a / Z.of_nat w) * Z.of_nat D + Z.of_nat lo + a mod Z.of_nat w)%Z).

(** [rotary_embedding_ref(x, cos, sin, interleaved)].  The embedding covers
    [x] of shape [B, T, H, D] with [cos] and [sin] of shape [T, R]; other
    calls are [RotaryUnmodelled].  [repeat(cos, '... d -> ... 1 (2 d)')]
    reads [cos[t, j mod R]] at column [j], and ['... d -> ... 1 (d 2)'] reads
    [cos[t, j / 2]].  The dtype of the result is left as that of [x]. *)
Definition rotary_embedding_ref (x cos sin : ftensor) (interleaved : bool)
  : rotary_exn + ftensor :=
  (Rc <- rshape_last (fshape cos) ;;
   let ro_dim := Rc * 2 in
   D <- rshape_last (fshape x) ;;
   rassert (ro_dim <=? D) EmptyString ;;;
   match fshape x, fshape cos, fshape sin with
   | [B; T; H; _], [Tc; _], [Ts; Rs] =>
       if negb ((Tc =? T) && (Ts =? T) && (Rs =? Rc)) then inl RotaryUnmodelled
       else
         let x_ro := narrow_last x [B; T; H] D 0 ro_dim in
         rot <- rotate_half x_ro interleaved ;;
         let rep := fun (tbl : ftensor) (t j : Z) =>
           fmem tbl (t * Z.of_nat Rc
                     + (if interleaved then j / 2 else j mod Z.of_nat Rc))%Z in
         inr (FTensor (fshape x) (fdtype x)
                (fun a =>
                   let p := (a / Z.of_nat D)%Z in
                   let d := (a mod Z.of_nat D)%Z in
                   let t := ((p / Z.of_nat H) mod Z.of_nat T)%Z in
                   if (d <? Z.of_nat ro_dim)%Z
                   then (fmem x_ro (p * Z.of_nat ro_dim + d)%Z * rep cos t d
                         + fmem rot (p * Z.of_nat ro_dim + d)%Z * rep sin t d)%R
                   else fmem x a))
   | _, _, _ => inl RotaryUnmodelled
   end)%rotary.

(** ** The kernel *)

(** [tl.load(p, mask=mask, other=other)] and [tl.store(p, val, mask=mask)]
    on a block of pointers.  The store writes lane after lane; the lanes of
    one store of the kernel have different addresses. *)
Definition tl_load_masked (mem : Z -> R) (p : nat -> nat -> Z)
    (mask : nat -> nat -> bool) (other : R) : Block R :=
  fun a b => if mask a b then mem (p a b) else other.

Definition store_lane (p : nat -> nat -> Z) (val : Block R)
    (mask : nat -> nat -> bool) (mem : Z -> R) (l : nat * nat) : Z -> R :=
  if mask (fst l) (snd l)
  then fun a => if (a =? p (fst l) (snd l))%Z then val (fst l) (snd l) else mem a
  else mem.

Definition tl_store_masked (n m : nat) (p : nat -> nat -> Z) (val : Block R)
    (mask : nat -> nat -> bool) (mem : Z -> R) : Z -> R :=
  fold_left (store_lane p val mask) (lanes n m) mem.

(** The body of a program of [rotary_embedding_kernel], after the first
    lines have told it the sequence [i_n] it works on, the block [i_t] of
    positions of that sequence, the length [T] of the sequence and [base],
    the offset that the source adds to the pointers [x] and [y]: the
    features of the head of the program at the first position of the
    sequence.  [x] is the buffer the program loads from and [y] the buffer
    it stores to; the result is [y] after the stores. *)
Definition rotary_rotate_block
    (cos sin : Z -> R) (seq_offsets : Z + (Z -> Z))
    (i_n i_t T base : Z) (H D Rh TR BT BD : nat) (INTERLEAVED CONJUGATE : bool)
    (x y : Z -> R) : Z -> R :=
  let HD := (Z.of_nat H * Z.of_nat D)%Z in
  if (T <=? i_t * Z.of_nat BT)%Z then y
  else
    let o_t := fun a : nat => (i_t * Z.of_nat BT + Z.of_nat a)%Z in
    let o_cs := fun a : nat =>
      match seq_offsets with
      | inl off => (o_t a + off)%Z
      | inr offs => (o_t a + offs i_n)%Z
      end in
    let m_t := fun a : nat =>
      ((0 <=? o_t a) && (o_t a <? T) && (0 <=? o_cs a) && (o_cs a <? Z.of_nat TR))%Z in
    if negb INTERLEAVED then
      let p_x := fun a b : nat => (base + o_t a * HD + Z.of_nat b)%Z in
      let p_cos := fun a b : nat => (o_cs a * Z.of_nat Rh + Z.of_nat b)%Z in
      let mask := fun a b : nat => m_t a && (b <? Rh) in
      let b_cos := tl_load_masked cos p_cos mask rI in
      let b_sin := tl_load_masked sin p_cos mask rO in
      let b_x0 := tl_load_masked x p_x mask rO in
      let b_x1 := tl_load_masked x (fun a b => p_x a b + Z.of_nat Rh)%Z mask rO in
      let b_sin := if CONJUGATE then (fun a b => - b_sin a b)%R else b_sin in
      let b_o0 : Block R := fun a b => (b_x0 a b * b_cos a b - b_x1 a b * b_sin a b)%R in
      let b_o1 : Block R := fun a b => (b_x0 a b * b_sin a b + b_x1 a b * b_cos a b)%R in
      let y := tl_store_masked BT (BD / 2) p_x b_o0 mask y in
      tl_store_masked BT (BD / 2) (fun a b => p_x a b + Z.of_nat Rh)%Z b_o1 mask y
    else
      let o_d_swap := fun b : nat =>
        (Z.of_nat b + ((Z.of_nat b + 1) mod 2) * 2 - 1)%Z in
      let o_d_repeat := fun b : nat => b / 2 in
      let p_x0 := fun a b : nat => (base + o_t a * HD + Z.of_nat b)%Z in
      let p_x1 := fun a b : nat => (base + o_t a * HD + o_d_swap b)%Z in
      let p_cos := fun a b : nat =>
        (o_cs a * Z.of_nat Rh + Z.of_nat (o_d_repeat b))%Z in
      let mask := fun a b : nat => m_t a && (o_d_repeat b <? Rh) in
      let b_cos := tl_load_masked cos p_cos mask rI in
      let b_sin := tl_load_masked sin p_cos mask rO in
      let b_x0 := tl_load_masked x p_x0 mask rO in
      let b_x1 := tl_load_masked x p_x1 mask rO in
      let b_sin := if CONJUGATE then (fun a b => - b_sin a b)%R else b_sin in
      let b_o0 : Block R := fun a b => (b_x0 a b * b_cos a b)%R in
      let b_o1 : Block R := fun a b => (b_x1 a b * b_sin a b)%R in
      let b_y : Block R := fun a b =>
        if b mod 2 =? 0 then (b_o0 a b - b_o1 a b)%R else (b_o0 a b + b_o1 a b)%R in
      tl_store_masked BT BD p_x0 b_y mask y.

(** One program of [rotary_embedding_kernel]: the first lines, then the
    body.  With [inplace] the host passes the same buffer for [x] and [y].
    [IS_VARLEN] is [cu_seqlens is not None], and [IS_SEQLEN_OFFSETS_TENSOR]
    tells an offset tensor from an integer: [varlen] and [seq_offsets] carry
    both the flag and the argument. *)
Definition rotary_embedding_kernel
    (cos sin : Z -> R) (varlen : option ((Z -> Z) * (Z -> Z)))
    (seq_offsets : Z + (Z -> Z))
    (T : Z) (B H D Rh TR BT BD : nat) (INTERLEAVED CONJUGATE : bool)
    (i_t i_b i_h : nat) (x y : Z -> R) : Z -> R :=
  let HD := (Z.of_nat H * Z.of_nat D)%Z in
  let '(i_n, i_t, T, base) :=
    match varlen with
    | Some (cu_seqlens, chunk_indices) =>
        let i_n := chunk_indices (Z.of_nat i_t * 2)%Z in
        let i_t := chunk_indices (Z.of_nat i_t * 2 + 1)%Z in
        let bos := cu_seqlens i_n in
        let eos := cu_seqlens (i_n + 1)%Z in
        (i_n, i_t, (eos - bos)%Z, (bos * HD + Z.of_nat i_h * Z.of_nat D)%Z)
    | None =>
        let i_n := Z.of_nat i_b in
        (i_n, Z.of_nat i_t, T, (i_n * T * HD + Z.of_nat i_h * Z.of_nat D)%Z)
    end in
  rotary_rotate_block cos sin seq_offsets i_n i_t T base H D Rh TR BT BD
    INTERLEAVED CONJUGATE x y.

(** ** The host function *)

(** [get_multiprocessor_count(x.device.index)] of [fla.utils] and
    [prepare_chunk_indices(cu_seqlens, BT)] of [fla.ops.utils]: their code
    is not part of the inspected sources.  The first is the number of
    multiprocessors of the device, the second returns an integer tensor of
    shape [NT, 2]. *)
Variable get_multiprocessor_count : nat.
Variable prepare_chunk_indices : itensor -> nat -> itensor.

(** [y = torch.empty_like(x)] followed by [y[..., R2:].copy_(x[..., R2:])]. *)
Definition copy_tail (x : Z -> R) (D R2 : nat) : Z -> R :=
  fun a => if (Z.of_nat R2 <=? a mod Z.of_nat D)%Z then x a else uninit.

(** The [seq_offsets] argument of the kernel: the integer, or the buffer of
    the tensor. *)
Definition offsets_arg (seqlen_offsets : seqlen_offsets_t) : Z + (Z -> Z) :=
  match seqlen_offsets with
  | OffsetInt off => inl off
  | OffsetTensor offs => inr (imem offs)
  end.

(** [rotary_embedding_fwdbwd]; [seqlen_offsets], [cu_seqlens],
    [interleaved], [inplace] and [conjugate] default to [0], [None],
    [False], [False] and [False].  With [inplace] the result is the buffer
    of [x] after the launch. *)
Definition rotary_embedding_fwdbwd (x cos sin : ftensor)
    (seqlen_offsets : seqlen_offsets_t) (cu_seqlens : option itensor)
    (interleaved inplace conjugate : bool) : rotary_exn + ftensor :=
  (let is_varlen := match cu_seqlens with Some _ => true | None => false end in
   ' (B, T, H, D) <- runpack4 (fshape x) ;;
   N <- match cu_seqlens with
        | None => inr (Z.of_nat B)
        | Some cu => n <- rshape_first (ishape cu) ;; inr (Z.of_nat n - 1)%Z
        end ;;
   ' (TR, Rh) <- runpack2 (fshape cos) ;;
   let R2 := Rh * 2 in
   rassert (D <=? 256) "Only support D <= 256" ;;;
   rassert (T <=? TR)
     ("TR must be >= T, got " ++ nat_str TR ++ " and " ++ nat_str T)%string ;;;
   rassert (dtype_eqb (fdtype cos) (fdtype sin))
     ("cos and sin must have the same dtype, got " ++ dtype_str (fdtype cos)
      ++ " and " ++ dtype_str (fdtype sin))%string ;;;
   rassert (dtype_eqb (fdtype x) (fdtype cos))
     ("Input and cos/sin must have the same dtype, got " ++ dtype_str (fdtype x)
      ++ " and " ++ dtype_str (fdtype cos))%string ;;;
   match seqlen_offsets with
   | OffsetTensor offs =>
       rassert (match ishape offs with
                | [n] => (Z.of_nat n =? N)%Z
                | _ => false
                end) EmptyString ;;;
       rassert (dtype_eqb (idtype offs) int32 || dtype_eqb (idtype offs) int64)
               EmptyString
   | OffsetInt off => rassert (off + Z.of_nat T <=? Z.of_nat TR)%Z EmptyString
   end ;;;
   let y := if negb inplace then (fun _ : Z => uninit) else fmem x in
   let y := if (R2 <? D) && negb inplace then copy_tail (fmem x) D R2 else y in
   let BD := next_power_of_2 R2 in
   n_sm <- py_cdiv T get_multiprocessor_count ;;
   let BT := Nat.min 128 (next_power_of_2 n_sm) in
   let chunk_indices :=
     match cu_seqlens with
     | Some cu => Some (prepare_chunk_indices cu BT)
     | None => None
     end in
   NT <- match chunk_indices with
         | Some ci => rshape_first (ishape ci)
         | None => py_cdiv T BT
         end ;;
   let grid := (NT, B, H) in
   let varlen :=
     match cu_seqlens, chunk_indices with
     | Some cu, Some ci => Some (imem cu, imem ci)
     | _, _ => None
     end in
   let seq_offsets := offsets_arg seqlen_offsets in
   let program := fun (id : nat * nat * nat) (x y : Z -> R) =>
     rotary_embedding_kernel (fmem cos) (fmem sin) varlen seq_offsets
       (Z.of_nat T) B H D Rh TR BT BD interleaved conjugate
       (fst (fst id)) (snd (fst id)) (snd id) x y in
   let y :=
     if inplace
     then fold_left (fun m id => program id m m) (grid_ids3 grid) y
     else fold_left (fun y id => program id (fmem x) y) (grid_ids3 grid) y in
   inr (FTensor (fshape x) (fdtype x) y))%rotary.

(** ** The autograd function *)

(** What [forward] leaves in [ctx] for [backward]. *)
Record rotary_ctx : Type := RotaryCtx {
  saved_tensors : ftensor * ftensor * option itensor * option itensor;
  ctx_seqlen_offsets : option Z;
  ctx_interleaved : bool;
  ctx_inplace : bool
}.

(** [RotaryEmbeddingFunction.forward] *)
Definition rotary_forward (x cos sin : ftensor) (interleaved inplace : bool)
    (seqlen_offsets : seqlen_offsets_t) (cu_seqlens : option itensor)
  : rotary_exn + (rotary_ctx * ftensor) :=
  (y <- rotary_embedding_fwdbwd x cos sin seqlen_offsets cu_seqlens
          interleaved inplace false ;;
   let ctx :=
     match seqlen_offsets with
     | OffsetInt off => RotaryCtx (cos, sin, cu_seqlens, None) (Some off)
                          interleaved inplace
     | OffsetTensor offs => RotaryCtx (cos, sin, cu_seqlens, Some offs) None
                              interleaved inplace
     end in
   inr (ctx, y))%rotary.

(** [RotaryEmbeddingFunction.backward]: the gradient of [x]; the other
    seven entries of the result are [None].  Unpacking [ctx.saved_tensors]
    into the wrong number of names raises. *)
Definition rotary_backward (ctx : rotary_ctx) (do : ftensor)
  : rotary_exn + ftensor :=
  let '(cos, sin, cu_seqlens, saved_offsets) := saved_tensors ctx in
  (seqlen_offsets <-
     match ctx_seqlen_offsets ctx, saved_offsets with
     | None, Some offs => inr (OffsetTensor offs)
     | Some off, None => inr (OffsetInt off)
     | _, _ => inl RotaryValueError
     end ;;
   rotary_embedding_fwdbwd do cos sin seqlen_offsets cu_seqlens
     (ctx_interleaved ctx) (ctx_inplace ctx) true)%rotary.

(** [rotary_embedding]: [RotaryEmbeddingFunction.apply]. *)
Definition rotary_embedding (x cos sin : ftensor) (interleaved inplace : bool)
    (seqlen_offsets : seqlen_offsets_t) (cu_seqlens : option itensor)
  : rotary_exn + ftensor :=
  (' (_, y) <- rotary_forward x cos sin interleaved inplace seqlen_offsets
                 cu_seqlens ;;
   inr y)%rotary.

(** The offset of feature [d] of head [h] at position [p] of a contiguous
    tensor of shape [B, T, H, D], the positions counted through the batch;
    and the offset of the element [(b, t, h, d)], which is at position
    [b * T + t]. *)
Definition pos_offset (H D p h d : nat) : Z := Z.of_nat ((p * H + h) * D + d).

Definition flat (T H D b t h d : nat) : Z := pos_offset H D (b * T + t) h d.

(** The shift of the positions of sequence [i_b] into the tables, as the
    kernel reads it, and whether the row of the tables for position [t]
    exists. *)
Definition seq_offset (seq_offsets : Z + (Z -> Z)) (i_b : nat) : Z :=
  match seq_offsets with
  | inl off => off
  | inr offs => offs (Z.of_nat i_b)
  end.

Definition table_ok (seq_offsets : Z + (Z -> Z)) (TR i_b t : nat) : bool :=
  ((0 <=? Z.of_nat t + seq_offset seq_offsets i_b)
   && (Z.of_nat t + seq_offset seq_offsets i_b <? Z.of_nat TR))%Z.

(** The rotation of the pair of features that holds feature [d]: features
    [d] and [d + R] when [d < R] (or [d - R] and [d]) in the layout of
    GPT-NeoX, features [d] and [d + 1] for an even [d] (or [d - 1] and [d])
    when interleaved.  [row] is the offset of the features of the position
    and [tc] the row of the tables. *)
Definition rotate_pair (x cos sin : Z -> R) (interleaved conjugate : bool)
    (Rh : nat) (row tc : Z) (d : nat) : R :=
  let c := fun j : nat => cos (tc * Z.of_nat Rh + Z.of_nat j)%Z in
  let s := fun j : nat =>
    if conjugate then (- sin (tc * Z.of_nat Rh + Z.of_nat j)%Z)%R
    else sin (tc * Z.of_nat Rh + Z.of_nat j)%Z in
  let xd := fun j : nat => x (row + Z.of_nat j)%Z in
  if negb interleaved then
    if d <? Rh
    then (xd d * c d - xd (d + Rh)%nat * s d)%R
    else (xd (d - Rh)%nat * s (d - Rh)%nat + xd d * c (d - Rh)%nat)%R
  else
    if d mod 2 =? 0
    then (xd d * c (d / 2)%nat - xd (d + 1)%nat * s (d / 2)%nat)%R
    else (xd d * c (d / 2)%nat + xd (d - 1)%nat * s (d / 2)%nat)%R.

End Rotary.

Arguments ftensor : clear implicits.
Arguments rotary_ctx : clear implicits.

(** ** Further concrete inputs *)

(** The queries of [ex_q] changed at time [1]. *)
Definition ex_q' : tensor Z :=
  Tensor [1; 1; 2; 1] (fun _ t _ => if Nat.eqb t 0 then 1%Z else 5%Z).

(** Twice the values of [ex_v] plus the values of [ex_v']. *)
Definition ex_v12 : tensor Z :=
  Tensor [1; 1; 2; 1]
    (fun _ t _ => 2 * (3 + Z.of_nat t) + (if Nat.eqb t 0 then 3 else 8))%Z.

(** Every gate [0]. *)
Definition ex_zero : tensor Z := const_tensor [1; 1; 2] 0%Z.

(** The values of [cx_v] times the gates of [cx_beta]. *)
Definition cx_gated : tensor Z := const_tensor [1; 1; 128; 1] 2%Z.

(** One sequence of two positions, one head, two features; tables of two
    rows for one pair of features, the rotation by no angle at position [0]
    and by a right angle at position [1]. *)
Definition rot_x : ftensor Z := FTensor [1; 2; 1; 2] float32 (fun a => a + 1)%Z.
Definition rot_cos : ftensor Z :=
  FTensor [2; 1] float32 (fun a => if (a =? 0)%Z then 1%Z else 0%Z).
Definition rot_sin : ftensor Z :=
  FTensor [2; 1] float32 (fun a => if (a =? 0)%Z then 0%Z else 1%Z).

(** A batch of one sequence of no position. *)
Definition rot_empty : ftensor Z := FTensor [1; 0; 1; 2] float32 (fun _ => 0%Z).

(** Some value for the chunk indices, which calls without [cu_seqlens] do
    not read. *)
Definition no_chunk_indices : itensor -> nat -> itensor := fun cu _ => cu.

(** Two sequences of one position each, packed in [rot_x]: the starts
    [0, 1, 2], and the blocks of one position, [(0, 0)] and [(1, 0)]. *)
Definition rot_cu : itensor := ITensor [3] int32 (fun a => a).
Definition rot_chunks : itensor -> nat -> itensor :=
  fun _ _ => ITensor [2; 2] int32 (fun a => if (a =? 2)%Z then 1%Z else 0%Z).

(** * Theory *)

Ltac bool_cases :=
  repeat match goal with
  | |- context [Nat.ltb ?a ?b] => destruct (Nat.ltb_spec a b)
  | |- context [Nat.leb ?a ?b] => destruct (Nat.leb_spec a b)
  | |- context [Nat.eqb ?a ?b] => destruct (Nat.eqb_spec a b)
  | |- context [Z.ltb ?a ?b] => destruct (Z.ltb_spec a b)
  | |- context [Z.leb ?a ?b] => destruct (Z.leb_spec a b)
  end; cbn [andb orb negb].

Section Theory.

Context {R : Type} {ops : Scalar R}.
Hypothesis Rth : ring_theory rO rI radd rmul rsub ropp (@eq R).
Add Ring Rring : Rth.

Variable fwd_prepare_T : tensor R -> tensor R -> nat -> tensor R.

(** ** Sums *)

Lemma sum_n_ext (n : nat) (f g : nat -> R) :
  (forall i, i < n -> f i = g i) -> sum_n n f = sum_n n g.
Proof.
  induction n as [|n IH]; intros E; cbn [sum_n]; [reflexivity|].
  rewrite IH by (intros; apply E; lia). rewrite E by lia. reflexivity.
Qed.

Lemma sum_n_zero (n : nat) (f : nat -> R) :
  (forall i, i < n -> f i = rO) -> sum_n n f = rO.
Proof.
  induction n as [|n IH]; intros E; cbn [sum_n]; [reflexivity|].
  rewrite IH by (intros; apply E; lia). rewrite E by lia. ring.
Qed.

(** Padding with zeros does not change a sum. *)
Lemma sum_n_pad (n m : nat) (f : nat -> R) :
  n <= m -> (forall i, n <= i -> i < m -> f i = rO) -> sum_n m f = sum_n n f.
Proof.
  intros Hnm. induction Hnm as [|m Hnm IH]; intros E; [reflexivity|].
  cbn [sum_n]. rewrite IH by (intros; apply E; lia).
  rewrite E by lia. ring.
Qed.

(** ** Loads and stores at natural offsets *)

Lemma in_bounds_nat (n a : nat) : in_bounds n (Z.of_nat a) = (a <? n).
Proof. unfold in_bounds. bool_cases; try reflexivity; lia. Qed.

Lemma tl_load_nat (x : Mat R) (s0 s1 a b : nat) (bs : nat * nat) (i j : nat) :
  tl_load (make_block_ptr x (s0, s1) (Z.of_nat a, Z.of_nat b) bs) i j
  = if (a + i <? s0) && (b + j <? s1) then x (a + i) (b + j) else rO.
Proof.
  unfold tl_load; cbn [offsets ptr_shape base fst snd].
  rewrite <- !Nat2Z.inj_add, !in_bounds_nat, !Nat2Z.id. reflexivity.
Qed.

Lemma tl_store_nat (y : Mat R) (s0 s1 a b BR BC : nat) (blk : Block R) (r c : nat) :
  tl_store (make_block_ptr y (s0, s1) (Z.of_nat a, Z.of_nat b) (BR, BC)) blk r c
  = if (a <=? r) && (r <? a + BR) && (b <=? c) && (c <? b + BC)
       && (r <? s0) && (c <? s1)
    then blk (r - a) (c - b) else y r c.
Proof.
  unfold tl_store, in_bounds; cbn [offsets ptr_shape block_shape base fst snd].
  bool_cases; try reflexivity; try lia.
  rewrite <- !Nat2Z.inj_sub, !Nat2Z.id by lia. reflexivity.
Qed.

(** ** Errors raised before any device work *)

(** C7: when the key feature width exceeds 128, [forward] raises the
    assertion error and leaves the log as it found it: neither the solver
    nor a kernel has been started, so no output has been written.  The same
    holds through the public entry point, whose log holds no device work
    (at most the layout warning). *)
Theorem forward_rejects_wide_keys (q k v beta : tensor R) (scale : option R)
    (output_attentions : bool) (B H T K V : nat) (tr : list event) :
  shape q = [B; H; T; K] -> shape k = [B; H; T; K] -> shape v = [B; H; T; V] ->
  128 < K ->
  forward fwd_prepare_T q k v beta scale output_attentions tr
    = (tr, inl (AssertionError "The maximum supported sequence length is 128."))
  /\ snd (parallel_delta_rule fwd_prepare_T q k v beta scale output_attentions false [])
     = inl (AssertionError "The maximum supported sequence length is 128.")
  /\ existsb device_work
       (fst (parallel_delta_rule fwd_prepare_T q k v beta scale output_attentions false []))
     = false.
Proof.
  intros Hq Hk Hv HK.
  assert (Hf : forall tr0, forward fwd_prepare_T q k v beta scale output_attentions tr0
    = (tr0, inl (AssertionError "The maximum supported sequence length is 128."))).
  { intro tr0. unfold forward, bind, lift, py_assert.
    rewrite Hq, Hk, Hv. cbn [shape_last rev app unpack4].
    destruct (K <=? 128) eqn:E; [apply Nat.leb_le in E; lia | reflexivity]. }
  split; [apply Hf|].
  unfold parallel_delta_rule, bind, lift. rewrite Hq.
  cbn [negb shape_at nth_error andb].
  destruct (H <? T); cbn [emit ret]; rewrite Hf; split; reflexivity.
Qed.

(** C8: with [head_first=True] the entry point raises, whatever the other
    arguments are, and the log is untouched: [forward] has not run. *)
Theorem head_first_always_raises (q k v beta : tensor R) (scale : option R)
    (output_attentions : bool) (tr : list event) :
  exists msg,
    parallel_delta_rule fwd_prepare_T q k v beta scale output_attentions true tr
      = (tr, inl (DeprecationWarning msg)).
Proof. eexists. reflexivity. Qed.

(** C9: the backward pass raises [NotImplementedError] for every gradient
    argument and starts no device work; it returns no gradient. *)
Theorem backward_not_implemented (do : tensor R) (d_attn : option (tensor R))
    (tr : list event) :
  @backward R do d_attn tr
    = (tr, inl (NotImplementedError "Backward pass is not implemented. Stay tuned!")).
Proof. reflexivity. Qed.

(** ** Launches of programs that store one block each *)

Lemma block_write_read (T C BT BC : nat) (val : nat -> nat -> Block R)
    (i_t i_bh : nat) (y : Tdata R) (bh t c : nat) :
  0 < BT -> t < T -> c < C -> C <= BC ->
  block_write T C BT BC val i_t i_bh y bh t c
  = if (i_t =? t / BT) && (i_bh =? bh) then val i_t i_bh (t mod BT) c else y bh t c.
Proof.
  intros HBT Ht Hc HC. unfold block_write, upd.
  destruct (Nat.eqb_spec bh i_bh) as [->|Hbh].
  - change 0%Z with (Z.of_nat 0). rewrite tl_store_nat.
    rewrite Nat.eqb_refl, andb_true_r.
    pose proof (Nat.div_mod_eq t BT) as E.
    pose proof (Nat.mod_upper_bound t BT ltac:(lia)) as Hm.
    destruct (Nat.eqb_spec i_t (t / BT)) as [->|Hne].
    + bool_cases; try lia; try nia.
      f_equal; [nia | lia].
    + bool_cases; try reflexivity.
      exfalso. apply Hne. apply Nat.div_unique with (r := t - i_t * BT); lia.
  - destruct (Nat.eqb_spec i_bh bh); [congruence|]. rewrite andb_false_r. reflexivity.
Qed.

Lemma block_write_outside (T C BT BC : nat) (val : nat -> nat -> Block R)
    (i_t i_bh : nat) (y : Tdata R) (bh t c : nat) :
  T <= t \/ C <= c ->
  block_write T C BT BC val i_t i_bh y bh t c = y bh t c.
Proof.
  intros Hout. unfold block_write, upd.
  destruct (Nat.eqb_spec bh i_bh) as [->|Hbh]; [|reflexivity].
  change 0%Z with (Z.of_nat 0). rewrite tl_store_nat.
  bool_cases; try reflexivity; lia.
Qed.

Lemma writes_read (T C BT BC : nat) (val : nat -> nat -> Block R)
    (ids : list (nat * nat)) (y : Tdata R) (bh t c : nat) :
  0 < BT -> t < T -> c < C -> C <= BC ->
  writes T C BT BC val ids y bh t c
  = if existsb (fun id => (fst id =? t / BT) && (snd id =? bh)) ids
    then val (t / BT) bh (t mod BT) c else y bh t c.
Proof.
  intros HBT Ht Hc HC. unfold writes. revert y.
  induction ids as [|[i_t i_bh] ids IH]; intro y; cbn [fold_left existsb fst snd];
    [reflexivity|].
  rewrite IH. destruct (existsb _ ids).
  - rewrite orb_true_r. reflexivity.
  - rewrite orb_false_r, block_write_read by assumption.
    destruct (Nat.eqb_spec i_t (t / BT)) as [->|]; [|reflexivity].
    destruct (Nat.eqb_spec i_bh bh) as [->|]; reflexivity.
Qed.

Lemma writes_outside (T C BT BC : nat) (val : nat -> nat -> Block R)
    (ids : list (nat * nat)) (y : Tdata R) (bh t c : nat) :
  T <= t \/ C <= c ->
  writes T C BT BC val ids y bh t c = y bh t c.
Proof.
  intros Hout. unfold writes. revert y.
  induction ids as [|[i_t i_bh] ids IH]; intro y; cbn [fold_left fst snd];
    [reflexivity|].
  rewrite IH. apply block_write_outside; assumption.
Qed.

Lemma grid_ids_has (n0 n1 a b : nat) :
  existsb (fun id => (fst id =? a) && (snd id =? b)) (grid_ids (n0, n1))
  = (a <? n0) && (b <? n1).
Proof.
  apply eq_true_iff_eq. rewrite existsb_exists, andb_true_iff, !Nat.ltb_lt.
  unfold grid_ids; cbn [fst snd]. split.
  - intros [[x y] [Hin Heq]]. apply in_prod_iff in Hin.
    rewrite !in_seq in Hin. cbn [fst snd] in Heq.
    apply andb_true_iff in Heq. rewrite !Nat.eqb_eq in Heq. lia.
  - intros [Ha Hb]. exists (a, b). split.
    + apply in_prod_iff. rewrite !in_seq. lia.
    + cbn [fst snd]. rewrite !Nat.eqb_refl. reflexivity.
Qed.

(** After a launch over a grid that covers the tensor, every entry of the
    tensor holds what the program of its block stored. *)
Lemma launch_writes_read (T C BT BC : nat) (val : nat -> nat -> Block R)
    (NBH : nat) (y : Tdata R) (bh t c : nat) :
  0 < BT -> t < T -> c < C -> C <= BC -> bh < NBH ->
  writes T C BT BC val (grid_ids (cdiv T BT, NBH)) y bh t c
  = val (t / BT) bh (t mod BT) c.
Proof.
  intros HBT Ht Hc HC Hbh. rewrite writes_read, grid_ids_has by assumption.
  assert (t / BT < cdiv T BT).
  { unfold cdiv. apply Nat.Div0.div_lt_upper_bound.
    pose proof (Nat.div_mod_eq (T + BT - 1) BT).
    pose proof (Nat.mod_upper_bound (T + BT - 1) BT ltac:(lia)). nia. }
  bool_cases; try lia. reflexivity.
Qed.

(** ** The intra-chunk kernel computes the transformer of the specification *)

Lemma launch_transform (g : nat * nat) (q k v beta A : Tdata R) (scale : R)
    (T K V BK BV BT : nat) (oa : bool) (o qn kn : Tdata R) (al : option (Tdata R)) :
  launch g (chunk_transform_qk_fwd_kernel q k v beta A scale T K V BK BV BT oa)
         (o, qn, kn, al)
  = let val := transform_blocks q k v beta A scale T K V BK BV BT in
    (writes T V BT BV (fun a b => fst (fst (fst (val a b)))) (grid_ids g) o,
     writes T K BT BK (fun a b => snd (fst (fst (val a b)))) (grid_ids g) qn,
     writes T K BT BK (fun a b => snd (fst (val a b))) (grid_ids g) kn,
     if oa then option_map (writes T BT BT BT (fun a b => snd (val a b)) (grid_ids g)) al
     else al).
Proof.
  unfold launch, writes. generalize (grid_ids g) as ids. intro ids.
  revert o qn kn al.
  induction ids as [|[i_t i_bh] ids IH]; intros o qn kn al; cbn [fold_left fst snd].
  - destruct oa, al; reflexivity.
  - match goal with
    | |- fold_left _ _ ?st = _ =>
        change st with
          (block_write T V BT BV
             (fun a b => fst (fst (fst (transform_blocks q k v beta A scale T K V BK BV BT a b))))
             i_t i_bh o,
           block_write T K BT BK
             (fun a b => snd (fst (fst (transform_blocks q k v beta A scale T K V BK BV BT a b))))
             i_t i_bh qn,
           block_write T K BT BK
             (fun a b => snd (fst (transform_blocks q k v beta A scale T K V BK BV BT a b)))
             i_t i_bh kn,
           if oa
           then option_map
                  (block_write T BT BT BT
                     (fun a b => snd (transform_blocks q k v beta A scale T K V BK BV BT a b))
                     i_t i_bh) al
           else al)
    end.
    rewrite IH. cbv zeta. destruct oa, al; reflexivity.
Qed.

Lemma load_chunk (x : Mat R) (T C BT i_t : nat) (bs : nat * nat) (r c : nat) :
  tl_load (make_block_ptr x (T, C) (Z.of_nat (i_t * BT), 0%Z) bs) r c
  = if (r <? T - i_t * BT) && (c <? C) then chunk_of x BT i_t r c else rO.
Proof.
  change 0%Z with (Z.of_nat 0). rewrite tl_load_nat. unfold chunk_of.
  bool_cases; try reflexivity; lia.
Qed.

Lemma dot_pad (n N : nat) (f g : nat -> R) :
  n <= N -> (forall m, n <= m -> m < N -> f m = rO \/ g m = rO) ->
  sum_n N (fun m => f m * g m)%R = sum_n n (fun m => f m * g m)%R.
Proof.
  intros Hn Hz. apply sum_n_pad; [assumption|].
  intros m H1 H2. destruct (Hz m H1 H2) as [E|E]; rewrite E; ring.
Qed.

Lemma dot_zero (N : nat) (f g : nat -> R) :
  (forall m, m < N -> f m = rO \/ g m = rO) ->
  sum_n N (fun m => f m * g m)%R = rO.
Proof.
  intros Hz. apply sum_n_zero. intros m Hm. destruct (Hz m Hm) as [E|E]; rewrite E; ring.
Qed.

Section TransformBlocks.

Variables (q k v beta A : Tdata R) (scale : R) (T K V BK BV BT : nat).
Variables (i_t i_bh : nat).
Hypothesis HK : K <= BK.
Hypothesis HV : V <= BV.

Let n := chunk_rows T BT i_t.
Let Q := chunk_of (q i_bh) BT i_t.
Let Kc := chunk_of (k i_bh) BT i_t.
Let Vc := chunk_of (v i_bh) BT i_t.
Let Tm := chunk_of (A i_bh) BT i_t.
Let gate := fun r => beta i_bh (i_t * BT + r) 0.
Let spec := intra_chunk n K Q Kc Vc gate Tm scale.
Let blocks := transform_blocks q k v beta A scale T K V BK BV BT i_t i_bh.

Let row0 := Z.of_nat (i_t * BT).
Let b_q := bscale (tl_load (make_block_ptr (q i_bh) (T, K) (row0, 0%Z) (BT, BK))) scale.
Let b_k := tl_load (make_block_ptr (k i_bh) (T, K) (row0, 0%Z) (BT, BK)).
Let b_v := tl_load (make_block_ptr (v i_bh) (T, V) (row0, 0%Z) (BT, BV)).
Let b_T := tl_load (make_block_ptr (A i_bh) (T, BT) (row0, 0%Z) (BT, BT)).
Let b_qk := tl_where (fun i j => j <=? i) (tl_dot BK b_q (tl_trans b_k)).
Let b_kk := tl_where (fun i j => j <? i) (tl_dot BK b_k (tl_trans b_k)).
Let b_k_beta := brow_scale b_k (tl_load (make_block_ptr1 (beta i_bh) T row0 BT)).
Let b_qkT := tl_dot BT b_qk b_T.
Let b_kkT := tl_dot BT b_kk b_T.

Let Qs : Block R := fun i c => (Q i c * scale)%R.
Let S_qk : Block R := fun i j =>
  if j <=? i then sum_n K (fun c => Qs i c * Kc j c)%R else rO.
Let S_kk : Block R := fun i j =>
  if j <? i then sum_n K (fun c => Kc i c * Kc j c)%R else rO.
Let S_qk' : Block R := fun i j => sum_n n (fun m => S_qk i m * Tm m j)%R.
Let S_kk' : Block R := fun i j => sum_n n (fun m => S_kk i m * Tm m j)%R.
Let Kg : Block R := fun i c => (Kc i c * gate i)%R.

Lemma n_le_BT : n <= BT.
Proof. unfold n, chunk_rows. lia. Qed.

Lemma rows_lt (r : nat) : r < BT -> (r <? T - i_t * BT) = (r <? n).
Proof. intro Hr. unfold n, chunk_rows. bool_cases; try reflexivity; lia. Qed.

Lemma b_q_val (r c : nat) :
  r < BT -> b_q r c = if (r <? n) && (c <? K) then Qs r c else rO.
Proof.
  intro Hr. unfold b_q, bscale, row0. rewrite load_chunk, rows_lt by assumption.
  destruct ((r <? n) && (c <? K)); [reflexivity | ring].
Qed.

Lemma b_k_val (r c : nat) :
  r < BT -> b_k r c = if (r <? n) && (c <? K) then Kc r c else rO.
Proof.
  intro Hr. unfold b_k, row0. rewrite load_chunk, rows_lt by assumption. reflexivity.
Qed.

Lemma b_v_val (r c : nat) :
  r < BT -> b_v r c = if (r <? n) && (c <? V) then Vc r c else rO.
Proof.
  intro Hr. unfold b_v, row0. rewrite load_chunk, rows_lt by assumption. reflexivity.
Qed.

Lemma b_T_val (r c : nat) :
  r < BT -> b_T r c = if (r <? n) && (c <? BT) then Tm r c else rO.
Proof.
  intro Hr. unfold b_T, row0. rewrite load_chunk, rows_lt by assumption. reflexivity.
Qed.

Lemma b_k_beta_val (r c : nat) :
  r < BT -> b_k_beta r c = if (r <? n) && (c <? K) then Kg r c else rO.
Proof.
  intro Hr. unfold b_k_beta, brow_scale, make_block_ptr1, row0.
  fold b_k. rewrite b_k_val, load_chunk, rows_lt by assumption.
  unfold Kg, gate, chunk_of.
  replace (0 <? 1) with true by reflexivity.
  destruct (r <? n); cbn [andb]; [|ring].
  destruct (c <? K); [reflexivity | ring].
Qed.

Lemma b_qk_val (r j : nat) :
  r < BT -> j < BT -> b_qk r j = if (r <? n) && (j <? n) then S_qk r j else rO.
Proof.
  intros Hr Hj. unfold b_qk, tl_where, tl_dot, tl_trans, S_qk.
  destruct (j <=? r).
  - destruct (Nat.ltb_spec r n); cbn [andb].
    + destruct (Nat.ltb_spec j n).
      * rewrite dot_pad with (n := K); [|assumption|].
        -- apply sum_n_ext. intros c Hc. rewrite b_q_val, b_k_val by assumption.
           bool_cases; try lia. reflexivity.
        -- intros c H1 H2. left. rewrite b_q_val by assumption.
           bool_cases; try lia; reflexivity.
      * apply dot_zero. intros c Hc. right. rewrite b_k_val by assumption.
        bool_cases; try lia; reflexivity.
    + apply dot_zero. intros c Hc. left. rewrite b_q_val by assumption.
      bool_cases; try lia; reflexivity.
  - destruct ((r <? n) && (j <? n)); reflexivity.
Qed.

Lemma b_kk_val (r j : nat) :
  r < BT -> j < BT -> b_kk r j = if (r <? n) && (j <? n) then S_kk r j else rO.
Proof.
  intros Hr Hj. unfold b_kk, tl_where, tl_dot, tl_trans, S_kk.
  destruct (j <? r).
  - destruct (Nat.ltb_spec r n); cbn [andb].
    + destruct (Nat.ltb_spec j n).
      * rewrite dot_pad with (n := K); [|assumption|].
        -- apply sum_n_ext. intros c Hc. rewrite !b_k_val by assumption.
           bool_cases; try lia. reflexivity.
        -- intros c H1 H2. left. rewrite b_k_val by assumption.
           bool_cases; try lia; reflexivity.
      * apply dot_zero. intros c Hc. right. rewrite b_k_val by assumption.
        bool_cases; try lia; reflexivity.
    + apply dot_zero. intros c Hc. left. rewrite b_k_val by assumption.
      bool_cases; try lia; reflexivity.
  - destruct ((r <? n) && (j <? n)); reflexivity.
Qed.

Lemma b_qkT_val (r m : nat) :
  r < n -> m < BT -> b_qkT r m = S_qk' r m.
Proof.
  intros Hr Hm. pose proof n_le_BT as Hn. unfold b_qkT, tl_dot, S_qk'.
  rewrite dot_pad with (n := n); [|assumption|].
  - apply sum_n_ext. intros j Hj. rewrite b_qk_val, b_T_val by lia.
    bool_cases; try lia. reflexivity.
  - intros j H1 H2. left. rewrite b_qk_val by lia. bool_cases; try lia; reflexivity.
Qed.

Lemma b_kkT_val (r m : nat) :
  r < n -> m < BT -> b_kkT r m = S_kk' r m.
Proof.
  intros Hr Hm. pose proof n_le_BT as Hn. unfold b_kkT, tl_dot, S_kk'.
  rewrite dot_pad with (n := n); [|assumption|].
  - apply sum_n_ext. intros j Hj. rewrite b_kk_val, b_T_val by lia.
    bool_cases; try lia. reflexivity.
  - intros j H1 H2. left. rewrite b_kk_val by lia. bool_cases; try lia; reflexivity.
Qed.

(** The four blocks a program stores are the four matrices of the
    specification, on the rows the chunk has. *)
Lemma transform_S (r m : nat) :
  r < n -> m < BT -> snd blocks r m = snd spec r m.
Proof. apply b_qkT_val. Qed.

Lemma transform_O (r c : nat) :
  r < n -> c < V -> fst (fst (fst blocks)) r c = fst (fst (fst spec)) r c.
Proof.
  intros Hr Hc. pose proof n_le_BT as Hn.
  change (tl_dot BT b_qkT b_v r c = sum_n n (fun m => S_qk' r m * Vc m c)%R).
  unfold tl_dot. rewrite dot_pad with (n := n); [|assumption|].
  - apply sum_n_ext. intros m Hm. rewrite b_qkT_val, b_v_val by lia.
    bool_cases; try lia. reflexivity.
  - intros m H1 H2. right. rewrite b_v_val by lia. bool_cases; try lia; reflexivity.
Qed.

Lemma transform_Q (r c : nat) :
  r < n -> c < K -> snd (fst (fst blocks)) r c = snd (fst (fst spec)) r c.
Proof.
  intros Hr Hc. pose proof n_le_BT as Hn.
  change (bsub b_q (tl_dot BT b_qkT b_k_beta) r c
          = (Qs r c - sum_n n (fun m => S_qk' r m * Kg m c))%R).
  unfold bsub, tl_dot. rewrite b_q_val by lia.
  rewrite dot_pad with (n := n); [|assumption|].
  - bool_cases; try lia. f_equal.
    apply sum_n_ext. intros m Hm. rewrite b_qkT_val, b_k_beta_val by lia.
    bool_cases; try lia. reflexivity.
  - intros m H1 H2. right. rewrite b_k_beta_val by lia. bool_cases; try lia; reflexivity.
Qed.

Lemma transform_K (r c : nat) :
  r < n -> c < K -> snd (fst blocks) r c = snd (fst spec) r c.
Proof.
  intros Hr Hc. pose proof n_le_BT as Hn.
  change (bsub b_k (tl_dot BT (tl_trans b_kkT) b_k_beta) r c
          = (Kc r c - sum_n n (fun m => S_kk' m r * Kg m c))%R).
  unfold bsub, tl_dot, tl_trans. rewrite b_k_val by lia.
  rewrite dot_pad with (n := n); [|assumption|].
  - bool_cases; try lia. f_equal.
    apply sum_n_ext. intros m Hm. rewrite b_kkT_val, b_k_beta_val by lia.
    bool_cases; try lia. reflexivity.
  - intros m H1 H2. right. rewrite b_k_beta_val by lia. bool_cases; try lia; reflexivity.
Qed.

End TransformBlocks.

Lemma next_power_of_2_ge (n : nat) : n <= next_power_of_2 n.
Proof.
  unfold next_power_of_2. destruct (Nat.eqb_spec n 0) as [->|Hn]; [lia|].
  destruct (Nat.eq_dec n 1) as [->|H1]; [cbn; lia|].
  apply Nat.log2_up_spec. lia.
Qed.

Lemma mod_lt_chunk_rows (T BT t : nat) :
  0 < BT -> t < T -> t mod BT < chunk_rows T BT (t / BT).
Proof.
  intros HBT Ht. unfold chunk_rows.
  pose proof (Nat.div_mod_eq t BT). pose proof (Nat.mod_upper_bound t BT ltac:(lia)).
  apply Nat.min_glb_lt; [assumption|]. nia.
Qed.

(** The tensors [chunk_transform_qk_fwd] returns, read entry by entry. *)
Lemma launch_transform_read (q k v beta A : Tdata R) (scale : R)
    (T K V BT NBH : nat) (oa : bool) (o0 qn0 kn0 : Tdata R) (al0 : option (Tdata R)) :
  0 < BT ->
  let st := launch (cdiv T BT, NBH)
              (chunk_transform_qk_fwd_kernel q k v beta A scale T K V
                 (next_power_of_2 K) (next_power_of_2 V) BT oa)
              (o0, qn0, kn0, al0) in
  forall bh t, bh < NBH -> t < T ->
    (forall c, c < V -> fst (fst (fst st)) bh t c = intra_O q k v beta A scale T K BT bh t c)
    /\ (forall c, c < K -> snd (fst (fst st)) bh t c = intra_Q q k v beta A scale T K BT bh t c)
    /\ (forall c, c < K -> snd (fst st) bh t c = intra_K q k v beta A scale T K BT bh t c)
    /\ (oa = true -> forall al, al0 = Some al ->
        exists al', snd st = Some al' /\
          forall m, m < BT -> al' bh t m = intra_S q k v beta A scale T K BT bh t m).
Proof.
  intros HBT st bh t Hbh Ht. subst st. rewrite launch_transform. cbv zeta. cbn [fst snd].
  pose proof (next_power_of_2_ge K) as HK. pose proof (next_power_of_2_ge V) as HV.
  pose proof (mod_lt_chunk_rows HBT Ht) as Hr.
  repeat split.
  - intros c Hc. rewrite launch_writes_read by assumption.
    unfold intra_O, intra_at. apply transform_O; assumption.
  - intros c Hc. rewrite launch_writes_read by assumption.
    unfold intra_Q, intra_at. apply transform_Q; assumption.
  - intros c Hc. rewrite launch_writes_read by assumption.
    unfold intra_K, intra_at. apply transform_K; assumption.
  - intros -> al ->. eexists. split; [reflexivity|].
    intros m Hm. rewrite launch_writes_read by (assumption || lia).
    unfold intra_S, intra_at. apply transform_S; assumption.
Qed.

(** C3: on every chunk, [chunk_transform_qk_fwd] returns the matrices of
    the specification's intra-chunk transformer: with [S_qk] the scores
    [(Q scale) K^t] kept on and below the diagonal, [S_kk] the scores
    [K K^t] kept strictly below it, [S_qk' = S_qk T] and [S_kk' = S_kk T]
    for the chunk's correction matrix [T], the outputs are
    [O = S_qk' V], [Q' = Q scale - S_qk' (K * gate)] and
    [K' = K - (S_kk')^t (K * gate)], and the stored local attention is
    [S_qk'].  The last chunk may be shorter than the chunk size. *)
Theorem intra_chunk_transformer_correct (q k v beta A : tensor R) (scale : R)
    (chunk_size : nat) (output_attentions : bool) (B H T K V : nat)
    (tr : list event) :
  shape k = [B; H; T; K] -> shape v = [B; H; T; V] -> 0 < chunk_size ->
  exists q_new k_new o A_local,
    chunk_transform_qk_fwd q k v beta A (Some scale) chunk_size output_attentions tr
    = (tr ++ [Launch K_chunk_transform_qk_fwd (cdiv T chunk_size, B * H) chunk_size 0],
       inr (q_new, k_new, o, A_local))
    /\ forall bh t, bh < B * H -> t < T ->
       let '(Oc, Q', K', S_qk') :=
         intra_at (data q) (data k) (data v) (data beta) (data A) scale T K
                  chunk_size bh t in
       let r := t mod chunk_size in
       (forall c, c < V -> data o bh t c = Oc r c)
       /\ (forall c, c < K -> data q_new bh t c = Q' r c)
       /\ (forall c, c < K -> data k_new bh t c = K' r c)
       /\ (output_attentions = true ->
           exists al, A_local = Some al
             /\ forall m, m < chunk_size -> data al bh t m = S_qk' r m).
Proof.
  intros Hk Hv HBT.
  unfold chunk_transform_qk_fwd, bind, lift, emit, ret. rewrite Hk, Hv.
  cbn [unpack4 shape_last rev app].
  match goal with
  | |- context [launch ?g ?p ?s] => set (st := launch g p s)
  end.
  pose proof (@launch_transform_read (data q) (data k) (data v) (data beta) (data A)
                scale T K V chunk_size (B * H) output_attentions
                empty empty empty (if output_attentions then Some empty else None) HBT) as L.
  cbv zeta in L. fold st in L.
  destruct st as [[[o qn] kn] al] eqn:Est. cbn [fst snd] in L.
  do 4 eexists. split; [reflexivity|].
  intros bh t Hbh Ht. destruct (L bh t Hbh Ht) as (LO & LQ & LK & LS).
  pose proof (surjective_pairing (intra_at (data q) (data k) (data v) (data beta)
     (data A) scale T K chunk_size bh t)) as E.
  destruct (intra_at (data q) (data k) (data v) (data beta) (data A) scale T K
              chunk_size bh t) as [[[Oc Q'] K'] S'] eqn:Eat.
  cbn [data]. repeat split.
  - intros c Hc. rewrite LO by assumption. unfold intra_O. rewrite Eat. reflexivity.
  - intros c Hc. rewrite LQ by assumption. unfold intra_Q. rewrite Eat. reflexivity.
  - intros c Hc. rewrite LK by assumption. unfold intra_K. rewrite Eat. reflexivity.
  - intros Hoa. subst output_attentions.
    destruct (LS eq_refl empty eq_refl) as (al' & -> & Hal).
    eexists. split; [reflexivity|]. cbn [data].
    intros m Hm. rewrite Hal by assumption. unfold intra_S. rewrite Eat. reflexivity.
Qed.

(** ** The key blocks the scan visits *)

Lemma range_from_down (BS cnt a : nat) :
  range_from cnt (Z.of_nat ((a + cnt) * BS) - Z.of_nat BS) (- Z.of_nat BS)
  = map (fun n => Z.of_nat (n * BS)) (rev (seq a cnt)).
Proof.
  induction cnt as [|c IH]; [reflexivity|].
  rewrite seq_S, rev_app_distr. cbn [range_from rev app map].
  f_equal; [lia|]. rewrite <- IH. f_equal. lia.
Qed.

(** [range(start, start - cnt * BS, -BS)] has [cnt] elements. *)
Lemma py_range_down (BS cnt : nat) (start : Z) :
  0 < BS ->
  py_range start (start - Z.of_nat cnt * Z.of_nat BS) (- Z.of_nat BS)
  = range_from cnt start (- Z.of_nat BS).
Proof.
  intro HBS. unfold py_range.
  destruct (Z.ltb_spec 0 (- Z.of_nat BS)); [lia|].
  destruct (Z.ltb_spec (- Z.of_nat BS) 0); [|lia].
  f_equal. rewrite Z.opp_involutive.
  replace (start - (start - Z.of_nat cnt * Z.of_nat BS) - - Z.of_nat BS - 1)%Z
    with ((Z.of_nat cnt - 1) * Z.of_nat BS + (Z.of_nat BS - 1)%Z + 1 * Z.of_nat BS)%Z by lia.
  rewrite Z.div_add by lia.
  rewrite Z.div_add_l by lia. rewrite Z.div_small by lia. lia.
Qed.

Lemma overlap_offsets_blocks (BT BS i_t : nat) :
  0 < BS -> BT mod BS = 0 ->
  overlap_offsets BT BS i_t
  = map (fun n => Z.of_nat (n * BS)) (rev (seq (i_t * (BT / BS)) (BT / BS - 1))).
Proof.
  intros HBS Hdiv. set (m := BT / BS).
  assert (HBT : BT = m * BS).
  { pose proof (Nat.div_mod_eq BT BS). subst m. lia. }
  unfold overlap_offsets. rewrite <- range_from_down.
  destruct (Nat.eq_dec m 0) as [Hm|Hm].
  - rewrite Hm in *. cbn [Nat.sub range_from]. unfold py_range.
    destruct (Z.ltb_spec 0 (- Z.of_nat BS)); [lia|].
    destruct (Z.ltb_spec (- Z.of_nat BS) 0); [|lia].
    match goal with |- context [Z.to_nat ?q] => assert (Hq : (q <= 0)%Z) end.
    { apply Z.div_le_upper_bound; lia. }
    match goal with |- context [Z.to_nat ?q] => replace (Z.to_nat q) with 0 by lia end.
    reflexivity.
  - rewrite <- py_range_down by assumption. f_equal; nia.
Qed.

Lemma disjoint_offsets_blocks (BT BS i_t : nat) :
  0 < BS -> BT mod BS = 0 ->
  disjoint_offsets BT BS i_t
  = map (fun n => Z.of_nat (n * BS)) (rev (seq 0 (i_t * (BT / BS)))).
Proof.
  intros HBS Hdiv. set (m := BT / BS).
  assert (HBT : BT = m * BS).
  { pose proof (Nat.div_mod_eq BT BS). subst m. lia. }
  unfold disjoint_offsets. rewrite <- range_from_down.
  rewrite <- py_range_down by assumption. f_equal; nia.
Qed.

(** The scan visits the blocks of [visited], nearest first: the offsets of
    the two loops, one after the other, are the block starts [n * BS] for
    [n] from [(i_t + 1) * (BT / BS) - 2] down to [0]. *)
Lemma scan_offsets_visited (BT BS i_t : nat) :
  0 < BS -> BT mod BS = 0 ->
  overlap_offsets BT BS i_t ++ disjoint_offsets BT BS i_t
  = map (fun n => Z.of_nat (n * BS)) (visited BT BS i_t).
Proof.
  intros HBS Hdiv.
  rewrite overlap_offsets_blocks, disjoint_offsets_blocks by assumption.
  rewrite <- map_app, <- rev_app_distr. unfold visited. do 2 f_equal.
  replace ((i_t + 1) * (BT / BS) - 1) with (i_t * (BT / BS) + (BT / BS - 1)).
  - rewrite seq_app. reflexivity.
  - destruct (BT / BS); lia.
Qed.

(** The offsets are strictly decreasing and end at [0]. *)
Lemma visited_decreasing (BT BS i : nat) :
  forall l1 a b l2, visited BT BS i = l1 ++ a :: b :: l2 -> b < a.
Proof.
  unfold visited. intros l1 a b l2 E.
  apply (f_equal (@rev nat)) in E. rewrite rev_involutive in E.
  rewrite rev_app_distr in E. cbn [rev] in E. rewrite <- !app_assoc in E. cbn [app] in E.
  assert (Hb : nth (List.length (rev l2)) (seq 0 ((i + 1) * (BT / BS) - 1)) 0 = b).
  { rewrite E. rewrite app_nth2 by lia. rewrite Nat.sub_diag. reflexivity. }
  assert (Ha : nth (S (List.length (rev l2))) (seq 0 ((i + 1) * (BT / BS) - 1)) 0 = a).
  { rewrite E. rewrite app_nth2 by lia.
    replace (S (List.length (rev l2)) - List.length (rev l2)) with 1 by lia. reflexivity. }
  assert (Hlen : S (List.length (rev l2)) < List.length (seq 0 ((i + 1) * (BT / BS) - 1))).
  { rewrite E. rewrite length_app. cbn [List.length]. lia. }
  rewrite length_seq in Hlen.
  rewrite seq_nth in Ha, Hb by lia. lia.
Qed.

(** ** The scanner reads only the causal past of a query row *)

Lemma block_row_in (T BS n s : nat) :
  0 < BS -> s < chunk_rows T BS n ->
  n * BS + s < T /\ (n * BS + s) / BS = n.
Proof.
  intros HBS Hs. unfold chunk_rows in Hs. split; [lia|].
  symmetry. apply Nat.div_unique with (r := s); lia.
Qed.

Lemma visit_row_congr (T K V BT BS i r : nat)
    (Kc Ko Vm : Mat R) (gate : nat -> R) (Kc' Ko' Vm' : Mat R) (gate' : nat -> R)
    (st st' : Block R * Block R) (n : nat) :
  0 < BS ->
  past_agree T K V BS (i * BT + r) Kc Ko Vm gate Kc' Ko' Vm' gate' ->
  row_agree K V r st st' ->
  row_agree K V r (visit Kc Ko Vm gate T K BT BS i st n)
                  (visit Kc' Ko' Vm' gate' T K BT BS i st' n).
Proof.
  intros HBS Hp [Hq Ho]. destruct st as [Qr Oa], st' as [Qr' Oa'].
  cbn [fst snd] in Hq, Ho. unfold visit, row_agree. cbn [fst snd].
  destruct (Nat.leb_spec (n * BS + BS) (i * BT + r)) as [Hm|Hm].
  - assert (Hs : forall s, s < chunk_rows T BS n ->
              sum_n K (fun c => Qr r c * Kc (n * BS + s)%nat c)%R
              = sum_n K (fun c => Qr' r c * Kc' (n * BS + s)%nat c)%R).
    { intros s Hs. destruct (@block_row_in T BS n s HBS Hs) as [H1 H2].
      apply sum_n_ext. intros c Hc. rewrite Hq by assumption.
      f_equal. apply Hp; [assumption | rewrite H2; lia | assumption]. }
    split; intros c Hc.
    + rewrite Hq by assumption. f_equal. apply sum_n_ext. intros s Hs'.
      destruct (@block_row_in T BS n s HBS Hs') as [H1 H2].
      rewrite Hs by assumption.
      assert (Hle : ((n * BS + s) / BS + 1) * BS <= i * BT + r) by (rewrite H2; lia).
      destruct (Hp _ H1 Hle) as (_ & Hko & _ & Hg).
      rewrite Hko, Hg by assumption. reflexivity.
    + rewrite Ho by assumption. f_equal. apply sum_n_ext. intros s Hs'.
      destruct (@block_row_in T BS n s HBS Hs') as [H1 H2].
      rewrite Hs by assumption.
      assert (Hle : ((n * BS + s) / BS + 1) * BS <= i * BT + r) by (rewrite H2; lia).
      destruct (Hp _ H1 Hle) as (_ & _ & Hv & _).
      rewrite Hv by assumption. reflexivity.
  - split; intros c Hc.
    + rewrite Hq by assumption. rewrite !sum_n_zero by (intros; ring). reflexivity.
    + rewrite Ho by assumption. rewrite !sum_n_zero by (intros; ring). reflexivity.
Qed.

Lemma scanner_row_congr (T K V BT BS i r : nat)
    (Q1 K1 Ko Vm : Mat R) (gate : nat -> R) (O1 : Mat R)
    (Q2 K2 Ko' Vm' : Mat R) (gate' : nat -> R) (O2 : Mat R) :
  0 < BS ->
  past_agree T K V BS (i * BT + r) K1 Ko Vm gate K2 Ko' Vm' gate' ->
  (forall c, c < K -> Q1 (i * BT + r) c = Q2 (i * BT + r) c) ->
  (forall c, c < V -> O1 (i * BT + r) c = O2 (i * BT + r) c) ->
  row_agree K V r (scanner Q1 K1 Ko Vm gate O1 T K BT BS i)
                  (scanner Q2 K2 Ko' Vm' gate' O2 T K BT BS i).
Proof.
  intros HBS Hp Hq Ho. unfold scanner.
  assert (H0 : row_agree K V r (chunk_of Q1 BT i, chunk_of O1 BT i)
                               (chunk_of Q2 BT i, chunk_of O2 BT i)).
  { split; intros c Hc; cbn [fst snd]; unfold chunk_of; auto. }
  revert H0. generalize (chunk_of Q1 BT i, chunk_of O1 BT i).
  generalize (chunk_of Q2 BT i, chunk_of O2 BT i).
  induction (visited BT BS i) as [|n ns IH]; intros st' st H0; cbn [fold_left].
  - exact H0.
  - apply IH. apply visit_row_congr; assumption.
Qed.

Lemma scan_offsets_flags (BT BS i_t : nat) :
  0 < BS -> BT mod BS = 0 ->
  exists l : list (bool * nat),
    scan_offsets BT BS i_t = map (fun p => (fst p, Z.of_nat (snd p * BS))) l
    /\ map snd l = visited BT BS i_t
    /\ forall fl n, In (fl, n) l -> fl = true \/ n * BS + BS <= i_t * BT.
Proof.
  intros HBS Hdiv.
  exists (map (pair true) (rev (seq (i_t * (BT / BS)) (BT / BS - 1)))
          ++ map (pair false) (rev (seq 0 (i_t * (BT / BS))))).
  split; [|split].
  - unfold scan_offsets.
    rewrite overlap_offsets_blocks, disjoint_offsets_blocks by assumption.
    rewrite map_app, !map_map. reflexivity.
  - rewrite map_app, !map_map. cbn [snd]. rewrite !map_id.
    rewrite <- rev_app_distr. unfold visited. f_equal.
    replace ((i_t + 1) * (BT / BS) - 1) with (i_t * (BT / BS) + (BT / BS - 1))
      by (destruct (BT / BS); lia).
    rewrite seq_app. reflexivity.
  - intros fl n Hin. apply in_app_or in Hin. destruct Hin as [Hin|Hin].
    + apply in_map_iff in Hin. destruct Hin as (x & E & _). left. congruence.
    + apply in_map_iff in Hin. destruct Hin as (x & E & Hx). right.
      injection E as _ <-. apply in_rev in Hx. apply in_seq in Hx.
      pose proof (Nat.div_mod_eq BT BS). nia.
Qed.

(** ** The scan kernel computes the scanner of the specification *)

Section ScanKernel.

Variables (k k2 v beta : Tdata R) (T K V BT BS BK BV : nat) (i_t i_bh : nat).
Hypothesis HBS : 0 < BS.
Hypothesis HK : K <= BK.
Hypothesis HV : V <= BV.

Let gate := fun t => beta i_bh t 0.

(** One pass of a loop body at the block [n]: on every row, the kernel
    state follows the specification's visit. *)
Lemma scan_qo_visit (masked : bool) (n r : nat) (st st' : Block R * Block R) :
  masked = true \/ n * BS + BS <= i_t * BT ->
  row_agree K V r st st' ->
  row_agree K V r
    (scan_qo masked k k2 v beta T K V BT BS BK BV i_t i_bh st (Z.of_nat (n * BS)))
    (visit (k i_bh) (k2 i_bh) (v i_bh) gate T K BT BS i_t st' n).
Proof.
  intros Hmask [Hq Ho]. destruct st as [bq bo], st' as [Qr Oa].
  cbn [fst snd] in Hq, Ho. unfold scan_qo, visit, row_agree. cbn [fst snd].
  set (nk := chunk_rows T BS n).
  assert (Hnk : nk <= BS) by (unfold nk, chunk_rows; lia).
  assert (Hin : forall s, s < BS -> (n * BS + s <? T) = (s <? nk)).
  { intros s Hs. unfold nk, chunk_rows. bool_cases; try reflexivity; lia. }
  set (b_k := tl_load (make_block_ptr (tl_trans (k i_bh)) (K, T) (0%Z, Z.of_nat (n * BS)) (BK, BS))).
  assert (Hbk : forall c s, s < BS ->
            b_k c s = if (c <? K) && (s <? nk) then k i_bh (n * BS + s) c else rO).
  { intros c s Hs. unfold b_k. change 0%Z with (Z.of_nat 0).
    rewrite tl_load_nat. cbn [Nat.add]. rewrite Hin by assumption. reflexivity. }
  set (m_s := fun i : nat =>
         (Z.of_nat (n * BS) - Z.of_nat i_t * Z.of_nat BT + Z.of_nat BS <=? Z.of_nat i)%Z).
  assert (Hms : m_s r = (n * BS + BS <=? i_t * BT + r)).
  { unfold m_s. bool_cases; try reflexivity; lia. }
  set (b_s := if masked then tl_where (fun i _ => m_s i) (tl_dot BK bq b_k)
              else tl_dot BK bq b_k).
  set (S := fun r s : nat =>
         if n * BS + BS <=? i_t * BT + r
         then sum_n K (fun c => Qr r c * k i_bh (n * BS + s)%nat c)%R else rO).
  assert (Hbs : forall s, s < nk -> b_s r s = S r s).
  { intros s Hs. unfold b_s, S.
    assert (Hdot : tl_dot BK bq b_k r s
                   = sum_n K (fun c => Qr r c * k i_bh (n * BS + s)%nat c)%R).
    { unfold tl_dot. rewrite dot_pad with (n := K); [|assumption|].
      - apply sum_n_ext. intros c Hc. rewrite Hq, Hbk by lia.
        bool_cases; try lia. reflexivity.
      - intros c H1 H2. right. rewrite Hbk by lia. bool_cases; try lia; reflexivity. }
    destruct masked.
    - unfold tl_where. rewrite Hms. destruct (_ <=? _); [exact Hdot | reflexivity].
    - destruct Hmask as [Hf|Hle]; [discriminate|].
      destruct (Nat.leb_spec (n * BS + BS) (i_t * BT + r)); [exact Hdot | lia]. }
  split; intros c Hc.
  - unfold bsub, tl_dot. rewrite Hq by assumption. f_equal.
    rewrite dot_pad with (n := nk); [|assumption|].
    + apply sum_n_ext. intros s Hs. rewrite Hbs by assumption. f_equal.
      unfold brow_scale, make_block_ptr1. change 0%Z with (Z.of_nat 0).
      rewrite !tl_load_nat. cbn [Nat.add]. rewrite Hin by lia.
      bool_cases; try lia. reflexivity.
    + intros s H1 H2. right.
      unfold brow_scale, make_block_ptr1. change 0%Z with (Z.of_nat 0).
      rewrite !tl_load_nat. cbn [Nat.add]. rewrite Hin by lia.
      bool_cases; try lia; ring.
  - unfold badd, tl_dot. rewrite Ho by assumption. f_equal.
    rewrite dot_pad with (n := nk); [|assumption|].
    + apply sum_n_ext. intros s Hs. rewrite Hbs by assumption. f_equal.
      change 0%Z with (Z.of_nat 0).
      rewrite !tl_load_nat. cbn [Nat.add]. rewrite Hin by lia.
      bool_cases; try lia. reflexivity.
    + intros s H1 H2. right. change 0%Z with (Z.of_nat 0).
      rewrite !tl_load_nat. cbn [Nat.add]. rewrite Hin by lia.
      bool_cases; try lia; reflexivity.
Qed.

Lemma scan_fold_visit (r : nat) (l : list (bool * nat)) :
  (forall fl n, In (fl, n) l -> fl = true \/ n * BS + BS <= i_t * BT) ->
  forall st st', row_agree K V r st st' ->
  row_agree K V r
    (fold_left (fun st mo =>
                  scan_qo (fst mo) k k2 v beta T K V BT BS BK BV i_t i_bh st (snd mo))
               (map (fun p => (fst p, Z.of_nat (snd p * BS))) l) st)
    (fold_left (visit (k i_bh) (k2 i_bh) (v i_bh) gate T K BT BS i_t)
               (map snd l) st').
Proof.
  induction l as [|[fl n] l IH]; intros Hfl st st' H0; cbn [map fold_left fst snd].
  - exact H0.
  - apply IH.
    + intros fl' n' Hin. apply (Hfl fl' n'). right. exact Hin.
    + apply scan_qo_visit; [|exact H0]. apply (Hfl fl n). left. reflexivity.
Qed.

(** The blocks a program ends with are, on every row of the tensor, those
    of the scanner. *)
Lemma scan_blocks_scanner (q o : Tdata R) (r : nat) :
  BT mod BS = 0 -> i_t * BT + r < T ->
  row_agree K V r
    (scan_blocks q k k2 v beta o T K V BT BS BK BV i_t i_bh (scan_offsets BT BS i_t))
    (scanner (q i_bh) (k i_bh) (k2 i_bh) (v i_bh) gate (o i_bh) T K BT BS i_t).
Proof.
  intros Hdiv Hr. destruct (@scan_offsets_flags BT BS i_t HBS Hdiv) as (l & E1 & E2 & Hfl).
  unfold scan_blocks, scanner. rewrite E1, <- E2.
  apply scan_fold_visit; [exact Hfl|].
  unfold scan_init, row_agree, badd, tl_zeros, chunk_of. cbn [fst snd].
  split; intros c Hc; rewrite load_chunk; unfold chunk_of; bool_cases; try lia; ring.
Qed.

End ScanKernel.

(** ** The scan kernel as stores *)

Lemma scan_body_fold (fl : bool) (k k2 v beta : Tdata R) (T K V BT BS BK BV : nat)
    (i_t i_bh : nat) (offs : list Z) (st : Block R * Block R)
    (attn : option (Tdata R)) :
  fold_left (fun st offset =>
               scan_body fl k k2 v beta T K V BT BS BK BV i_t i_bh offset st)
            offs (fst st, snd st, attn)
  = let qo := fold_left (fun st mo =>
                 scan_qo (fst mo) k k2 v beta T K V BT BS BK BV i_t i_bh st (snd mo))
               (map (pair fl) offs) st in
    (fst qo, snd qo,
     option_map (scan_attn k k2 v beta T K V BT BS BK BV i_t i_bh
                   (map (pair fl) offs) st) attn).
Proof.
  revert st attn. induction offs as [|off offs IH]; intros [bq bo] attn;
    cbn [fold_left map fst snd scan_attn].
  - destruct attn; reflexivity.
  - match goal with
    | |- fold_left _ _ ?s = _ =>
        change s with
          (fst (scan_qo fl k k2 v beta T K V BT BS BK BV i_t i_bh (bq, bo) off),
           snd (scan_qo fl k k2 v beta T K V BT BS BK BV i_t i_bh (bq, bo) off),
           option_map (attn_store T BT BS i_t i_bh off
                         (scan_scores fl k T K BT BS BK i_t i_bh bq off)) attn)
    end.
    rewrite IH. cbv zeta. rewrite <- surjective_pairing.
    destruct attn; reflexivity.
Qed.

Lemma scan_attn_app (k k2 v beta : Tdata R) (T K V BT BS BK BV : nat)
    (i_t i_bh : nat) (l1 l2 : list (bool * Z)) (st : Block R * Block R) (a : Tdata R) :
  scan_attn k k2 v beta T K V BT BS BK BV i_t i_bh (l1 ++ l2) st a
  = scan_attn k k2 v beta T K V BT BS BK BV i_t i_bh l2
      (fold_left (fun st mo =>
                    scan_qo (fst mo) k k2 v beta T K V BT BS BK BV i_t i_bh st (snd mo))
                 l1 st)
      (scan_attn k k2 v beta T K V BT BS BK BV i_t i_bh l1 st a).
Proof.
  revert st a. induction l1 as [|mo l1 IH]; intros st a; cbn [app scan_attn fold_left].
  - reflexivity.
  - apply IH.
Qed.

Lemma scan_kernel_writes (q k k2 v beta o : Tdata R) (T K V BT BS BK BV : nat)
    (i_t i_bh : nat) (o_new : Tdata R) (attn : option (Tdata R)) :
  parallel_delta_rule_fwd_kernel q k k2 v beta o T K V BT BS BK BV i_t i_bh
    (o_new, attn)
  = (block_write T V BT BV
       (fun i_t i_bh =>
          snd (scan_blocks q k k2 v beta o T K V BT BS BK BV i_t i_bh
                 (scan_offsets BT BS i_t)))
       i_t i_bh o_new,
     option_map (scan_attn k k2 v beta T K V BT BS BK BV i_t i_bh
                   (scan_offsets BT BS i_t)
                   (scan_init q o T K V BT BK BV i_t i_bh)) attn).
Proof.
  unfold parallel_delta_rule_fwd_kernel.
  set (st0 := scan_init q o T K V BT BK BV i_t i_bh).
  change (badd tl_zeros (tl_load (make_block_ptr (q i_bh) (T, K)
            (Z.of_nat (i_t * BT), 0%Z) (BT, BK)))) with (fst st0).
  change (badd tl_zeros (tl_load (make_block_ptr (o i_bh) (T, V)
            (Z.of_nat (i_t * BT), 0%Z) (BT, BV)))) with (snd st0).
  rewrite scan_body_fold. cbv zeta.
  rewrite scan_body_fold. cbv zeta. cbn [fst snd].
  unfold block_write, scan_blocks, scan_offsets.
  rewrite fold_left_app. fold st0.
  f_equal. destruct attn as [a|]; cbn [option_map]; [|reflexivity].
  rewrite scan_attn_app. reflexivity.
Qed.

Lemma launch_scan (g : nat * nat) (q k k2 v beta o : Tdata R)
    (T K V BT BS BK BV : nat) (o_new : Tdata R) (attn : option (Tdata R)) :
  launch g (parallel_delta_rule_fwd_kernel q k k2 v beta o T K V BT BS BK BV)
         (o_new, attn)
  = (writes T V BT BV
       (fun i_t i_bh =>
          snd (scan_blocks q k k2 v beta o T K V BT BS BK BV i_t i_bh
                 (scan_offsets BT BS i_t)))
       (grid_ids g) o_new,
     option_map (scan_attn_all q k k2 v beta o T K V BT BS BK BV (grid_ids g)) attn).
Proof.
  unfold launch, writes, scan_attn_all. generalize (grid_ids g) as ids. intro ids.
  revert o_new attn.
  induction ids as [|[i_t i_bh] ids IH]; intros o_new attn; cbn [fold_left fst snd].
  - destruct attn; reflexivity.
  - rewrite scan_kernel_writes, IH. destruct attn; reflexivity.
Qed.

(** ** What [forward] returns *)

(** On well-formed input with [K <= 128] and a scale, [forward] returns the
    tensors of [engine_run] for block sizes [128] and [32], after the solver
    call and the launches of [forward_log]. *)
Lemma forward_run (q k v beta : tensor R) (scale : R) (oa : bool)
    (B H T K V : nat) (tr : list event) :
  valid_shapes q k v beta B H T K V -> K <= 128 ->
  forward fwd_prepare_T q k v beta (Some scale) oa tr
  = (tr ++ forward_log B H T oa,
     inr (let r := engine_run 128 32 (data (fwd_prepare_T k beta 32))
                     (data q) (data k) (data v) (data beta) scale B H T K V oa in
          (Tensor (shape v) (fst r), option_map (Tensor [B; H; T; T]) (snd r)))).
Proof.
  intros (Hq & Hk & Hv & Hb) HK.
  unfold forward, chunk_transform_qk_fwd, engine_run, forward_log,
    bind, lift, py_assert, emit, ret.
  rewrite Hq, Hk, Hv. cbn [unpack4 shape_last rev app].
  destruct (Nat.leb_spec K 128) as [_|]; [|lia].
  replace (128 mod 32 =? 0) with true by reflexivity.
  rewrite launch_transform. cbv zeta. cbn [data].
  rewrite !launch_scan.
  destruct oa; cbn [option_map fst snd]; rewrite <- !app_assoc; reflexivity.
Qed.

(** The output of the engine, entry by entry: the scanner of the
    specification run on the transformer's outputs. *)
Lemma engine_output (BT BS : nat) (A q k v beta : Tdata R) (scale : R)
    (B H T K V : nat) (oa : bool) (bh t c : nat) :
  0 < BS -> 0 < BT -> BT mod BS = 0 -> bh < B * H -> t < T -> c < V ->
  fst (engine_run BT BS A q k v beta scale B H T K V oa) bh t c
  = snd (scanner (intra_Q q k v beta A scale T K BS bh)
                 (intra_K q k v beta A scale T K BS bh)
                 (k bh) (v bh) (fun t => beta bh t 0)
                 (intra_O q k v beta A scale T K BS bh)
                 T K BT BS (t / BT)) (t mod BT) c.
Proof.
  intros HBS HBT Hdiv Hbh Ht Hc. unfold engine_run.
  pose proof (@launch_transform_read q k v beta A scale T K V BS (B * H) oa
                empty empty empty (if oa then Some empty else None) HBS) as L.
  cbv zeta in L.
  destruct (launch (cdiv T BS, B * H) _ _) as [[[o qn] kn] al].
  cbn [fst snd] in L.
  rewrite launch_scan. cbn [fst].
  pose proof (next_power_of_2_ge K) as HK. pose proof (next_power_of_2_ge V) as HV.
  rewrite launch_writes_read by assumption.
  pose proof (Nat.div_mod_eq t BT) as Et.
  assert (Hrow : t / BT * BT + t mod BT = t) by lia.
  assert (Hr : t / BT * BT + t mod BT < T) by lia.
  pose proof (@scan_blocks_scanner kn k v beta T K V BT BS (next_power_of_2 K)
                (next_power_of_2 V) (t / BT) bh HBS HK HV qn o (t mod BT) Hdiv Hr)
    as [_ Ho].
  rewrite Ho by assumption.
  refine (proj2 (@scanner_row_congr T K V BT BS (t / BT) (t mod BT)
            _ _ _ _ _ _ _ _ _ _ _ _ HBS _ _ _) c Hc).
  - intros t' Ht' _. destruct (L bh t' Hbh Ht') as (_ & _ & LK & _). repeat split; auto.
  - rewrite Hrow. intros c' Hc'. apply L; assumption.
  - rewrite Hrow. intros c' Hc'. apply L; assumption.
Qed.

(** C4: for each query chunk the scan kernel visits the key blocks in
    strictly decreasing offset order, from the block before the chunk's last
    one down to block [0] (offsets [32 n] for [n = 4 i_t + 2, ..., 1, 0]),
    and the output of [forward] is what the specification's scanner
    accumulates over these visits, seeded with the transformer's [O] and
    [Q']: at each block the scores [S = Q'_running K'^t] use the
    chunk-corrected keys [K'], under the causal mask of the overlap phase,
    then [O += S V] and [Q'_running -= S (K * gate)] with the original keys
    [K]. *)
Theorem inter_chunk_scanner_correct (q k v beta : tensor R) (scale : R)
    (output_attentions : bool) (B H T K V : nat) :
  valid_shapes q k v beta B H T K V -> K <= 128 ->
  (forall i_t,
     overlap_offsets 128 32 i_t ++ disjoint_offsets 128 32 i_t
     = map (fun n => Z.of_nat (n * 32)) (rev (seq 0 (4 * i_t + 3))))
  /\ exists o attn,
       forward fwd_prepare_T q k v beta (Some scale) output_attentions []
       = (forward_log B H T output_attentions, inr (o, attn))
       /\ let A := data (fwd_prepare_T k beta 32) in
          let Q' := intra_Q (data q) (data k) (data v) (data beta) A scale T K 32 in
          let K' := intra_K (data q) (data k) (data v) (data beta) A scale T K 32 in
          let O' := intra_O (data q) (data k) (data v) (data beta) A scale T K 32 in
          forall bh t c, bh < B * H -> t < T -> c < V ->
            let i := t / 128 in
            data o bh t c
            = snd (fold_left
                     (visit (K' bh) (data k bh) (data v bh)
                            (fun t => data beta bh t 0) T K 128 32 i)
                     (rev (seq 0 (4 * i + 3)))
                     (chunk_of (Q' bh) 128 i, chunk_of (O' bh) 128 i))
                  (t mod 128) c.
Proof.
  intros Hsh HK.
  assert (Hvis : forall i, visited 128 32 i = rev (seq 0 (4 * i + 3))).
  { intro i. unfold visited. change (128 / 32) with 4. do 2 f_equal. lia. }
  split.
  - intro i_t. rewrite <- Hvis. apply scan_offsets_visited; [lia | reflexivity].
  - do 2 eexists. split.
    + rewrite (forward_run scale output_attentions [] Hsh HK). reflexivity.
    + cbv zeta. intros bh t c Hbh Ht Hc. cbn [data fst].
      rewrite engine_output by (assumption || lia || reflexivity).
      unfold scanner. rewrite Hvis. reflexivity.
Qed.

(** ** Causality of the transformer *)

Section IntraCausal.

Variables (n K V : nat) (scale : R).
Variables (Q Kc Vc : Block R) (gate : nat -> R) (Tm : Block R).
Variables (Kc' Vc' : Block R) (gate' : nat -> R) (Tm' : Block R).
Variable r : nat.
Hypothesis Hr : r < n.
Hypothesis HK : forall j c, j <= r -> c < K -> Kc j c = Kc' j c.
Hypothesis HV : forall j c, j <= r -> c < V -> Vc j c = Vc' j c.
Hypothesis Hg : forall j, j <= r -> gate j = gate' j.
Hypothesis HT : forall j m, j <= r -> m < n -> Tm j m = Tm' j m.
Hypothesis Htri : forall j m, j <= r -> r < m -> m < n -> Tm j m = rO.

Let S_qk (Kx : Block R) : Block R := fun i j =>
  if j <=? i then sum_n K (fun c => Q i c * scale * Kx j c)%R else rO.

Lemma S_qk_row (j : nat) : S_qk Kc r j = S_qk Kc' r j.
Proof.
  unfold S_qk. destruct (Nat.leb_spec j r); [|reflexivity].
  apply sum_n_ext. intros c Hc. rewrite HK by assumption. reflexivity.
Qed.

Lemma S_qk'_row (m : nat) :
  m < n ->
  sum_n n (fun j => S_qk Kc r j * Tm j m)%R
  = sum_n n (fun j => S_qk Kc' r j * Tm' j m)%R.
Proof.
  intro Hm. apply sum_n_ext. intros j Hj. rewrite S_qk_row.
  unfold S_qk. destruct (Nat.leb_spec j r).
  - rewrite HT by assumption. reflexivity.
  - ring.
Qed.

Lemma S_qk'_upper (m : nat) :
  r < m -> m < n -> sum_n n (fun j => S_qk Kc r j * Tm j m)%R = rO.
Proof.
  intros H1 H2. apply dot_zero. intros j Hj.
  unfold S_qk. destruct (Nat.leb_spec j r); [right; apply Htri; assumption | left; reflexivity].
Qed.

(** Row [r] of [O], [Q'] and [S_qk'] depends on rows [0..r] of the chunk
    only, when the correction matrix is lower triangular. *)
Lemma intra_chunk_causal :
  let a := intra_chunk n K Q Kc Vc gate Tm scale in
  let b := intra_chunk n K Q Kc' Vc' gate' Tm' scale in
  (forall c, c < V -> fst (fst (fst a)) r c = fst (fst (fst b)) r c)
  /\ (forall c, c < K -> snd (fst (fst a)) r c = snd (fst (fst b)) r c)
  /\ (forall m, m < n -> snd a r m = snd b r m).
Proof.
  cbv zeta. unfold intra_chunk. cbn [fst snd].
  fold (S_qk Kc) (S_qk Kc').
  assert (Hup' : forall m, r < m -> m < n ->
            sum_n n (fun j => S_qk Kc' r j * Tm' j m)%R = rO).
  { intros m H1 H2. rewrite <- S_qk'_row by assumption. apply S_qk'_upper; assumption. }
  repeat split.
  - intros c Hc. apply sum_n_ext. intros m Hm.
    destruct (Nat.le_gt_cases m r).
    + rewrite S_qk'_row, HV by assumption. reflexivity.
    + rewrite S_qk'_upper, Hup' by assumption. ring.
  - intros c Hc. f_equal. apply sum_n_ext. intros m Hm.
    destruct (Nat.le_gt_cases m r).
    + rewrite S_qk'_row, HK, Hg by assumption. reflexivity.
    + rewrite S_qk'_upper, Hup' by assumption. ring.
  - intros m Hm. apply S_qk'_row. assumption.
Qed.

End IntraCausal.

(** [K'] of a chunk depends on the keys, gates and correction matrix of
    that chunk only. *)
Lemma intra_chunk_K_congr (n K : nat) (scale scale' : R)
    (Q Kc Vc : Block R) (gate : nat -> R) (Tm : Block R)
    (Q' Kc' Vc' : Block R) (gate' : nat -> R) (Tm' : Block R) (r c : nat) :
  r < n -> c < K ->
  (forall j c, j < n -> c < K -> Kc j c = Kc' j c) ->
  (forall j, j < n -> gate j = gate' j) ->
  (forall j m, j < n -> m < n -> Tm j m = Tm' j m) ->
  snd (fst (intra_chunk n K Q Kc Vc gate Tm scale)) r c
  = snd (fst (intra_chunk n K Q' Kc' Vc' gate' Tm' scale')) r c.
Proof.
  intros Hr Hc HK Hg HT. unfold intra_chunk. cbn [fst snd].
  rewrite HK by assumption. f_equal.
  apply sum_n_ext. intros m Hm. rewrite HK, Hg by assumption. f_equal.
  apply sum_n_ext. intros j Hj. rewrite HT by assumption.
  destruct (j <? m); [|reflexivity].
  f_equal. apply sum_n_ext. intros c' Hc'. rewrite !HK by assumption. reflexivity.
Qed.

Section IntraTensorCausal.

Variables (q k v beta A k' v' beta' A' : Tdata R) (scale : R) (T K V BT : nat).
Variables (bh t0 : nat).
Hypothesis HBT : 0 < BT.
Hypothesis Hk : forall t c, t <= t0 -> t < T -> c < K -> k bh t c = k' bh t c.
Hypothesis Hv : forall t c, t <= t0 -> t < T -> c < V -> v bh t c = v' bh t c.
Hypothesis Hb : forall t, t <= t0 -> t < T -> beta bh t 0 = beta' bh t 0.
Hypothesis HA : forall t c, t <= t0 -> t < T -> c < BT -> A bh t c = A' bh t c.
Hypothesis Htri : forall t c, t < T -> t mod BT < c -> c < BT -> A bh t c = rO.

Lemma chunk_row_time (t j : nat) :
  t < T -> j <= t mod BT ->
  t / BT * BT + j <= t /\ t / BT * BT + j < T /\ (t / BT * BT + j) mod BT = j.
Proof.
  intros Ht Hj. pose proof (Nat.div_mod_eq t BT).
  pose proof (Nat.mod_upper_bound t BT ltac:(lia)).
  repeat split; try lia.
  rewrite Nat.add_comm, Nat.Div0.mod_add. apply Nat.mod_small. lia.
Qed.

(** [O] and [Q'] at time [t <= t0] see the inputs up to [t] only. *)
Lemma intra_OQ_causal (t : nat) :
  t <= t0 -> t < T ->
  (forall c, c < V ->
     intra_O q k v beta A scale T K BT bh t c
     = intra_O q k' v' beta' A' scale T K BT bh t c)
  /\ (forall c, c < K ->
     intra_Q q k v beta A scale T K BT bh t c
     = intra_Q q k' v' beta' A' scale T K BT bh t c).
Proof.
  intros Ht0 Ht. unfold intra_O, intra_Q, intra_at.
  pose proof (mod_lt_chunk_rows HBT Ht) as Hr.
  assert (Hn : chunk_rows T BT (t / BT) <= BT) by (unfold chunk_rows; lia).
  pose proof (@intra_chunk_causal (chunk_rows T BT (t / BT)) K V scale
    (chunk_of (q bh) BT (t / BT)) (chunk_of (k bh) BT (t / BT))
    (chunk_of (v bh) BT (t / BT)) (fun r => beta bh (t / BT * BT + r) 0)
    (chunk_of (A bh) BT (t / BT))
    (chunk_of (k' bh) BT (t / BT)) (chunk_of (v' bh) BT (t / BT))
    (fun r => beta' bh (t / BT * BT + r) 0) (chunk_of (A' bh) BT (t / BT))
    (t mod BT)) as L.
  cbv zeta in L. unfold chunk_of in *.
  destruct L as (LO & LQ & _).
  - intros j c Hj Hc. destruct (chunk_row_time Ht Hj) as (H1 & H2 & _). apply Hk; lia.
  - intros j c Hj Hc. destruct (chunk_row_time Ht Hj) as (H1 & H2 & _). apply Hv; lia.
  - intros j Hj. destruct (chunk_row_time Ht Hj) as (H1 & H2 & _). apply Hb; lia.
  - intros j m Hj Hm. destruct (chunk_row_time Ht Hj) as (H1 & H2 & _). apply HA; lia.
  - intros j m Hj H1 H2. destruct (chunk_row_time Ht Hj) as (H3 & H4 & H5).
    apply Htri; lia.
  - split; assumption.
Qed.

(** [K'] at a time whose chunk ends at or before [t0 + 1] sees that chunk only. *)
Lemma intra_K_past (t c : nat) :
  t < T -> (t / BT + 1) * BT <= t0 + 1 -> c < K ->
  intra_K q k v beta A scale T K BT bh t c
  = intra_K q k' v' beta' A' scale T K BT bh t c.
Proof.
  intros Ht Hend Hc. unfold intra_K, intra_at.
  pose proof (mod_lt_chunk_rows HBT Ht) as Hr.
  assert (Hin : forall j, j < chunk_rows T BT (t / BT) ->
            t / BT * BT + j <= t0 /\ t / BT * BT + j < T).
  { intros j Hj. unfold chunk_rows in Hj. lia. }
  apply intra_chunk_K_congr; try assumption; unfold chunk_of.
  - intros j c' Hj Hc'. destruct (Hin j Hj). apply Hk; assumption.
  - intros j Hj. destruct (Hin j Hj). apply Hb; assumption.
  - intros j m Hj Hm. destruct (Hin j Hj). apply HA; try assumption.
    unfold chunk_rows in Hm. lia.
Qed.

End IntraTensorCausal.

(** ** The public entry point on well-formed input *)

Lemma parallel_delta_rule_run (q k v beta : tensor R) (scale : option R)
    (oa : bool) (B H T K V : nat) (tr : list event) :
  valid_shapes q k v beta B H T K V ->
  parallel_delta_rule fwd_prepare_T q k v beta scale oa false tr
  = forward fwd_prepare_T q k v beta scale oa
      (tr ++ if H <? T then [Warn H T] else []).
Proof.
  intros (Hq & _). unfold parallel_delta_rule, bind, lift. rewrite Hq.
  cbn [negb shape_at nth_error andb].
  destruct (H <? T); cbn [emit ret]; [reflexivity | rewrite app_nil_r; reflexivity].
Qed.

(** C2: causality.  Two well-formed inputs with the same queries, whose
    keys, values and gates agree at every time up to [t0], give outputs that
    agree at every time up to [t0], for a solver that meets its contract
    (lower-triangular correction matrices, built causally). *)
Theorem causality (q k v beta k' v' beta' : tensor R) (scale : R)
    (output_attentions : bool) (B H T K V t0 : nat) :
  solver_triangular fwd_prepare_T -> solver_causal fwd_prepare_T ->
  valid_shapes q k v beta B H T K V -> valid_shapes q k' v' beta' B H T K V ->
  K <= 128 ->
  (forall bh t c, bh < B * H -> t <= t0 -> t < T -> c < K ->
     data k bh t c = data k' bh t c) ->
  (forall bh t c, bh < B * H -> t <= t0 -> t < T -> c < V ->
     data v bh t c = data v' bh t c) ->
  (forall bh t, bh < B * H -> t <= t0 -> t < T ->
     data beta bh t 0 = data beta' bh t 0) ->
  exists o attn o' attn',
    snd (parallel_delta_rule fwd_prepare_T q k v beta (Some scale)
           output_attentions false []) = inr (o, attn)
    /\ snd (parallel_delta_rule fwd_prepare_T q k' v' beta' (Some scale)
              output_attentions false []) = inr (o', attn')
    /\ forall bh t c, bh < B * H -> t <= t0 -> t < T -> c < V ->
         data o bh t c = data o' bh t c.
Proof.
  intros Stri Scau Hsh Hsh' HK Hk Hv Hb.
  rewrite (parallel_delta_rule_run (Some scale) output_attentions [] Hsh).
  rewrite (parallel_delta_rule_run (Some scale) output_attentions [] Hsh').
  rewrite (forward_run scale output_attentions _ Hsh HK).
  rewrite (forward_run scale output_attentions _ Hsh' HK).
  cbv zeta. cbn [snd]. do 4 eexists. split; [reflexivity|]. split; [reflexivity|].
  intros bh t c Hbh Ht0 Ht Hc. cbn [data].
  rewrite !engine_output by (assumption || lia || reflexivity).
  set (A := data (fwd_prepare_T k beta 32)).
  set (A' := data (fwd_prepare_T k' beta' 32)).
  assert (HA : forall t c, t <= t0 -> t < T -> c < 32 -> A bh t c = A' bh t c).
  { destruct Hsh as (_ & Hks & _), Hsh' as (_ & Hks' & _).
    apply (Scau k k' beta beta' B H T K 32 bh t0 Hks Hks');
      intros; [apply Hk | apply Hb]; assumption. }
  assert (Htri : forall t c, t < T -> t mod 32 < c -> c < 32 -> A bh t c = rO).
  { intros t1 c1 _ H1 H2. apply Stri; assumption. }
  pose proof (Nat.div_mod_eq t 128) as Et.
  assert (Hrow : t / 128 * 128 + t mod 128 = t) by lia.
  refine (proj2 (@scanner_row_congr T K V 128 32 (t / 128) (t mod 128)
            _ _ _ _ _ _ _ _ _ _ _ _ ltac:(lia) _ _ _) c Hc); rewrite Hrow.
  - intros t1 Ht1 Hend. pose proof (Nat.div_mod_eq t1 32).
    pose proof (Nat.mod_upper_bound t1 32 ltac:(lia)).
    repeat split.
    + intros c1 Hc1.
      apply (@intra_K_past (data q) (data k) (data v) (data beta) A
               (data k') (data v') (data beta') A' scale T K 32 bh t0);
        try assumption; try lia; intros; auto.
    + intros c1 Hc1. apply Hk; (assumption || lia).
    + intros c1 Hc1. apply Hv; (assumption || lia).
    + apply Hb; (assumption || lia).
  - apply (@intra_OQ_causal (data q) (data k) (data v) (data beta) A
             (data k') (data v') (data beta') A' scale T K V 32 bh t0);
      try assumption; try lia; intros; auto.
  - apply (@intra_OQ_causal (data q) (data k) (data v) (data beta) A
             (data k') (data v') (data beta') A' scale T K V 32 bh t0);
      try assumption; try lia; intros; auto.
Qed.

(** ** The attention tensor *)

Lemma div_block (BT i r : nat) :
  0 < BT -> (i * BT <= r /\ r < i * BT + BT) <-> r / BT = i.
Proof.
  intro HBT. pose proof (Nat.div_mod_eq r BT).
  pose proof (Nat.mod_upper_bound r BT ltac:(lia)). split.
  - intros [H1 H2]. symmetry. apply Nat.div_unique with (r := r - i * BT); lia.
  - intros <-. nia.
Qed.

Lemma save_read (A_local : Tdata R) (T BT i_t i_bh : nat) (a : Tdata R)
    (bh r c : nat) :
  0 < BT -> r < T -> c < T ->
  save_intra_chunk_attn A_local T BT i_t i_bh a bh r c
  = if (i_bh =? bh) && (r / BT =? i_t) && (c / BT =? i_t)
    then A_local bh r (c mod BT) else a bh r c.
Proof.
  intros HBT Hr Hc. unfold save_intra_chunk_attn, upd.
  destruct (Nat.eqb_spec bh i_bh) as [->|Hbh].
  - rewrite Nat.eqb_refl. cbn [andb]. rewrite tl_store_nat.
    pose proof (div_block i_t r HBT) as Dr. pose proof (div_block i_t c HBT) as Dc.
    pose proof (Nat.div_mod_eq c BT) as Ec.
    pose proof (Nat.mod_upper_bound c BT ltac:(lia)).
    destruct (Nat.eqb_spec (r / BT) i_t) as [Er|Er];
      destruct (Nat.eqb_spec (c / BT) i_t) as [Ec'|Ec']; cbn [andb].
    + apply Dr in Er. apply Dc in Ec'. bool_cases; try lia.
      change 0%Z with (Z.of_nat 0). rewrite tl_load_nat.
      replace (c - i_t * BT) with (c mod BT) by nia.
      bool_cases; try lia. f_equal; lia.
    + bool_cases; try reflexivity. exfalso. apply Ec'. apply Dc. lia.
    + bool_cases; try reflexivity. exfalso. apply Er. apply Dr. lia.
    + bool_cases; try reflexivity. exfalso. apply Er. apply Dr. lia.
  - destruct (Nat.eqb_spec i_bh bh); [congruence|]. reflexivity.
Qed.

Lemma save_all_read (A_local : Tdata R) (T BT : nat) (ids : list (nat * nat))
    (a : Tdata R) (bh r c : nat) :
  0 < BT -> r < T -> c < T ->
  save_all A_local T BT ids a bh r c
  = if (r / BT =? c / BT)
       && existsb (fun id => (fst id =? r / BT) && (snd id =? bh)) ids
    then A_local bh r (c mod BT) else a bh r c.
Proof.
  intros HBT Hr Hc. unfold save_all. revert a.
  induction ids as [|[i_t i_bh] ids IH]; intro a; cbn [fold_left existsb fst snd].
  - rewrite andb_false_r. reflexivity.
  - rewrite IH. destruct (Nat.eqb_spec (r / BT) (c / BT)) as [E|E]; cbn [andb].
    + destruct (existsb _ ids); [rewrite orb_true_r; reflexivity|].
      rewrite orb_false_r, save_read by assumption. rewrite <- E.
      rewrite (Nat.eqb_sym (r / BT) i_t).
      destruct (i_t =? r / BT), (i_bh =? bh); reflexivity.
    + rewrite save_read by assumption.
      destruct (Nat.eqb_spec (r / BT) i_t) as [E1|E1];
        destruct (Nat.eqb_spec (c / BT) i_t) as [E2|E2];
        rewrite ?andb_false_r; cbn [andb]; try reflexivity.
      congruence.
Qed.

Lemma attn_store_upper (k : Tdata R) (T K BT BS BK i_t i_bh : nat) (fl : bool)
    (n : nat) (b_q : Block R) (a : Tdata R) :
  fl = true \/ n * BS + BS <= i_t * BT ->
  upper_zero a ->
  upper_zero (attn_store T BT BS i_t i_bh (Z.of_nat (n * BS))
                (scan_scores fl k T K BT BS BK i_t i_bh b_q (Z.of_nat (n * BS))) a).
Proof.
  intros Hfl Ha bh r c Hrc. unfold attn_store, upd.
  destruct (bh =? i_bh); [|apply Ha; assumption].
  rewrite tl_store_nat.
  match goal with |- (if ?b then _ else _) = _ => destruct b eqn:Eb end;
    [|apply Ha; assumption].
  repeat (apply andb_true_iff in Eb; destruct Eb as [Eb ?]).
  repeat match goal with
  | H : (_ <=? _) = true |- _ => apply Nat.leb_le in H
  | H : (_ <? _) = true |- _ => apply Nat.ltb_lt in H
  end.
  unfold scan_scores. destruct fl.
  - unfold tl_where. bool_cases; [lia | reflexivity].
  - destruct Hfl as [Hf|Hle]; [discriminate | lia].
Qed.

Lemma scan_attn_upper (k k2 v beta : Tdata R) (T K V BT BS BK BV i_t i_bh : nat)
    (l : list (bool * nat)) :
  (forall fl n, In (fl, n) l -> fl = true \/ n * BS + BS <= i_t * BT) ->
  forall st a, upper_zero a ->
  upper_zero (scan_attn k k2 v beta T K V BT BS BK BV i_t i_bh
                (map (fun p => (fst p, Z.of_nat (snd p * BS))) l) st a).
Proof.
  induction l as [|[fl n] l IH]; intros Hfl st a Ha; cbn [map scan_attn fst snd].
  - exact Ha.
  - apply IH.
    + intros fl' n' Hin. apply (Hfl fl' n'). right. exact Hin.
    + apply attn_store_upper; [|exact Ha]. apply (Hfl fl n). left. reflexivity.
Qed.

Lemma scan_attn_all_upper (q k k2 v beta o : Tdata R) (T K V BT BS BK BV : nat)
    (ids : list (nat * nat)) (a : Tdata R) :
  0 < BS -> BT mod BS = 0 -> upper_zero a ->
  upper_zero (scan_attn_all q k k2 v beta o T K V BT BS BK BV ids a).
Proof.
  intros HBS Hdiv. unfold scan_attn_all. revert a.
  induction ids as [|[i_t i_bh] ids IH]; intros a Ha; cbn [fold_left fst snd].
  - exact Ha.
  - apply IH.
    destruct (@scan_offsets_flags BT BS i_t HBS Hdiv) as (l & E1 & _ & Hfl).
    rewrite E1. apply scan_attn_upper; assumption.
Qed.

Lemma intra_S_upper (q k v beta A : Tdata R) (scale : R) (T K BT bh t m : nat) :
  0 < BT -> t < T -> t mod BT < m -> m < BT ->
  (forall t' c, t' mod BT < c -> c < BT -> A bh t' c = rO) ->
  intra_S q k v beta A scale T K BT bh t m = rO.
Proof.
  intros HBT Ht Hm HmBT Htri. unfold intra_S, intra_at, intra_chunk. cbn [fst snd].
  apply dot_zero. intros j Hj.
  destruct (Nat.leb_spec j (t mod BT)); [right | left; reflexivity].
  unfold chunk_of. apply Htri; [|assumption].
  pose proof (Nat.mod_upper_bound t BT ltac:(lia)).
  rewrite Nat.add_comm, Nat.Div0.mod_add, Nat.mod_small; lia.
Qed.

Lemma engine_attention (BT BS : nat) (A q k v beta : Tdata R) (scale : R)
    (B H T K V : nat) :
  0 < BS -> 0 < BT -> BT mod BS = 0 ->
  (forall bh t c, t mod BS < c -> c < BS -> A bh t c = rO) ->
  exists attn,
    snd (engine_run BT BS A q k v beta scale B H T K V true) = Some attn
    /\ (forall bh r c, bh < B * H -> r < T -> c < T -> r < c -> attn bh r c = rO)
    /\ (forall bh r c, bh < B * H -> r < T -> c < T -> r / BS = c / BS ->
          attn bh r c = intra_S q k v beta A scale T K BS bh r (c mod BS)).
Proof.
  intros HBS HBT Hdiv Htri. unfold engine_run.
  pose proof (@launch_transform_read q k v beta A scale T K V BS (B * H) true
                empty empty empty (Some empty) HBS) as L.
  cbv zeta in L.
  assert (Hsome : exists al, snd (launch (cdiv T BS, B * H)
             (chunk_transform_qk_fwd_kernel q k v beta A scale T K V
                (next_power_of_2 K) (next_power_of_2 V) BS true)
             (empty, empty, empty, Some empty)) = Some al).
  { rewrite launch_transform. cbv zeta. cbn [snd option_map]. eexists. reflexivity. }
  destruct Hsome as [al Hal].
  destruct (launch (cdiv T BS, B * H) _ _) as [[[o qn] kn] al0].
  cbn [fst snd] in L, Hal. subst al0.
  rewrite launch_scan. cbn [option_map].
  change (launch (cdiv T BS, B * H) (save_intra_chunk_attn al T BS))
    with (save_all al T BS (grid_ids (cdiv T BS, B * H))).
  eexists. split; [reflexivity|].
  assert (Hloc : forall bh r m, bh < B * H -> r < T -> m < BS ->
            al bh r m = intra_S q k v beta A scale T K BS bh r m).
  { intros bh r m Hbh Hr Hm. destruct (L bh r Hbh Hr) as (_ & _ & _ & LS).
    destruct (LS eq_refl empty eq_refl) as (al' & E & Hal').
    injection E as <-. apply Hal'. assumption. }
  assert (Hgrid : forall bh r, bh < B * H -> r < T ->
            existsb (fun id => (fst id =? r / BS) && (snd id =? bh))
                    (grid_ids (cdiv T BS, B * H)) = true).
  { intros bh r Hbh Hr. rewrite grid_ids_has.
    assert (r / BS < cdiv T BS).
    { unfold cdiv. apply Nat.Div0.div_lt_upper_bound.
      pose proof (Nat.div_mod_eq (T + BS - 1) BS).
      pose proof (Nat.mod_upper_bound (T + BS - 1) BS ltac:(lia)). nia. }
    bool_cases; try lia; reflexivity. }
  split.
  - intros bh r c Hbh Hr Hc Hrc. rewrite save_all_read by assumption.
    destruct (Nat.eqb_spec (r / BS) (c / BS)) as [E|E]; cbn [andb].
    + rewrite Hgrid by assumption.
      pose proof (Nat.mod_upper_bound c BS ltac:(lia)).
      rewrite Hloc by assumption.
      apply intra_S_upper; try assumption.
      * pose proof (Nat.div_mod_eq r BS). pose proof (Nat.div_mod_eq c BS). nia.
      * intros t' c'. apply Htri.
    + apply scan_attn_all_upper; try assumption.
      intros bh' r' c' _. reflexivity.
  - intros bh r c Hbh Hr Hc E. rewrite save_all_read by assumption.
    rewrite E, Nat.eqb_refl, <- E, Hgrid by assumption. cbn [andb].
    apply Hloc; try assumption. apply Nat.mod_upper_bound. lia.
Qed.

(** C5: with [output_attentions=True] the returned attention matrix is
    zero wherever the key time is after the query time, and each diagonal
    block of [32 x 32] holds the local scores [S_qk'] of the intra-chunk
    transformer, for a solver whose correction matrices are lower
    triangular. *)
Theorem attention_is_causal (q k v beta : tensor R) (scale : R)
    (B H T K V : nat) :
  solver_triangular fwd_prepare_T ->
  valid_shapes q k v beta B H T K V -> K <= 128 ->
  exists o attn,
    snd (parallel_delta_rule fwd_prepare_T q k v beta (Some scale) true false [])
      = inr (o, Some attn)
    /\ shape attn = [B; H; T; T]
    /\ (forall bh tq tk, bh < B * H -> tq < T -> tk < T -> tq < tk ->
          data attn bh tq tk = rO)
    /\ (forall bh tq tk, bh < B * H -> tq < T -> tk < T -> tq / 32 = tk / 32 ->
          data attn bh tq tk
          = intra_S (data q) (data k) (data v) (data beta)
                    (data (fwd_prepare_T k beta 32)) scale T K 32 bh tq (tk mod 32)).
Proof.
  intros Stri Hsh HK.
  rewrite (parallel_delta_rule_run (Some scale) true [] Hsh).
  rewrite (forward_run scale true _ Hsh HK). cbv zeta. cbn [snd].
  destruct (@engine_attention 128 32 (data (fwd_prepare_T k beta 32))
              (data q) (data k) (data v) (data beta) scale B H T K V
              ltac:(lia) ltac:(lia) eq_refl) as (attn & E & Hup & Hdiag).
  { intros bh t c. apply Stri. }
  rewrite E. cbn [option_map]. do 2 eexists. split; [reflexivity|].
  cbn [shape data]. repeat split; assumption.
Qed.

(** ** The scale and the block sizes *)

(** C6 (the code does not do this): the documented default of the scale
    is never applied.  With [scale] omitted the [None] reaches the
    intra-chunk kernel and the call raises after the solver has run, while
    with the scale [1 / sqrt K] given the same call returns. *)
Theorem default_scale_is_not_applied (q k v beta : tensor R)
    (output_attentions : bool) (B H T K V : nat) :
  valid_shapes q k v beta B H T K V -> K <= 128 ->
  parallel_delta_rule fwd_prepare_T q k v beta None output_attentions false []
    = ((if H <? T then [Warn H T] else []) ++ [SolverCall 32], inl CompilationError)
  /\ exists o attn,
       snd (parallel_delta_rule fwd_prepare_T q k v beta (Some (inv_sqrt K))
              output_attentions false []) = inr (o, attn).
Proof.
  intros Hsh HK. split.
  - rewrite (parallel_delta_rule_run None output_attentions [] Hsh).
    destruct Hsh as (Hq & Hk & Hv & Hb).
    unfold forward, chunk_transform_qk_fwd, bind, lift, py_assert, emit, ret, raise.
    rewrite Hq, Hk, Hv. cbn [unpack4 shape_last rev app].
    destruct (Nat.leb_spec K 128) as [_|]; [|lia].
    replace (128 mod 32 =? 0) with true by reflexivity. reflexivity.
  - rewrite (parallel_delta_rule_run (Some (inv_sqrt K)) output_attentions [] Hsh).
    rewrite (forward_run (inv_sqrt K) output_attentions _ Hsh HK).
    cbv zeta. cbn [snd]. do 2 eexists. reflexivity.
Qed.

Lemma forward_log_fixed (B H T : nat) (oa : bool) :
  Forall fixed_sizes (forward_log B H T oa).
Proof.
  unfold forward_log. apply Forall_app. split.
  - repeat constructor.
  - destruct oa; repeat constructor.
Qed.

Lemma forward_fixed_sizes (q k v beta : tensor R) (scale : option R) (oa : bool)
    (tr : list event) :
  Forall fixed_sizes tr ->
  Forall fixed_sizes (fst (forward fwd_prepare_T q k v beta scale oa tr)).
Proof.
  intro Htr.
  unfold forward, chunk_transform_qk_fwd, bind, lift, py_assert, emit, ret, raise.
  destruct (shape_last (shape v)) as [e|V]; [exact Htr|].
  destruct (unpack4 (shape k)) as [e|[[[B H] T] K]]; [exact Htr|].
  destruct (shape_last (shape q)) as [e|Kq]; [exact Htr|].
  destruct (Kq <=? 128); [|exact Htr].
  replace (128 mod 32 =? 0) with true by reflexivity.
  assert (H1 : Forall fixed_sizes (tr ++ [SolverCall 32])).
  { apply Forall_app. split; [exact Htr | repeat constructor]. }
  destruct scale as [s|]; [|exact H1].
  rewrite launch_transform. cbv zeta. cbn [data]. rewrite launch_scan.
  assert (H2 : Forall fixed_sizes
            (((tr ++ [SolverCall 32])
              ++ [Launch K_chunk_transform_qk_fwd (cdiv T 32, B * H) 32 0])
              ++ [Launch K_parallel_delta_rule_fwd (cdiv T 128, B * H) 128 32])).
  { repeat (apply Forall_app; split); try exact Htr; repeat constructor. }
  destruct oa; cbn [option_map fst]; [|exact H2].
  apply Forall_app. split; [exact H2 | repeat constructor].
Qed.

(** C10: whatever the arguments of [parallel_delta_rule], every solver
    call and launch it makes uses the block sizes [forward] fixes: chunks of
    [32] for the correction, the intra-chunk kernel, the key blocks of the
    scan and the diagonal blocks, query blocks of [128]; no argument of the
    entry point reaches them.  On well-formed input the device work is
    exactly [forward_log]. *)
Theorem chunk_sizes_are_fixed (q k v beta : tensor R) (scale : option R)
    (output_attentions head_first : bool) :
  Forall fixed_sizes
    (fst (parallel_delta_rule fwd_prepare_T q k v beta scale output_attentions
            head_first []))
  /\ forall B H T K V s,
       valid_shapes q k v beta B H T K V -> K <= 128 -> scale = Some s ->
       filter device_work
         (fst (parallel_delta_rule fwd_prepare_T q k v beta scale
                 output_attentions false []))
       = forward_log B H T output_attentions.
Proof.
  split.
  - unfold parallel_delta_rule, bind, lift, emit, ret, raise.
    destruct head_first; [constructor|]. cbn [negb andb].
    destruct (shape_at (shape q) 1) as [e|d1]; [constructor|].
    destruct (shape_at (shape q) 2) as [e|d2]; [constructor|].
    destruct (d1 <? d2); apply forward_fixed_sizes; repeat constructor.
  - intros B H T K V s Hsh HK ->.
    rewrite (parallel_delta_rule_run (Some s) output_attentions [] Hsh).
    rewrite (forward_run s output_attentions _ Hsh HK). cbn [fst app].
    rewrite filter_app.
    replace (filter device_work (if H <? T then [Warn H T] else [])) with (@nil event)
      by (destruct (H <? T); reflexivity).
    unfold forward_log. destruct output_attentions; reflexivity.
Qed.

(** ** The reference solver meets the contract of the solver *)

Lemma nth_map_seq (A : Type) (g : nat -> A) (d : A) (n i : nat) :
  nth i (map g (seq 0 n)) d = if i <? n then g i else d.
Proof.
  destruct (Nat.ltb_spec i n) as [Hi|Hi].
  - rewrite (nth_indep _ d (g 0)) by (rewrite length_map, length_seq; exact Hi).
    rewrite map_nth, seq_nth by exact Hi. reflexivity.
  - apply nth_overflow. rewrite length_map, length_seq. exact Hi.
Qed.

Lemma tab2_read (n m : nat) (f : Block R) (i j : nat) :
  tab2 n m f i j = if (i <? n) && (j <? m) then f i j else rO.
Proof.
  unfold tab2. rewrite nth_map_seq.
  destruct (i <? n); cbn [andb]; [apply nth_map_seq | destruct j; reflexivity].
Qed.

Lemma tab_chunks_read (nbh nn c : nat) (f : chunked R) (bh n i j : nat) :
  tab_chunks nbh nn c f bh n i j
  = if (bh <? nbh) && (n <? nn) && (i <? c) && (j <? c) then f bh n i j else rO.
Proof.
  unfold tab_chunks. rewrite nth_map_seq.
  destruct (bh <? nbh); cbn [andb];
    [|destruct n; cbn [nth]; destruct i; cbn [nth]; destruct j; reflexivity].
  rewrite nth_map_seq.
  destruct (n <? nn); cbn [andb];
    [|destruct i; cbn [nth]; destruct j; reflexivity].
  rewrite nth_map_seq.
  destruct (i <? c); cbn [andb]; [apply nth_map_seq | destruct j; reflexivity].
Qed.

Lemma T_row_upper0 (BN i : nat) (T : chunked R) (bh n : nat) :
  upper0 BN (T bh n) -> upper0 BN (T_row BN i T bh n).
Proof.
  intros HT r c Hr Hc Hrc. unfold T_row. rewrite tab2_read.
  bool_cases; try lia; try reflexivity; apply HT; assumption.
Qed.

Lemma T_row_agree (BN i : nat) (T T' : chunked R) (bh n t0 : nat) :
  upper0 BN (T bh n) -> upper0 BN (T' bh n) ->
  rows_agree BN n t0 (T bh n) (T' bh n) ->
  rows_agree BN n t0 (T_row BN i T bh n) (T_row BN i T' bh n).
Proof.
  intros HU HU' HA r c Hr Hc Ht. unfold T_row. rewrite !tab2_read.
  destruct ((r <? BN) && (c <? BN)); [|reflexivity].
  destruct (Nat.eqb_spec r i) as [->|Hne]; cbn [andb]; [|apply HA; assumption].
  destruct (Nat.ltb_spec c i) as [Hci|Hci]; [|apply HA; assumption].
  rewrite (HA i c) by assumption. f_equal.
  apply sum_n_ext. intros m Hm.
  destruct (Nat.lt_ge_cases m i) as [Hmi|Hmi].
  - rewrite (HA i m), (HA m c) by (assumption || lia). reflexivity.
  - rewrite (HU i m), (HU' i m) by assumption. ring.
Qed.

Lemma T_loop_invariant (BN : nat) (idx : list nat) (T T' : chunked R) (bh n t0 : nat) :
  upper0 BN (T bh n) -> upper0 BN (T' bh n) ->
  rows_agree BN n t0 (T bh n) (T' bh n) ->
  let L := fold_left (fun T i => T_row BN i T) idx in
  upper0 BN (L T bh n) /\ rows_agree BN n t0 (L T bh n) (L T' bh n).
Proof.
  revert T T'. induction idx as [|i idx IH]; intros T T' HU HU' HA; cbn [fold_left].
  - split; assumption.
  - apply IH.
    + apply T_row_upper0; assumption.
    + apply T_row_upper0; assumption.
    + apply T_row_agree; assumption.
Qed.

Lemma T_init_upper0 (d_k BN : nat) (k kb : chunked R) (bh n : nat) :
  upper0 BN (T_init d_k k kb bh n).
Proof.
  intros r c Hr Hc Hrc. unfold T_init, masked_fill, triu.
  destruct (Nat.leb_spec (r + 0) c); [ring | lia].
Qed.

Lemma reference_solver_triangular : solver_triangular reference_solver.
Proof.
  intros k beta BS bh t c Htc Hc. unfold reference_solver.
  destruct (unpack4 (shape k)) as [e|[[[b h] l] d_k]]; [reflexivity|].
  cbn [data]. unfold rearrange_merge, oracle_T. rewrite tab_chunks_read.
  destruct (_ && _) eqn:E; [|reflexivity].
  repeat (apply andb_true_iff in E; destruct E as [E ?]).
  assert (Hr : t mod BS < BS) by (apply Nat.mod_upper_bound; lia).
  match goal with
  | |- (fold_left ?f ?idx ?T0 bh ?n ?r c + _)%R = _ =>
      pose proof (@T_loop_invariant BS idx T0 T0 bh n 0
                    (T_init_upper0 _ _ _ _ _) (T_init_upper0 _ _ _ _ _)
                    (fun _ _ _ _ _ => eq_refl)) as [HU _]
  end.
  cbv zeta in HU. rewrite HU by lia.
  unfold eye. destruct (Nat.eqb_spec (t mod BS) c); [lia | ring].
Qed.

Lemma reference_solver_causal : solver_causal reference_solver.
Proof.
  intros k k' beta beta' B H T K BS bh t0 Hk Hk' Ek Eb t c Ht0 Ht Hc.
  unfold reference_solver. rewrite Hk, Hk'. cbn [unpack4 data].
  unfold rearrange_merge, oracle_T. rewrite !tab_chunks_read.
  destruct (_ && _) eqn:E; [|reflexivity].
  assert (Hr : t mod BS < BS) by (apply Nat.mod_upper_bound; lia).
  pose proof (Nat.div_mod_eq t BS) as Et.
  match goal with
  | |- (fold_left ?f ?idx ?T0 bh ?n ?r c + _)%R = (fold_left _ _ ?T0' bh _ _ _ + _)%R =>
      pose proof (@T_loop_invariant BS idx T0 T0' bh n t
                    (T_init_upper0 _ _ _ _ _) (T_init_upper0 _ _ _ _ _)) as L
  end.
  destruct L as [_ HA].
  - intros r1 c1 Hr1 Hc1 Hle. unfold T_init, masked_fill, triu, matmul_t, rearrange_split.
    destruct (Nat.leb_spec (r1 + 0) c1); [reflexivity|].
    f_equal. apply sum_n_ext. intros d Hd.
    rewrite (Ek (t / BS * BS + r1) d), (Ek (t / BS * BS + c1) d),
      (Eb (t / BS * BS + r1)) by lia.
    reflexivity.
  - cbv zeta in HA. rewrite HA by lia. reflexivity.
Qed.

(** ** The reference computation, part by part *)

Section OracleIntra.

Variables (q k v beta : Tdata R) (nbh l d_k BN : nat).
Hypothesis HBN : 0 < BN.
Hypothesis Hdiv : l mod BN = 0.

Let vg : Tdata R := fun bh t d => (v bh t d * beta bh t 0)%R.
Variable A : Tdata R.
Hypothesis HA : forall bh n j m, j < BN ->
  A bh (n * BN + j) m
  = oracle_T nbh (l / BN) d_k BN (rearrange_split BN k)
      (rearrange_split BN (fun bh t d => (k bh t d * beta bh t 0)%R)) bh n j m.
Let parts := oracle_intra q k v beta nbh l d_k BN.

Lemma full_chunk (t : nat) : t < l -> chunk_rows l BN (t / BN) = BN.
Proof.
  intro Ht. unfold chunk_rows.
  pose proof (Nat.div_mod_eq t BN). pose proof (Nat.mod_upper_bound t BN ltac:(lia)).
  pose proof (Nat.div_mod_eq l BN). rewrite Hdiv in *.
  assert (t / BN < l / BN) by (apply Nat.Div0.div_lt_upper_bound; lia).
  nia.
Qed.

(** The chunk-local tensors of the reference are those of the
    specification's transformer, for the gated values and the scale
    [d_k ** -0.5]. *)
Lemma oracle_intra_spec (bh t c : nat) :
  t < l ->
  let '(q2, k2, v2, k_beta2, o_intra, _) := parts in
  q2 bh t c = intra_Q q k vg beta A (inv_sqrt d_k) l d_k BN bh t c
  /\ k2 bh t c = intra_K q k vg beta A (inv_sqrt d_k) l d_k BN bh t c
  /\ o_intra bh t c = intra_O q k vg beta A (inv_sqrt d_k) l d_k BN bh t c
  /\ v2 bh t c = vg bh t c
  /\ k_beta2 bh t c = (k bh t c * beta bh t 0)%R.
Proof.
  intro Ht. unfold parts, oracle_intra.
  pose proof (Nat.div_mod_eq t BN) as Et.
  assert (Hrow : t / BN * BN + t mod BN = t) by lia.
  assert (Hr : t mod BN < BN) by (apply Nat.mod_upper_bound; lia).
  unfold intra_Q, intra_K, intra_O, intra_at, intra_chunk. cbn [fst snd].
  rewrite (full_chunk Ht).
  unfold rearrange_merge, rearrange_split, matmul, matmul_t, masked_fill, triu,
    bsub, tl_trans, chunk_of, vg.
  repeat split.
  - f_equal. apply sum_n_ext. intros m Hm. f_equal.
    apply sum_n_ext. intros j Hj. rewrite HA by exact Hj.
    unfold rearrange_split. bool_cases; try lia; reflexivity.
  - f_equal. apply sum_n_ext. intros m Hm. f_equal.
    apply sum_n_ext. intros j Hj. rewrite HA by exact Hj.
    unfold rearrange_split. bool_cases; try lia; reflexivity.
  - apply sum_n_ext. intros m Hm. f_equal.
    apply sum_n_ext. intros j Hj. rewrite HA by exact Hj.
    unfold rearrange_split. bool_cases; try lia; reflexivity.
  - rewrite Hrow. reflexivity.
  - rewrite Hrow. reflexivity.
Qed.

End OracleIntra.

Lemma rows_from_nat (x : Mat R) (l a r c : nat) :
  rows_from x l (Z.of_nat a) r c = if a + r <? l then x (a + r) c else rO.
Proof.
  unfold rows_from. rewrite <- Nat2Z.inj_add, in_bounds_nat, Nat2Z.id. reflexivity.
Qed.

Lemma efold_ok (A S : Type) (f : S -> A -> exn + S) (g : S -> A -> S)
    (P : S -> Prop) (l : list A) (s : S) :
  (forall s a, In a l -> P s -> f s a = inr (g s a) /\ P (g s a)) ->
  P s ->
  efold f l s = inr (fold_left g l s) /\ P (fold_left g l s).
Proof.
  revert s. induction l as [|a l IH]; intros s Hf Hs; cbn [fold_left].
  - split; [reflexivity | exact Hs].
  - change (efold f (a :: l) s) with (ebind (f s a) (efold f l)).
    destruct (Hf s a (or_introl eq_refl) Hs) as [E HP]. rewrite E. cbn [ebind].
    apply IH; [|exact HP]. intros s' a' Hin. apply Hf. right. exact Hin.
Qed.

Lemma efold_cons (A S : Type) (f : S -> A -> exn + S) (a : A) (l : list A) (s : S) :
  efold f (a :: l) s = ebind (f s a) (efold f l).
Proof. reflexivity. Qed.

Section OracleLoops.

Variables (k v k_beta : Tdata R) (l d_k BM BN : nat) (i_t : nat).
Hypothesis HBN : 0 < BN.
Hypothesis Hrows : Nat.min BM (l - i_t * BM) = BM.

Let i := Z.of_nat (i_t * BM).

(** The loops over [j] run without error and leave [q_i] and [o_i] as
    [oracle_qo] computes them. *)
Lemma oracle_loop_run (masked : bool) (offs : list Z)
    (q_i o_i : nat -> Block R) (A : Tdata R) :
  exists A',
    efold (oracle_body masked k v k_beta l d_k BM BN i) offs (q_i, o_i, A)
    = inr (let st := fold_left (oracle_qo masked k v k_beta l d_k BN i) offs (q_i, o_i) in
           (fst st, snd st, A')).
Proof.
  revert q_i o_i A. induction offs as [|j offs IH]; intros q_i o_i A;
    cbn [fold_left].
  - eexists. reflexivity.
  - rewrite efold_cons.
    assert (Hi : Z.to_nat i = i_t * BM) by (unfold i; apply Nat2Z.id).
    unfold oracle_body at 1. rewrite Hi, Hrows, Nat.eqb_refl.
    replace (masked && negb true && negb (BM =? 1)) with false
      by (destruct masked; reflexivity).
    cbn [ebind].
    match goal with
    | |- exists A', efold _ _ (?q', ?o', ?A1) = _ =>
        destruct (IH q' o' A1) as [A' E]
    end.
    exists A'. exact E.
Qed.

Variables (bh V : nat) (Ko : Mat R) (gate : nat -> R).
Hypothesis Hkb : forall t c, t < l -> k_beta bh t c = (Ko t c * gate t)%R.

(** One pass of a loop body of the reference follows the specification's
    visit, on every row of slice [bh]. *)
Lemma oracle_qo_visit (masked : bool) (n r : nat)
    (st : (nat -> Block R) * (nat -> Block R)) (st' : Block R * Block R) :
  masked = true \/ n * BN + BN <= i_t * BM ->
  row_agree d_k V r (fst st bh, snd st bh) st' ->
  let st1 := oracle_qo masked k v k_beta l d_k BN i st (Z.of_nat (n * BN)) in
  row_agree d_k V r (fst st1 bh, snd st1 bh)
    (visit (k bh) Ko (v bh) gate l d_k BM BN i_t st' n).
Proof.
  intros Hmask [Hq Ho]. destruct st as [q_i o_i], st' as [Qr Oa].
  cbn [fst snd] in Hq, Ho. cbv zeta. unfold oracle_qo, visit, row_agree. cbn [fst snd].
  set (nk := chunk_rows l BN n).
  assert (Hnk : nk <= BN) by (unfold nk, chunk_rows; lia).
  assert (Hin : forall s, s < BN -> (n * BN + s <? l) = (s <? nk)).
  { intros s Hs. unfold nk, chunk_rows. bool_cases; try reflexivity; lia. }
  set (mask := fun r : nat => (Z.of_nat (n * BN) + Z.of_nat BN <=? i + Z.of_nat r)%Z).
  assert (Hms : mask r = (n * BN + BN <=? i_t * BM + r)).
  { unfold mask, i. bool_cases; try reflexivity; lia. }
  set (A_ij := if masked
               then fun bh => masked_fill (fun r _ => negb (mask r))
                                (matmul_t d_k (q_i bh) (rows_from (k bh) l (Z.of_nat (n * BN))))
               else fun bh => matmul_t d_k (q_i bh) (rows_from (k bh) l (Z.of_nat (n * BN)))).
  assert (HA : forall s, s < nk ->
            A_ij bh r s
            = if n * BN + BN <=? i_t * BM + r
              then sum_n d_k (fun c => Qr r c * k bh (n * BN + s)%nat c)%R else rO).
  { intros s Hs.
    assert (Hdot : matmul_t d_k (q_i bh) (rows_from (k bh) l (Z.of_nat (n * BN))) r s
                   = sum_n d_k (fun c => Qr r c * k bh (n * BN + s)%nat c)%R).
    { unfold matmul_t. apply sum_n_ext. intros c Hc.
      rewrite Hq, rows_from_nat, Hin by lia. bool_cases; try lia. reflexivity. }
    unfold A_ij. destruct masked.
    - unfold masked_fill. rewrite Hms. destruct (_ <=? _); cbn [negb];
        [exact Hdot | reflexivity].
    - destruct Hmask as [Hf|Hle]; [discriminate|].
      destruct (Nat.leb_spec (n * BN + BN) (i_t * BM + r)); [exact Hdot | lia]. }
  split; intros c Hc.
  - unfold bsub, matmul. rewrite Hq by assumption. f_equal.
    rewrite dot_pad with (n := nk); [|assumption|].
    + apply sum_n_ext. intros s Hs. rewrite HA by assumption. f_equal.
      assert (n * BN + s < l) by (unfold nk, chunk_rows in Hs; lia).
      rewrite rows_from_nat, Hin by lia. bool_cases; try lia. apply Hkb. assumption.
    + intros s H1 H2. right. rewrite rows_from_nat, Hin by lia.
      bool_cases; try lia; reflexivity.
  - unfold badd, matmul. rewrite Ho by assumption. f_equal.
    rewrite dot_pad with (n := nk); [|assumption|].
    + apply sum_n_ext. intros s Hs. rewrite HA by assumption. f_equal.
      rewrite rows_from_nat, Hin by lia. bool_cases; try lia. reflexivity.
    + intros s H1 H2. right. rewrite rows_from_nat, Hin by lia.
      bool_cases; try lia; reflexivity.
Qed.

Lemma oracle_fold_visit (r : nat) (fl_ns : list (bool * nat)) :
  (forall fl n, In (fl, n) fl_ns -> fl = true \/ n * BN + BN <= i_t * BM) ->
  forall st st', row_agree d_k V r (fst st bh, snd st bh) st' ->
  let st1 := fold_left
               (fun st mo => oracle_qo (fst mo) k v k_beta l d_k BN i st (snd mo))
               (map (fun p => (fst p, Z.of_nat (snd p * BN))) fl_ns) st in
  row_agree d_k V r (fst st1 bh, snd st1 bh)
    (fold_left (visit (k bh) Ko (v bh) gate l d_k BM BN i_t) (map snd fl_ns) st').
Proof.
  induction fl_ns as [|[fl n] fl_ns IH]; intros Hfl st st' H0; cbn [map fold_left fst snd].
  - exact H0.
  - apply IH.
    + intros fl' n' Hin. apply (Hfl fl' n'). right. exact Hin.
    + apply oracle_qo_visit; [|exact H0]. apply (Hfl fl n). left. reflexivity.
Qed.

(** [o_i] at the end of a block is the output of the scanner. *)
Lemma oracle_o_block_scanner (q o_intra : Tdata R) (r c : nat) :
  BM mod BN = 0 -> i_t * BM + r < l -> c < V ->
  oracle_o_block q k v k_beta o_intra l d_k BM BN i_t bh r c
  = snd (scanner (q bh) (k bh) Ko (v bh) gate (o_intra bh) l d_k BM BN i_t) r c.
Proof.
  intros Hdiv Hr Hc.
  destruct (@scan_offsets_flags BM BN i_t HBN Hdiv) as (fl_ns & E1 & E2 & Hfl).
  unfold oracle_o_block, scanner. rewrite E1, <- E2.
  pose proof (@oracle_fold_visit r fl_ns Hfl
                (fun bh => rows_from (q bh) l i, fun bh => rows_from (o_intra bh) l i)
                (chunk_of (q bh) BM i_t, chunk_of (o_intra bh) BM i_t)) as L.
  cbv zeta in L. cbn [fst snd] in L. apply L; [|exact Hc].
  unfold row_agree, chunk_of, i. cbn [fst snd].
  split; intros c' Hc'; rewrite rows_from_nat; bool_cases; try lia; reflexivity.
Qed.

End OracleLoops.

Lemma fold_left_flag (S : Type) (f : bool -> S -> Z -> S) (fl : bool)
    (offs : list Z) (s : S) :
  fold_left (fun st mo => f (fst mo) st (snd mo)) (map (pair fl) offs) s
  = fold_left (f fl) offs s.
Proof.
  revert s. induction offs as [|j offs IH]; intro s; cbn [map fold_left fst snd];
    [reflexivity | apply IH].
Qed.

(** One block of the reference: the loops run, and [o] gets [o_i]. *)
Lemma oracle_block_run (q k v k_beta o_intra : Tdata R) (l d_k d_v BM BN i_t : nat)
    (A o : Tdata R) :
  Nat.min BM (l - i_t * BM) = BM ->
  exists A',
    oracle_block q k v k_beta o_intra l d_k d_v BM BN (A, o) (Z.of_nat (i_t * BM))
    = inr (A', fun bh =>
                 slice_assign (o bh) (l, d_v) (Z.of_nat (i_t * BM)) 0%Z BM d_v
                   (oracle_o_block q k v k_beta o_intra l d_k BM BN i_t bh)).
Proof.
  intro Hrows. unfold oracle_block.
  replace (Z.of_nat (i_t * BM) + Z.of_nat BM - 2 * Z.of_nat BN)%Z
    with ((Z.of_nat i_t + 1) * Z.of_nat BM - 2 * Z.of_nat BN)%Z by lia.
  replace (Z.of_nat (i_t * BM) - Z.of_nat BN)%Z
    with (Z.of_nat i_t * Z.of_nat BM - Z.of_nat BN)%Z by lia.
  fold (overlap_offsets BM BN i_t). fold (disjoint_offsets BM BN i_t).
  destruct (@oracle_loop_run k v k_beta l d_k BM BN i_t Hrows true
              (overlap_offsets BM BN i_t)
              (fun bh => rows_from (q bh) l (Z.of_nat (i_t * BM)))
              (fun bh => rows_from (o_intra bh) l (Z.of_nat (i_t * BM))) A)
    as [A1 E1].
  rewrite E1. cbv zeta. cbn [ebind].
  match goal with
  | |- context [efold _ _ (fst ?st, snd ?st, A1)] =>
      destruct (@oracle_loop_run k v k_beta l d_k BM BN i_t Hrows false
                  (disjoint_offsets BM BN i_t) (fst st) (snd st) A1) as [A2 E2]
  end.
  rewrite E2. cbv zeta. cbn [ebind].
  exists A2. do 2 f_equal.
  unfold oracle_o_block, scan_offsets. cbv zeta. rewrite fold_left_app.
  rewrite !(fold_left_flag
              (fun fl st j => oracle_qo fl k v k_beta l d_k BN (Z.of_nat (i_t * BM)) st j)).
  rewrite <- surjective_pairing. reflexivity.
Qed.

Lemma oracle_run (q k v k_beta o_intra : Tdata R) (l d_k d_v BM BN : nat)
    (idx : list nat) :
  (forall i_t, In i_t idx -> Nat.min BM (l - i_t * BM) = BM) ->
  forall A o, exists A',
    efold (oracle_block q k v k_beta o_intra l d_k d_v BM BN)
          (map (fun i_t => Z.of_nat (i_t * BM)) idx) (A, o)
    = inr (A', oracle_o (oracle_o_block q k v k_beta o_intra l d_k BM BN)
                 l d_v BM idx o).
Proof.
  induction idx as [|i_t idx IH]; intros Hrows A o; cbn [map].
  - eexists. reflexivity.
  - rewrite efold_cons.
    destruct (@oracle_block_run q k v k_beta o_intra l d_k d_v BM BN i_t A o
                (Hrows i_t (or_introl eq_refl))) as [A1 E1].
    rewrite E1. cbn [ebind].
    match goal with
    | |- exists A', efold _ _ (A1, ?o1) = _ =>
        destruct (IH (fun j Hj => Hrows j (or_intror Hj)) A1 o1) as [A' E]
    end.
    exists A'. exact E.
Qed.

Lemma range_from_up (BM cnt a : nat) :
  range_from cnt (Z.of_nat (a * BM)) (Z.of_nat BM)
  = map (fun n => Z.of_nat (n * BM)) (seq a cnt).
Proof.
  revert a. induction cnt as [|c IH]; intro a; [reflexivity|].
  cbn [range_from seq map]. f_equal. rewrite <- IH. f_equal. lia.
Qed.

(** [range(0, l, BM)] when [BM] divides [l]. *)
Lemma py_range_blocks (l BM : nat) :
  0 < BM -> l mod BM = 0 ->
  py_range 0 (Z.of_nat l) (Z.of_nat BM)
  = map (fun i_t => Z.of_nat (i_t * BM)) (seq 0 (l / BM)).
Proof.
  intros HBM Hdiv. unfold py_range.
  destruct (Z.ltb_spec 0 (Z.of_nat BM)); [|lia].
  rewrite <- range_from_up. cbn [Nat.mul Z.of_nat]. f_equal.
  pose proof (Nat.div_mod_eq l BM) as E. rewrite Hdiv, Nat.add_0_r in E.
  replace (Z.of_nat l - 0 + Z.of_nat BM - 1)%Z
    with (Z.of_nat (l / BM) * Z.of_nat BM + (Z.of_nat BM - 1))%Z by nia.
  rewrite Z.div_add_l by lia. rewrite Z.div_small by lia. lia.
Qed.

Lemma oracle_o_read (val : nat -> nat -> Block R) (l d_v BM : nat)
    (idx : list nat) (o : Tdata R) (bh t c : nat) :
  0 < BM -> t < l -> c < d_v ->
  oracle_o val l d_v BM idx o bh t c
  = if existsb (Nat.eqb (t / BM)) idx then val (t / BM) bh (t mod BM) c else o bh t c.
Proof.
  intros HBM Ht Hc. unfold oracle_o. revert o.
  induction idx as [|i_t idx IH]; intro o; cbn [fold_left existsb]; [reflexivity|].
  rewrite IH. destruct (existsb _ idx); [rewrite orb_true_r; reflexivity|].
  rewrite orb_false_r. unfold slice_assign. change 0%Z with (Z.of_nat 0).
  rewrite tl_store_nat.
  pose proof (div_block i_t t HBM) as D.
  pose proof (Nat.div_mod_eq t BM) as E.
  destruct (Nat.eqb_spec (t / BM) i_t) as [Ei|Ei].
  - apply D in Ei. bool_cases; try lia. f_equal; nia.
  - bool_cases; try reflexivity. exfalso. apply Ei. apply D. lia.
Qed.

Lemma shape_eqb_refl (s : list nat) : shape_eqb s s = true.
Proof. unfold shape_eqb. destruct (list_eq_dec Nat.eq_dec s s); congruence. Qed.

Lemma cdiv_exact (T BN : nat) : 0 < BN -> T mod BN = 0 -> cdiv T BN = T / BN.
Proof.
  intros HBN HT. unfold cdiv. pose proof (Nat.div_mod_eq T BN) as E.
  symmetry. apply Nat.div_unique with (r := BN - 1); lia.
Qed.

Lemma reference_solver_chunk (k beta : tensor R) (B H T K BN bh n j m : nat) :
  shape k = [B; H; T; K] -> T mod BN = 0 -> j < BN ->
  data (reference_solver k beta BN) bh (n * BN + j) m
  = oracle_T (B * H) (T / BN) K BN (rearrange_split BN (data k))
      (rearrange_split BN (fun bh t d => (data k bh t d * data beta bh t 0)%R))
      bh n j m.
Proof.
  intros Hk HT Hj. unfold reference_solver. rewrite Hk. cbn [unpack4 data].
  unfold rearrange_merge. rewrite cdiv_exact by (assumption || lia).
  replace ((n * BN + j) / BN) with n
    by (apply Nat.div_unique with (r := j); lia).
  replace ((n * BN + j) mod BN) with j
    by (rewrite Nat.add_comm, Nat.Div0.mod_add; symmetry; apply Nat.mod_small; exact Hj).
  reflexivity.
Qed.

(** The output of the reference, entry by entry: the scanner of the
    specification run on the transformer's outputs, for the gated values,
    the scale [d_k ** -0.5] and the correction matrices of the forward
    substitution.  It needs the sequence length to be a multiple of [BM]. *)
Lemma oracle_output (q k v beta : tensor R) (B H T K V BM BN : nat) :
  valid_shapes q k v beta B H T K V ->
  0 < BN -> 0 < BM -> BM mod BN = 0 -> T mod BM = 0 ->
  let vg : Tdata R := fun bh t d => (data v bh t d * data beta bh t 0)%R in
  let A := data (reference_solver k beta BN) in
  exists o A_ref,
    naive_delta_rule_parallel q k v beta BM BN = inr (Tensor (shape v) o, A_ref)
    /\ forall bh t c, t < T -> c < V ->
       o bh t c
       = snd (scanner (intra_Q (data q) (data k) vg (data beta) A (inv_sqrt K) T K BN bh)
                      (intra_K (data q) (data k) vg (data beta) A (inv_sqrt K) T K BN bh)
                      (data k bh) (vg bh) (fun t => data beta bh t 0)
                      (intra_O (data q) (data k) vg (data beta) A (inv_sqrt K) T K BN bh)
                      T K BM BN (t / BM)) (t mod BM) c.
Proof.
  intros (Hq & Hk & Hv & Hb) HBN HBM Hdiv HT vg A.
  assert (HTN : T mod BN = 0).
  { pose proof (Nat.div_mod_eq T BM). pose proof (Nat.div_mod_eq BM BN).
    replace T with ((T / BM * (BM / BN)) * BN) by nia.
    apply Nat.Div0.mod_mul. }
  unfold naive_delta_rule_parallel. rewrite Hq, Hk, Hv, Hb.
  cbn [unpack4 shape_last rev app ebind]. rewrite !shape_eqb_refl.
  destruct (Nat.ltb_spec 0 BN); [|lia]. rewrite Hdiv, HTN. cbn [Nat.eqb andb negb].
  pose proof (fun bh t c => @oracle_intra_spec (data q) (data k) (data v) (data beta)
                (B * H) T K BN HBN HTN A
                (fun bh n j m Hj => @reference_solver_chunk k beta B H T K BN bh n j m Hk HTN Hj)
                bh t c) as Hspec.
  destruct (oracle_intra (data q) (data k) (data v) (data beta) (B * H) T K BN)
    as [[[[[q2 k2] v2] kb2] o_intra] A_local].
  rewrite py_range_blocks by assumption.
  destruct (@oracle_run q2 k2 v2 kb2 o_intra T K V BM BN (seq 0 (T / BM))) with
    (A := @zeros R ops) (o := @empty R ops) as [A' E].
  { intros i_t Hin. apply in_seq in Hin. pose proof (Nat.div_mod_eq T BM). nia. }
  rewrite E. cbn [ebind]. do 2 eexists. split; [reflexivity|].
  intros bh t c Ht Hc.
  rewrite oracle_o_read by assumption.
  assert (Hblk : t / BM < T / BM).
  { apply Nat.Div0.div_lt_upper_bound. pose proof (Nat.div_mod_eq T BM). lia. }
  assert (Hex : existsb (Nat.eqb (t / BM)) (seq 0 (T / BM)) = true).
  { apply existsb_exists. exists (t / BM). split; [apply in_seq; lia | apply Nat.eqb_refl]. }
  rewrite Hex.
  pose proof (Nat.div_mod_eq t BM) as Et.
  assert (Hrow : t / BM * BM + t mod BM = t) by lia.
  assert (Hmin : Nat.min BM (T - t / BM * BM) = BM)
    by (pose proof (Nat.div_mod_eq T BM); nia).
  rewrite oracle_o_block_scanner
    with (V := V) (Ko := data k bh) (gate := fun t => data beta bh t 0);
    try assumption; try lia.
  - refine (proj2 (@scanner_row_congr T K V BM BN (t / BM) (t mod BM)
              _ _ _ _ _ _ _ _ _ _ _ _ HBN _ _ _) c Hc); rewrite Hrow.
    + intros t' Ht' _. repeat split; intros; try apply Hspec; try reflexivity; assumption.
    + intros c' Hc'. apply Hspec. assumption.
    + intros c' Hc'. apply Hspec. assumption.
  - intros t' c' Ht'. apply Hspec. assumption.
Qed.

(** ** The engine against the reference *)

(** The engine computes the output of the reference when it is given the
    values already multiplied by the gates: the kernels use [v] where the
    reference uses [v * beta]. *)
Lemma engine_on_gated_values_matches_oracle (q k v vb beta : tensor R)
    (oa : bool) (B H T K V : nat) :
  valid_shapes q k v beta B H T K V -> shape vb = [B; H; T; V] ->
  K <= 128 -> T mod 128 = 0 ->
  solver_is_reference fwd_prepare_T k beta B H T ->
  (forall bh t c, bh < B * H -> t < T -> c < V ->
     data vb bh t c = (data v bh t c * data beta bh t 0)%R) ->
  exists o attn o_ref A_ref,
    forward fwd_prepare_T q k vb beta (Some (inv_sqrt K)) oa []
      = (forward_log B H T oa, inr (o, attn))
    /\ naive_delta_rule_parallel q k v beta 128 32 = inr (o_ref, A_ref)
    /\ shape o = shape o_ref
    /\ forall bh t c, bh < B * H -> t < T -> c < V ->
         data o bh t c = data o_ref bh t c.
Proof.
  intros Hsh Hvb HK HT Hsolver Hgated.
  assert (Hsh' : valid_shapes q k vb beta B H T K V).
  { destruct Hsh as (Hq & Hk & Hv & Hb). repeat split; assumption. }
  destruct (@oracle_output q k v beta B H T K V 128 32 Hsh
              ltac:(lia) ltac:(lia) eq_refl HT) as (o_ref & A_ref & Eor & Hor).
  do 4 eexists. split; [|split; [exact Eor | split]].
  - rewrite (forward_run (inv_sqrt K) oa [] Hsh' HK). reflexivity.
  - cbn [shape]. destruct Hsh as (_ & _ & Hv & _). congruence.
  - intros bh t c Hbh Ht Hc. cbv zeta. cbn [data fst].
    rewrite engine_output by (assumption || lia || reflexivity).
    rewrite Hor by assumption.
    set (A := data (fwd_prepare_T k beta 32)).
    set (Aref := data (reference_solver k beta 32)).
    set (vg := fun bh t d => (data v bh t d * data beta bh t 0)%R).
    pose proof (Nat.div_mod_eq t 128) as Et.
    assert (Hrow : t / 128 * 128 + t mod 128 = t) by lia.
    assert (Htri : forall t c, t < T -> t mod 32 < c -> c < 32 -> Aref bh t c = rO).
    { intros t1 c1 _ H1 H2. apply reference_solver_triangular; assumption. }
    symmetry.
    refine (proj2 (@scanner_row_congr T K V 128 32 (t / 128) (t mod 128)
              _ _ _ _ _ _ _ _ _ _ _ _ ltac:(lia) _ _ _) c Hc); rewrite Hrow.
    + intros t1 Ht1 _. repeat split.
      * intros c1 Hc1.
        apply (@intra_K_past (data q) (data k) vg (data beta) Aref
                 (data k) (data vb) (data beta) A (inv_sqrt K) T K 32 bh (T + 32));
          try assumption; try lia; intros; try reflexivity.
        -- symmetry. apply Hsolver; assumption.
        -- pose proof (Nat.div_mod_eq t1 32). lia.
      * intros c1 Hc1. symmetry. apply Hgated; assumption.
    + apply (@intra_OQ_causal (data q) (data k) vg (data beta) Aref
               (data k) (data vb) (data beta) A (inv_sqrt K) T K V 32 bh (T + 32));
        try assumption; try lia; intros; try reflexivity.
      * symmetry. apply Hgated; assumption.
      * symmetry. apply Hsolver; assumption.
    + apply (@intra_OQ_causal (data q) (data k) vg (data beta) Aref
               (data k) (data vb) (data beta) A (inv_sqrt K) T K V 32 bh (T + 32));
        try assumption; try lia; intros; try reflexivity.
      * symmetry. apply Hgated; assumption.
      * symmetry. apply Hsolver; assumption.
Qed.

(** C1, as amended: when the sequence length is a multiple of [128] (the
    reference accepts no other length), the scale is [1 / sqrt K], the
    solver returns the correction matrices of the forward substitution, and
    gating leaves the values unchanged ([v * beta = v], as when every gate
    is [1]), the output of [forward] equals the output of the reference. *)
Theorem engine_matches_oracle (q k v beta : tensor R)
    (output_attentions : bool) (B H T K V : nat) :
  valid_shapes q k v beta B H T K V ->
  K <= 128 -> T mod 128 = 0 ->
  solver_is_reference fwd_prepare_T k beta B H T ->
  (forall bh t c, bh < B * H -> t < T -> c < V ->
     (data v bh t c * data beta bh t 0)%R = data v bh t c) ->
  exists o attn o_ref A_ref,
    forward fwd_prepare_T q k v beta (Some (inv_sqrt K)) output_attentions []
      = (forward_log B H T output_attentions, inr (o, attn))
    /\ naive_delta_rule_parallel q k v beta 128 32 = inr (o_ref, A_ref)
    /\ shape o = shape o_ref
    /\ forall bh t c, bh < B * H -> t < T -> c < V ->
         data o bh t c = data o_ref bh t c.
Proof.
  intros Hsh HK HT Hsolver Hgate.
  apply engine_on_gated_values_matches_oracle; try assumption.
  - destruct Hsh as (_ & _ & Hv & _). exact Hv.
  - intros. symmetry. apply Hgate; assumption.
Qed.

End Theory.

(** * The theorems at concrete inputs *)

Lemma forward_rejects_wide_keys_witness :
  forward reference_solver wide_q wide_k ex_v ex_beta None false []
    = ([], inl (AssertionError "The maximum supported sequence length is 128."))
  /\ snd (parallel_delta_rule reference_solver wide_q wide_k ex_v ex_beta None false
            false [])
     = inl (AssertionError "The maximum supported sequence length is 128.")
  /\ existsb device_work
       (fst (parallel_delta_rule reference_solver wide_q wide_k ex_v ex_beta None
               false false []))
     = false.
Proof.
  apply (@forward_rejects_wide_keys Z Z_scalar reference_solver wide_q wide_k ex_v
           ex_beta None false 1 1 2 129 1 []); try reflexivity. lia.
Defined.

Lemma ex_valid_shapes : valid_shapes ex_q ex_k ex_v ex_beta 1 1 2 1 1.
Proof. repeat split; reflexivity. Qed.

Lemma ex_valid_shapes' : valid_shapes ex_q ex_k' ex_v' ex_beta' 1 1 2 1 1.
Proof. repeat split; reflexivity. Qed.

Lemma intra_chunk_transformer_correct_witness :
  exists q_new k_new o A_local,
    chunk_transform_qk_fwd ex_q ex_k ex_v ex_beta (reference_solver ex_k ex_beta 32)
      (Some 1%Z) 32 true []
    = ([Launch K_chunk_transform_qk_fwd (cdiv 2 32, 1 * 1) 32 0],
       inr (q_new, k_new, o, A_local))
    /\ forall bh t, bh < 1 * 1 -> t < 2 ->
       let '(Oc, Q', K', S_qk') :=
         intra_at (data ex_q) (data ex_k) (data ex_v) (data ex_beta)
                  (data (reference_solver ex_k ex_beta 32)) 1%Z 2 1 32 bh t in
       let r := t mod 32 in
       (forall c, c < 1 -> data o bh t c = Oc r c)
       /\ (forall c, c < 1 -> data q_new bh t c = Q' r c)
       /\ (forall c, c < 1 -> data k_new bh t c = K' r c)
       /\ (true = true ->
           exists al, A_local = Some al
             /\ forall m, m < 32 -> data al bh t m = S_qk' r m).
Proof.
  apply (@intra_chunk_transformer_correct Z Z_scalar Z_ring ex_q ex_k ex_v ex_beta
           (reference_solver ex_k ex_beta 32) 1%Z 32 true 1 1 2 1 1 []);
    try reflexivity. lia.
Defined.

Lemma inter_chunk_scanner_correct_witness :
  (forall i_t,
     overlap_offsets 128 32 i_t ++ disjoint_offsets 128 32 i_t
     = map (fun n => Z.of_nat (n * 32)) (rev (seq 0 (4 * i_t + 3))))
  /\ exists o attn,
       forward reference_solver ex_q ex_k ex_v ex_beta (Some 1%Z) false []
       = (forward_log 1 1 2 false, inr (o, attn))
       /\ let A := data (reference_solver ex_k ex_beta 32) in
          let Q' := intra_Q (data ex_q) (data ex_k) (data ex_v) (data ex_beta) A 1%Z 2 1 32 in
          let K' := intra_K (data ex_q) (data ex_k) (data ex_v) (data ex_beta) A 1%Z 2 1 32 in
          let O' := intra_O (data ex_q) (data ex_k) (data ex_v) (data ex_beta) A 1%Z 2 1 32 in
          forall bh t c, bh < 1 * 1 -> t < 2 -> c < 1 ->
            let i := t / 128 in
            data o bh t c
            = snd (fold_left
                     (visit (K' bh) (data ex_k bh) (data ex_v bh)
                            (fun t => data ex_beta bh t 0) 2 1 128 32 i)
                     (rev (seq 0 (4 * i + 3)))
                     (chunk_of (Q' bh) 128 i, chunk_of (O' bh) 128 i))
                  (t mod 128) c.
Proof.
  apply (@inter_chunk_scanner_correct Z Z_scalar Z_ring reference_solver
           ex_q ex_k ex_v ex_beta 1%Z false 1 1 2 1 1 ex_valid_shapes). lia.
Defined.

Lemma causality_witness :
  exists o attn o' attn',
    snd (parallel_delta_rule reference_solver ex_q ex_k ex_v ex_beta (Some 1%Z)
           false false []) = inr (o, attn)
    /\ snd (parallel_delta_rule reference_solver ex_q ex_k' ex_v' ex_beta' (Some 1%Z)
              false false []) = inr (o', attn')
    /\ forall bh t c, bh < 1 * 1 -> t <= 0 -> t < 2 -> c < 1 ->
         data o bh t c = data o' bh t c.
Proof.
  apply (@causality Z Z_scalar Z_ring reference_solver ex_q ex_k ex_v ex_beta
           ex_k' ex_v' ex_beta' 1%Z false 1 1 2 1 1 0
           (reference_solver_triangular Z_ring) (reference_solver_causal Z_ring)
           ex_valid_shapes ex_valid_shapes').
  - lia.
  - intros bh t c _ Ht _ _. replace t with 0 by lia. reflexivity.
  - intros bh t c _ Ht _ _. replace t with 0 by lia. reflexivity.
  - intros bh t _ Ht _. replace t with 0 by lia. reflexivity.
Defined.

Lemma attention_is_causal_witness :
  exists o attn,
    snd (parallel_delta_rule reference_solver ex_q ex_k ex_v ex_beta (Some 1%Z)
           true false [])
      = inr (o, Some attn)
    /\ shape attn = [1; 1; 2; 2]
    /\ (forall bh tq tk, bh < 1 * 1 -> tq < 2 -> tk < 2 -> tq < tk ->
          data attn bh tq tk = 0%Z)
    /\ (forall bh tq tk, bh < 1 * 1 -> tq < 2 -> tk < 2 -> tq / 32 = tk / 32 ->
          data attn bh tq tk
          = intra_S (data ex_q) (data ex_k) (data ex_v) (data ex_beta)
                    (data (reference_solver ex_k ex_beta 32)) 1%Z 2 1 32 bh tq
                    (tk mod 32)).
Proof.
  apply (@attention_is_causal Z Z_scalar Z_ring reference_solver ex_q ex_k ex_v
           ex_beta 1%Z 1 1 2 1 1 (reference_solver_triangular Z_ring) ex_valid_shapes).
  lia.
Defined.

Lemma default_scale_is_not_applied_witness :
  parallel_delta_rule reference_solver ex_q ex_k ex_v ex_beta None false false []
    = ((if 1 <? 2 then [Warn 1 2] else []) ++ [SolverCall 32], inl CompilationError)
  /\ exists o attn,
       snd (parallel_delta_rule reference_solver ex_q ex_k ex_v ex_beta
              (Some (inv_sqrt 1)) false false []) = inr (o, attn).
Proof.
  apply (@default_scale_is_not_applied Z Z_scalar reference_solver
           ex_q ex_k ex_v ex_beta false 1 1 2 1 1 ex_valid_shapes). lia.
Defined.

Lemma chunk_sizes_are_fixed_witness :
  Forall fixed_sizes
    (fst (parallel_delta_rule reference_solver ex_q ex_k ex_v ex_beta (Some 1%Z)
            true false []))
  /\ filter device_work
       (fst (parallel_delta_rule reference_solver ex_q ex_k ex_v ex_beta (Some 1%Z)
               true false []))
     = forward_log 1 1 2 true.
Proof.
  destruct (@chunk_sizes_are_fixed Z Z_scalar reference_solver ex_q ex_k ex_v
              ex_beta (Some 1%Z) true false) as [H1 H2].
  split; [exact H1|].
  apply (H2 1 1 2 1 1 1%Z ex_valid_shapes); [lia | reflexivity].
Defined.

(** C1 as stated fails.  With the correction matrices of the reference,
    scale [1 / sqrt 1] and every gate equal to [2], the engine and the
    reference both return, and the first output entry is [1] for the engine
    and [2] for the reference.  And on a sequence of length [2], which is not
    a multiple of the chunk size, the engine returns while the reference
    raises in [rearrange]. *)
Lemma engine_differs_from_oracle :
  output_at (snd (forward reference_solver cx_q cx_k cx_v cx_beta
                    (Some (inv_sqrt 1)) false [])) 0 0 0 = Some 1%Z
  /\ output_at (naive_delta_rule_parallel cx_q cx_k cx_v cx_beta 128 32) 0 0 0
     = Some 2%Z
  /\ output_at (snd (forward reference_solver ex_q ex_k ex_v ex_beta
                       (Some (inv_sqrt 1)) false [])) 0 0 0 = Some 6%Z
  /\ naive_delta_rule_parallel ex_q ex_k ex_v ex_beta 128 32 = inl EinopsError.
Proof. vm_compute. repeat split. Qed.

Lemma cx_valid_shapes : valid_shapes cx_q cx_k cx_v cx_ones 1 1 128 1 1.
Proof. repeat split; reflexivity. Qed.

Lemma engine_matches_oracle_witness :
  exists o attn o_ref A_ref,
    forward reference_solver cx_q cx_k cx_v cx_ones (Some (inv_sqrt 1)) false []
      = (forward_log 1 1 128 false, inr (o, attn))
    /\ naive_delta_rule_parallel cx_q cx_k cx_v cx_ones 128 32 = inr (o_ref, A_ref)
    /\ shape o = shape o_ref
    /\ forall bh t c, bh < 1 * 1 -> t < 128 -> c < 1 ->
         data o bh t c = data o_ref bh t c.
Proof.
  apply (@engine_matches_oracle Z Z_scalar Z_ring reference_solver
           cx_q cx_k cx_v cx_ones false 1 1 128 1 1 cx_valid_shapes).
  - lia.
  - reflexivity.
  - intros bh t c _ _ _. reflexivity.
  - intros bh t c _ _ _. reflexivity.
Defined.

(** * Further properties of the delta rule *)

Section DeltaRuleProperties.

Context {R : Type} {ops : Scalar R}.
Hypothesis Rth : ring_theory rO rI radd rmul rsub ropp (@eq R).
Add Ring Rring2 : Rth.

Variable fwd_prepare_T : tensor R -> tensor R -> nat -> tensor R.

(** ** The queries a row of the transformer reads *)

Lemma intra_chunk_Q_congr (n K : nat) (scale : R) (Q Q' Kc Vc : Block R)
    (gate : nat -> R) (Tm : Block R) (r : nat) :
  (forall c, c < K -> Q r c = Q' r c) ->
  let a := intra_chunk n K Q Kc Vc gate Tm scale in
  let b := intra_chunk n K Q' Kc Vc gate Tm scale in
  (forall c, fst (fst (fst a)) r c = fst (fst (fst b)) r c)
  /\ (forall c, c < K -> snd (fst (fst a)) r c = snd (fst (fst b)) r c)
  /\ (forall m, snd a r m = snd b r m).
Proof.
  intros HQ. cbv zeta. unfold intra_chunk. cbn [fst snd].
  assert (HS : forall j,
            (if j <=? r then sum_n K (fun c => Q r c * scale * Kc j c)%R else rO)
            = (if j <=? r then sum_n K (fun c => Q' r c * scale * Kc j c)%R else rO)).
  { intro j. destruct (j <=? r); [|reflexivity].
    apply sum_n_ext. intros c Hc. rewrite HQ by assumption. reflexivity. }
  assert (HS' : forall m,
            sum_n n (fun j => (if j <=? r then sum_n K (fun c => Q r c * scale * Kc j c)
                               else rO) * Tm j m)%R
            = sum_n n (fun j => (if j <=? r then sum_n K (fun c => Q' r c * scale * Kc j c)
                                 else rO) * Tm j m)%R).
  { intro m. apply sum_n_ext. intros j _. rewrite HS. reflexivity. }
  repeat split.
  - intro c. apply sum_n_ext. intros m _. rewrite HS'. reflexivity.
  - intros c Hc. rewrite HQ by assumption. f_equal.
    apply sum_n_ext. intros m _. rewrite HS'. reflexivity.
  - exact HS'.
Qed.

Lemma intra_OQ_query_congr (q q' k v beta A : Tdata R) (scale : R)
    (T K BT bh t : nat) :
  (forall c, c < K -> q bh t c = q' bh t c) ->
  (forall c, intra_O q k v beta A scale T K BT bh t c
             = intra_O q' k v beta A scale T K BT bh t c)
  /\ (forall c, c < K -> intra_Q q k v beta A scale T K BT bh t c
                         = intra_Q q' k v beta A scale T K BT bh t c)
  /\ (forall m, intra_S q k v beta A scale T K BT bh t m
                = intra_S q' k v beta A scale T K BT bh t m).
Proof.
  intro Hq. unfold intra_O, intra_Q, intra_S, intra_at.
  apply intra_chunk_Q_congr. intros c Hc. unfold chunk_of.
  pose proof (Nat.div_mod_eq t BT).
  replace (t / BT * BT + t mod BT) with t by lia. apply Hq. assumption.
Qed.


Lemma intra_K_query_indep (q q' k v beta A : Tdata R) (scale : R)
    (T K BT bh t c : nat) :
  0 < BT -> t < T -> c < K ->
  intra_K q k v beta A scale T K BT bh t c
  = intra_K q' k v beta A scale T K BT bh t c.
Proof.
  intros HBT Ht Hc. unfold intra_K, intra_at.
  apply intra_chunk_K_congr; try assumption; try reflexivity.
  apply mod_lt_chunk_rows; assumption.
Qed.

(** X1: the output of one batch-head slice up to a time [t0] is determined by
    the queries, keys, values and gates of that slice up to [t0]: two calls
    whose inputs agree there, and differ anywhere else, return outputs that
    agree on the slice up to [t0]. *)
Theorem output_reads_own_slice_past
    (q k v beta q' k' v' beta' : tensor R) (scale : R)
    (output_attentions : bool) (B H T K V bh t0 : nat) :
  solver_triangular fwd_prepare_T -> solver_causal fwd_prepare_T ->
  valid_shapes q k v beta B H T K V -> valid_shapes q' k' v' beta' B H T K V ->
  K <= 128 -> bh < B * H ->
  (forall t c, t <= t0 -> t < T -> c < K -> data q bh t c = data q' bh t c) ->
  (forall t c, t <= t0 -> t < T -> c < K -> data k bh t c = data k' bh t c) ->
  (forall t c, t <= t0 -> t < T -> c < V -> data v bh t c = data v' bh t c) ->
  (forall t, t <= t0 -> t < T -> data beta bh t 0 = data beta' bh t 0) ->
  exists o attn o' attn',
    snd (parallel_delta_rule fwd_prepare_T q k v beta (Some scale)
           output_attentions false []) = inr (o, attn)
    /\ snd (parallel_delta_rule fwd_prepare_T q' k' v' beta' (Some scale)
              output_attentions false []) = inr (o', attn')
    /\ forall t c, t <= t0 -> t < T -> c < V -> data o bh t c = data o' bh t c.
Proof.
  intros Stri Scau Hsh Hsh' HK Hbh Hq Hk Hv Hb.
  rewrite (parallel_delta_rule_run fwd_prepare_T (Some scale) output_attentions [] Hsh).
  rewrite (parallel_delta_rule_run fwd_prepare_T (Some scale) output_attentions [] Hsh').
  rewrite (forward_run fwd_prepare_T scale output_attentions _ Hsh HK).
  rewrite (forward_run fwd_prepare_T scale output_attentions _ Hsh' HK).
  cbv zeta. cbn [snd]. do 4 eexists. split; [reflexivity|]. split; [reflexivity|].
  intros t c Ht0 Ht Hc. cbn [data].
  rewrite !(engine_output Rth) by (assumption || lia || reflexivity).
  set (A := data (fwd_prepare_T k beta 32)).
  set (A' := data (fwd_prepare_T k' beta' 32)).
  assert (HA : forall t c, t <= t0 -> t < T -> c < 32 -> A bh t c = A' bh t c).
  { destruct Hsh as (_ & Hks & _), Hsh' as (_ & Hks' & _).
    apply (Scau k k' beta beta' B H T K 32 bh t0 Hks Hks');
      intros; [apply Hk | apply Hb]; assumption. }
  assert (Htri : forall t c, t < T -> t mod 32 < c -> c < 32 -> A bh t c = rO).
  { intros t1 c1 _ H1 H2. apply Stri; assumption. }
  pose proof (Nat.div_mod_eq t 128) as Et.
  assert (Hrow : t / 128 * 128 + t mod 128 = t) by lia.
  refine (proj2 (@scanner_row_congr R ops Rth T K V 128 32 (t / 128) (t mod 128)
            _ _ _ _ _ _ _ _ _ _ _ _ ltac:(lia) _ _ _) c Hc); rewrite Hrow.
  - intros t1 Ht1 Hend. pose proof (Nat.div_mod_eq t1 32).
    pose proof (Nat.mod_upper_bound t1 32 ltac:(lia)).
    repeat split.
    + intros c1 Hc1.
      rewrite (@intra_K_query_indep (data q) (data q') (data k) (data v) (data beta) A
                 scale T K 32 bh t1 c1) by (assumption || lia).
      apply (@intra_K_past R ops (data q') (data k) (data v) (data beta) A
               (data k') (data v') (data beta') A' scale T K 32 bh t0);
        try assumption; try lia; intros; auto.
    + intros c1 Hc1. apply Hk; (assumption || lia).
    + intros c1 Hc1. apply Hv; (assumption || lia).
    + apply Hb; (assumption || lia).
  - intros c1 Hc1.
    destruct (@intra_OQ_query_congr (data q) (data q') (data k) (data v) (data beta) A
                scale T K 32 bh t) as (_ & EQ & _).
    { intros c2 Hc2. apply Hq; assumption. }
    rewrite EQ by assumption.
    apply (@intra_OQ_causal R ops Rth (data q') (data k) (data v) (data beta) A
             (data k') (data v') (data beta') A' scale T K V 32 bh t0);
      try assumption; try lia; intros; auto.
  - intros c1 Hc1.
    destruct (@intra_OQ_query_congr (data q) (data q') (data k) (data v) (data beta) A
                scale T K 32 bh t) as (EO & _ & _).
    { intros c2 Hc2. apply Hq; assumption. }
    rewrite EO.
    apply (@intra_OQ_causal R ops Rth (data q') (data k) (data v) (data beta) A
             (data k') (data v') (data beta') A' scale T K V 32 bh t0);
      try assumption; try lia; intros; auto.
Qed.

(** ** The attention flag *)

Lemma engine_run_no_attention (BT BS : nat) (A q k v beta : Tdata R) (scale : R)
    (B H T K V : nat) :
  snd (engine_run BT BS A q k v beta scale B H T K V false) = None.
Proof.
  unfold engine_run.
  destruct (launch (cdiv T BS, B * H) _ _) as [[[o qn] kn] al].
  rewrite launch_scan. reflexivity.
Qed.

Lemma engine_run_some_attention (BT BS : nat) (A q k v beta : Tdata R) (scale : R)
    (B H T K V : nat) :
  exists attn, snd (engine_run BT BS A q k v beta scale B H T K V true) = Some attn.
Proof.
  unfold engine_run. rewrite launch_transform. cbv zeta. cbn [option_map].
  rewrite launch_scan. cbn [option_map snd]. eexists. reflexivity.
Qed.

(** X2: [output_attentions] does not change the output.  Without it
    [forward] returns [None] for the attention, with it a tensor of shape
    [B, H, T, T], and the outputs of the two calls are equal. *)
Theorem attention_flag_keeps_output (q k v beta : tensor R) (scale : R)
    (B H T K V : nat) :
  valid_shapes q k v beta B H T K V -> K <= 128 ->
  exists o o' attn,
    snd (forward fwd_prepare_T q k v beta (Some scale) false []) = inr (o, None)
    /\ snd (forward fwd_prepare_T q k v beta (Some scale) true [])
       = inr (o', Some attn)
    /\ shape o = shape v /\ shape o' = shape v /\ shape attn = [B; H; T; T]
    /\ forall bh t c, bh < B * H -> t < T -> c < V ->
         data o bh t c = data o' bh t c.
Proof.
  intros Hsh HK.
  rewrite (forward_run fwd_prepare_T scale false [] Hsh HK).
  rewrite (forward_run fwd_prepare_T scale true [] Hsh HK).
  cbv zeta. cbn [snd].
  rewrite engine_run_no_attention.
  destruct (engine_run_some_attention 128 32 (data (fwd_prepare_T k beta 32))
              (data q) (data k) (data v) (data beta) scale B H T K V) as [attn E].
  rewrite E. cbn [option_map]. do 3 eexists.
  split; [reflexivity|]. split; [reflexivity|]. cbn [shape data].
  repeat split.
  intros bh t c Hbh Ht Hc.
  rewrite !(engine_output Rth) by (assumption || lia || reflexivity).
  reflexivity.
Qed.

(** ** The layout warning *)

Lemma forward_appends (q k v beta : tensor R) (scale : option R) (oa : bool)
    (tr : list event) :
  forward fwd_prepare_T q k v beta scale oa tr
  = (tr ++ fst (forward fwd_prepare_T q k v beta scale oa []),
     snd (forward fwd_prepare_T q k v beta scale oa [])).
Proof.
  unfold forward, chunk_transform_qk_fwd, bind, lift, py_assert, emit, ret, raise.
  destruct (shape_last (shape v)) as [e|V]; cbn [fst snd];
    [rewrite app_nil_r; reflexivity|].
  destruct (unpack4 (shape k)) as [e|[[[B H] T] K]]; cbn [fst snd];
    [rewrite app_nil_r; reflexivity|].
  destruct (shape_last (shape q)) as [e|Kq]; cbn [fst snd];
    [rewrite app_nil_r; reflexivity|].
  destruct (Kq <=? 128); cbn [fst snd]; [|rewrite app_nil_r; reflexivity].
  replace (128 mod 32 =? 0) with true by reflexivity. cbn [fst snd app].
  destruct scale as [scale|]; cbn [fst snd]; [|reflexivity].
  destruct (launch (cdiv T 32, B * H) _ _) as [[[o qn] kn] al].
  cbn [fst snd].
  destruct (launch (cdiv T 128, B * H) _ _) as [o_new attn].
  destruct oa.
  - destruct attn as [attn|], al as [al|]; cbn [fst snd option_map];
      rewrite <- ?app_assoc; reflexivity.
  - cbn [fst snd]. rewrite <- ?app_assoc. reflexivity.
Qed.

(** X3: with [head_first=False], [parallel_delta_rule] is [forward] preceded
    by at most one warning: it warns when the tensors have fewer heads than
    time steps, and returns or raises what [forward] does, after the same
    device work. *)
Theorem layout_warning_only_warns (q k v beta : tensor R) (scale : option R)
    (output_attentions : bool) (B H T K V : nat) :
  valid_shapes q k v beta B H T K V ->
  let r := parallel_delta_rule fwd_prepare_T q k v beta scale output_attentions
             false [] in
  let f := forward fwd_prepare_T q k v beta scale output_attentions [] in
  fst r = (if H <? T then [Warn H T] else []) ++ fst f
  /\ snd r = snd f.
Proof.
  intros Hsh. cbv zeta.
  rewrite (parallel_delta_rule_run fwd_prepare_T scale output_attentions [] Hsh).
  rewrite forward_appends. cbn [fst snd app]. split; reflexivity.
Qed.

(** ** The lengths the reference accepts *)






(** ** The attention matrix, entry by entry *)

Lemma attn_store_read (T BT BS i_t i_bh n : nat) (b_s : Block R) (a : Tdata R)
    (bh r c : nat) :
  0 < BT -> 0 < BS -> r < T -> c < T ->
  attn_store T BT BS i_t i_bh (Z.of_nat (n * BS)) b_s a bh r c
  = if (i_bh =? bh) && (i_t =? r / BT) && (n =? c / BS)
    then b_s (r mod BT) (c mod BS) else a bh r c.
Proof.
  intros HBT HBS Hr Hc. unfold attn_store, upd.
  destruct (Nat.eqb_spec bh i_bh) as [->|Hbh].
  - rewrite Nat.eqb_refl. cbn [andb]. rewrite tl_store_nat.
    pose proof (div_block i_t r HBT) as Dr. pose proof (div_block n c HBS) as Dc.
    pose proof (Nat.div_mod_eq r BT). pose proof (Nat.div_mod_eq c BS).
    destruct (Nat.eqb_spec i_t (r / BT)) as [Er|Er];
      destruct (Nat.eqb_spec n (c / BS)) as [Ec|Ec]; cbn [andb].
    + symmetry in Er, Ec. apply Dr in Er. apply Dc in Ec.
      bool_cases; try lia. f_equal; nia.
    + bool_cases; try reflexivity. exfalso. apply Ec. symmetry. apply Dc. lia.
    + bool_cases; try reflexivity. exfalso. apply Er. symmetry. apply Dr. lia.
    + bool_cases; try reflexivity. exfalso. apply Er. symmetry. apply Dr. lia.
  - destruct (Nat.eqb_spec i_bh bh); [congruence|]. reflexivity.
Qed.

Lemma scan_attn_other (k k2 v beta : Tdata R) (T K V BT BS BK BV i_t i_bh : nat)
    (bh r c : nat) (l : list (bool * nat)) :
  0 < BT -> 0 < BS -> r < T -> c < T ->
  ~ In (c / BS) (map snd l) ->
  forall st a,
    scan_attn k k2 v beta T K V BT BS BK BV i_t i_bh
      (map (fun p => (fst p, Z.of_nat (snd p * BS))) l) st a bh r c
    = a bh r c.
Proof.
  intros HBT HBS Hr Hc.
  induction l as [|[fl n] l IH]; intros Hnin st a; cbn [map scan_attn fst snd].
  - reflexivity.
  - rewrite IH by (intro Hin; apply Hnin; right; exact Hin).
    rewrite attn_store_read by assumption.
    destruct (Nat.eqb_spec n (c / BS)) as [E|E].
    + exfalso. apply Hnin. left. exact E.
    + rewrite andb_false_r. reflexivity.
Qed.

Lemma visited_split (N n : nat) :
  n < N ->
  rev (seq 0 N) = rev (seq (n + 1) (N - (n + 1))) ++ n :: rev (seq 0 n).
Proof.
  intro Hn. replace N with (n + S (N - (n + 1))) at 1 by lia.
  rewrite seq_app. cbn [seq Nat.add]. rewrite rev_app_distr. cbn [rev].
  rewrite <- app_assoc. cbn [app]. do 3 f_equal. lia.
Qed.

Lemma flagged_split (l : list (bool * nat)) (a b : list nat) (x : nat) :
  map snd l = a ++ x :: b ->
  exists l1 fl l2, l = l1 ++ (fl, x) :: l2 /\ map snd l1 = a /\ map snd l2 = b.
Proof.
  intro E. apply map_eq_app in E. destruct E as (l1 & l2' & -> & E1 & E2).
  apply map_eq_cons in E2. destruct E2 as ([fl y] & l2 & -> & Ey & E2).
  cbn [snd] in Ey. subst y. exists l1, fl, l2. repeat split; assumption.
Qed.

Lemma scan_scores_val (fl : bool) (k : Tdata R) (T K BT BS BK i_t i_bh : nat)
    (bq Qr : Block R) (n r s : nat) :
  K <= BK -> s < BS -> n * BS + s < T ->
  fl = true \/ n * BS + BS <= i_t * BT ->
  (forall c, c < K -> bq r c = Qr r c) ->
  scan_scores fl k T K BT BS BK i_t i_bh bq (Z.of_nat (n * BS)) r s
  = if n * BS + BS <=? i_t * BT + r
    then sum_n K (fun c => Qr r c * k i_bh (n * BS + s)%nat c)%R else rO.
Proof.
  intros HK Hs Hin Hfl Hq. unfold scan_scores.
  set (b_k := tl_load (make_block_ptr (tl_trans (k i_bh)) (K, T)
                         (0%Z, Z.of_nat (n * BS)) (BK, BS))).
  assert (Hbk : forall c, b_k c s = if c <? K then k i_bh (n * BS + s) c else rO).
  { intros c. unfold b_k. change 0%Z with (Z.of_nat 0).
    rewrite tl_load_nat. cbn [Nat.add].
    destruct (Nat.ltb_spec (n * BS + s) T); [|lia]. rewrite andb_true_r. reflexivity. }
  assert (Hdot : tl_dot BK bq b_k r s
                 = sum_n K (fun c => Qr r c * k i_bh (n * BS + s)%nat c)%R).
  { unfold tl_dot. rewrite (dot_pad Rth) with (n := K); [|assumption|].
    - apply sum_n_ext. intros c Hc. rewrite Hq, Hbk by lia.
      bool_cases; try lia. reflexivity.
    - intros c H1 H2. right. rewrite Hbk. bool_cases; try lia; reflexivity. }
  destruct fl.
  - unfold tl_where.
    replace (Z.of_nat (n * BS) - Z.of_nat i_t * Z.of_nat BT + Z.of_nat BS <=? Z.of_nat r)%Z
      with (n * BS + BS <=? i_t * BT + r) by (bool_cases; try reflexivity; lia).
    destruct (_ <=? _); [exact Hdot | reflexivity].
  - destruct Hfl as [Hf|Hle]; [discriminate|].
    destruct (Nat.leb_spec (n * BS + BS) (i_t * BT + r)); [exact Hdot | lia].
Qed.

Lemma scan_program_attn_read (q k k2 v beta o : Tdata R)
    (T K V BT BS BK BV i_t i_bh : nat) (a : Tdata R) (bh r c : nat) :
  0 < BS -> 0 < BT -> BT mod BS = 0 -> K <= BK -> V <= BV -> r < T -> c < T ->
  scan_attn k k2 v beta T K V BT BS BK BV i_t i_bh (scan_offsets BT BS i_t)
    (scan_init q o T K V BT BK BV i_t i_bh) a bh r c
  = if (i_bh =? bh) && (i_t =? r / BT)
       && (c / BS <? (r / BT + 1) * (BT / BS) - 1)
    then (if c / BS * BS + BS <=? r
          then sum_n K (fun c' =>
                 fst (scanner_before (q bh) (k bh) (k2 bh) (v bh)
                        (fun t => beta bh t 0) (o bh) T K BT BS (r / BT) (c / BS))
                     (r mod BT) c' * k bh c c')%R
          else rO)
    else a bh r c.
Proof.
  intros HBS HBT Hdiv HK HV Hr Hc.
  destruct (@scan_offsets_flags BT BS i_t HBS Hdiv) as (l & E1 & E2 & Hfl).
  rewrite E1.
  pose proof (Nat.div_mod_eq r BT) as Er. pose proof (Nat.div_mod_eq c BS) as Ec.
  pose proof (Nat.mod_upper_bound c BS ltac:(lia)) as Hcm.
  destruct (Nat.ltb_spec (c / BS) ((i_t + 1) * (BT / BS) - 1)) as [Hin|Hout].
  - unfold visited in E2. rewrite (visited_split Hin) in E2.
    destruct (flagged_split _ _ _ _ E2) as (l1 & fl & l2 & -> & El1 & El2).
    rewrite map_app, scan_attn_app. cbn [map scan_attn fst snd].
    rewrite scan_attn_other; try assumption.
    2:{ rewrite El2. intro Hx. apply in_rev in Hx. apply in_seq in Hx. lia. }
    rewrite attn_store_read by assumption. rewrite Nat.eqb_refl, andb_true_r.
    destruct (Nat.eqb_spec i_bh bh) as [->|Hbh]; cbn [andb].
    2:{ rewrite scan_attn_other; try assumption; [reflexivity|].
        rewrite El1. intro Hx. apply in_rev in Hx. apply in_seq in Hx. lia. }
    destruct (Nat.eqb_spec i_t (r / BT)) as [->|Hit]; cbn [andb].
    2:{ rewrite scan_attn_other; try assumption; [reflexivity|].
        rewrite El1. intro Hx. apply in_rev in Hx. apply in_seq in Hx. lia. }
    destruct (Nat.ltb_spec (c / BS) ((r / BT + 1) * (BT / BS) - 1)); [|lia].
    assert (Hrow : r / BT * BT + r mod BT = r) by lia.
    rewrite scan_scores_val
      with (Qr := fst (scanner_before (q bh) (k bh) (k2 bh) (v bh)
                         (fun t => beta bh t 0) (o bh) T K BT BS (r / BT) (c / BS)));
      try assumption; try lia.
    + rewrite Hrow. replace (c / BS * BS + c mod BS) with c by lia. reflexivity.
    + apply (Hfl fl (c / BS)). apply in_or_app. right. left. reflexivity.
    + unfold scanner_before. rewrite <- El1.
      refine (proj1 (@scan_fold_visit R ops Rth k k2 v beta T K V BT BS BK BV (r / BT) bh
                       HBS HK HV (r mod BT) l1 _ _ _ _)).
      * intros fl' n' Hin'. apply (Hfl fl' n'). apply in_or_app. left. exact Hin'.
      * unfold scan_init, row_agree, badd, tl_zeros, chunk_of. cbn [fst snd].
        split; intros c' Hc'; rewrite (load_chunk); unfold chunk_of;
          bool_cases; try lia; ring.
  - rewrite scan_attn_other; try assumption.
    + destruct (Nat.eqb_spec i_t (r / BT)) as [->|Hit];
        [|rewrite andb_false_r; reflexivity].
      destruct (Nat.ltb_spec (c / BS) ((r / BT + 1) * (BT / BS) - 1)); [lia|].
      rewrite andb_false_r. reflexivity.
    + rewrite E2. unfold visited. intro Hx. apply in_rev in Hx. apply in_seq in Hx. lia.
Qed.

Lemma fold_programs_read (X : Type) (P : X -> Tdata R -> Tdata R) (m : X -> bool)
    (g : bool) (val : R) (bh r c : nat) :
  forall ids,
  (forall id a, In id ids -> P id a bh r c = if m id && g then val else a bh r c) ->
  forall a,
    fold_left (fun a id => P id a) ids a bh r c
    = if existsb m ids && g then val else a bh r c.
Proof.
  induction ids as [|id ids IH]; intros HP a; cbn [fold_left existsb].
  - reflexivity.
  - rewrite IH by (intros id' a' Hin; apply HP; right; exact Hin).
    rewrite HP by (left; reflexivity).
    destruct (m id), (existsb m ids), g; reflexivity.
Qed.

Lemma scan_attn_all_read (q k k2 v beta o : Tdata R) (T K V BT BS BK BV NBH : nat)
    (a : Tdata R) (bh r c : nat) :
  0 < BS -> 0 < BT -> BT mod BS = 0 -> K <= BK -> V <= BV ->
  bh < NBH -> r < T -> c < T ->
  scan_attn_all q k k2 v beta o T K V BT BS BK BV (grid_ids (cdiv T BT, NBH)) a bh r c
  = if c / BS <? (r / BT + 1) * (BT / BS) - 1
    then (if c / BS * BS + BS <=? r
          then sum_n K (fun c' =>
                 fst (scanner_before (q bh) (k bh) (k2 bh) (v bh)
                        (fun t => beta bh t 0) (o bh) T K BT BS (r / BT) (c / BS))
                     (r mod BT) c' * k bh c c')%R
          else rO)
    else a bh r c.
Proof.
  intros HBS HBT Hdiv HK HV Hbh Hr Hc. unfold scan_attn_all.
  rewrite (@fold_programs_read (nat * nat)
             (fun id a => scan_attn k k2 v beta T K V BT BS BK BV (fst id) (snd id)
                            (scan_offsets BT BS (fst id))
                            (scan_init q o T K V BT BK BV (fst id) (snd id)) a)
             (fun id => (fst id =? r / BT) && (snd id =? bh))
             (c / BS <? (r / BT + 1) * (BT / BS) - 1)
             (if c / BS * BS + BS <=? r
              then sum_n K (fun c' =>
                     fst (scanner_before (q bh) (k bh) (k2 bh) (v bh)
                            (fun t => beta bh t 0) (o bh) T K BT BS (r / BT) (c / BS))
                         (r mod BT) c' * k bh c c')%R
              else rO)).
  - rewrite grid_ids_has.
    assert (r / BT < cdiv T BT).
    { unfold cdiv. apply Nat.Div0.div_lt_upper_bound.
      pose proof (Nat.div_mod_eq (T + BT - 1) BT).
      pose proof (Nat.mod_upper_bound (T + BT - 1) BT ltac:(lia)). nia. }
    destruct (Nat.ltb_spec (r / BT) (cdiv T BT)); [|lia].
    destruct (Nat.ltb_spec bh NBH); [|lia]. reflexivity.
  - intros [i_t i_bh] a' _. cbn [fst snd].
    rewrite scan_program_attn_read by assumption.
    rewrite (andb_comm (i_t =? r / BT)). reflexivity.
Qed.

Lemma fold_visit_row_congr (T K V BT BS i r : nat)
    (Kc Ko Vm : Mat R) (gate : nat -> R) (Kc' Ko' Vm' : Mat R) (gate' : nat -> R)
    (ns : list nat) :
  0 < BS ->
  past_agree T K V BS (i * BT + r) Kc Ko Vm gate Kc' Ko' Vm' gate' ->
  forall st st', row_agree K V r st st' ->
  row_agree K V r (fold_left (visit Kc Ko Vm gate T K BT BS i) ns st)
                  (fold_left (visit Kc' Ko' Vm' gate' T K BT BS i) ns st').
Proof.
  intros HBS Hp. induction ns as [|n ns IH]; intros st st' H0; cbn [fold_left].
  - exact H0.
  - apply IH. apply (visit_row_congr Rth); assumption.
Qed.

Lemma cdiv_has_block (T BS r : nat) : 0 < BS -> r < T -> r / BS < cdiv T BS.
Proof.
  intros HBS Hr. unfold cdiv. apply Nat.Div0.div_lt_upper_bound.
  pose proof (Nat.div_mod_eq (T + BS - 1) BS).
  pose proof (Nat.mod_upper_bound (T + BS - 1) BS ltac:(lia)). nia.
Qed.

(** The attention tensor of the engine, entry by entry. *)
Lemma engine_attention_entries (BT BS : nat) (A q k v beta : Tdata R) (scale : R)
    (B H T K V : nat) :
  0 < BS -> 0 < BT -> BT mod BS = 0 ->
  exists attn,
    snd (engine_run BT BS A q k v beta scale B H T K V true) = Some attn
    /\ forall bh r c, bh < B * H -> r < T -> c < T ->
         attn bh r c = attention_entry q k v beta A scale T K BT BS bh r c.
Proof.
  intros HBS HBT Hdiv. unfold engine_run.
  pose proof (@launch_transform_read R ops Rth q k v beta A scale T K V BS (B * H) true
                empty empty empty (Some empty) HBS) as L.
  cbv zeta in L.
  assert (Hsome : exists al, snd (launch (cdiv T BS, B * H)
             (chunk_transform_qk_fwd_kernel q k v beta A scale T K V
                (next_power_of_2 K) (next_power_of_2 V) BS true)
             (empty, empty, empty, Some empty)) = Some al).
  { rewrite launch_transform. cbv zeta. cbn [snd option_map]. eexists. reflexivity. }
  destruct Hsome as [al Hal].
  destruct (launch (cdiv T BS, B * H) _ _) as [[[o qn] kn] al0].
  cbn [fst snd] in L, Hal. subst al0.
  rewrite launch_scan. cbn [option_map].
  change (launch (cdiv T BS, B * H) (save_intra_chunk_attn al T BS))
    with (save_all al T BS (grid_ids (cdiv T BS, B * H))).
  eexists. split; [reflexivity|].
  intros bh r c Hbh Hr Hc.
  pose proof (next_power_of_2_ge K) as HK. pose proof (next_power_of_2_ge V) as HV.
  rewrite save_all_read by assumption. unfold attention_entry.
  rewrite grid_ids_has.
  pose proof (cdiv_has_block HBS Hr).
  destruct (Nat.ltb_spec (r / BS) (cdiv T BS)); [|lia].
  destruct (Nat.ltb_spec bh (B * H)); [|lia]. cbn [andb]. rewrite andb_true_r.
  destruct (Nat.eqb_spec (r / BS) (c / BS)) as [E|E].
  - destruct (L bh r Hbh Hr) as (_ & _ & _ & LS).
    destruct (LS eq_refl empty eq_refl) as (al' & E' & Hal').
    injection E' as <-. apply Hal'. apply Nat.mod_upper_bound. lia.
  - rewrite scan_attn_all_read by assumption.
    pose proof (Nat.div_mod_eq r BS). pose proof (Nat.mod_upper_bound r BS ltac:(lia)).
    pose proof (Nat.div_mod_eq c BS). pose proof (Nat.mod_upper_bound c BS ltac:(lia)).
    pose proof (Nat.div_mod_eq r BT) as Er.
    pose proof (Nat.mod_upper_bound r BT ltac:(lia)).
    pose proof (Nat.div_mod_eq BT BS) as EB. rewrite Hdiv, Nat.add_0_r in EB.
    destruct (Nat.ltb_spec (c / BS) (r / BS)) as [Hlt|Hge].
    + assert (Hblk : r / BS < (r / BT + 1) * (BT / BS)).
      { apply Nat.Div0.div_lt_upper_bound. nia. }
      destruct (Nat.ltb_spec (c / BS) ((r / BT + 1) * (BT / BS) - 1)); [|lia].
      destruct (Nat.leb_spec (c / BS * BS + BS) r); [|nia].
      assert (Hrow : r / BT * BT + r mod BT = r) by lia.
      cbv zeta. apply sum_n_ext. intros c' Hc'. f_equal.
      * refine (proj1 (@fold_visit_row_congr T K V BT BS (r / BT) (r mod BT)
                         _ _ _ _ _ _ _ _ _ HBS _ _ _ _) c' Hc').
        -- rewrite Hrow. intros t' Ht' _. destruct (L bh t' Hbh Ht') as (_ & _ & LK & _).
           repeat split; auto.
        -- unfold row_agree, chunk_of. cbn [fst snd]. rewrite Hrow.
           destruct (L bh r Hbh Hr) as (LO & LQ & _ & _). split; assumption.
      * destruct (L bh c Hbh Hc) as (_ & _ & LK & _). apply LK. assumption.
    + destruct (Nat.ltb_spec (c / BS) ((r / BT + 1) * (BT / BS) - 1)); [|reflexivity].
      destruct (Nat.leb_spec (c / BS * BS + BS) r); [nia | reflexivity].
Qed.

(** X5: every entry of the returned attention matrix.  Inside a diagonal
    block of [32] it is the score of the intra-chunk transform; below, it is
    the product of the query row, as the scan has updated it on the key
    blocks after the one of the key, with the transformed key; above, it is
    zero. *)
Theorem attention_matrix_entries (q k v beta : tensor R) (scale : R)
    (B H T K V : nat) :
  valid_shapes q k v beta B H T K V -> K <= 128 ->
  exists o attn,
    snd (forward fwd_prepare_T q k v beta (Some scale) true []) = inr (o, Some attn)
    /\ forall bh tq tk, bh < B * H -> tq < T -> tk < T ->
         data attn bh tq tk
         = attention_entry (data q) (data k) (data v) (data beta)
             (data (fwd_prepare_T k beta 32)) scale T K 128 32 bh tq tk.
Proof.
  intros Hsh HK.
  rewrite (forward_run fwd_prepare_T scale true [] Hsh HK). cbv zeta. cbn [snd].
  destruct (@engine_attention_entries 128 32 (data (fwd_prepare_T k beta 32))
              (data q) (data k) (data v) (data beta) scale B H T K V
              ltac:(lia) ltac:(lia) eq_refl) as (attn & E & Hent).
  rewrite E. cbn [option_map]. do 2 eexists. split; [reflexivity|].
  cbn [data]. exact Hent.
Qed.

(** ** The output as attention times values *)

Lemma sum_n_split (a b : nat) (f : nat -> R) :
  sum_n (a + b) f = (sum_n a f + sum_n b (fun j => f (a + j)%nat))%R.
Proof.
  induction b as [|b IH].
  - rewrite Nat.add_0_r. cbn [sum_n]. ring.
  - rewrite Nat.add_succ_r. cbn [sum_n]. rewrite IH. ring.
Qed.

Lemma sum_n_rev (n : nat) (f : nat -> R) :
  sum_n n (fun j => f (n - 1 - j)) = sum_n n f.
Proof.
  induction n as [|n IH]; [reflexivity|].
  change (S n) with (1 + n) at 1. rewrite sum_n_split. cbn [sum_n].
  rewrite <- IH. replace (S n - 1 - 0) with n by lia.
  rewrite (@sum_n_ext R ops n (fun j => f (S n - 1 - (1 + j))) (fun j => f (n - 1 - j))).
  - ring.
  - intros j Hj. f_equal. lia.
Qed.

Lemma sum_n_blocks (T BS m : nat) (g : nat -> R) :
  sum_n (Nat.min T (m * BS)) g
  = sum_n m (fun n => sum_n (chunk_rows T BS n) (fun j => g (n * BS + j)%nat)).
Proof.
  induction m as [|m IH].
  { cbn [Nat.mul]. rewrite Nat.min_0_r. reflexivity. }
  cbn [sum_n]. rewrite <- IH.
  replace (Nat.min T (S m * BS)) with (Nat.min T (m * BS) + chunk_rows T BS m)
    by (unfold chunk_rows; lia).
  rewrite sum_n_split. f_equal. apply sum_n_ext. intros j Hj.
  f_equal. unfold chunk_rows in Hj. lia.
Qed.

Section ScannerSum.

Variables (Q' K' Ko Vm : Mat R) (gate : nat -> R) (O0 : Mat R).
Variables (T K BT BS i : nat).

Let N := (i + 1) * (BT / BS) - 1.

(** What the visit of block [n] adds to row [r], column [c] of the output. *)
Let contrib (r c n : nat) : R :=
  sum_n (chunk_rows T BS n) (fun s =>
    (if n * BS + BS <=? i * BT + r
     then sum_n K (fun c' =>
            fst (scanner_before Q' K' Ko Vm gate O0 T K BT BS i n) r c'
            * K' (n * BS + s)%nat c')
     else rO) * Vm (n * BS + s)%nat c)%R.

Lemma scanner_prefix_sum (r c d : nat) :
  d <= N ->
  snd (fold_left (visit K' Ko Vm gate T K BT BS i) (rev (seq (N - d) d))
         (chunk_of Q' BT i, chunk_of O0 BT i)) r c
  = (chunk_of O0 BT i r c + sum_n d (fun j => contrib r c (N - 1 - j)))%R.
Proof.
  induction d as [|d IH]; intro Hd.
  - cbn [seq rev fold_left snd sum_n]. ring.
  - replace (seq (N - S d) (S d)) with ((N - S d) :: seq (N - d) d)
      by (cbn [seq]; do 2 f_equal; lia).
    cbn [rev]. rewrite fold_left_app. cbn [fold_left sum_n].
    transitivity ((chunk_of O0 BT i r c + sum_n d (fun j => contrib r c (N - 1 - j)))
                  + contrib r c (N - 1 - d))%R; [|ring].
    rewrite <- IH by lia.
    assert (Eb : fold_left (visit K' Ko Vm gate T K BT BS i) (rev (seq (N - d) d))
                   (chunk_of Q' BT i, chunk_of O0 BT i)
                 = scanner_before Q' K' Ko Vm gate O0 T K BT BS i (N - S d)).
    { unfold scanner_before. fold N. do 3 f_equal; lia. }
    unfold contrib. replace (N - 1 - d) with (N - S d) by lia.
    rewrite <- Eb.
    destruct (fold_left _ (rev (seq (N - d) d)) _) as [Qr Oacc].
    unfold visit. cbn [fst snd]. reflexivity.
Qed.

Lemma scanner_output_sum (r c : nat) :
  snd (scanner Q' K' Ko Vm gate O0 T K BT BS i) r c
  = (chunk_of O0 BT i r c + sum_n N (contrib r c))%R.
Proof.
  unfold scanner, visited. fold N.
  pose proof (@scanner_prefix_sum r c N (Nat.le_refl N)) as E.
  rewrite Nat.sub_diag in E. rewrite E. f_equal. apply sum_n_rev.
Qed.

End ScannerSum.

Lemma block_index (BS n j : nat) :
  j < BS -> (n * BS + j) / BS = n /\ (n * BS + j) mod BS = j.
Proof.
  intro Hj. split.
  - symmetry. apply Nat.div_unique with (r := j); lia.
  - rewrite Nat.add_comm, Nat.Div0.mod_add. apply Nat.mod_small. exact Hj.
Qed.

(** The output of the engine is its attention matrix applied to the
    values. *)
Lemma engine_output_is_attention_times_values (BT BS : nat) (A q k v beta : Tdata R)
    (scale : R) (B H T K V : nat) (oa : bool) (bh t c : nat) :
  0 < BS -> 0 < BT -> BT mod BS = 0 -> bh < B * H -> t < T -> c < V ->
  fst (engine_run BT BS A q k v beta scale B H T K V oa) bh t c
  = sum_n T (fun s => attention_entry q k v beta A scale T K BT BS bh t s
                      * v bh s c)%R.
Proof.
  intros HBS HBT Hdiv Hbh Ht Hc.
  rewrite (engine_output Rth) by assumption.
  rewrite scanner_output_sum.
  set (i := t / BT). set (r := t mod BT). set (b := t / BS).
  set (N := (i + 1) * (BT / BS) - 1).
  pose proof (Nat.div_mod_eq t BT) as Et. fold i r in Et.
  pose proof (Nat.mod_upper_bound t BT ltac:(lia)) as Hrm. fold r in Hrm.
  pose proof (Nat.div_mod_eq t BS) as Eb. fold b in Eb.
  pose proof (Nat.mod_upper_bound t BS ltac:(lia)) as Hbm.
  pose proof (Nat.div_mod_eq BT BS) as EB. rewrite Hdiv, Nat.add_0_r in EB.
  assert (Hrow : i * BT + r = t) by lia.
  assert (HbN : b <= N).
  { assert (b < (i + 1) * (BT / BS)) by (apply Nat.Div0.div_lt_upper_bound; nia).
    unfold N. lia. }
  pose proof (cdiv_has_block HBS Ht) as HbNB. fold b in HbNB.
  set (g := fun s => (attention_entry q k v beta A scale T K BT BS bh t s * v bh s c)%R).
  set (F := fun n => sum_n (chunk_rows T BS n) (fun j => g (n * BS + j)%nat)).
  assert (ET : sum_n T g = sum_n (cdiv T BS) F).
  { unfold F. rewrite <- sum_n_blocks. f_equal.
    assert (T <= cdiv T BS * BS); [|lia].
    unfold cdiv. pose proof (Nat.div_mod_eq (T + BS - 1) BS).
    pose proof (Nat.mod_upper_bound (T + BS - 1) BS ltac:(lia)). nia. }
  rewrite ET.
  rewrite (sum_n_pad Rth) with (n := S b) (m := cdiv T BS); [|lia|].
  2:{ intros n H1 H2. unfold F. apply (sum_n_zero Rth). intros j Hj.
      unfold g, attention_entry. unfold chunk_rows in Hj.
      destruct (block_index n (j := j) (BS := BS) ltac:(lia)) as [D1 D2].
      rewrite D1. fold b.
      destruct (Nat.eqb_spec b n); [lia|].
      destruct (Nat.ltb_spec n b); [lia|]. ring. }
  cbn [sum_n].
  match goal with
  | |- (_ + sum_n N ?ff)%R = _ => rewrite (@sum_n_pad R ops Rth b N ff)
  end; [|exact HbN|].
  2:{ intros n H1 H2. apply (sum_n_zero Rth). intros s Hs.
      destruct (Nat.leb_spec (n * BS + BS) (i * BT + r)); [nia | ring]. }
  rewrite (Radd_comm Rth). f_equal.
  - apply sum_n_ext. intros n Hn. unfold F. apply sum_n_ext. intros s Hs.
    unfold g, attention_entry. unfold chunk_rows in Hs.
    destruct (block_index n (j := s) (BS := BS) ltac:(lia)) as [D1 D2].
    rewrite D1. fold b i r.
    destruct (Nat.eqb_spec b n); [lia|].
    destruct (Nat.ltb_spec n b); [|lia].
    destruct (Nat.leb_spec (n * BS + BS) (i * BT + r)); [|nia].
    reflexivity.
  - unfold F, chunk_of. rewrite Hrow.
    unfold intra_O, intra_at, intra_chunk. cbn [fst snd]. fold b.
    apply sum_n_ext. intros j Hj. unfold g, attention_entry.
    unfold chunk_rows in Hj.
    destruct (block_index b (j := j) (BS := BS) ltac:(lia)) as [D1 D2].
    rewrite D1, D2. fold b. rewrite Nat.eqb_refl.
    unfold intra_S, intra_at, intra_chunk. cbn [fst snd]. fold b.
    unfold chunk_of. reflexivity.
Qed.

(** X6: the output is the returned attention matrix applied to the values:
    [o[t] = sum_s attn[t, s] * v[s]]. *)
Theorem output_is_attention_times_values (q k v beta : tensor R) (scale : R)
    (B H T K V : nat) :
  valid_shapes q k v beta B H T K V -> K <= 128 ->
  exists o attn,
    snd (forward fwd_prepare_T q k v beta (Some scale) true []) = inr (o, Some attn)
    /\ forall bh t c, bh < B * H -> t < T -> c < V ->
         data o bh t c
         = sum_n T (fun s => data attn bh t s * data v bh s c)%R.
Proof.
  intros Hsh HK.
  rewrite (forward_run fwd_prepare_T scale true [] Hsh HK). cbv zeta. cbn [snd].
  destruct (@engine_attention_entries 128 32 (data (fwd_prepare_T k beta 32))
              (data q) (data k) (data v) (data beta) scale B H T K V
              ltac:(lia) ltac:(lia) eq_refl) as (attn & E & Hent).
  rewrite E. cbn [option_map]. do 2 eexists. split; [reflexivity|].
  cbn [data]. intros bh t c Hbh Ht Hc.
  rewrite engine_output_is_attention_times_values by (assumption || lia || reflexivity).
  apply sum_n_ext. intros s Hs. rewrite Hent by assumption. reflexivity.
Qed.

(** ** The attention tensor of the reference *)

Section OracleAttention.

Variables (k v k_beta : Tdata R) (l d_k BM BN : nat) (i_t : nat).
Hypothesis HBN : 0 < BN.
Hypothesis Hrows : Nat.min BM (l - i_t * BM) = BM.

Let i := Z.of_nat (i_t * BM).

Lemma oracle_loop_attn (masked : bool) (offs : list Z)
    (q_i o_i : nat -> Block R) (A : Tdata R) :
  efold (oracle_body masked k v k_beta l d_k BM BN i) offs (q_i, o_i, A)
  = inr (let st := fold_left (oracle_qo masked k v k_beta l d_k BN i) offs (q_i, o_i) in
         (fst st, snd st,
          oracle_attn k v k_beta l d_k BM BN i (map (pair masked) offs) (q_i, o_i) A)).
Proof.
  revert q_i o_i A. induction offs as [|j offs IH]; intros q_i o_i A;
    cbn [fold_left map oracle_attn fst snd].
  - reflexivity.
  - rewrite efold_cons.
    assert (Hi : Z.to_nat i = i_t * BM) by (unfold i; apply Nat2Z.id).
    unfold oracle_body at 1. rewrite Hi, Hrows, Nat.eqb_refl.
    replace (masked && negb true && negb (BM =? 1)) with false
      by (destruct masked; reflexivity).
    cbn [ebind]. unfold oracle_qo at 2 3. unfold oracle_scores.
    destruct masked; apply IH.
Qed.

End OracleAttention.

Lemma oracle_attn_app (k v k_beta : Tdata R) (l d_k BM BN : nat) (i : Z)
    (l1 l2 : list (bool * Z)) (st : (nat -> Block R) * (nat -> Block R)) (A : Tdata R) :
  oracle_attn k v k_beta l d_k BM BN i (l1 ++ l2) st A
  = oracle_attn k v k_beta l d_k BM BN i l2
      (fold_left (fun st mo => oracle_qo (fst mo) k v k_beta l d_k BN i st (snd mo)) l1 st)
      (oracle_attn k v k_beta l d_k BM BN i l1 st A).
Proof.
  revert st A. induction l1 as [|mo l1 IH]; intros st A; cbn [app oracle_attn fold_left].
  - reflexivity.
  - apply IH.
Qed.

Lemma oracle_block_attn (q k v k_beta o_intra : Tdata R) (l d_k d_v BM BN i_t : nat)
    (A o : Tdata R) :
  Nat.min BM (l - i_t * BM) = BM ->
  oracle_block q k v k_beta o_intra l d_k d_v BM BN (A, o) (Z.of_nat (i_t * BM))
  = inr (oracle_attn k v k_beta l d_k BM BN (Z.of_nat (i_t * BM))
           (scan_offsets BM BN i_t)
           (fun bh => rows_from (q bh) l (Z.of_nat (i_t * BM)),
            fun bh => rows_from (o_intra bh) l (Z.of_nat (i_t * BM))) A,
         fun bh =>
           slice_assign (o bh) (l, d_v) (Z.of_nat (i_t * BM)) 0%Z BM d_v
             (oracle_o_block q k v k_beta o_intra l d_k BM BN i_t bh)).
Proof.
  intro Hrows. unfold oracle_block.
  replace (Z.of_nat (i_t * BM) + Z.of_nat BM - 2 * Z.of_nat BN)%Z
    with ((Z.of_nat i_t + 1) * Z.of_nat BM - 2 * Z.of_nat BN)%Z by lia.
  replace (Z.of_nat (i_t * BM) - Z.of_nat BN)%Z
    with (Z.of_nat i_t * Z.of_nat BM - Z.of_nat BN)%Z by lia.
  fold (overlap_offsets BM BN i_t). fold (disjoint_offsets BM BN i_t).
  rewrite (@oracle_loop_attn k v k_beta l d_k BM BN i_t Hrows). cbv zeta. cbn [ebind].
  rewrite (@oracle_loop_attn k v k_beta l d_k BM BN i_t Hrows). cbv zeta. cbn [ebind].
  f_equal. f_equal.
  - unfold scan_offsets. rewrite oracle_attn_app.
    rewrite !(fold_left_flag
                (fun fl st j => oracle_qo fl k v k_beta l d_k BN (Z.of_nat (i_t * BM)) st j)).
    rewrite <- surjective_pairing. reflexivity.
  - unfold oracle_o_block, scan_offsets. cbv zeta. rewrite fold_left_app.
    rewrite !(fold_left_flag
                (fun fl st j => oracle_qo fl k v k_beta l d_k BN (Z.of_nat (i_t * BM)) st j)).
    rewrite <- surjective_pairing. reflexivity.
Qed.

Lemma oracle_run_attn (q k v k_beta o_intra : Tdata R) (l d_k d_v BM BN : nat)
    (idx : list nat) :
  (forall i_t, In i_t idx -> Nat.min BM (l - i_t * BM) = BM) ->
  forall A o,
    efold (oracle_block q k v k_beta o_intra l d_k d_v BM BN)
          (map (fun i_t => Z.of_nat (i_t * BM)) idx) (A, o)
    = inr (oracle_attn_all q k v k_beta o_intra l d_k BM BN idx A,
           oracle_o (oracle_o_block q k v k_beta o_intra l d_k BM BN)
             l d_v BM idx o).
Proof.
  unfold oracle_attn_all, oracle_o.
  induction idx as [|i_t idx IH]; intros Hrows A o; cbn [map fold_left].
  - reflexivity.
  - rewrite efold_cons.
    rewrite oracle_block_attn by (apply Hrows; left; reflexivity).
    cbn [ebind]. apply IH. intros j Hj. apply Hrows. right. exact Hj.
Qed.

Lemma slice_store_read (A : Mat R) (l BM BN i_t n : nat) (b : Block R) (r c : nat) :
  0 < BM -> 0 < BN -> r < l -> c < l ->
  slice_assign A (l, l) (Z.of_nat (i_t * BM)) (Z.of_nat (n * BN)) BM BN b r c
  = if (i_t =? r / BM) && (n =? c / BN) then b (r mod BM) (c mod BN) else A r c.
Proof.
  intros HBM HBN Hr Hc.
  pose proof (@attn_store_read l BM BN i_t 0 n b (fun _ => A) 0 r c HBM HBN Hr Hc) as E.
  unfold attn_store, upd in E. cbn [Nat.eqb andb] in E. exact E.
Qed.

Lemma oracle_scores_val (fl : bool) (k : Tdata R) (l d_k BM BN i_t : nat)
    (q_i : nat -> Block R) (Qr : Block R) (bh n r s : nat) :
  n * BN + s < l ->
  fl = true \/ n * BN + BN <= i_t * BM ->
  (forall c, c < d_k -> q_i bh r c = Qr r c) ->
  oracle_scores fl k l d_k BN (Z.of_nat (i_t * BM)) q_i (Z.of_nat (n * BN)) bh r s
  = if n * BN + BN <=? i_t * BM + r
    then sum_n d_k (fun c => Qr r c * k bh (n * BN + s)%nat c)%R else rO.
Proof.
  intros Hin Hfl Hq. unfold oracle_scores.
  assert (Hdot : matmul_t d_k (q_i bh) (rows_from (k bh) l (Z.of_nat (n * BN))) r s
                 = sum_n d_k (fun c => Qr r c * k bh (n * BN + s)%nat c)%R).
  { unfold matmul_t. apply sum_n_ext. intros c Hc.
    rewrite Hq, rows_from_nat by lia. bool_cases; try lia. reflexivity. }
  destruct fl.
  - unfold masked_fill.
    replace (Z.of_nat (n * BN) + Z.of_nat BN <=? Z.of_nat (i_t * BM) + Z.of_nat r)%Z
      with (n * BN + BN <=? i_t * BM + r) by (bool_cases; try reflexivity; lia).
    destruct (_ <=? _); cbn [negb]; [exact Hdot | reflexivity].
  - destruct Hfl as [Hf|Hle]; [discriminate|].
    destruct (Nat.leb_spec (n * BN + BN) (i_t * BM + r)); [exact Hdot | lia].
Qed.

Lemma oracle_attn_other (k v k_beta : Tdata R) (l d_k BM BN i_t : nat)
    (bh r c : nat) (fl_ns : list (bool * nat)) :
  0 < BM -> 0 < BN -> r < l -> c < l ->
  ~ In (c / BN) (map snd fl_ns) ->
  forall st A,
    oracle_attn k v k_beta l d_k BM BN (Z.of_nat (i_t * BM))
      (map (fun p => (fst p, Z.of_nat (snd p * BN))) fl_ns) st A bh r c
    = A bh r c.
Proof.
  intros HBM HBN Hr Hc.
  induction fl_ns as [|[fl n] fl_ns IH]; intros Hnin st A; cbn [map oracle_attn fst snd].
  - reflexivity.
  - rewrite IH by (intro Hin; apply Hnin; right; exact Hin).
    rewrite slice_store_read by assumption.
    destruct (Nat.eqb_spec n (c / BN)) as [E|E].
    + exfalso. apply Hnin. left. exact E.
    + rewrite andb_false_r. reflexivity.
Qed.

Lemma oracle_program_attn_read (q k v k_beta o_intra : Tdata R)
    (l d_k V BM BN i_t : nat) (Ko : Mat R) (gate : nat -> R) (A : Tdata R)
    (bh r c : nat) :
  0 < BN -> 0 < BM -> BM mod BN = 0 -> Nat.min BM (l - i_t * BM) = BM ->
  (forall t c, t < l -> k_beta bh t c = (Ko t c * gate t)%R) ->
  r < l -> c < l ->
  oracle_attn k v k_beta l d_k BM BN (Z.of_nat (i_t * BM)) (scan_offsets BM BN i_t)
    (fun bh => rows_from (q bh) l (Z.of_nat (i_t * BM)),
     fun bh => rows_from (o_intra bh) l (Z.of_nat (i_t * BM))) A bh r c
  = if (i_t =? r / BM) && (c / BN <? (r / BM + 1) * (BM / BN) - 1)
    then (if c / BN * BN + BN <=? r
          then sum_n d_k (fun c' =>
                 fst (scanner_before (q bh) (k bh) Ko (v bh) gate (o_intra bh)
                        l d_k BM BN (r / BM) (c / BN))
                     (r mod BM) c' * k bh c c')%R
          else rO)
    else A bh r c.
Proof.
  intros HBN HBM Hdiv Hrows Hkb Hr Hc.
  destruct (@scan_offsets_flags BM BN i_t HBN Hdiv) as (fl_ns & E1 & E2 & Hfl).
  rewrite E1.
  pose proof (Nat.div_mod_eq r BM) as Er. pose proof (Nat.div_mod_eq c BN) as Ec.
  pose proof (Nat.mod_upper_bound c BN ltac:(lia)) as Hcm.
  pose proof (Nat.mod_upper_bound r BM ltac:(lia)) as Hrm.
  destruct (Nat.ltb_spec (c / BN) ((i_t + 1) * (BM / BN) - 1)) as [Hin|Hout].
  - unfold visited in E2. rewrite (visited_split Hin) in E2.
    destruct (flagged_split _ _ _ _ E2) as (l1 & fl & l2 & -> & El1 & El2).
    rewrite map_app, oracle_attn_app. cbn [map oracle_attn fst snd].
    rewrite oracle_attn_other; try assumption.
    2:{ rewrite El2. intro Hx. apply in_rev in Hx. apply in_seq in Hx. lia. }
    rewrite slice_store_read by assumption. rewrite Nat.eqb_refl, andb_true_r.
    destruct (Nat.eqb_spec i_t (r / BM)) as [->|Hit]; cbn [andb].
    2:{ rewrite oracle_attn_other; try assumption; [reflexivity|].
        rewrite El1. intro Hx. apply in_rev in Hx. apply in_seq in Hx. lia. }
    destruct (Nat.ltb_spec (c / BN) ((r / BM + 1) * (BM / BN) - 1)); [|lia].
    assert (Hrow : r / BM * BM + r mod BM = r) by lia.
    rewrite oracle_scores_val
      with (Qr := fst (scanner_before (q bh) (k bh) Ko (v bh) gate (o_intra bh)
                         l d_k BM BN (r / BM) (c / BN)));
      try assumption; try lia.
    + rewrite Hrow. replace (c / BN * BN + c mod BN) with c by lia. reflexivity.
    + apply (Hfl fl (c / BN)). apply in_or_app. right. left. reflexivity.
    + unfold scanner_before. rewrite <- El1.
      pose proof (@oracle_fold_visit R ops Rth k v k_beta l d_k BM BN (r / BM) HBN Hrows
                    bh V Ko gate Hkb (r mod BM) l1) as L.
      cbv zeta in L.
      refine (proj1 (L _ _ _ _)).
      * intros fl' n' Hin'. apply (Hfl fl' n'). apply in_or_app. left. exact Hin'.
      * unfold row_agree, chunk_of. cbn [fst snd].
        split; intros c' Hc'; rewrite rows_from_nat; bool_cases; try lia; reflexivity.
  - rewrite oracle_attn_other; try assumption.
    + destruct (Nat.eqb_spec i_t (r / BM)) as [->|Hit]; [|reflexivity].
      destruct (Nat.ltb_spec (c / BN) ((r / BM + 1) * (BM / BN) - 1)); [lia|].
      reflexivity.
    + rewrite E2. unfold visited. intro Hx. apply in_rev in Hx. apply in_seq in Hx. lia.
Qed.

Lemma oracle_attn_all_read (q k v k_beta o_intra : Tdata R) (l d_k V BM BN : nat)
    (Ko : Mat R) (gate : nat -> R) (A : Tdata R) (bh r c : nat) :
  0 < BN -> 0 < BM -> BM mod BN = 0 -> l mod BM = 0 ->
  (forall t c, t < l -> k_beta bh t c = (Ko t c * gate t)%R) ->
  r < l -> c < l ->
  oracle_attn_all q k v k_beta o_intra l d_k BM BN (seq 0 (l / BM)) A bh r c
  = if c / BN <? (r / BM + 1) * (BM / BN) - 1
    then (if c / BN * BN + BN <=? r
          then sum_n d_k (fun c' =>
                 fst (scanner_before (q bh) (k bh) Ko (v bh) gate (o_intra bh)
                        l d_k BM BN (r / BM) (c / BN))
                     (r mod BM) c' * k bh c c')%R
          else rO)
    else A bh r c.
Proof.
  intros HBN HBM Hdiv Hl Hkb Hr Hc. unfold oracle_attn_all.
  pose proof (Nat.div_mod_eq l BM) as El. rewrite Hl, Nat.add_0_r in El.
  rewrite (@fold_programs_read nat
             (fun i_t A => oracle_attn k v k_beta l d_k BM BN (Z.of_nat (i_t * BM))
                             (scan_offsets BM BN i_t)
                             (fun bh => rows_from (q bh) l (Z.of_nat (i_t * BM)),
                              fun bh => rows_from (o_intra bh) l (Z.of_nat (i_t * BM))) A)
             (fun i_t => i_t =? r / BM)
             (c / BN <? (r / BM + 1) * (BM / BN) - 1)
             (if c / BN * BN + BN <=? r
              then sum_n d_k (fun c' =>
                     fst (scanner_before (q bh) (k bh) Ko (v bh) gate (o_intra bh)
                            l d_k BM BN (r / BM) (c / BN))
                         (r mod BM) c' * k bh c c')%R
              else rO)).
  - assert (Hex : existsb (fun i_t => i_t =? r / BM) (seq 0 (l / BM)) = true).
    { apply existsb_exists. exists (r / BM). split; [|apply Nat.eqb_refl].
      apply in_seq. split; [lia|]. cbn [Nat.add].
      apply Nat.Div0.div_lt_upper_bound. lia. }
    rewrite Hex. reflexivity.
  - intros i_t A' Hin. apply in_seq in Hin.
    apply oracle_program_attn_read with (V := V); try assumption. nia.
Qed.

Lemma oracle_diag_read (A_local : chunked R) (l BN : nat) (idx : list nat)
    (A : Tdata R) (bh r c : nat) :
  0 < BN -> r < l -> c < l ->
  oracle_diag A_local l BN idx A bh r c
  = if (r / BN =? c / BN) && existsb (Nat.eqb (r / BN)) idx
    then A_local bh (r / BN) (r mod BN) (c mod BN) else A bh r c.
Proof.
  intros HBN Hr Hc. unfold oracle_diag. revert A.
  induction idx as [|i idx IH]; intro A; cbn [fold_left existsb].
  - rewrite andb_false_r. reflexivity.
  - rewrite IH.
    destruct (Nat.eqb_spec (r / BN) (c / BN)) as [E|E]; cbn [andb].
    + destruct (existsb _ idx); [rewrite orb_true_r; reflexivity|].
      rewrite orb_false_r, slice_store_read by assumption. rewrite <- E.
      rewrite (Nat.eqb_sym (r / BN) i).
      destruct (Nat.eqb_spec i (r / BN)) as [->|]; reflexivity.
    + rewrite slice_store_read by assumption.
      destruct (Nat.eqb_spec i (r / BN)) as [E1|E1];
        destruct (Nat.eqb_spec i (c / BN)) as [E2|E2]; cbn [andb]; try reflexivity.
      congruence.
Qed.

Lemma oracle_A_local_spec (q k v beta : Tdata R) (nbh l d_k BN : nat) (A : Tdata R)
    (bh t m : nat) :
  0 < BN -> l mod BN = 0 ->
  (forall bh n j m, j < BN ->
     A bh (n * BN + j) m
     = oracle_T nbh (l / BN) d_k BN (rearrange_split BN k)
         (rearrange_split BN (fun bh t d => (k bh t d * beta bh t 0)%R)) bh n j m) ->
  t < l ->
  snd (oracle_intra q k v beta nbh l d_k BN) bh (t / BN) (t mod BN) m
  = intra_S q k (fun bh t d => (v bh t d * beta bh t 0)%R) beta A (inv_sqrt d_k)
      l d_k BN bh t m.
Proof.
  intros HBN Hdiv HA Ht. unfold oracle_intra. cbn [snd].
  unfold intra_S, intra_at, intra_chunk. cbn [fst snd].
  rewrite (full_chunk HBN Hdiv Ht).
  unfold rearrange_split, matmul, matmul_t, masked_fill, triu, chunk_of.
  apply sum_n_ext. intros j Hj. rewrite HA by exact Hj.
  unfold rearrange_split. bool_cases; try lia; reflexivity.
Qed.

(** The attention tensor of the reference, entry by entry. *)
Lemma oracle_attention_entries (q k v beta : tensor R) (B H T K V BM BN : nat) :
  valid_shapes q k v beta B H T K V ->
  0 < BN -> 0 < BM -> BM mod BN = 0 -> T mod BM = 0 ->
  let vg : Tdata R := fun bh t d => (data v bh t d * data beta bh t 0)%R in
  let A := data (reference_solver k beta BN) in
  exists o A_ref,
    naive_delta_rule_parallel q k v beta BM BN = inr (o, Tensor [B; H; T; T] A_ref)
    /\ forall bh r c, r < T -> c < T ->
         A_ref bh r c
         = attention_entry (data q) (data k) vg (data beta) A (inv_sqrt K) T K BM BN
             bh r c.
Proof.
  intros (Hq & Hk & Hv & Hb) HBN HBM Hdiv HT vg A.
  assert (HTN : T mod BN = 0).
  { pose proof (Nat.div_mod_eq T BM). pose proof (Nat.div_mod_eq BM BN).
    replace T with ((T / BM * (BM / BN)) * BN) by nia.
    apply Nat.Div0.mod_mul. }
  unfold naive_delta_rule_parallel. rewrite Hq, Hk, Hv, Hb.
  cbn [unpack4 shape_last rev app ebind]. rewrite !shape_eqb_refl.
  destruct (Nat.ltb_spec 0 BN); [|lia]. rewrite Hdiv, HTN. cbn [Nat.eqb andb negb].
  assert (HA : forall bh n j m, j < BN ->
            A bh (n * BN + j) m
            = oracle_T (B * H) (T / BN) K BN (rearrange_split BN (data k))
                (rearrange_split BN
                   (fun bh t d => (data k bh t d * data beta bh t 0)%R)) bh n j m).
  { intros bh n j m Hj. apply (reference_solver_chunk k beta bh n m Hk HTN Hj). }
  pose proof (fun bh t c => @oracle_intra_spec R ops (data q) (data k) (data v) (data beta)
                (B * H) T K BN HBN HTN A HA bh t c) as Hspec.
  pose proof (fun bh t m => @oracle_A_local_spec (data q) (data k) (data v) (data beta)
                (B * H) T K BN A bh t m HBN HTN HA) as Hloc.
  destruct (oracle_intra (data q) (data k) (data v) (data beta) (B * H) T K BN)
    as [[[[[q2 k2] v2] kb2] o_intra] A_local].
  cbn [snd] in Hloc.
  rewrite py_range_blocks by assumption.
  rewrite oracle_run_attn.
  2:{ intros i_t Hin. apply in_seq in Hin. pose proof (Nat.div_mod_eq T BM). nia. }
  cbn [ebind]. do 2 eexists. split; [reflexivity|].
  intros bh r c Hr Hc.
  fold (oracle_diag A_local T BN (seq 0 (T / BN))
          (oracle_attn_all q2 k2 v2 kb2 o_intra T K BM BN (seq 0 (T / BM)) zeros)).
  rewrite oracle_diag_read by assumption. unfold attention_entry.
  pose proof (Nat.div_mod_eq T BN) as ETN. rewrite HTN, Nat.add_0_r in ETN.
  assert (Hex : existsb (Nat.eqb (r / BN)) (seq 0 (T / BN)) = true).
  { apply existsb_exists. exists (r / BN). split; [|apply Nat.eqb_refl].
    apply in_seq. split; [lia|]. cbn [Nat.add].
    apply Nat.Div0.div_lt_upper_bound. lia. }
  rewrite Hex, andb_true_r.
  pose proof (Nat.div_mod_eq r BN). pose proof (Nat.mod_upper_bound r BN ltac:(lia)).
  pose proof (Nat.div_mod_eq c BN). pose proof (Nat.mod_upper_bound c BN ltac:(lia)).
  pose proof (Nat.div_mod_eq r BM) as Er.
  pose proof (Nat.mod_upper_bound r BM ltac:(lia)).
  pose proof (Nat.div_mod_eq BM BN) as EB. rewrite Hdiv, Nat.add_0_r in EB.
  destruct (Nat.eqb_spec (r / BN) (c / BN)) as [E|E].
  - apply Hloc. assumption.
  - rewrite oracle_attn_all_read
      with (V := V) (Ko := data k bh) (gate := fun t => data beta bh t 0);
      try assumption.
    2:{ intros t' c' Ht'. apply Hspec. assumption. }
    destruct (Nat.ltb_spec (c / BN) (r / BN)) as [Hlt|Hge].
    + assert (Hblk : r / BN < (r / BM + 1) * (BM / BN)).
      { apply Nat.Div0.div_lt_upper_bound. nia. }
      destruct (Nat.ltb_spec (c / BN) ((r / BM + 1) * (BM / BN) - 1)); [|lia].
      destruct (Nat.leb_spec (c / BN * BN + BN) r); [|nia].
      assert (Hrow : r / BM * BM + r mod BM = r) by lia.
      cbv zeta. apply sum_n_ext. intros c' Hc'. f_equal.
      * refine (proj1 (@fold_visit_row_congr T K V BM BN (r / BM) (r mod BM)
                         _ _ _ _ _ _ _ _ _ HBN _ _ _ _) c' Hc').
        -- rewrite Hrow. intros t' Ht' _.
           repeat split; intros; try apply Hspec; try reflexivity; assumption.
        -- unfold row_agree, chunk_of. cbn [fst snd]. rewrite Hrow.
           split; intros; apply Hspec; assumption.
      * apply Hspec. assumption.
    + destruct (Nat.ltb_spec (c / BN) ((r / BM + 1) * (BM / BN) - 1)); [|reflexivity].
      destruct (Nat.leb_spec (c / BN * BN + BN) r); [nia | reflexivity].
Qed.

(** ** The attention matrix reads neither the values nor the solver outside
    the sequence *)

Lemma intra_chunk_solver_congr (n K : nat) (scale : R) (Q Kc Vc Vc' : Block R)
    (gate : nat -> R) (Tm Tm' : Block R) (r : nat) :
  (forall j m, j < n -> m < n -> Tm j m = Tm' j m) ->
  let a := intra_chunk n K Q Kc Vc gate Tm scale in
  let b := intra_chunk n K Q Kc Vc' gate Tm' scale in
  (forall c, snd (fst (fst a)) r c = snd (fst (fst b)) r c)
  /\ (forall m, m < n -> snd a r m = snd b r m).
Proof.
  intros HT. cbv zeta. unfold intra_chunk. cbn [fst snd].
  assert (HS : forall m, m < n ->
            sum_n n (fun j => (if j <=? r then sum_n K (fun c => Q r c * scale * Kc j c)
                               else rO) * Tm j m)%R
            = sum_n n (fun j => (if j <=? r then sum_n K (fun c => Q r c * scale * Kc j c)
                                 else rO) * Tm' j m)%R).
  { intros m Hm. apply sum_n_ext. intros j Hj. rewrite HT by assumption. reflexivity. }
  split.
  - intro c. f_equal. apply sum_n_ext. intros m Hm. rewrite HS by assumption. reflexivity.
  - exact HS.
Qed.

Lemma attention_entry_congr (q k v v' beta A A' : Tdata R) (scale : R)
    (T K BT BS bh tq tk : nat) :
  0 < BS -> tq < T -> tk < T ->
  (forall t c, t < T -> c < BS -> A bh t c = A' bh t c) ->
  attention_entry q k v beta A scale T K BT BS bh tq tk
  = attention_entry q k v' beta A' scale T K BT BS bh tq tk.
Proof.
  intros HBS Htq Htk HA. unfold attention_entry.
  assert (HTm : forall t j m, t < T -> j < chunk_rows T BS (t / BS) ->
            m < chunk_rows T BS (t / BS) ->
            chunk_of (A bh) BS (t / BS) j m = chunk_of (A' bh) BS (t / BS) j m).
  { intros t j m Ht Hj Hm. unfold chunk_of. unfold chunk_rows in Hj, Hm.
    apply HA; lia. }
  assert (HQ : forall t c, t < T ->
            intra_Q q k v beta A scale T K BS bh t c
            = intra_Q q k v' beta A' scale T K BS bh t c).
  { intros t c Ht. unfold intra_Q, intra_at.
    apply intra_chunk_solver_congr. intros j m. apply HTm. exact Ht. }
  assert (HK' : forall t c, t < T -> c < K ->
            intra_K q k v beta A scale T K BS bh t c
            = intra_K q k v' beta A' scale T K BS bh t c).
  { intros t c Ht Hc. unfold intra_K, intra_at.
    apply intra_chunk_K_congr; try assumption; try reflexivity.
    - apply mod_lt_chunk_rows; assumption.
    - intros j m. apply HTm. exact Ht. }
  destruct (Nat.eqb_spec (tq / BS) (tk / BS)) as [E|E].
  - unfold intra_S, intra_at.
    apply intra_chunk_solver_congr.
    + intros j m. apply HTm. exact Htq.
    + rewrite E. apply mod_lt_chunk_rows; assumption.
  - destruct (tk / BS <? tq / BS); [|reflexivity].
    cbv zeta. apply sum_n_ext. intros c Hc. f_equal; [|apply HK'; assumption].
    pose proof (Nat.div_mod_eq tq BT) as Et.
    assert (Hrow : tq / BT * BT + tq mod BT = tq) by lia.
    refine (proj1 (@fold_visit_row_congr T K 0 BT BS (tq / BT) (tq mod BT)
                     _ _ _ _ _ _ _ _ _ HBS _ _ _ _) c Hc).
    + intros t Ht _. repeat split; intros; try reflexivity; try lia.
      apply HK'; assumption.
    + unfold row_agree, chunk_of. cbn [fst snd]. rewrite Hrow.
      split; intros; [apply HQ; assumption | lia].
Qed.

(** X7: for a sequence length that is a multiple of [128], scale
    [1 / sqrt K] and the correction matrices of the reference, the attention
    matrix of [forward] equals the attention matrix of the reference, for
    any gates. *)
Theorem attention_matches_oracle (q k v beta : tensor R) (B H T K V : nat) :
  valid_shapes q k v beta B H T K V ->
  K <= 128 -> T mod 128 = 0 ->
  solver_is_reference fwd_prepare_T k beta B H T ->
  exists o attn o_ref A_ref,
    snd (forward fwd_prepare_T q k v beta (Some (inv_sqrt K)) true [])
      = inr (o, Some attn)
    /\ naive_delta_rule_parallel q k v beta 128 32 = inr (o_ref, A_ref)
    /\ shape attn = shape A_ref
    /\ forall bh tq tk, bh < B * H -> tq < T -> tk < T ->
         data attn bh tq tk = data A_ref bh tq tk.
Proof.
  intros Hsh HK HT Hsolver.
  rewrite (forward_run fwd_prepare_T (inv_sqrt K) true [] Hsh HK). cbv zeta. cbn [snd].
  destruct (@engine_attention_entries 128 32 (data (fwd_prepare_T k beta 32))
              (data q) (data k) (data v) (data beta) (inv_sqrt K) B H T K V
              ltac:(lia) ltac:(lia) eq_refl) as (attn & E & Hent).
  rewrite E. cbn [option_map].
  destruct (@oracle_attention_entries q k v beta B H T K V 128 32 Hsh
              ltac:(lia) ltac:(lia) eq_refl HT) as (o_ref & A_ref & Eor & Hor).
  do 4 eexists. split; [reflexivity|]. split; [exact Eor|]. split; [reflexivity|].
  cbn [data]. intros bh tq tk Hbh Htq Htk.
  rewrite Hent, Hor by assumption.
  apply attention_entry_congr; try assumption; [lia|].
  intros t c Ht Hc. apply Hsolver; assumption.
Qed.

(** ** Gates that are all zero *)

Lemma sum_n_delta (n m : nat) (f : nat -> R) :
  sum_n n (fun j => f j * eye j m)%R = if m <? n then f m else rO.
Proof.
  induction n as [|n IH]; [reflexivity|].
  cbn [sum_n]. rewrite IH. unfold eye.
  destruct (Nat.eqb_spec n m) as [->|Hne].
  - destruct (Nat.ltb_spec m m); [lia|].
    destruct (Nat.ltb_spec m (S m)); [ring | lia].
  - destruct (Nat.ltb_spec m n), (Nat.ltb_spec m (S n)); try lia; ring.
Qed.

Lemma T_row_zero (BN i : nat) (T : chunked R) (bh n : nat) :
  (forall r c, T bh n r c = rO) -> forall r c, T_row BN i T bh n r c = rO.
Proof.
  intros HT r c. unfold T_row. rewrite tab2_read.
  destruct ((r <? BN) && (c <? BN)); [|reflexivity].
  destruct ((r =? i) && (c <? i)); [|apply HT].
  rewrite HT. rewrite (sum_n_zero Rth) by (intros; rewrite HT; ring). ring.
Qed.

Lemma T_loop_zero (BN : nat) (idx : list nat) (T : chunked R) (bh n : nat) :
  (forall r c, T bh n r c = rO) ->
  forall r c, fold_left (fun T i => T_row BN i T) idx T bh n r c = rO.
Proof.
  revert T. induction idx as [|i idx IH]; intros T HT; cbn [fold_left].
  - exact HT.
  - apply IH. apply T_row_zero. exact HT.
Qed.

(** With zero gates the forward substitution returns identity matrices. *)
Lemma reference_solver_zero_gates (k beta : tensor R) (B H T K BS bh t c : nat) :
  shape k = [B; H; T; K] -> 0 < BS ->
  (forall t, t < T -> data beta bh t 0 = rO) ->
  bh < B * H -> t < T -> c < BS ->
  data (reference_solver k beta BS) bh t c = eye (t mod BS) c.
Proof.
  intros Hk HBS Hb Hbh Ht Hc.
  set (beta0 := Tensor (shape beta) (fun _ _ _ => rO) : tensor R).
  rewrite (@reference_solver_causal R ops Rth k k beta beta0 B H T K BS bh T Hk Hk)
    by (try lia; intros; try reflexivity; cbn [data beta0]; apply Hb; assumption).
  unfold reference_solver. rewrite Hk. cbn [unpack4 data].
  unfold rearrange_merge, oracle_T. rewrite tab_chunks_read.
  pose proof (cdiv_has_block HBS Ht).
  pose proof (Nat.mod_upper_bound t BS ltac:(lia)).
  destruct (Nat.ltb_spec bh (B * H)); [|lia].
  destruct (Nat.ltb_spec (t / BS) (cdiv T BS)); [|lia].
  destruct (Nat.ltb_spec (t mod BS) BS); [|lia].
  destruct (Nat.ltb_spec c BS); [|lia]. cbn [andb].
  rewrite T_loop_zero; [ring|].
  intros r c'. unfold T_init, masked_fill, matmul_t, rearrange_split. cbn [beta0 data].
  destruct (triu 0 r c'); [ring|].
  rewrite (sum_n_zero Rth) by (intros; ring). ring.
Qed.

Section ZeroGates.

Variables (q k v beta A : Tdata R) (scale : R) (T K BT BS bh : nat).
Hypothesis HBS : 0 < BS.
Hypothesis Hgate : forall t, t < T -> beta bh t 0 = rO.
Hypothesis Hid : forall t c, t < T -> c < BS -> A bh t c = eye (t mod BS) c.

Lemma chunk_identity (t j m : nat) :
  t < T -> j < chunk_rows T BS (t / BS) -> m < BS ->
  chunk_of (A bh) BS (t / BS) j m = eye j m.
Proof.
  intros Ht Hj Hm. unfold chunk_of. unfold chunk_rows in Hj.
  rewrite Hid by lia.
  destruct (block_index (t / BS) (j := j) (BS := BS) ltac:(lia)) as [_ ->].
  reflexivity.
Qed.

Lemma intra_S_zero_gates (t m : nat) :
  t < T -> m < chunk_rows T BS (t / BS) ->
  intra_S q k v beta A scale T K BS bh t m
  = if m <=? t mod BS
    then sum_n K (fun c => q bh t c * scale * k bh (t / BS * BS + m)%nat c)%R
    else rO.
Proof.
  intros Ht Hm. unfold intra_S, intra_at, intra_chunk. cbn [fst snd].
  assert (HmBS : m < BS) by (unfold chunk_rows in Hm; lia).
  rewrite (@sum_n_ext R ops _ _
             (fun j => (if j <=? t mod BS
                        then sum_n K (fun c => chunk_of (q bh) BS (t / BS) (t mod BS) c
                                               * scale * chunk_of (k bh) BS (t / BS) j c)
                        else rO) * eye j m)%R)
    by (intros j Hj; rewrite chunk_identity by assumption; reflexivity).
  rewrite sum_n_delta.
  destruct (Nat.ltb_spec m (chunk_rows T BS (t / BS))); [|lia].
  unfold chunk_of. pose proof (Nat.div_mod_eq t BS).
  replace (t / BS * BS + t mod BS) with t by lia. reflexivity.
Qed.

Lemma intra_Q_zero_gates (t c : nat) :
  t < T -> intra_Q q k v beta A scale T K BS bh t c = (q bh t c * scale)%R.
Proof.
  intros Ht. unfold intra_Q, intra_at, intra_chunk. cbn [fst snd].
  rewrite (sum_n_zero Rth).
  - unfold chunk_of. pose proof (Nat.div_mod_eq t BS).
    replace (t / BS * BS + t mod BS) with t by lia. ring.
  - intros m Hm. unfold chunk_rows in Hm. rewrite Hgate by lia. ring.
Qed.

Lemma intra_K_zero_gates (t c : nat) :
  t < T -> intra_K q k v beta A scale T K BS bh t c = k bh t c.
Proof.
  intros Ht. unfold intra_K, intra_at, intra_chunk. cbn [fst snd].
  rewrite (sum_n_zero Rth).
  - unfold chunk_of. pose proof (Nat.div_mod_eq t BS).
    replace (t / BS * BS + t mod BS) with t by lia. ring.
  - intros m Hm. unfold chunk_rows in Hm. rewrite Hgate by lia. ring.
Qed.

Lemma fold_visit_zero_gates (Kc Ko Vm : Mat R) (i : nat) (ns : list nat)
    (st : Block R * Block R) (r c : nat) :
  fst (fold_left (visit Kc Ko Vm (fun t => beta bh t 0) T K BT BS i) ns st) r c
  = fst st r c.
Proof.
  revert st. induction ns as [|n ns IH]; intro st; cbn [fold_left]; [reflexivity|].
  rewrite IH. destruct st as [Qr Oacc]. unfold visit. cbn [fst].
  rewrite (sum_n_zero Rth); [ring|].
  intros s Hs. destruct (@block_row_in T BS n s HBS Hs) as [Hin _].
  rewrite Hgate by assumption. ring.
Qed.

(** The attention matrix for zero gates: the scaled scores of query against
    key, kept where the key is not after the query. *)
Lemma attention_entry_zero_gates (tq tk : nat) :
  tq < T -> tk < T ->
  attention_entry q k v beta A scale T K BT BS bh tq tk
  = if tk <=? tq
    then sum_n K (fun c => q bh tq c * scale * k bh tk c)%R else rO.
Proof.
  intros Htq Htk. unfold attention_entry.
  pose proof (Nat.div_mod_eq tq BS). pose proof (Nat.mod_upper_bound tq BS ltac:(lia)).
  pose proof (Nat.div_mod_eq tk BS). pose proof (Nat.mod_upper_bound tk BS ltac:(lia)).
  destruct (Nat.eqb_spec (tq / BS) (tk / BS)) as [E|E].
  - rewrite intra_S_zero_gates
      by (try assumption; rewrite E; apply mod_lt_chunk_rows; assumption).
    rewrite E. replace (tk / BS * BS + tk mod BS) with tk by lia.
    destruct (Nat.leb_spec (tk mod BS) (tq mod BS)), (Nat.leb_spec tk tq);
      try reflexivity; nia.
  - destruct (Nat.ltb_spec (tk / BS) (tq / BS)) as [Hlt|Hge].
    + destruct (Nat.leb_spec tk tq); [|nia].
      cbv zeta. apply sum_n_ext. intros c Hc.
      unfold scanner_before. rewrite fold_visit_zero_gates. cbn [fst].
      unfold chunk_of. pose proof (Nat.div_mod_eq tq BT).
      replace (tq / BT * BT + tq mod BT) with tq by lia.
      rewrite intra_Q_zero_gates, intra_K_zero_gates by assumption. reflexivity.
    + destruct (Nat.leb_spec tk tq); [nia | reflexivity].
Qed.

End ZeroGates.

(** X8: with every gate zero (and the correction matrices of the reference)
    the operator is causal linear attention: [attn[t, s] = scale * q[t] . k[s]]
    for [s <= t] and zero above, and the output is the sum of the values
    weighted by them. *)
Theorem zero_gates_give_linear_attention (q k v beta : tensor R) (scale : R)
    (B H T K V : nat) :
  valid_shapes q k v beta B H T K V -> K <= 128 ->
  solver_is_reference fwd_prepare_T k beta B H T ->
  (forall bh t, bh < B * H -> t < T -> data beta bh t 0 = rO) ->
  exists o attn,
    snd (forward fwd_prepare_T q k v beta (Some scale) true []) = inr (o, Some attn)
    /\ (forall bh tq tk, bh < B * H -> tq < T -> tk < T ->
          data attn bh tq tk
          = if tk <=? tq
            then sum_n K (fun c => data q bh tq c * scale * data k bh tk c)%R
            else rO)
    /\ (forall bh t c, bh < B * H -> t < T -> c < V ->
          data o bh t c
          = sum_n T (fun s =>
              (if s <=? t
               then sum_n K (fun c' => data q bh t c' * scale * data k bh s c')
               else rO) * data v bh s c)%R).
Proof.
  intros Hsh HK Hsolver Hgate.
  rewrite (forward_run fwd_prepare_T scale true [] Hsh HK). cbv zeta. cbn [snd].
  destruct (@engine_attention_entries 128 32 (data (fwd_prepare_T k beta 32))
              (data q) (data k) (data v) (data beta) scale B H T K V
              ltac:(lia) ltac:(lia) eq_refl) as (attn & E & Hent).
  rewrite E. cbn [option_map]. do 2 eexists. split; [reflexivity|].
  cbn [data].
  assert (Hid : forall bh t c, bh < B * H -> t < T -> c < 32 ->
            data (fwd_prepare_T k beta 32) bh t c = eye (t mod 32) c).
  { intros bh t c Hbh Ht Hc. rewrite Hsolver by assumption.
    destruct Hsh as (_ & Hk & _).
    apply (@reference_solver_zero_gates k beta B H T K 32 bh t c);
      try assumption; try lia. intros. apply Hgate; assumption. }
  assert (Hatt : forall bh tq tk, bh < B * H -> tq < T -> tk < T ->
            attention_entry (data q) (data k) (data v) (data beta)
              (data (fwd_prepare_T k beta 32)) scale T K 128 32 bh tq tk
            = if tk <=? tq
              then sum_n K (fun c => data q bh tq c * scale * data k bh tk c)%R
              else rO).
  { intros bh tq tk Hbh Htq Htk.
    apply attention_entry_zero_gates; try assumption; try lia.
    - intros. apply Hgate; assumption.
    - intros. apply Hid; assumption. }
  split.
  - intros bh tq tk Hbh Htq Htk. rewrite Hent by assumption. apply Hatt; assumption.
  - intros bh t c Hbh Ht Hc.
    rewrite engine_output_is_attention_times_values
      by (assumption || lia || reflexivity).
    apply sum_n_ext. intros s Hs. rewrite Hatt by assumption. reflexivity.
Qed.

(** ** The forward substitution of the reference *)

Section ForwardSubstitution.

Variables (BN : nat) (T0 : chunked R) (bh n : nat).
Hypothesis HT0 : upper0 BN (T0 bh n).

(** Rows before [p] are final, the others are still those of [T0]. *)
Let Inv (p : nat) (T : chunked R) : Prop :=
  upper0 BN (T bh n)
  /\ (forall r c, p <= r -> r < BN -> c < BN -> T bh n r c = T0 bh n r c)
  /\ (forall r c, r < p -> r < BN -> c < r ->
        T bh n r c = (T0 bh n r c + sum_n r (fun m => T0 bh n r m * T bh n m c))%R).

Lemma T_row_step (p : nat) (T : chunked R) :
  0 < p -> Inv p T -> Inv (S p) (T_row BN p T).
Proof.
  intros Hp (HU & Ha & Hb). unfold Inv. split; [|split].
  - apply T_row_upper0. exact HU.
  - intros r c Hr HrBN Hc. unfold T_row. rewrite tab2_read.
    bool_cases; try lia; apply Ha; lia.
  - intros r c Hr HrBN Hc.
    assert (Hrows : forall m c', m < p -> m < BN -> c' < BN ->
              T_row BN p T bh n m c' = T bh n m c').
    { intros m c' Hm HmBN Hc'. unfold T_row. rewrite tab2_read.
      bool_cases; try lia; reflexivity. }
    destruct (Nat.eq_dec r p) as [->|Hne].
    + unfold T_row at 1. rewrite tab2_read. bool_cases; try lia.
      rewrite (Ha p c) by lia. f_equal.
      rewrite (dot_pad Rth) with (n := p); [|lia|].
      * apply sum_n_ext. intros m Hm. rewrite (Ha p m) by lia.
        rewrite Hrows by lia. reflexivity.
      * intros m Hm1 Hm2. left. rewrite (Ha p m) by lia. apply HT0; lia.
    + rewrite Hrows by lia. rewrite Hb by lia. f_equal.
      apply sum_n_ext. intros m Hm. rewrite Hrows by lia. reflexivity.
Qed.

Lemma T_loop_steps (cnt p : nat) (T : chunked R) :
  0 < p -> Inv p T ->
  Inv (p + cnt) (fold_left (fun T i => T_row BN i T) (seq p cnt) T).
Proof.
  revert p T. induction cnt as [|cnt IH]; intros p T Hp HI; cbn [seq fold_left].
  - rewrite Nat.add_0_r. exact HI.
  - replace (p + S cnt) with (S p + cnt) by lia.
    apply IH; [lia|]. apply T_row_step; assumption.
Qed.

Lemma T_loop_final :
  0 < BN ->
  let Y := fold_left (fun T i => T_row BN i T) (seq 1 (BN - 1)) T0 in
  upper0 BN (Y bh n)
  /\ forall r c, r < BN -> c < r ->
       Y bh n r c = (T0 bh n r c + sum_n r (fun m => T0 bh n r m * Y bh n m c))%R.
Proof.
  intros HBN Y.
  destruct (@T_loop_steps (BN - 1) 1 T0 ltac:(lia)) as (HU & _ & Hb).
  { unfold Inv. split; [exact HT0|]. split; [reflexivity|]. intros; lia. }
  split; [exact HU|]. intros r c Hr Hc. apply Hb; lia.
Qed.

End ForwardSubstitution.

(** X9: the forward substitution of the reference inverts the unit
    lower-triangular matrix of a chunk: for the strictly lower part [L] of
    [k_beta @ k^T], the matrix [X] it returns satisfies [(I + L) X = I]. *)
Theorem forward_substitution_inverts (nbh nn d_k BN : nat) (k k_beta : chunked R)
    (bh n i c : nat) :
  bh < nbh -> n < nn -> i < BN -> c < BN ->
  let X := oracle_T nbh nn d_k BN k k_beta bh n in
  let L : Block R := fun r j =>
    if j <? r then sum_n d_k (fun m => k_beta bh n r m * k bh n j m)%R else rO in
  (X i c + sum_n BN (fun m => L i m * X m c))%R = eye i c.
Proof.
  intros Hbh Hn Hi Hc X L.
  set (T0 := T_init d_k k k_beta).
  pose proof (@T_loop_final BN T0 bh n (T_init_upper0 Rth d_k (BN := BN) k k_beta bh n)
                ltac:(lia)) as [HU Hrec].
  cbv zeta in HU, Hrec.
  set (Y := fold_left (fun T i => T_row BN i T) (seq 1 (BN - 1)) T0) in *.
  assert (HX : forall r j, r < BN -> j < BN -> X r j = (Y bh n r j + eye r j)%R).
  { intros r j Hr Hj. unfold X, oracle_T. rewrite tab_chunks_read.
    bool_cases; try lia. reflexivity. }
  assert (HL : forall r j, r < BN -> j < BN -> T0 bh n r j = (- L r j)%R).
  { intros r j Hr Hj. unfold T0, T_init, L, masked_fill, triu, matmul_t.
    destruct (Nat.leb_spec (r + 0) j), (Nat.ltb_spec j r); try lia; reflexivity. }
  rewrite HX by assumption.
  rewrite (@sum_n_ext R ops BN _ (fun m => L i m * Y bh n m c + L i m * eye m c)%R)
    by (intros m Hm; rewrite HX by assumption; ring).
  assert (Hsplit : forall (f g : nat -> R) N,
            sum_n N (fun m => f m + g m)%R = (sum_n N f + sum_n N g)%R).
  { intros f g N. induction N as [|N IH]; cbn [sum_n]; [ring | rewrite IH; ring]. }
  rewrite Hsplit, sum_n_delta.
  destruct (Nat.ltb_spec c BN); [|lia].
  assert (HLY : sum_n BN (fun m => L i m * Y bh n m c)%R
                = sum_n i (fun m => L i m * Y bh n m c)%R).
  { apply (dot_pad Rth); [lia|]. intros m H1 H2. left. unfold L.
    destruct (Nat.ltb_spec m i); [lia | reflexivity]. }
  rewrite HLY.
  destruct (Nat.lt_ge_cases c i) as [Hci|Hci].
  - rewrite Hrec by assumption.
    rewrite (@sum_n_ext R ops i (fun m => T0 bh n i m * Y bh n m c)%R
               (fun m => - (L i m * Y bh n m c))%R)
      by (intros m Hm; rewrite HL by lia; ring).
    assert (Hneg : forall (f : nat -> R) N,
              sum_n N (fun m => - f m)%R = (- sum_n N f)%R).
    { intros f N. induction N as [|N IH]; cbn [sum_n]; [ring | rewrite IH; ring]. }
    rewrite Hneg, HL by lia. unfold eye.
    destruct (Nat.eqb_spec i c); [lia|]. ring.
  - rewrite (HU i c) by lia.
    rewrite (sum_n_zero Rth).
    2:{ intros m Hm. rewrite (HU m c) by lia. ring. }
    unfold L at 1. destruct (Nat.ltb_spec c i); [lia|]. ring.
Qed.

(** ** Linearity *)

Lemma sum_n_plus (N : nat) (f g : nat -> R) :
  sum_n N (fun m => f m + g m)%R = (sum_n N f + sum_n N g)%R.
Proof. induction N as [|N IH]; cbn [sum_n]; [ring | rewrite IH; ring]. Qed.

Lemma sum_n_scal (N : nat) (a : R) (f : nat -> R) :
  sum_n N (fun m => a * f m)%R = (a * sum_n N f)%R.
Proof. induction N as [|N IH]; cbn [sum_n]; [ring | rewrite IH; ring]. Qed.

(** X10: the output is linear in the values: on [a * v1 + v2] it is [a] times
    the output on [v1] plus the output on [v2]. *)
Theorem output_is_linear_in_values (q k v1 v2 v12 beta : tensor R) (a scale : R)
    (output_attentions : bool) (B H T K V : nat) :
  valid_shapes q k v1 beta B H T K V ->
  shape v2 = [B; H; T; V] -> shape v12 = [B; H; T; V] -> K <= 128 ->
  (forall bh t c, bh < B * H -> t < T -> c < V ->
     data v12 bh t c = (a * data v1 bh t c + data v2 bh t c)%R) ->
  exists o1 a1 o2 a2 o12 a12,
    snd (forward fwd_prepare_T q k v1 beta (Some scale) output_attentions [])
      = inr (o1, a1)
    /\ snd (forward fwd_prepare_T q k v2 beta (Some scale) output_attentions [])
         = inr (o2, a2)
    /\ snd (forward fwd_prepare_T q k v12 beta (Some scale) output_attentions [])
         = inr (o12, a12)
    /\ forall bh t c, bh < B * H -> t < T -> c < V ->
         data o12 bh t c = (a * data o1 bh t c + data o2 bh t c)%R.
Proof.
  intros Hsh Hv2 Hv12 HK Hsum.
  assert (Hsh2 : valid_shapes q k v2 beta B H T K V).
  { destruct Hsh as (Hq & Hk & _ & Hb). repeat split; assumption. }
  assert (Hsh12 : valid_shapes q k v12 beta B H T K V).
  { destruct Hsh as (Hq & Hk & _ & Hb). repeat split; assumption. }
  rewrite (forward_run fwd_prepare_T scale output_attentions [] Hsh HK).
  rewrite (forward_run fwd_prepare_T scale output_attentions [] Hsh2 HK).
  rewrite (forward_run fwd_prepare_T scale output_attentions [] Hsh12 HK).
  cbv zeta. cbn [snd]. do 6 eexists.
  split; [reflexivity|]. split; [reflexivity|]. split; [reflexivity|].
  intros bh t c Hbh Ht Hc. cbn [data].
  rewrite !engine_output_is_attention_times_values
    by (assumption || lia || reflexivity).
  rewrite <- sum_n_scal, <- sum_n_plus. apply sum_n_ext. intros s Hs.
  rewrite Hsum by assumption.
  rewrite (@attention_entry_congr (data q) (data k) (data v12) (data v1) (data beta)
             (data (fwd_prepare_T k beta 32)) (data (fwd_prepare_T k beta 32))
             scale T K 128 32 bh t s) by (try assumption; try lia; reflexivity).
  rewrite (@attention_entry_congr (data q) (data k) (data v2) (data v1) (data beta)
             (data (fwd_prepare_T k beta 32)) (data (fwd_prepare_T k beta 32))
             scale T K 128 32 bh t s) by (try assumption; try lia; reflexivity).
  ring.
Qed.

Lemma sum_n_scal_ext (N : nat) (a : R) (f g : nat -> R) :
  (forall m, m < N -> f m = (a * g m)%R) -> sum_n N f = (a * sum_n N g)%R.
Proof.
  intro H. rewrite <- sum_n_scal. apply sum_n_ext. exact H.
Qed.

Lemma intra_chunk_scale (n K : nat) (Q Kc Vc : Block R) (gate : nat -> R)
    (Tm : Block R) (s : R) (r : nat) :
  let a := intra_chunk n K Q Kc Vc gate Tm s in
  let b := intra_chunk n K Q Kc Vc gate Tm rI in
  (forall c, fst (fst (fst a)) r c = (s * fst (fst (fst b)) r c)%R)
  /\ (forall c, snd (fst (fst a)) r c = (s * snd (fst (fst b)) r c)%R)
  /\ (forall c, snd (fst a) r c = snd (fst b) r c)
  /\ (forall m, snd a r m = (s * snd b r m)%R).
Proof.
  cbv zeta. unfold intra_chunk. cbn [fst snd].
  assert (HS : forall j,
            (if j <=? r then sum_n K (fun c => Q r c * s * Kc j c)%R else rO)
            = (s * (if j <=? r then sum_n K (fun c => Q r c * rI * Kc j c)%R else rO))%R).
  { intro j. destruct (j <=? r); [|ring].
    apply sum_n_scal_ext. intros; ring. }
  assert (HS' : forall m,
            sum_n n (fun j => (if j <=? r then sum_n K (fun c => Q r c * s * Kc j c)
                               else rO) * Tm j m)%R
            = (s * sum_n n (fun j => (if j <=? r
                                      then sum_n K (fun c => Q r c * rI * Kc j c)
                                      else rO) * Tm j m))%R).
  { intro m. apply sum_n_scal_ext. intros j _. rewrite HS. ring. }
  repeat split.
  - intro c. apply sum_n_scal_ext. intros m _. rewrite HS'. ring.
  - intro c.
    rewrite (@sum_n_scal_ext n s _
               (fun m => sum_n n (fun j => (if j <=? r
                                            then sum_n K (fun c => Q r c * rI * Kc j c)
                                            else rO) * Tm j m)
                         * (Kc m c * gate m))%R)
      by (intros m _; rewrite HS'; ring).
    ring.
  - exact HS'.
Qed.

Lemma fold_visit_scale (Kc Ko Vm : Mat R) (gate : nat -> R) (T K BT BS i : nat)
    (s : R) (r : nat) (ns : list nat) :
  forall st st' : Block R * Block R,
  (forall c, fst st r c = (s * fst st' r c)%R) ->
  (forall c, snd st r c = (s * snd st' r c)%R) ->
  (forall c, fst (fold_left (visit Kc Ko Vm gate T K BT BS i) ns st) r c
             = (s * fst (fold_left (visit Kc Ko Vm gate T K BT BS i) ns st') r c)%R)
  /\ (forall c, snd (fold_left (visit Kc Ko Vm gate T K BT BS i) ns st) r c
                = (s * snd (fold_left (visit Kc Ko Vm gate T K BT BS i) ns st') r c)%R).
Proof.
  induction ns as [|n ns IH]; intros st st' Hq Ho; cbn [fold_left].
  - split; assumption.
  - destruct st as [Qr Oa], st' as [Qr' Oa']. cbn [fst snd] in Hq, Ho.
    assert (HS : forall j,
              (if n * BS + BS <=? i * BT + r
               then sum_n K (fun c => Qr r c * Kc (n * BS + j)%nat c)%R else rO)
              = (s * (if n * BS + BS <=? i * BT + r
                      then sum_n K (fun c => Qr' r c * Kc (n * BS + j)%nat c)%R
                      else rO))%R).
    { intro j. destruct (_ <=? _); [|ring].
      apply sum_n_scal_ext. intros c _. rewrite Hq. ring. }
    apply IH; unfold visit; cbn [fst snd]; intro c.
    + rewrite Hq.
      rewrite (@sum_n_scal_ext _ s _
                 (fun j => (if n * BS + BS <=? i * BT + r
                            then sum_n K (fun c => Qr' r c * Kc (n * BS + j)%nat c)
                            else rO) * (Ko (n * BS + j)%nat c * gate (n * BS + j)%nat))%R)
        by (intros j _; rewrite HS; ring).
      ring.
    + rewrite Ho.
      rewrite (@sum_n_scal_ext _ s _
                 (fun j => (if n * BS + BS <=? i * BT + r
                            then sum_n K (fun c => Qr' r c * Kc (n * BS + j)%nat c)
                            else rO) * Vm (n * BS + j)%nat c)%R)
        by (intros j _; rewrite HS; ring).
      ring.
Qed.

Lemma attention_entry_scale (q k v beta A : Tdata R) (s : R) (T K BT BS bh tq tk : nat) :
  attention_entry q k v beta A s T K BT BS bh tq tk
  = (s * attention_entry q k v beta A rI T K BT BS bh tq tk)%R.
Proof.
  unfold attention_entry.
  destruct (tq / BS =? tk / BS).
  - unfold intra_S, intra_at. apply intra_chunk_scale.
  - destruct (tk / BS <? tq / BS); [|ring].
    cbv zeta. apply sum_n_scal_ext. intros c _.
    change (intra_K q k v beta A s T K BS bh) with (intra_K q k v beta A rI T K BS bh).
    unfold scanner_before.
    destruct (@fold_visit_scale (intra_K q k v beta A rI T K BS bh) (k bh) (v bh)
                (fun t => beta bh t 0) T K BT BS (tq / BT) s (tq mod BT)
                (rev (seq (tk / BS + 1) ((tq / BT + 1) * (BT / BS) - 1 - (tk / BS + 1))))
                (chunk_of (intra_Q q k v beta A s T K BS bh) BT (tq / BT),
                 chunk_of (intra_O q k v beta A s T K BS bh) BT (tq / BT))
                (chunk_of (intra_Q q k v beta A rI T K BS bh) BT (tq / BT),
                 chunk_of (intra_O q k v beta A rI T K BS bh) BT (tq / BT)))
      as [Hq _].
    + intro c'. cbn [fst]. unfold chunk_of, intra_Q, intra_at. apply intra_chunk_scale.
    + intro c'. cbn [snd]. unfold chunk_of, intra_O, intra_at. apply intra_chunk_scale.
    + rewrite Hq. ring.
Qed.

(** X11: the scale is a factor: the output and the attention matrix for a
    scale are the scale times those for scale [1]. *)
Theorem scale_is_a_factor (q k v beta : tensor R) (scale : R) (B H T K V : nat) :
  valid_shapes q k v beta B H T K V -> K <= 128 ->
  exists o attn o1 attn1,
    snd (forward fwd_prepare_T q k v beta (Some scale) true []) = inr (o, Some attn)
    /\ snd (forward fwd_prepare_T q k v beta (Some rI) true []) = inr (o1, Some attn1)
    /\ (forall bh tq tk, bh < B * H -> tq < T -> tk < T ->
          data attn bh tq tk = (scale * data attn1 bh tq tk)%R)
    /\ (forall bh t c, bh < B * H -> t < T -> c < V ->
          data o bh t c = (scale * data o1 bh t c)%R).
Proof.
  intros Hsh HK.
  rewrite (forward_run fwd_prepare_T scale true [] Hsh HK).
  rewrite (forward_run fwd_prepare_T rI true [] Hsh HK). cbv zeta. cbn [snd].
  destruct (@engine_attention_entries 128 32 (data (fwd_prepare_T k beta 32))
              (data q) (data k) (data v) (data beta) scale B H T K V
              ltac:(lia) ltac:(lia) eq_refl) as (attn & E & Hent).
  destruct (@engine_attention_entries 128 32 (data (fwd_prepare_T k beta 32))
              (data q) (data k) (data v) (data beta) rI B H T K V
              ltac:(lia) ltac:(lia) eq_refl) as (attn1 & E1 & Hent1).
  rewrite E, E1. cbn [option_map]. do 4 eexists.
  split; [reflexivity|]. split; [reflexivity|]. cbn [data]. split.
  - intros bh tq tk Hbh Htq Htk. rewrite Hent, Hent1 by assumption.
    apply attention_entry_scale.
  - intros bh t c Hbh Ht Hc.
    rewrite !engine_output_is_attention_times_values
      by (assumption || lia || reflexivity).
    apply sum_n_scal_ext. intros s _. rewrite attention_entry_scale. ring.
Qed.


(** ** The reference for arbitrary gates *)

(** X12: the reference gates the values and [forward] does not: for a
    sequence length that is a multiple of [128], scale [1 / sqrt K] and the
    correction matrices of the reference, the output of the reference on [v]
    is the output of [forward] on [v * beta]. *)
Theorem oracle_is_engine_on_gated_values (q k v vb beta : tensor R)
    (output_attentions : bool) (B H T K V : nat) :
  valid_shapes q k v beta B H T K V -> shape vb = [B; H; T; V] ->
  K <= 128 -> T mod 128 = 0 ->
  solver_is_reference fwd_prepare_T k beta B H T ->
  (forall bh t c, bh < B * H -> t < T -> c < V ->
     data vb bh t c = (data v bh t c * data beta bh t 0)%R) ->
  exists o attn o_ref A_ref,
    snd (forward fwd_prepare_T q k vb beta (Some (inv_sqrt K)) output_attentions [])
      = inr (o, attn)
    /\ naive_delta_rule_parallel q k v beta 128 32 = inr (o_ref, A_ref)
    /\ shape o = shape o_ref
    /\ forall bh t c, bh < B * H -> t < T -> c < V ->
         data o bh t c = data o_ref bh t c.
Proof.
  intros Hsh Hvb HK HT Hsolver Hgated.
  destruct (@engine_on_gated_values_matches_oracle R ops Rth fwd_prepare_T q k v vb beta
              output_attentions B H T K V Hsh Hvb HK HT Hsolver Hgated)
    as (o & attn & o_ref & A_ref & E1 & E2 & E3 & E4).
  exists o, attn, o_ref, A_ref. rewrite E1. cbn [snd]. repeat split; assumption.
Qed.

(** ** Inputs of the wrong rank *)

(** X13: a key tensor that is not four-dimensional makes [forward] raise
    [ValueError] when it unpacks the shape, before the solver and any kernel
    run: the log is left as it was. *)
Theorem forward_rejects_wrong_rank (q k v beta : tensor R) (scale : option R)
    (output_attentions : bool) (tr : list event) :
  List.length (shape k) <> 4 -> shape v <> [] ->
  forward fwd_prepare_T q k v beta scale output_attentions tr = (tr, inl ValueError).
Proof.
  intros Hk Hv. unfold forward, bind, lift.
  destruct (shape_last (shape v)) as [e|V] eqn:EV.
  - unfold shape_last in EV. destruct (rev (shape v)) eqn:Er; [|discriminate].
    exfalso. apply Hv. apply (f_equal (@rev nat)) in Er.
    rewrite rev_involutive in Er. exact Er.
  - destruct (shape k) as [|a [|b [|c [|d [|e l]]]]]; cbn in Hk; try reflexivity.
    lia.
Qed.

End DeltaRuleProperties.

(** * Properties of the rotary embedding *)


Section RotaryTheory.

Context {R : Type} {ops : Scalar R}.
Hypothesis Rth : ring_theory rO rI radd rmul rsub ropp (@eq R).
Add Ring Rring3 : Rth.

(** ** Masked stores *)

Lemma store_fold_miss (p : nat -> nat -> Z) (val : Block R)
    (mask : nat -> nat -> bool) (addr : Z) (ls : list (nat * nat)) :
  (forall l, In l ls -> mask (fst l) (snd l) = true -> p (fst l) (snd l) <> addr) ->
  forall mem, fold_left (store_lane p val mask) ls mem addr = mem addr.
Proof.
  induction ls as [|l ls IH]; intros Hmiss mem; cbn [fold_left]; [reflexivity|].
  rewrite IH by (intros l' Hin; apply Hmiss; right; exact Hin).
  unfold store_lane. destruct (mask (fst l) (snd l)) eqn:Em; [|reflexivity].
  destruct (Z.eqb_spec addr (p (fst l) (snd l))) as [E|E]; [|reflexivity].
  exfalso. apply (Hmiss l (or_introl eq_refl) Em). symmetry. exact E.
Qed.

Lemma store_fold_hit (p : nat -> nat -> Z) (val : Block R)
    (mask : nat -> nat -> bool) (addr : Z) (l0 : nat * nat) (ls : list (nat * nat)) :
  In l0 ls -> mask (fst l0) (snd l0) = true -> p (fst l0) (snd l0) = addr ->
  (forall l, In l ls -> mask (fst l) (snd l) = true -> p (fst l) (snd l) = addr ->
             l = l0) ->
  forall mem, fold_left (store_lane p val mask) ls mem addr = val (fst l0) (snd l0).
Proof.
  intros Hin Hm Hp. induction ls as [|l ls IH] using rev_ind; intros Huniq mem.
  - destruct Hin.
  - rewrite fold_left_app. cbn [fold_left]. unfold store_lane at 1.
    destruct (mask (fst l) (snd l)) eqn:Em.
    + destruct (Z.eqb_spec addr (p (fst l) (snd l))) as [E|E].
      * assert (El : l = l0).
        { apply Huniq; [apply in_or_app; right; left; reflexivity | exact Em |].
          symmetry. exact E. }
        rewrite El. reflexivity.
      * apply IH.
        -- apply in_app_or in Hin. destruct Hin as [Hin|[<-|[]]]; [exact Hin|].
           congruence.
        -- intros l' Hin'. apply Huniq. apply in_or_app. left. exact Hin'.
    + apply IH.
      * apply in_app_or in Hin. destruct Hin as [Hin|[<-|[]]]; [exact Hin|].
        congruence.
      * intros l' Hin'. apply Huniq. apply in_or_app. left. exact Hin'.
Qed.

Lemma in_lanes (n m a b : nat) : In (a, b) (lanes n m) <-> a < n /\ b < m.
Proof.
  unfold lanes. rewrite in_prod_iff, !in_seq. lia.
Qed.

Lemma tl_store_masked_miss (n m : nat) (p : nat -> nat -> Z) (val : Block R)
    (mask : nat -> nat -> bool) (mem : Z -> R) (addr : Z) :
  (forall a b, a < n -> b < m -> mask a b = true -> p a b <> addr) ->
  tl_store_masked n m p val mask mem addr = mem addr.
Proof.
  intro Hmiss. unfold tl_store_masked.
  apply (@store_fold_miss p val mask addr).
  intros [a b] Hin Hm. apply in_lanes in Hin. apply Hmiss; tauto.
Qed.

Lemma tl_store_masked_hit (n m : nat) (p : nat -> nat -> Z) (val : Block R)
    (mask : nat -> nat -> bool) (mem : Z -> R) (a0 b0 : nat) :
  a0 < n -> b0 < m -> mask a0 b0 = true ->
  (forall a b, a < n -> b < m -> mask a b = true -> p a b = p a0 b0 ->
               a = a0 /\ b = b0) ->
  tl_store_masked n m p val mask mem (p a0 b0) = val a0 b0.
Proof.
  intros Ha Hb Hm Hinj. unfold tl_store_masked.
  apply (@store_fold_hit p val mask (p a0 b0) (a0, b0)); try assumption.
  - apply in_lanes. split; assumption.
  - reflexivity.
  - intros [a b] Hin Hm' Hp. apply in_lanes in Hin. cbn [fst snd] in *.
    destruct (Hinj a b) as [-> ->]; tauto.
Qed.

(** ** Offsets of a contiguous tensor *)

Lemma pos_offset_inj (H D p h d p' h' d' : nat) :
  h < H -> d < D -> h' < H -> d' < D ->
  pos_offset H D p h d = pos_offset H D p' h' d' ->
  p = p' /\ h = h' /\ d = d'.
Proof.
  intros Hh Hd Hh' Hd' E. unfold pos_offset in E. apply Nat2Z.inj in E.
  destruct (Nat.div_mod_unique D (p * H + h) (p' * H + h') d d')
    as [E1 E2]; try assumption; [lia|].
  destruct (Nat.div_mod_unique H p p' h h') as [E3 E4]; try assumption; [lia|].
  repeat split; assumption.
Qed.

Lemma pos_offset_add (H D p h d : nat) :
  (pos_offset H D p h 0 + Z.of_nat d)%Z = pos_offset H D p h d.
Proof. unfold pos_offset. lia. Qed.

Lemma flat_inj (T H D b t h d b' t' h' d' : nat) :
  t < T -> h < H -> d < D -> t' < T -> h' < H -> d' < D ->
  flat T H D b t h d = flat T H D b' t' h' d' ->
  b = b' /\ t = t' /\ h = h' /\ d = d'.
Proof.
  intros Ht Hh Hd Ht' Hh' Hd' E. unfold flat in E.
  apply pos_offset_inj in E; try assumption. destruct E as (E & -> & ->).
  destruct (Nat.div_mod_unique T b b' t t') as [E5 E6]; try assumption; [lia|].
  repeat split; assumption.
Qed.

Lemma flat_add (T H D b t h d : nat) :
  (flat T H D b t h 0 + Z.of_nat d)%Z = flat T H D b t h d.
Proof. apply pos_offset_add. Qed.

(** ** One program of the kernel *)

Lemma swap_partner (d : nat) :
  (Z.of_nat d + ((Z.of_nat d + 1) mod 2) * 2 - 1)%Z
  = Z.of_nat (if d mod 2 =? 0 then d + 1 else d - 1).
Proof.
  pose proof (Nat.div_mod_eq d 2) as E.
  pose proof (Nat.mod_upper_bound d 2 ltac:(lia)) as Hlt.
  destruct (Nat.eqb_spec (d mod 2) 0) as [Ep|Ep].
  - replace ((Z.of_nat d + 1) mod 2)%Z with 1%Z; [lia|].
    apply Z.mod_unique with (q := Z.of_nat (d / 2)); lia.
  - replace ((Z.of_nat d + 1) mod 2)%Z with 0%Z; [lia|].
    apply Z.mod_unique with (q := Z.of_nat (d / 2 + 1)); lia.
Qed.

(** The body of a program that works on the block [ii] of the sequence
    [nn], which has [len] positions and starts at position [pb]. *)
Section RotateBlock.

Variables (cos sin : Z -> R) (seq_offsets : Z + (Z -> Z)).
Variables (H D Rh TR BT BD : nat) (conjugate : bool).
Variables (nn ii len pb i_h : nat) (xm ym : Z -> R).
Hypothesis HBT : 0 < BT.
Hypothesis HR : 2 * Rh <= D.
Hypothesis HBD : 2 * Rh <= BD.
Hypothesis Hih : i_h < H.

(** The offset into the tables that the program adds to a position. *)
Let off : Z :=
  match seq_offsets with
  | inl off => off
  | inr offs => offs (Z.of_nat nn)
  end.

Let row_ok (t : nat) : bool :=
  ((0 <=? Z.of_nat t + off) && (Z.of_nat t + off <? Z.of_nat TR))%Z.

(** The features the program stores: those below [2 * Rh] of its head, at
    the positions of its block that are in the sequence and have a row in
    the tables. *)
Let stored (p h d : nat) : bool :=
  (h =? i_h) && (pb + ii * BT <=? p) && (p <? pb + ii * BT + BT) && (p <? pb + len)
  && (d <? 2 * Rh) && row_ok (p - pb).

Lemma lane_address (a b : nat) :
  (pos_offset H D pb i_h 0
   + (Z.of_nat ii * Z.of_nat BT + Z.of_nat a) * (Z.of_nat H * Z.of_nat D)
   + Z.of_nat b)%Z
  = pos_offset H D (pb + ii * BT + a) i_h b.
Proof.
  unfold pos_offset. repeat (rewrite Nat2Z.inj_add || rewrite Nat2Z.inj_mul). ring.
Qed.

Lemma stored_true (p h d : nat) :
  stored p h d = true
  <-> h = i_h /\ pb + ii * BT <= p < pb + ii * BT + BT /\ p < pb + len
      /\ d < 2 * Rh /\ row_ok (p - pb) = true.
Proof.
  unfold stored.
  rewrite !andb_true_iff, Nat.eqb_eq, Nat.leb_le, !Nat.ltb_lt. tauto.
Qed.

Lemma block_read_neox (p h d : nat) :
  h < H -> d < D ->
  rotary_rotate_block cos sin seq_offsets (Z.of_nat nn) (Z.of_nat ii) (Z.of_nat len)
    (pos_offset H D pb i_h 0) H D Rh TR BT BD false conjugate xm ym
    (pos_offset H D p h d)
  = if stored p h d
    then rotate_pair xm cos sin false conjugate Rh (pos_offset H D p h 0)
           (Z.of_nat (p - pb) + off) d
    else ym (pos_offset H D p h d).
Proof.
  intros Hh Hd. unfold rotary_rotate_block. cbv zeta. cbn [negb].
  fold off.
  destruct (Z.leb_spec (Z.of_nat len) (Z.of_nat ii * Z.of_nat BT)) as [Hret|Hrun].
  { destruct (stored p h d) eqn:Ec; [|reflexivity].
    apply stored_true in Ec. exfalso. nia. }
  match goal with
  | |- tl_store_masked _ _ ?p2 _ ?mk (tl_store_masked _ _ ?p1 _ _ _) _ = _ =>
      set (p_x := p1); set (p_x1 := p2); set (mask := mk)
  end.
  match goal with
  | |- context [tl_load_masked cos ?pc mask rI] => set (p_cos := pc)
  end.
  match goal with
  | |- tl_store_masked _ _ _ ?v2 _ (tl_store_masked _ _ _ ?v1 _ _) _ = _ =>
      set (b_o0 := v1); set (b_o1 := v2)
  end.
  assert (Hpc : forall a c, p_cos a c
            = ((Z.of_nat (ii * BT + a) + off) * Z.of_nat Rh + Z.of_nat c)%Z).
  { intros a c. unfold p_cos. destruct seq_offsets as [o|o]; fold off;
      rewrite ?Nat2Z.inj_add, ?Nat2Z.inj_mul; reflexivity. }
  assert (Hpx : forall a c, p_x a c = pos_offset H D (pb + ii * BT + a) i_h c).
  { intros a c. unfold p_x. apply lane_address. }
  assert (Hpx1 : forall a c,
            p_x1 a c = pos_offset H D (pb + ii * BT + a) i_h (c + Rh)).
  { intros a c. unfold p_x1. rewrite lane_address. unfold pos_offset. lia. }
  assert (Hmask : forall a c, mask a c = true <->
            ii * BT + a < len /\ row_ok (ii * BT + a) = true /\ c < Rh).
  { intros a c. unfold mask, row_ok.
    destruct seq_offsets as [o|o]; fold off;
      rewrite !andb_true_iff, !Z.leb_le, !Z.ltb_lt, Nat.ltb_lt;
      rewrite ?Nat2Z.inj_add, ?Nat2Z.inj_mul; lia. }
  assert (Hhalf : Rh <= BD / 2).
  { apply Nat.div_le_lower_bound; lia. }
  destruct (stored p h d) eqn:Ec.
  - apply stored_true in Ec. destruct Ec as (-> & Hwin & Hlen & Hd2 & Htab).
    set (a0 := p - pb - ii * BT).
    assert (Ea : pb + ii * BT + a0 = p) by (unfold a0; lia).
    assert (Ea' : ii * BT + a0 = p - pb) by (unfold a0; lia).
    assert (Ha0 : a0 < BT) by (unfold a0; lia).
    assert (Hm0 : forall c, c < Rh -> mask a0 c = true).
    { intros c Hc. apply Hmask. rewrite Ea'. repeat split; [lia|assumption|assumption]. }
    destruct (Nat.ltb_spec d Rh) as [Hlo|Hhi].
    + rewrite tl_store_masked_miss.
      2:{ intros a c Ha Hc Hm E. rewrite Hpx1 in E. apply Hmask in Hm.
          apply pos_offset_inj in E; lia. }
      replace (pos_offset H D p i_h d) with (p_x a0 d)
        by (rewrite Hpx, Ea; reflexivity).
      rewrite tl_store_masked_hit; try lia.
      2:{ apply Hm0. exact Hlo. }
      2:{ intros a c Ha Hc Hm E. rewrite !Hpx in E. apply Hmask in Hm.
          apply pos_offset_inj in E; lia. }
      unfold b_o0. destruct conjugate; unfold tl_load_masked;
        rewrite Hm0 by exact Hlo;
        unfold rotate_pair; cbn [negb]; destruct (Nat.ltb_spec d Rh); try lia;
        rewrite !pos_offset_add, Hpx, Hpx1, Hpc, Ea, Ea'; reflexivity.
    + replace (pos_offset H D p i_h d) with (p_x1 a0 (d - Rh))
        by (rewrite Hpx1, Ea; f_equal; lia).
      rewrite tl_store_masked_hit; try lia.
      2:{ apply Hm0. lia. }
      2:{ intros a c Ha Hc Hm E. rewrite !Hpx1 in E. apply Hmask in Hm.
          apply pos_offset_inj in E; lia. }
      unfold b_o1. destruct conjugate; unfold tl_load_masked;
        rewrite Hm0 by lia;
        unfold rotate_pair; cbn [negb]; destruct (Nat.ltb_spec d Rh); try lia;
        rewrite !pos_offset_add, Hpx, Hpx1, Hpc, Ea, Ea';
        replace (d - Rh + Rh) with d by lia; reflexivity.
  - assert (Hno : forall a c dd, a < BT -> mask a c = true -> dd < 2 * Rh ->
              pos_offset H D (pb + ii * BT + a) i_h dd <> pos_offset H D p h d).
    { intros a c dd Ha Hm Hdd E. apply Hmask in Hm. destruct Hm as (H1 & H2 & H3).
      apply pos_offset_inj in E; try lia. destruct E as (<- & <- & <-).
      apply not_true_iff_false in Ec. apply Ec. apply stored_true.
      replace (pb + ii * BT + a - pb) with (ii * BT + a) by lia.
      repeat split; try lia. exact H2. }
    rewrite !tl_store_masked_miss; [reflexivity| |].
    + intros a c Ha Hc Hm. rewrite Hpx. apply (Hno a c); try assumption.
      apply Hmask in Hm. lia.
    + intros a c Ha Hc Hm. rewrite Hpx1. apply (Hno a c); try assumption.
      apply Hmask in Hm. lia.
Qed.

Lemma block_read_gptj (p h d : nat) :
  h < H -> d < D ->
  rotary_rotate_block cos sin seq_offsets (Z.of_nat nn) (Z.of_nat ii) (Z.of_nat len)
    (pos_offset H D pb i_h 0) H D Rh TR BT BD true conjugate xm ym
    (pos_offset H D p h d)
  = if stored p h d
    then rotate_pair xm cos sin true conjugate Rh (pos_offset H D p h 0)
           (Z.of_nat (p - pb) + off) d
    else ym (pos_offset H D p h d).
Proof.
  intros Hh Hd. unfold rotary_rotate_block. cbv zeta. cbn [negb].
  fold off.
  destruct (Z.leb_spec (Z.of_nat len) (Z.of_nat ii * Z.of_nat BT)) as [Hret|Hrun].
  { destruct (stored p h d) eqn:Ec; [|reflexivity].
    apply stored_true in Ec. exfalso. nia. }
  match goal with
  | |- tl_store_masked _ _ ?p1 _ ?mk _ _ = _ => set (p_x := p1); set (mask := mk)
  end.
  match goal with
  | |- context [tl_load_masked cos ?pc mask rI] => set (p_cos := pc)
  end.
  match goal with
  | |- context [tl_load_masked xm ?p1 mask rO] =>
      lazymatch p1 with
      | p_x => fail
      | _ => set (p_x1 := p1)
      end
  end.
  match goal with
  | |- tl_store_masked _ _ _ ?v1 _ _ _ = _ => set (b_y := v1)
  end.
  assert (Hpc : forall a c, p_cos a c
            = ((Z.of_nat (ii * BT + a) + off) * Z.of_nat Rh + Z.of_nat (c / 2))%Z).
  { intros a c. unfold p_cos. destruct seq_offsets as [o|o]; fold off;
      rewrite ?Nat2Z.inj_add, ?Nat2Z.inj_mul; reflexivity. }
  assert (Hpx : forall a c, p_x a c = pos_offset H D (pb + ii * BT + a) i_h c).
  { intros a c. unfold p_x. apply lane_address. }
  assert (Hpx1 : forall a c, p_x1 a c
            = (pos_offset H D (pb + ii * BT + a) i_h 0
               + (Z.of_nat c + ((Z.of_nat c + 1) mod 2) * 2 - 1))%Z).
  { intros a c. unfold p_x1. rewrite <- (lane_address a 0). lia. }
  assert (Hmask : forall a c, mask a c = true <->
            ii * BT + a < len /\ row_ok (ii * BT + a) = true /\ c < 2 * Rh).
  { intros a c. unfold mask, row_ok.
    assert (Hc2 : c / 2 < Rh <-> c < 2 * Rh).
    { pose proof (Nat.div_mod_eq c 2). pose proof (Nat.mod_upper_bound c 2). lia. }
    destruct seq_offsets as [o|o]; fold off;
      rewrite !andb_true_iff, !Z.leb_le, !Z.ltb_lt, Nat.ltb_lt, Hc2;
      rewrite ?Nat2Z.inj_add, ?Nat2Z.inj_mul; lia. }
  destruct (stored p h d) eqn:Ec.
  - apply stored_true in Ec. destruct Ec as (-> & Hwin & Hlen & Hd2 & Htab).
    set (a0 := p - pb - ii * BT).
    assert (Ea : pb + ii * BT + a0 = p) by (unfold a0; lia).
    assert (Ea' : ii * BT + a0 = p - pb) by (unfold a0; lia).
    assert (Ha0 : a0 < BT) by (unfold a0; lia).
    assert (Hm0 : mask a0 d = true).
    { apply Hmask. rewrite Ea'. repeat split; [lia|assumption|assumption]. }
    replace (pos_offset H D p i_h d) with (p_x a0 d)
      by (rewrite Hpx, Ea; reflexivity).
    rewrite tl_store_masked_hit; try lia; try exact Hm0.
    2:{ intros a c Ha Hc Hm E. rewrite !Hpx in E. apply Hmask in Hm.
        apply pos_offset_inj in E; lia. }
    assert (Hsw : (Z.of_nat d + ((Z.of_nat d + 1) mod 2) * 2 - 1)%Z
                  = Z.of_nat (if d mod 2 =? 0 then d + 1 else d - 1)).
    { apply swap_partner. }
    unfold b_y, tl_load_masked.
    destruct conjugate; cbv beta; rewrite !Hm0, Hpx, Hpx1, !Hpc, Ea, Ea', Hsw;
      unfold rotate_pair; cbn [negb]; rewrite !pos_offset_add;
      destruct (d mod 2 =? 0); reflexivity.
  - rewrite tl_store_masked_miss; [reflexivity|].
    intros a c Ha Hc Hm E. rewrite Hpx in E. apply Hmask in Hm.
    destruct Hm as (H1 & H2 & H3).
    apply pos_offset_inj in E; try lia. destruct E as (<- & <- & <-).
    apply not_true_iff_false in Ec. apply Ec. apply stored_true.
    replace (pb + ii * BT + a - pb) with (ii * BT + a) by lia.
    repeat split; try lia. exact H2.
Qed.

End RotateBlock.

(** One program of a launch on sequences of one length, in either layout. *)
Lemma program_read (cos sin : Z -> R) (seq_offsets : Z + (Z -> Z))
    (B T H D Rh TR BT BD : nat) (interleaved conjugate : bool)
    (id : nat * nat * nat) (xm ym : Z -> R) (b t h d : nat) :
  0 < BT -> 2 * Rh <= D -> 2 * Rh <= BD -> snd id < H ->
  t < T -> h < H -> d < D ->
  rotary_embedding_kernel cos sin None seq_offsets (Z.of_nat T) B H D Rh TR BT BD
    interleaved conjugate (fst (fst id)) (snd (fst id)) (snd id) xm ym
    (flat T H D b t h d)
  = if (b =? snd (fst id)) && (h =? snd id) && (t / BT =? fst (fst id))
       && (d <? 2 * Rh) && table_ok seq_offsets TR b t
    then rotate_pair xm cos sin interleaved conjugate Rh (flat T H D b t h 0)
           (Z.of_nat t + seq_offset seq_offsets b) d
    else ym (flat T H D b t h d).
Proof.
  intros HBT HR HBD Hid Ht Hh Hd.
  destruct id as [[i_t i_b] i_h]. cbn [fst snd] in *.
  unfold rotary_embedding_kernel. cbv zeta.
  replace (Z.of_nat i_b * Z.of_nat T * (Z.of_nat H * Z.of_nat D)
           + Z.of_nat i_h * Z.of_nat D)%Z
    with (pos_offset H D (i_b * T) i_h 0)
    by (unfold pos_offset;
        repeat (rewrite Nat2Z.inj_add || rewrite Nat2Z.inj_mul); ring).
  unfold flat.
  assert (Hread : rotary_rotate_block cos sin seq_offsets (Z.of_nat i_b) (Z.of_nat i_t)
                    (Z.of_nat T) (pos_offset H D (i_b * T) i_h 0) H D Rh TR BT BD
                    interleaved conjugate xm ym (pos_offset H D (b * T + t) h d)
                  = if (h =? i_h) && (i_b * T + i_t * BT <=? b * T + t)
                       && (b * T + t <? i_b * T + i_t * BT + BT)
                       && (b * T + t <? i_b * T + T) && (d <? 2 * Rh)
                       && table_ok seq_offsets TR i_b (b * T + t - i_b * T)
                    then rotate_pair xm cos sin interleaved conjugate Rh
                           (pos_offset H D (b * T + t) h 0)
                           (Z.of_nat (b * T + t - i_b * T)
                            + seq_offset seq_offsets i_b) d
                    else ym (pos_offset H D (b * T + t) h d)).
  { destruct interleaved;
      [apply block_read_gptj | apply block_read_neox]; assumption. }
  rewrite Hread. clear Hread.
  pose proof (Nat.div_mod_eq t BT) as Et.
  pose proof (Nat.mod_upper_bound t BT ltac:(lia)) as Htm.
  destruct (Nat.eqb_spec b i_b) as [->|Hb].
  - replace (i_b * T + t - i_b * T) with t by lia.
    destruct (h =? i_h); cbn [andb]; [|reflexivity].
    replace ((i_b * T + i_t * BT <=? i_b * T + t)
             && (i_b * T + t <? i_b * T + i_t * BT + BT)
             && (i_b * T + t <? i_b * T + T))
      with (t / BT =? i_t).
    + reflexivity.
    + destruct (Nat.eqb_spec (t / BT) i_t) as [E|E];
        destruct (Nat.leb_spec (i_b * T + i_t * BT) (i_b * T + t));
        destruct (Nat.ltb_spec (i_b * T + t) (i_b * T + i_t * BT + BT));
        destruct (Nat.ltb_spec (i_b * T + t) (i_b * T + T));
        try reflexivity; exfalso; try (subst i_t; nia).
      apply E. symmetry. apply Nat.div_unique with (r := t - i_t * BT); lia.
  - cbn [andb].
    match goal with |- (if ?c then _ else _) = _ => destruct c eqn:Ec end;
      [|reflexivity].
    exfalso.
    repeat (apply andb_true_iff in Ec; destruct Ec as [Ec ?]).
    repeat match goal with
           | H0 : (_ <=? _) = true |- _ => apply Nat.leb_le in H0
           | H0 : (_ <? _) = true |- _ => apply Nat.ltb_lt in H0
           end.
    assert (b < i_b \/ i_b < b) as [Hlt|Hlt] by lia; nia.
Qed.

(** A rotated feature depends on the features of its own position only. *)
Lemma rotate_pair_ext (x x' cos sin : Z -> R) (interleaved conjugate : bool)
    (Rh : nat) (row tc : Z) (d : nat) :
  d < 2 * Rh ->
  (forall j, j < 2 * Rh -> x (row + Z.of_nat j)%Z = x' (row + Z.of_nat j)%Z) ->
  rotate_pair x cos sin interleaved conjugate Rh row tc d
  = rotate_pair x' cos sin interleaved conjugate Rh row tc d.
Proof.
  intros Hd Hx. unfold rotate_pair.
  pose proof (Nat.div_mod_eq d 2) as E.
  pose proof (Nat.mod_upper_bound d 2 ltac:(lia)) as Hm.
  destruct interleaved; cbn [negb].
  - destruct (Nat.eqb_spec (d mod 2) 0) as [Ep|Ep];
      rewrite !(Hx d) by lia;
      [rewrite (Hx (d + 1)) by lia | rewrite (Hx (d - 1)) by lia]; reflexivity.
  - destruct (Nat.ltb_spec d Rh) as [Hlt|Hge];
      rewrite !(Hx d) by lia;
      [rewrite (Hx (d + Rh)) by lia | rewrite (Hx (d - Rh)) by lia]; reflexivity.
Qed.

Section Launch.

Variables (cos sin : Z -> R) (seq_offsets : Z + (Z -> Z)).
Variables (B T H D Rh TR BT BD : nat) (interleaved conjugate : bool).
Hypothesis HBT : 0 < BT.
Hypothesis HR : 2 * Rh <= D.
Hypothesis HBD : 2 * Rh <= BD.

Let program (id : nat * nat * nat) (x y : Z -> R) : Z -> R :=
  rotary_embedding_kernel cos sin None seq_offsets (Z.of_nat T) B H D Rh TR BT BD
    interleaved conjugate (fst (fst id)) (snd (fst id)) (snd id) x y.

Let rotated (x : Z -> R) (b t h d : nat) : R :=
  rotate_pair x cos sin interleaved conjugate Rh (flat T H D b t h 0)
    (Z.of_nat t + seq_offset seq_offsets b) d.

Let written (ids : list (nat * nat * nat)) (b t h d : nat) : Prop :=
  In (t / BT, b, h) ids /\ d < 2 * Rh /\ table_ok seq_offsets TR b t = true.

Lemma written_dec (ids : list (nat * nat * nat)) (b t h d : nat) :
  written ids b t h d \/ ~ written ids b t h d.
Proof.
  unfold written.
  destruct (in_dec (fun u v : nat * nat * nat =>
                      ltac:(repeat decide equality) : {u = v} + {u <> v})
                   (t / BT, b, h) ids) as [Hi|Hi]; [|right; tauto].
  destruct (Nat.ltb_spec d (2 * Rh)); [|right; lia].
  destruct (table_ok seq_offsets TR b t); [left; tauto | right; intuition discriminate].
Qed.

Lemma program_cond (id : nat * nat * nat) (b t h d : nat) :
  (b =? snd (fst id)) && (h =? snd id) && (t / BT =? fst (fst id))
    && (d <? 2 * Rh) && table_ok seq_offsets TR b t = true
  <-> id = (t / BT, b, h) /\ d < 2 * Rh /\ table_ok seq_offsets TR b t = true.
Proof.
  destruct id as [[i_t i_b] i_h]. cbn [fst snd].
  rewrite !andb_true_iff, !Nat.eqb_eq, Nat.ltb_lt. split.
  - intros [[[[-> ->] <-] ?] ?]. auto.
  - intros (E & ? & ?). inversion E; subst. auto.
Qed.

(** A launch that loads from [x] and stores to another buffer. *)
Lemma launch_copy_read (x : Z -> R) (ids : list (nat * nat * nat)) :
  (forall id, In id ids -> snd id < H) ->
  forall (y0 : Z -> R) (b t h d : nat), t < T -> h < H -> d < D ->
    (written ids b t h d ->
     fold_left (fun y id => program id x y) ids y0 (flat T H D b t h d)
     = rotated x b t h d)
    /\ (~ written ids b t h d ->
        fold_left (fun y id => program id x y) ids y0 (flat T H D b t h d)
        = y0 (flat T H D b t h d)).
Proof.
  induction ids as [|id ids IH] using rev_ind; intros Hids y0 b t h d Ht Hh Hd.
  - split; [intros [[] _] | reflexivity].
  - assert (Hstep : forall m y, program id m y (flat T H D b t h d)
        = if (b =? snd (fst id)) && (h =? snd id) && (t / BT =? fst (fst id))
             && (d <? 2 * Rh) && table_ok seq_offsets TR b t
          then rotate_pair m cos sin interleaved conjugate Rh (flat T H D b t h 0)
                 (Z.of_nat t + seq_offset seq_offsets b) d
          else y (flat T H D b t h d)).
    { intros m y. unfold program. apply program_read; try assumption.
      apply Hids, in_or_app. right. left. reflexivity. }
    rewrite fold_left_app. cbn [fold_left]. rewrite !Hstep.
    fold (rotated x b t h d).
    assert (Hids' : forall id', In id' ids -> snd id' < H).
    { intros id' Hi. apply Hids, in_or_app. left. exact Hi. }
    destruct (IH Hids' y0 b t h d Ht Hh Hd) as [IH1 IH2].
    match goal with |- context [if ?c then _ else _] => destruct c eqn:Ec end.
    + split; [reflexivity|]. intros Hn. exfalso. apply Hn.
      apply program_cond in Ec. destruct Ec as (-> & ? & ?).
      split; [apply in_or_app; right; left; reflexivity | tauto].
    + assert (Hiff : written (ids ++ [id]) b t h d <-> written ids b t h d).
      { unfold written. rewrite in_app_iff. split; [|tauto].
        intros ([Hi|[Hi|[]]] & H1 & H2); [tauto|].
        exfalso. assert (Hc := proj2 (program_cond id b t h d)
                                  (conj Hi (conj H1 H2))).
        rewrite Hc in Ec. discriminate. }
      split; intros Hw.
      * apply IH1, Hiff, Hw.
      * apply IH2. intros Hw'. apply Hw, Hiff, Hw'.
Qed.

(** A launch on one buffer: each program loads what the launch started
    with, since no other program stores to the positions it loads. *)
Lemma launch_inplace_read (x : Z -> R) (ids : list (nat * nat * nat)) :
  NoDup ids ->
  (forall id, In id ids -> snd id < H) ->
  forall (b t h d : nat), t < T -> h < H -> d < D ->
    (written ids b t h d ->
     fold_left (fun m id => program id m m) ids x (flat T H D b t h d)
     = rotated x b t h d)
    /\ (~ written ids b t h d ->
        fold_left (fun m id => program id m m) ids x (flat T H D b t h d)
        = x (flat T H D b t h d)).
Proof.
  induction ids as [|id ids IH] using rev_ind; intros Hnd Hids b t h d Ht Hh Hd.
  - split; [intros [[] _] | reflexivity].
  - assert (Hstep : forall m y, program id m y (flat T H D b t h d)
        = if (b =? snd (fst id)) && (h =? snd id) && (t / BT =? fst (fst id))
             && (d <? 2 * Rh) && table_ok seq_offsets TR b t
          then rotate_pair m cos sin interleaved conjugate Rh (flat T H D b t h 0)
                 (Z.of_nat t + seq_offset seq_offsets b) d
          else y (flat T H D b t h d)).
    { intros m y. unfold program. apply program_read; try assumption.
      apply Hids, in_or_app. right. left. reflexivity. }
    rewrite fold_left_app. cbn [fold_left]. rewrite !Hstep.
    assert (Hids' : forall id', In id' ids -> snd id' < H).
    { intros id' Hi. apply Hids, in_or_app. left. exact Hi. }
    assert (Hnd' : NoDup ids /\ ~ In id ids).
    { apply NoDup_remove with (l' := @nil (nat * nat * nat)) in Hnd.
      rewrite app_nil_r in Hnd. exact Hnd. }
    destruct Hnd' as [Hnd' Hfresh].
    specialize (IH Hnd' Hids').
    destruct (IH b t h d Ht Hh Hd) as [IH1 IH2].
    match goal with |- context [if ?c then _ else _] => destruct c eqn:Ec end.
    + apply program_cond in Ec. destruct Ec as (-> & Hd2 & Hok).
      assert (Hrot : rotate_pair (fold_left (fun m id => program id m m) ids x)
                       cos sin interleaved conjugate Rh (flat T H D b t h 0)
                       (Z.of_nat t + seq_offset seq_offsets b) d
                     = rotated x b t h d).
      { apply rotate_pair_ext; [exact Hd2|]. intros j Hj.
        rewrite flat_add. apply IH; try lia.
        intros (Hi & _). contradiction. }
      split; [intros _; exact Hrot|].
      intros Hn. exfalso. apply Hn.
      split; [apply in_or_app; right; left; reflexivity | tauto].
    + assert (Hiff : written (ids ++ [id]) b t h d <-> written ids b t h d).
      { unfold written. rewrite in_app_iff. split; [|tauto].
        intros ([Hi|[Hi|[]]] & H1 & H2); [tauto|].
        exfalso. assert (Hc := proj2 (program_cond id b t h d)
                                  (conj Hi (conj H1 H2))).
        rewrite Hc in Ec. discriminate. }
      split; intros Hw.
      * apply IH1, Hiff, Hw.
      * apply IH2. intros Hw'. apply Hw, Hiff, Hw'.
Qed.

End Launch.

(** ** The host function *)

Lemma flat_mod (T H D b t h d : nat) :
  d < D -> (flat T H D b t h d mod Z.of_nat D)%Z = Z.of_nat d.
Proof.
  intros Hd. unfold flat, pos_offset. rewrite <- Nat2Z.inj_mod. f_equal.
  rewrite Nat.add_comm, Nat.Div0.mod_add. apply Nat.mod_small. exact Hd.
Qed.

Lemma flat_div (T H D b t h d : nat) :
  d < D -> (flat T H D b t h d / Z.of_nat D)%Z = Z.of_nat ((b * T + t) * H + h).
Proof.
  intros Hd. unfold flat, pos_offset. rewrite <- Nat2Z.inj_div. f_equal.
  rewrite Nat.add_comm, Nat.div_add by lia. rewrite Nat.div_small by exact Hd.
  reflexivity.
Qed.

Lemma in_grid_ids3 (n0 n1 n2 a b c : nat) :
  In (a, b, c) (grid_ids3 (n0, n1, n2)) <-> a < n0 /\ b < n1 /\ c < n2.
Proof.
  unfold grid_ids3; cbn [fst snd]. rewrite !in_prod_iff, !in_seq. lia.
Qed.

Lemma grid_ids3_NoDup (g : nat * nat * nat) : NoDup (grid_ids3 g).
Proof.
  unfold grid_ids3. assert (Hp : forall (A B : Type) (l : list A) (l' : list B),
                              NoDup l -> NoDup l' -> NoDup (list_prod l l')).
  { intros A B0 l l' Hl Hl'. induction Hl as [|a l Ha Hl IH]; cbn [list_prod].
    - constructor.
    - apply NoDup_app.
      + apply NoDup_map_NoDup_ForallPairs; [|exact Hl'].
        intros u v _ _ E. inversion E. reflexivity.
      + exact IH.
      + intros [u v] Hin Hin'. apply in_map_iff in Hin.
        destruct Hin as (w & E & _). inversion E; subst.
        apply in_prod_iff in Hin'. tauto. }
  apply Hp; [apply Hp|]; apply seq_NoDup.
Qed.

Lemma dtype_eqb_eq (a b : dtype) : dtype_eqb a b = true <-> a = b.
Proof. destruct a, b; cbn; split; intros E; congruence. Qed.

Lemma block_rows_pos (T sm : nat) :
  0 < T -> 0 < sm -> 0 < Nat.min 128 (next_power_of_2 (cdiv T sm)).
Proof.
  intros HT Hsm. pose proof (next_power_of_2_ge (cdiv T sm)) as Hge.
  assert (0 < cdiv T sm).
  { unfold cdiv. apply Nat.div_str_pos. lia. }
  lia.
Qed.

(** What [rotary_embedding_fwdbwd] returns on a batch of sequences of one
    length, feature by feature. *)
Lemma fwdbwd_read (sm : nat) (pci : itensor -> nat -> itensor)
    (x cos sin : ftensor R) (so : seqlen_offsets_t)
    (interleaved inplace conjugate : bool) (B T H D TR Rh : nat) :
  fshape x = [B; T; H; D] -> fshape cos = [TR; Rh] ->
  D <= 256 -> T <= TR ->
  fdtype cos = fdtype sin -> fdtype x = fdtype cos ->
  match so with
  | OffsetInt off => (off + Z.of_nat T <= Z.of_nat TR)%Z
  | OffsetTensor offs =>
      ishape offs = [B] /\ (idtype offs = int32 \/ idtype offs = int64)
  end ->
  0 < T -> 0 < sm -> 2 * Rh <= D ->
  exists y,
    rotary_embedding_fwdbwd sm pci x cos sin so None interleaved inplace conjugate
    = inr y
    /\ fshape y = fshape x /\ fdtype y = fdtype x
    /\ forall b t h d, b < B -> t < T -> h < H -> d < D ->
         fmem y (flat T H D b t h d)
         = if d <? 2 * Rh
           then if table_ok (offsets_arg so) TR b t
                then rotate_pair (fmem x) (fmem cos) (fmem sin) interleaved conjugate
                       Rh (flat T H D b t h 0)
                       (Z.of_nat t + seq_offset (offsets_arg so) b) d
                else if inplace then fmem x (flat T H D b t h d) else uninit
           else fmem x (flat T H D b t h d).
Proof.
  intros Hx Hc HD HT Hcs Hxc Hso HT0 Hsm HR.
  unfold rotary_embedding_fwdbwd. rewrite Hx, Hc. cbn [runpack4 runpack2 rbind].
  rewrite (proj2 (Nat.leb_le D 256) HD), (proj2 (Nat.leb_le T TR) HT).
  rewrite (proj2 (dtype_eqb_eq _ _) Hcs), (proj2 (dtype_eqb_eq _ _) Hxc).
  cbn [rassert rbind].
  assert (Hchk : match so with
                 | OffsetTensor offs =>
                     (rassert (match ishape offs with
                               | [n] => (Z.of_nat n =? Z.of_nat B)%Z
                               | _ => false
                               end) EmptyString ;;;
                      rassert (dtype_eqb (idtype offs) int32
                               || dtype_eqb (idtype offs) int64) EmptyString)%rotary
                 | OffsetInt off =>
                     rassert (off + Z.of_nat T <=? Z.of_nat TR)%Z EmptyString
                 end = inr tt).
  { destruct so as [off|offs].
    - rewrite (proj2 (Z.leb_le _ _) Hso). reflexivity.
    - destruct Hso as [-> Hdt]. rewrite Z.eqb_refl. cbn [rassert rbind].
      destruct Hdt as [-> | ->]; reflexivity. }
  rewrite Hchk. cbn [rbind].
  unfold py_cdiv. rewrite (proj2 (Nat.eqb_neq sm 0)) by lia. cbn [rbind].
  pose proof (block_rows_pos HT0 Hsm) as HBT.
  set (BT := Nat.min 128 (next_power_of_2 (cdiv T sm))) in *.
  rewrite (proj2 (Nat.eqb_neq BT 0)) by lia. cbn [rbind].
  eexists. split; [reflexivity|]. cbn [fshape fdtype fmem].
  split; [reflexivity|]. split; [reflexivity|].
  intros b t h d Hb Ht Hh Hd.
  pose proof (next_power_of_2_ge (Rh * 2)) as HBD.
  assert (Hids : forall id, In id (grid_ids3 (cdiv T BT, B, H)) -> snd id < H).
  { intros [[a b'] c] Hi. apply in_grid_ids3 in Hi. cbn [snd]. lia. }
  assert (Hown : In (t / BT, b, h) (grid_ids3 (cdiv T BT, B, H))).
  { apply in_grid_ids3. pose proof (cdiv_has_block HBT Ht). lia. }
  destruct inplace; cbn [negb andb].
  - rewrite andb_false_r.
    destruct (@launch_inplace_read (fmem cos) (fmem sin) (offsets_arg so)
                B T H D Rh TR BT (next_power_of_2 (Rh * 2)) interleaved conjugate
                HBT HR ltac:(lia) (fmem x) (grid_ids3 (cdiv T BT, B, H))
                (grid_ids3_NoDup _) Hids b t h d Ht Hh Hd) as [Hw Hn].
    destruct (Nat.ltb_spec d (2 * Rh)) as [Hd2|Hd2].
    + destruct (table_ok (offsets_arg so) TR b t) eqn:Hok.
      * apply Hw. repeat split; assumption.
      * apply Hn. intros (_ & _ & E). congruence.
    + apply Hn. intros (_ & E & _). lia.
  - rewrite andb_true_r.
    set (y0 := if Rh * 2 <? D then copy_tail (fmem x) D (Rh * 2)
               else fun _ : Z => uninit).
    destruct (@launch_copy_read (fmem cos) (fmem sin) (offsets_arg so)
                B T H D Rh TR BT (next_power_of_2 (Rh * 2)) interleaved conjugate
                HBT HR ltac:(lia) (fmem x) (grid_ids3 (cdiv T BT, B, H))
                Hids y0 b t h d Ht Hh Hd) as [Hw Hn].
    assert (Hy0 : y0 (flat T H D b t h d)
                  = if d <? 2 * Rh then uninit else fmem x (flat T H D b t h d)).
    { unfold y0, copy_tail. destruct (Nat.ltb_spec (Rh * 2) D) as [Hlt|Hge].
      - rewrite flat_mod by exact Hd.
        destruct (Z.leb_spec (Z.of_nat (Rh * 2)) (Z.of_nat d));
          destruct (Nat.ltb_spec d (2 * Rh)); try reflexivity; lia.
      - destruct (Nat.ltb_spec d (2 * Rh)); [reflexivity | lia]. }
    destruct (Nat.ltb_spec d (2 * Rh)) as [Hd2|Hd2].
    + destruct (table_ok (offsets_arg so) TR b t) eqn:Hok.
      * apply Hw. repeat split; assumption.
      * rewrite <- Hy0. apply Hn. intros (_ & _ & E). congruence.
    + rewrite <- Hy0. apply Hn. intros (_ & E & _). lia.
Qed.

(** ** Sequences of different lengths *)

(** One program of a launch with [cu_seqlens]: its row of [chunk_indices]
    names the sequence [nn] and the block [ii]; the sequence starts at
    position [pb] and has [len] positions. *)
Lemma program_read_varlen (cos sin : Z -> R) (cu ci : Z -> Z)
    (seq_offsets : Z + (Z -> Z)) (T0 : Z) (B H D Rh TR BT BD : nat)
    (interleaved conjugate : bool) (id : nat * nat * nat) (xm ym : Z -> R)
    (nn ii pb len p h d : nat) :
  0 < BT -> 2 * Rh <= D -> 2 * Rh <= BD -> snd id < H ->
  ci (Z.of_nat (fst (fst id)) * 2)%Z = Z.of_nat nn ->
  ci (Z.of_nat (fst (fst id)) * 2 + 1)%Z = Z.of_nat ii ->
  cu (Z.of_nat nn) = Z.of_nat pb ->
  cu (Z.of_nat nn + 1)%Z = Z.of_nat (pb + len) ->
  h < H -> d < D ->
  rotary_embedding_kernel cos sin (Some (cu, ci)) seq_offsets T0 B H D Rh TR BT BD
    interleaved conjugate (fst (fst id)) (snd (fst id)) (snd id) xm ym
    (pos_offset H D p h d)
  = if (h =? snd id) && (pb + ii * BT <=? p) && (p <? pb + ii * BT + BT)
       && (p <? pb + len) && (d <? 2 * Rh) && table_ok seq_offsets TR nn (p - pb)
    then rotate_pair xm cos sin interleaved conjugate Rh (pos_offset H D p h 0)
           (Z.of_nat (p - pb) + seq_offset seq_offsets nn) d
    else ym (pos_offset H D p h d).
Proof.
  intros HBT HR HBD Hid Hn Hi Hbos Heos Hh Hd.
  destruct id as [[r i_b] i_h]. cbn [fst snd] in *.
  unfold rotary_embedding_kernel. cbv zeta. rewrite Hn, Hi, Hbos, Heos.
  replace (Z.of_nat (pb + len) - Z.of_nat pb)%Z with (Z.of_nat len) by lia.
  replace (Z.of_nat pb * (Z.of_nat H * Z.of_nat D) + Z.of_nat i_h * Z.of_nat D)%Z
    with (pos_offset H D pb i_h 0)
    by (unfold pos_offset;
        repeat (rewrite Nat2Z.inj_add || rewrite Nat2Z.inj_mul); ring).
  destruct interleaved;
    [apply block_read_gptj | apply block_read_neox]; assumption.
Qed.

Section LaunchVarlen.

Variables (cos sin : Z -> R) (cu ci : Z -> Z) (seq_offsets : Z + (Z -> Z)).
Variables (T0 : Z) (B H D Rh TR BT BD : nat) (interleaved conjugate : bool).
Variables (N : nat) (start : nat -> nat).
Hypothesis HBT : 0 < BT.
Hypothesis HR : 2 * Rh <= D.
Hypothesis HBD : 2 * Rh <= BD.
Hypothesis Hcu : forall n, n <= N -> cu (Z.of_nat n) = Z.of_nat (start n).
Hypothesis Hmono : forall n, n < N -> start n <= start (S n).

Let program (id : nat * nat * nat) (x y : Z -> R) : Z -> R :=
  rotary_embedding_kernel cos sin (Some (cu, ci)) seq_offsets T0 B H D Rh TR BT BD
    interleaved conjugate (fst (fst id)) (snd (fst id)) (snd id) x y.

Let rotated (x : Z -> R) (n t h d : nat) : R :=
  rotate_pair x cos sin interleaved conjugate Rh (pos_offset H D (start n + t) h 0)
    (Z.of_nat t + seq_offset seq_offsets n) d.

(** The row of [chunk_indices] of a program is a block of a sequence. *)
Let row_valid (id : nat * nat * nat) : Prop :=
  exists nn ii, nn < N
    /\ ci (Z.of_nat (fst (fst id)) * 2)%Z = Z.of_nat nn
    /\ ci (Z.of_nat (fst (fst id)) * 2 + 1)%Z = Z.of_nat ii.

(** The program stores feature [d] of head [h] at position [t] of the
    sequence [n]. *)
Let stores (id : nat * nat * nat) (n t h d : nat) : Prop :=
  snd id = h
  /\ ci (Z.of_nat (fst (fst id)) * 2)%Z = Z.of_nat n
  /\ ci (Z.of_nat (fst (fst id)) * 2 + 1)%Z = Z.of_nat (t / BT)
  /\ d < 2 * Rh /\ table_ok seq_offsets TR n t = true.

Lemma start_mono (n m : nat) : n <= m -> m <= N -> start n <= start m.
Proof.
  intros Hnm HmN. induction m as [|m IH].
  - replace n with 0 by lia. lia.
  - destruct (Nat.eq_dec n (S m)) as [->|Hne]; [lia|].
    specialize (IH ltac:(lia) ltac:(lia)).
    assert (start m <= start (S m)) by (apply Hmono; lia). lia.
Qed.

Lemma stores_dec (id : nat * nat * nat) (n t h d : nat) :
  stores id n t h d \/ ~ stores id n t h d.
Proof.
  unfold stores.
  destruct (Nat.eq_dec (snd id) h); [|right; tauto].
  destruct (Z.eq_dec (ci (Z.of_nat (fst (fst id)) * 2)%Z) (Z.of_nat n));
    [|right; tauto].
  destruct (Z.eq_dec (ci (Z.of_nat (fst (fst id)) * 2 + 1)%Z) (Z.of_nat (t / BT)));
    [|right; tauto].
  destruct (Nat.ltb_spec d (2 * Rh)); [|right; lia].
  destruct (table_ok seq_offsets TR n t); [left; tauto | right; intuition discriminate].
Qed.

Lemma program_varlen_step (id : nat * nat * nat) (x y : Z -> R) (n t h d : nat) :
  snd id < H -> row_valid id ->
  n < N -> start n + t < start (S n) -> h < H -> d < D ->
  (stores id n t h d ->
   program id x y (pos_offset H D (start n + t) h d) = rotated x n t h d)
  /\ (~ stores id n t h d ->
      program id x y (pos_offset H D (start n + t) h d)
      = y (pos_offset H D (start n + t) h d)).
Proof.
  intros Hid (nn & ii & Hnn & Hrn & Hri) Hn Ht Hh Hd.
  pose proof (start_mono (n := nn) (m := S nn) ltac:(lia) ltac:(lia)) as Hlen.
  unfold program.
  rewrite (@program_read_varlen cos sin cu ci seq_offsets T0 B H D Rh TR BT BD
             interleaved conjugate id x y nn ii (start nn)
             (start (S nn) - start nn) (start n + t) h d);
    try assumption.
  2:{ apply Hcu. lia. }
  2:{ replace (Z.of_nat nn + 1)%Z with (Z.of_nat (S nn)) by lia.
      rewrite Hcu by lia. f_equal. lia. }
  pose proof (Nat.div_mod_eq t BT) as Et.
  pose proof (Nat.mod_upper_bound t BT ltac:(lia)) as Htm.
  match goal with |- context [if ?c then _ else _] => destruct c eqn:Ec end.
  - repeat (apply andb_true_iff in Ec; destruct Ec as [Ec ?]).
    repeat match goal with
           | H0 : (_ <=? _) = true |- _ => apply Nat.leb_le in H0
           | H0 : (_ <? _) = true |- _ => apply Nat.ltb_lt in H0
           | H0 : (_ =? _) = true |- _ => apply Nat.eqb_eq in H0
           end.
    assert (En : nn = n).
    { destruct (Nat.lt_trichotomy nn n) as [Hl|[E|Hl]]; [|exact E|].
      - pose proof (start_mono (n := S nn) (m := n) ltac:(lia) ltac:(lia)). lia.
      - pose proof (start_mono (n := S n) (m := nn) ltac:(lia) ltac:(lia)). lia. }
    subst nn.
    replace (start n + t - start n) with t in * by lia.
    assert (Ei : ii = t / BT).
    { apply Nat.div_unique with (r := t - ii * BT); lia. }
    split.
    + intros _. reflexivity.
    + intros Hns. exfalso. apply Hns. unfold stores.
      repeat split; try assumption; try lia; rewrite Hri, Ei; reflexivity.
  - split; [|reflexivity].
    intros (Es & En & Ei & Hd2 & Hok). exfalso.
    rewrite Hrn in En. apply Nat2Z.inj in En. subst nn.
    rewrite Hri in Ei. apply Nat2Z.inj in Ei. subst ii.
    replace (start n + t - start n) with t in * by lia.
    apply not_true_iff_false in Ec. apply Ec.
    rewrite !andb_true_iff, Nat.eqb_eq, Nat.leb_le, !Nat.ltb_lt.
    repeat split; try assumption; try lia; nia.
Qed.

(** A launch with [cu_seqlens] that loads from [x] and stores to another
    buffer. *)
Lemma launch_varlen_read (x : Z -> R) (ids : list (nat * nat * nat)) :
  (forall id, In id ids -> snd id < H /\ row_valid id) ->
  forall (y0 : Z -> R) (n t h d : nat),
    n < N -> start n + t < start (S n) -> h < H -> d < D ->
    ((exists id, In id ids /\ stores id n t h d) ->
     fold_left (fun y id => program id x y) ids y0
       (pos_offset H D (start n + t) h d)
     = rotated x n t h d)
    /\ (~ (exists id, In id ids /\ stores id n t h d) ->
        fold_left (fun y id => program id x y) ids y0
          (pos_offset H D (start n + t) h d)
        = y0 (pos_offset H D (start n + t) h d)).
Proof.
  induction ids as [|id ids IH] using rev_ind; intros Hids y0 n t h d Hn Ht Hh Hd.
  - split; [intros (id & [] & _) | reflexivity].
  - assert (Hids' : forall id', In id' ids -> snd id' < H /\ row_valid id').
    { intros id' Hi. apply Hids, in_or_app. left. exact Hi. }
    assert (Hid_row : snd id < H /\ row_valid id).
    { apply Hids, in_or_app. right. left. reflexivity. }
    destruct Hid_row as [Hid Hrow].
    destruct (IH Hids' y0 n t h d Hn Ht Hh Hd) as [IH1 IH2].
    rewrite fold_left_app. cbn [fold_left].
    destruct (@program_varlen_step id x (fold_left (fun y id => program id x y) ids y0)
                n t h d Hid Hrow Hn Ht Hh Hd) as [S1 S2].
    destruct (stores_dec id n t h d) as [Hs|Hs].
    + split; [intros _; apply S1; exact Hs|].
      intros Hno. exfalso. apply Hno. exists id. split; [|exact Hs].
      apply in_or_app. right. left. reflexivity.
    + rewrite (S2 Hs). split.
      * intros (id' & Hin & Hs'). apply IH1.
        apply in_app_or in Hin. destruct Hin as [Hin|[<-|[]]]; [|contradiction].
        exists id'. split; assumption.
      * intros Hno. apply IH2. intros (id' & Hin & Hs'). apply Hno.
        exists id'. split; [apply in_or_app; left; exact Hin | exact Hs'].
Qed.

End LaunchVarlen.

Lemma pos_offset_mod (H D p h d : nat) :
  d < D -> (pos_offset H D p h d mod Z.of_nat D)%Z = Z.of_nat d.
Proof.
  intros Hd. unfold pos_offset. rewrite <- Nat2Z.inj_mod. f_equal.
  rewrite Nat.add_comm, Nat.Div0.mod_add. apply Nat.mod_small. exact Hd.
Qed.

(** What [rotary_embedding_fwdbwd] returns on sequences of different
    lengths, packed one after the other. *)
Lemma fwdbwd_varlen_read (sm : nat) (pci : itensor -> nat -> itensor)
    (x cos sin : ftensor R) (so : seqlen_offsets_t) (cu : itensor)
    (interleaved conjugate : bool) (B T H D TR Rh N NT : nat)
    (start : nat -> nat) :
  fshape x = [B; T; H; D] -> fshape cos = [TR; Rh] ->
  D <= 256 -> T <= TR ->
  fdtype cos = fdtype sin -> fdtype x = fdtype cos ->
  ishape cu = [S N] ->
  (forall n, n <= N -> imem cu (Z.of_nat n) = Z.of_nat (start n)) ->
  (forall n, n < N -> start n <= start (S n)) ->
  match so with
  | OffsetInt off => (off + Z.of_nat T <= Z.of_nat TR)%Z
  | OffsetTensor offs =>
      ishape offs = [N] /\ (idtype offs = int32 \/ idtype offs = int64)
  end ->
  0 < B -> 0 < T -> 0 < sm -> 2 * Rh <= D ->
  let BT := Nat.min 128 (next_power_of_2 (cdiv T sm)) in
  let ci := pci cu BT in
  ishape ci = [NT; 2] ->
  (forall r, r < NT ->
     exists n i, n < N
       /\ imem ci (Z.of_nat r * 2)%Z = Z.of_nat n
       /\ imem ci (Z.of_nat r * 2 + 1)%Z = Z.of_nat i) ->
  (forall n i, n < N -> start n + i * BT < start (S n) ->
     exists r, r < NT
       /\ imem ci (Z.of_nat r * 2)%Z = Z.of_nat n
       /\ imem ci (Z.of_nat r * 2 + 1)%Z = Z.of_nat i) ->
  exists y,
    rotary_embedding_fwdbwd sm pci x cos sin so (Some cu) interleaved false conjugate
    = inr y
    /\ fshape y = fshape x
    /\ forall n t h d, n < N -> start n + t < start (S n) -> h < H -> d < D ->
         fmem y (pos_offset H D (start n + t) h d)
         = if d <? 2 * Rh
           then if table_ok (offsets_arg so) TR n t
                then rotate_pair (fmem x) (fmem cos) (fmem sin) interleaved conjugate
                       Rh (pos_offset H D (start n + t) h 0)
                       (Z.of_nat t + seq_offset (offsets_arg so) n) d
                else uninit
           else fmem x (pos_offset H D (start n + t) h d).
Proof.
  intros Hx Hc HD HT Hcs Hxc Hcu Hstart Hmono Hso HB HT0 Hsm HR BT ci Hci Hrows Hall.
  unfold rotary_embedding_fwdbwd. rewrite Hx, Hc, Hcu.
  cbn [runpack4 runpack2 rshape_first rbind].
  rewrite (proj2 (Nat.leb_le D 256) HD), (proj2 (Nat.leb_le T TR) HT).
  rewrite (proj2 (dtype_eqb_eq _ _) Hcs), (proj2 (dtype_eqb_eq _ _) Hxc).
  cbn [rassert rbind].
  assert (Hchk : match so with
                 | OffsetTensor offs =>
                     (rassert (match ishape offs with
                               | [n] => (Z.of_nat n =? Z.of_nat (S N) - 1)%Z
                               | _ => false
                               end) EmptyString ;;;
                      rassert (dtype_eqb (idtype offs) int32
                               || dtype_eqb (idtype offs) int64) EmptyString)%rotary
                 | OffsetInt off =>
                     rassert (off + Z.of_nat T <=? Z.of_nat TR)%Z EmptyString
                 end = inr tt).
  { destruct so as [off|offs].
    - rewrite (proj2 (Z.leb_le _ _) Hso). reflexivity.
    - destruct Hso as [-> Hdt].
      rewrite (proj2 (Z.eqb_eq _ _)) by lia. cbn [rassert rbind].
      destruct Hdt as [-> | ->]; reflexivity. }
  rewrite Hchk. cbn [rbind].
  unfold py_cdiv. rewrite (proj2 (Nat.eqb_neq sm 0)) by lia. cbn [rbind].
  pose proof (block_rows_pos HT0 Hsm) as HBT.
  fold BT in HBT |- *. fold ci. rewrite Hci. cbn [rshape_first rbind].
  eexists. split; [reflexivity|]. cbn [fshape fdtype fmem].
  split; [reflexivity|].
  intros n t h d Hn Ht Hh Hd.
  pose proof (next_power_of_2_ge (Rh * 2)) as HBD.
  cbn [negb andb]. rewrite andb_true_r.
  set (y0 := if Rh * 2 <? D then copy_tail (fmem x) D (Rh * 2)
             else fun _ : Z => uninit).
  destruct (@launch_varlen_read (fmem cos) (fmem sin) (imem cu) (imem ci)
              (offsets_arg so) (Z.of_nat T) B H D Rh TR BT
              (next_power_of_2 (Rh * 2)) interleaved conjugate N start
              HBT HR ltac:(lia) Hstart Hmono (fmem x)
              (grid_ids3 (NT, B, H))) with (y0 := y0) (n := n) (t := t) (h := h)
              (d := d) as [Hw Hnw]; try assumption.
  { intros [[r b] c] Hi. apply in_grid_ids3 in Hi. cbn [fst snd].
    split; [lia|]. apply Hrows. lia. }
  assert (Hy0 : y0 (pos_offset H D (start n + t) h d)
                = if d <? 2 * Rh then uninit
                  else fmem x (pos_offset H D (start n + t) h d)).
  { unfold y0, copy_tail. destruct (Nat.ltb_spec (Rh * 2) D) as [Hlt|Hge].
    - rewrite pos_offset_mod by exact Hd.
      destruct (Z.leb_spec (Z.of_nat (Rh * 2)) (Z.of_nat d));
        destruct (Nat.ltb_spec d (2 * Rh)); try reflexivity; lia.
    - destruct (Nat.ltb_spec d (2 * Rh)); [reflexivity | lia]. }
  destruct (Nat.ltb_spec d (2 * Rh)) as [Hd2|Hd2].
  - destruct (table_ok (offsets_arg so) TR n t) eqn:Hok.
    + apply Hw.
      destruct (Hall n (t / BT) Hn) as (r & Hr & Hrn & Hri).
      { pose proof (Nat.div_mod_eq t BT). nia. }
      exists (r, 0, h). split.
      * apply in_grid_ids3. lia.
      * cbn [fst snd]. repeat split; assumption.
    + rewrite <- Hy0. apply Hnw. intros (id & _ & (_ & _ & _ & _ & E)). congruence.
  - rewrite <- Hy0. apply Hnw. intros (id & _ & (_ & _ & _ & E & _)). lia.
Qed.

(** ** The reference *)

Lemma Zdiv_block (q w r : nat) :
  r < w -> ((Z.of_nat q * Z.of_nat w + Z.of_nat r) / Z.of_nat w)%Z = Z.of_nat q.
Proof.
  intros Hr. symmetry. apply Z.div_unique with (r := Z.of_nat r); lia.
Qed.

Lemma Zmod_block (q w r : nat) :
  r < w -> ((Z.of_nat q * Z.of_nat w + Z.of_nat r) mod Z.of_nat w)%Z = Z.of_nat r.
Proof.
  intros Hr. symmetry. apply Z.mod_unique with (q := Z.of_nat q); lia.
Qed.

Lemma ref_read (x cos sin : ftensor R) (interleaved : bool) (B T H D Rh : nat) :
  fshape x = [B; T; H; D] -> fshape cos = [T; Rh] -> fshape sin = [T; Rh] ->
  0 < Rh -> 2 * Rh <= D ->
  exists r,
    rotary_embedding_ref x cos sin interleaved = inr r
    /\ fshape r = fshape x
    /\ forall b t h d, b < B -> t < T -> h < H -> d < D ->
         fmem r (flat T H D b t h d)
         = if d <? 2 * Rh
           then rotate_pair (fmem x) (fmem cos) (fmem sin) interleaved false
                  Rh (flat T H D b t h 0) (Z.of_nat t) d
           else fmem x (flat T H D b t h d).
Proof.
  intros Hx Hc Hs HRh HR.
  unfold rotary_embedding_ref. rewrite Hx, Hc, Hs.
  cbn [rshape_last rev app rbind].
  rewrite (proj2 (Nat.leb_le (Rh * 2) D)) by lia. cbn [rassert rbind].
  rewrite !Nat.eqb_refl. cbn [andb negb].
  unfold rotate_half. cbn [narrow_last fshape rev app].
  rewrite Nat.sub_0_r.
  assert (E1 : (Rh * 2 =? 1) = false) by (apply Nat.eqb_neq; lia).
  assert (E2 : ((Rh * 2) mod 2 =? 0) = true).
  { apply Nat.eqb_eq. apply Nat.Div0.mod_mul. }
  assert (Eh : (Rh * 2 + 1) / 2 = Rh).
  { symmetry. apply Nat.div_unique with (r := 1); lia. }
  destruct interleaved; cbn [negb]; rewrite ?E1, ?E2; cbn [negb rbind];
    (eexists; split; [reflexivity|]; cbn [fshape fmem]; split; [reflexivity|]);
    intros b t h d Hb Ht Hh Hd;
    rewrite flat_mod, flat_div by exact Hd;
    set (P := (b * T + t) * H + h);
    assert (EP : (Z.of_nat P / Z.of_nat H mod Z.of_nat T)%Z = Z.of_nat t)
      by (unfold P; rewrite (Nat2Z.inj_add _ h), (Nat2Z.inj_mul _ H),
                            Zdiv_block by exact Hh;
          rewrite Nat2Z.inj_add, Nat2Z.inj_mul; apply Zmod_block; exact Ht);
    rewrite EP;
    destruct (Nat.ltb_spec d (2 * Rh)) as [Hd2|Hd2];
    (destruct (Z.ltb_spec (Z.of_nat d) (Z.of_nat (Rh * 2))) as [Hz|Hz]; [|try lia]);
    try lia; try reflexivity;
    assert (Hn : forall j, j < Rh * 2 ->
              fmem (narrow_last x [B; T; H] D 0 (Rh * 2))
                (Z.of_nat P * Z.of_nat (Rh * 2) + Z.of_nat j)%Z
              = fmem x (flat T H D b t h j))
      by (intros j Hj; cbn [narrow_last fmem]; rewrite Nat.sub_0_r;
          rewrite Zdiv_block, Zmod_block by exact Hj;
          f_equal; unfold flat, pos_offset, P; lia);
    pose proof (Nat.div_mod_eq d 2) as Ed;
    pose proof (Nat.mod_upper_bound d 2 ltac:(lia)) as Hm.
  - replace ((Z.of_nat P * Z.of_nat (Rh * 2) + Z.of_nat d) mod 2)%Z
      with (Z.of_nat (d mod 2))
      by (apply Z.mod_unique with (q := Z.of_nat (P * Rh + d / 2)); lia).
    replace (Z.of_nat d / 2)%Z with (Z.of_nat (d / 2))
      by (rewrite Nat2Z.inj_div; reflexivity).
    unfold rotate_pair. cbn [negb].
    destruct (Nat.eqb_spec (d mod 2) 0) as [Ep|Ep].
    + rewrite Ep. cbn [Z.of_nat Z.eqb].
      replace (Z.of_nat P * Z.of_nat (Rh * 2) + Z.of_nat d + 1)%Z
        with (Z.of_nat P * Z.of_nat (Rh * 2) + Z.of_nat (d + 1))%Z by lia.
      rewrite !Hn by lia. rewrite !flat_add. ring.
    + replace (d mod 2) with 1 by lia. cbn [Z.of_nat Z.eqb Pos.of_succ_nat].
      replace (Z.of_nat P * Z.of_nat (Rh * 2) + Z.of_nat d - 1)%Z
        with (Z.of_nat P * Z.of_nat (Rh * 2) + Z.of_nat (d - 1))%Z by lia.
      rewrite !Hn by lia. rewrite !flat_add. ring.
  - rewrite Zdiv_block, Zmod_block by lia. rewrite Eh.
    replace (Rh * 2 - Rh) with Rh by lia.
    rewrite <- Nat2Z.inj_mod.
    unfold rotate_pair. cbn [negb].
    destruct (Nat.ltb_spec d Rh) as [Hlt|Hge].
    + rewrite (proj2 (Z.ltb_lt _ _)) by lia.
      rewrite Nat.mod_small by exact Hlt.
      replace (Z.of_nat P * Z.of_nat (Rh * 2) + Z.of_nat Rh + Z.of_nat d)%Z
        with (Z.of_nat P * Z.of_nat (Rh * 2) + Z.of_nat (d + Rh))%Z by lia.
      rewrite !Hn by lia. rewrite !flat_add. ring.
    + rewrite (proj2 (Z.ltb_ge _ _)) by lia.
      replace (d mod Rh) with (d - Rh)
        by (apply Nat.mod_unique with (q := 1); lia).
      replace (Z.of_nat P * Z.of_nat (Rh * 2) + (Z.of_nat d - Z.of_nat Rh))%Z
        with (Z.of_nat P * Z.of_nat (Rh * 2) + Z.of_nat (d - Rh))%Z by lia.
      rewrite !Hn by lia. rewrite !flat_add. ring.
Qed.

(** X14: what [rotary_embedding_fwdbwd] returns on a batch [B, T, H, D] with
    tables [TR, R], for [0 < 2 R <= D <= 256] and [0 < T]: a tensor of the
    shape and dtype of [x]; a feature below [2 R] of a position whose row of
    the tables exists is the rotation of its pair, a feature from [2 R] on
    is that of [x], and a feature below [2 R] of a position without a row is
    not written.  The number of multiprocessors, which sets the block of
    positions of a program, does not show in the result. *)
Theorem rotary_kernel_rotates_pairs (sm : nat) (pci : itensor -> nat -> itensor)
    (x cos sin : ftensor R) (so : seqlen_offsets_t)
    (interleaved inplace conjugate : bool) (B T H D TR Rh : nat) :
  fshape x = [B; T; H; D] -> fshape cos = [TR; Rh] ->
  D <= 256 -> T <= TR ->
  fdtype cos = fdtype sin -> fdtype x = fdtype cos ->
  match so with
  | OffsetInt off => (off + Z.of_nat T <= Z.of_nat TR)%Z
  | OffsetTensor offs =>
      ishape offs = [B] /\ (idtype offs = int32 \/ idtype offs = int64)
  end ->
  0 < T -> 0 < sm -> 0 < Rh -> 2 * Rh <= D ->
  exists y,
    rotary_embedding_fwdbwd sm pci x cos sin so None interleaved inplace conjugate
    = inr y
    /\ fshape y = fshape x /\ fdtype y = fdtype x
    /\ forall b t h d, b < B -> t < T -> h < H -> d < D ->
         fmem y (flat T H D b t h d)
         = if d <? 2 * Rh
           then if table_ok (offsets_arg so) TR b t
                then rotate_pair (fmem x) (fmem cos) (fmem sin) interleaved conjugate
                       Rh (flat T H D b t h 0)
                       (Z.of_nat t + seq_offset (offsets_arg so) b) d
                else if inplace then fmem x (flat T H D b t h d) else uninit
           else fmem x (flat T H D b t h d).
Proof. intros. apply fwdbwd_read; assumption. Qed.

(** X15: with tables of [T] rows and no offset, the kernel path agrees with
    [rotary_embedding_ref], in both layouts and in place or not. *)
Theorem rotary_kernel_matches_reference (sm : nat)
    (pci : itensor -> nat -> itensor) (x cos sin : ftensor R)
    (interleaved inplace : bool) (B T H D Rh : nat) :
  fshape x = [B; T; H; D] -> fshape cos = [T; Rh] -> fshape sin = [T; Rh] ->
  D <= 256 -> fdtype cos = fdtype sin -> fdtype x = fdtype cos ->
  0 < T -> 0 < sm -> 0 < Rh -> 2 * Rh <= D ->
  exists y r,
    rotary_embedding_fwdbwd sm pci x cos sin (OffsetInt 0) None interleaved inplace
      false = inr y
    /\ rotary_embedding_ref x cos sin interleaved = inr r
    /\ fshape y = fshape r
    /\ forall b t h d, b < B -> t < T -> h < H -> d < D ->
         fmem y (flat T H D b t h d) = fmem r (flat T H D b t h d).
Proof.
  intros Hx Hc Hs HD Hcs Hxc HT Hsm HRh HR.
  destruct (@fwdbwd_read sm pci x cos sin (OffsetInt 0) interleaved inplace false
              B T H D T Rh Hx Hc HD (Nat.le_refl T) Hcs Hxc ltac:(cbn; lia)
              HT Hsm HR) as (y & Ey & Hsy & _ & Hy).
  destruct (@ref_read x cos sin interleaved B T H D Rh Hx Hc Hs HRh HR)
    as (r & Er & Hsr & Hr).
  exists y, r. split; [exact Ey|]. split; [exact Er|].
  split; [congruence|].
  intros b t h d Hb Ht Hh Hd. rewrite Hy, Hr by assumption.
  destruct (d <? 2 * Rh); [|reflexivity].
  unfold table_ok, seq_offset, offsets_arg. rewrite Z.add_0_r.
  rewrite (proj2 (Z.leb_le 0 (Z.of_nat t))) by lia.
  rewrite (proj2 (Z.ltb_lt (Z.of_nat t) (Z.of_nat T))) by lia.
  reflexivity.
Qed.

(** X16: when every position has a row in the tables, rotating in place
    gives the values that rotating into a new tensor gives: no program
    loads what another program has stored. *)
Theorem rotary_inplace_agrees_with_copy (sm : nat)
    (pci : itensor -> nat -> itensor) (x cos sin : ftensor R)
    (so : seqlen_offsets_t) (interleaved conjugate : bool)
    (B T H D TR Rh : nat) :
  fshape x = [B; T; H; D] -> fshape cos = [TR; Rh] ->
  D <= 256 -> T <= TR ->
  fdtype cos = fdtype sin -> fdtype x = fdtype cos ->
  match so with
  | OffsetInt off => (off + Z.of_nat T <= Z.of_nat TR)%Z
  | OffsetTensor offs =>
      ishape offs = [B] /\ (idtype offs = int32 \/ idtype offs = int64)
  end ->
  0 < T -> 0 < sm -> 0 < Rh -> 2 * Rh <= D ->
  (forall b, b < B ->
     (0 <= seq_offset (offsets_arg so) b)%Z
     /\ (seq_offset (offsets_arg so) b + Z.of_nat T <= Z.of_nat TR)%Z) ->
  exists y1 y2,
    rotary_embedding_fwdbwd sm pci x cos sin so None interleaved true conjugate
    = inr y1
    /\ rotary_embedding_fwdbwd sm pci x cos sin so None interleaved false conjugate
       = inr y2
    /\ forall b t h d, b < B -> t < T -> h < H -> d < D ->
         fmem y1 (flat T H D b t h d) = fmem y2 (flat T H D b t h d).
Proof.
  intros Hx Hc HD HT Hcs Hxc Hso HT0 Hsm _ HR Hoff.
  destruct (@fwdbwd_read sm pci x cos sin so interleaved true conjugate
              B T H D TR Rh Hx Hc HD HT Hcs Hxc Hso HT0 Hsm HR)
    as (y1 & E1 & _ & _ & H1).
  destruct (@fwdbwd_read sm pci x cos sin so interleaved false conjugate
              B T H D TR Rh Hx Hc HD HT Hcs Hxc Hso HT0 Hsm HR)
    as (y2 & E2 & _ & _ & H2).
  exists y1, y2. split; [exact E1|]. split; [exact E2|].
  intros b t h d Hb Ht Hh Hd. rewrite H1, H2 by assumption.
  destruct (d <? 2 * Rh); [|reflexivity].
  assert (Hok : table_ok (offsets_arg so) TR b t = true).
  { unfold table_ok. destruct (Hoff b Hb) as [Ha Hb'].
    apply andb_true_iff. split; [apply Z.leb_le | apply Z.ltb_lt]; lia. }
  rewrite Hok. reflexivity.
Qed.

(** X17: a negative integer offset passes the checks of
    [rotary_embedding_fwdbwd]; the positions [t] with [t + offset < 0] have
    no row in the tables, and their features below [2 R] in the new tensor
    are left as [torch.empty_like] made them. *)
Theorem rotary_negative_offset_skips_rows (sm : nat)
    (pci : itensor -> nat -> itensor) (x cos sin : ftensor R) (off : Z)
    (interleaved conjugate : bool) (B T H D TR Rh : nat) :
  fshape x = [B; T; H; D] -> fshape cos = [TR; Rh] ->
  D <= 256 -> T <= TR ->
  fdtype cos = fdtype sin -> fdtype x = fdtype cos ->
  (off < 0)%Z ->
  0 < T -> 0 < sm -> 0 < Rh -> 2 * Rh <= D ->
  exists y,
    rotary_embedding_fwdbwd sm pci x cos sin (OffsetInt off) None interleaved false
      conjugate = inr y
    /\ forall b t h d, b < B -> t < T -> h < H -> d < 2 * Rh ->
         (Z.of_nat t + off < 0)%Z ->
         fmem y (flat T H D b t h d) = uninit.
Proof.
  intros Hx Hc HD HT Hcs Hxc Hoff HT0 Hsm _ HR.
  destruct (@fwdbwd_read sm pci x cos sin (OffsetInt off) interleaved false
              conjugate B T H D TR Rh Hx Hc HD HT Hcs Hxc ltac:(cbn; lia)
              HT0 Hsm HR) as (y & Ey & _ & _ & Hy).
  exists y. split; [exact Ey|].
  intros b t h d Hb Ht Hh Hd Hneg. rewrite Hy by (assumption || lia).
  rewrite (proj2 (Nat.ltb_lt d (2 * Rh)) Hd).
  unfold table_ok, seq_offset, offsets_arg.
  rewrite (proj2 (Z.leb_gt 0 (Z.of_nat t + off))) by exact Hneg.
  reflexivity.
Qed.

(** X18: with [cu_seqlens], each sequence is rotated on its own.  When
    [cu_seqlens] holds the starts of [N] sequences packed one after the other
    and [prepare_chunk_indices] returns the pairs (sequence, block) of the
    blocks of [BT] positions of every sequence, the new tensor holds at
    position [t] of sequence [n] the rotation by the row [t + offset n] of
    the tables: positions count from the start of the sequence and the
    offset is that of the sequence. *)
Theorem rotary_varlen_rotates_each_sequence (sm : nat)
    (pci : itensor -> nat -> itensor) (x cos sin : ftensor R)
    (so : seqlen_offsets_t) (cu : itensor) (interleaved conjugate : bool)
    (B T H D TR Rh N NT : nat) (start : nat -> nat) :
  fshape x = [B; T; H; D] -> fshape cos = [TR; Rh] ->
  D <= 256 -> T <= TR ->
  fdtype cos = fdtype sin -> fdtype x = fdtype cos ->
  ishape cu = [S N] ->
  (forall n, n <= N -> imem cu (Z.of_nat n) = Z.of_nat (start n)) ->
  (forall n, n < N -> start n <= start (S n)) ->
  start N <= B * T ->
  match so with
  | OffsetInt off => (off + Z.of_nat T <= Z.of_nat TR)%Z
  | OffsetTensor offs =>
      ishape offs = [N] /\ (idtype offs = int32 \/ idtype offs = int64)
  end ->
  0 < B -> 0 < T -> 0 < sm -> 0 < Rh -> 2 * Rh <= D ->
  let BT := Nat.min 128 (next_power_of_2 (cdiv T sm)) in
  let ci := pci cu BT in
  ishape ci = [NT; 2] ->
  (forall r, r < NT ->
     exists n i, n < N
       /\ imem ci (Z.of_nat r * 2)%Z = Z.of_nat n
       /\ imem ci (Z.of_nat r * 2 + 1)%Z = Z.of_nat i) ->
  (forall n i, n < N -> start n + i * BT < start (S n) ->
     exists r, r < NT
       /\ imem ci (Z.of_nat r * 2)%Z = Z.of_nat n
       /\ imem ci (Z.of_nat r * 2 + 1)%Z = Z.of_nat i) ->
  exists y,
    rotary_embedding_fwdbwd sm pci x cos sin so (Some cu) interleaved false conjugate
    = inr y
    /\ fshape y = fshape x
    /\ forall n t h d, n < N -> start n + t < start (S n) -> h < H -> d < D ->
         fmem y (pos_offset H D (start n + t) h d)
         = if d <? 2 * Rh
           then if table_ok (offsets_arg so) TR n t
                then rotate_pair (fmem x) (fmem cos) (fmem sin) interleaved conjugate
                       Rh (pos_offset H D (start n + t) h 0)
                       (Z.of_nat t + seq_offset (offsets_arg so) n) d
                else uninit
           else fmem x (pos_offset H D (start n + t) h d).
Proof.
  intros Hx Hc HD HT Hcs Hxc Hcu Hstart Hmono _ Hso HB HT0 Hsm _ HR BT ci.
  apply (@fwdbwd_varlen_read sm pci x cos sin so cu interleaved conjugate
           B T H D TR Rh N NT start); assumption.
Qed.

(** X19: [backward] applied to the result of [forward] gives [x] back when
    the tables hold a cosine and a sine ([cos^2 + sin^2 = 1] at the rows that
    are read): the conjugate rotation inverts the rotation. *)
Theorem rotary_backward_undoes_forward (sm : nat)
    (pci : itensor -> nat -> itensor) (x cos sin : ftensor R) (off : Z)
    (interleaved inplace : bool) (B T H D TR Rh : nat) :
  fshape x = [B; T; H; D] -> fshape cos = [TR; Rh] ->
  D <= 256 ->
  fdtype cos = fdtype sin -> fdtype x = fdtype cos ->
  (0 <= off)%Z -> (off + Z.of_nat T <= Z.of_nat TR)%Z ->
  0 < T -> 0 < sm -> 0 < Rh -> 2 * Rh <= D ->
  (forall t j, t < T -> j < Rh ->
     (fmem cos ((Z.of_nat t + off) * Z.of_nat Rh + Z.of_nat j)%Z
      * fmem cos ((Z.of_nat t + off) * Z.of_nat Rh + Z.of_nat j)%Z
      + fmem sin ((Z.of_nat t + off) * Z.of_nat Rh + Z.of_nat j)%Z
        * fmem sin ((Z.of_nat t + off) * Z.of_nat Rh + Z.of_nat j)%Z = rI)%R) ->
  exists ctx y dx,
    rotary_forward sm pci x cos sin interleaved inplace (OffsetInt off) None
    = inr (ctx, y)
    /\ rotary_backward sm pci ctx y = inr dx
    /\ fshape dx = fshape x
    /\ forall b t h d, b < B -> t < T -> h < H -> d < D ->
         fmem dx (flat T H D b t h d) = fmem x (flat T H D b t h d).
Proof.
  intros Hx Hc HD Hcs Hxc Hoff0 Hoff HT0 Hsm _ HR Hunit.
  assert (HT : T <= TR) by lia.
  destruct (@fwdbwd_read sm pci x cos sin (OffsetInt off) interleaved inplace false
              B T H D TR Rh Hx Hc HD HT Hcs Hxc Hoff HT0 Hsm HR)
    as (y & Ey & Hsy & Hdy & Hy).
  destruct (@fwdbwd_read sm pci y cos sin (OffsetInt off) interleaved inplace true
              B T H D TR Rh ltac:(congruence) Hc HD HT Hcs ltac:(congruence)
              Hoff HT0 Hsm HR)
    as (dx & Edx & Hsdx & _ & Hdx).
  unfold rotary_forward, rotary_backward. rewrite Ey. cbn [rbind].
  do 3 eexists. split; [reflexivity|].
  cbn [saved_tensors ctx_seqlen_offsets ctx_interleaved ctx_inplace rbind].
  split; [exact Edx|]. split; [congruence|].
  intros b t h d Hb Ht Hh Hd. rewrite Hdx by assumption.
  assert (Hok : table_ok (offsets_arg (OffsetInt off)) TR b t = true).
  { unfold table_ok, seq_offset, offsets_arg.
    apply andb_true_iff. split; [apply Z.leb_le | apply Z.ltb_lt]; lia. }
  rewrite Hok.
  destruct (Nat.ltb_spec d (2 * Rh)) as [Hd2|Hd2].
  2:{ rewrite Hy by assumption. rewrite (proj2 (Nat.ltb_ge d (2 * Rh))) by lia.
      reflexivity. }
  assert (Hrow : forall j, j < 2 * Rh ->
            fmem y (flat T H D b t h 0 + Z.of_nat j)%Z
            = rotate_pair (fmem x) (fmem cos) (fmem sin) interleaved false Rh
                (flat T H D b t h 0)
                (Z.of_nat t + seq_offset (offsets_arg (OffsetInt off)) b) j).
  { intros j Hj. rewrite flat_add, Hy by (assumption || lia).
    rewrite (proj2 (Nat.ltb_lt j (2 * Rh)) Hj), Hok. reflexivity. }
  cbn [seq_offset offsets_arg] in *.
  pose proof (Nat.div_mod_eq d 2) as Ed.
  pose proof (Nat.mod_upper_bound d 2 ltac:(lia)) as Hm.
  unfold rotate_pair at 1. cbn [negb].
  destruct interleaved; cbn [negb].
  - assert (Hj : d / 2 < Rh) by (apply Nat.Div0.div_lt_upper_bound; lia).
    specialize (Hunit t (d / 2) Ht Hj).
    destruct (Nat.eqb_spec (d mod 2) 0) as [Ep|Ep].
    + rewrite (Hrow d), (Hrow (d + 1)) by lia. unfold rotate_pair. cbn [negb].
      replace ((d + 1) mod 2 =? 0) with false
        by (symmetry; apply Nat.eqb_neq;
            rewrite Nat.Div0.add_mod, Ep; cbn; lia).
      rewrite (proj2 (Nat.eqb_eq _ _) Ep).
      replace ((d + 1) / 2) with (d / 2)
        by (apply Nat.div_unique with (r := 1); lia).
      replace (d + 1 - 1) with d by lia.
      rewrite !flat_add.
      set (c := fmem cos _) in *. set (s := fmem sin _) in *.
      set (a := fmem x _). set (a1 := fmem x _).
      transitivity (a * (c * c + s * s))%R; [ring|]. rewrite Hunit. ring.
    + rewrite (Hrow d), (Hrow (d - 1)) by lia. unfold rotate_pair. cbn [negb].
      replace ((d - 1) mod 2 =? 0) with true
        by (symmetry; apply Nat.eqb_eq; symmetry;
            apply Nat.mod_unique with (q := d / 2); lia).
      rewrite (proj2 (Nat.eqb_neq _ _) Ep).
      replace ((d - 1) / 2) with (d / 2)
        by (apply Nat.div_unique with (r := 0); lia).
      replace (d - 1 + 1) with d by lia.
      rewrite !flat_add.
      set (c := fmem cos _) in *. set (s := fmem sin _) in *.
      set (a := fmem x (flat T H D b t h d)).
      set (a1 := fmem x (flat T H D b t h (d - 1))).
      transitivity (a * (c * c + s * s))%R; [ring|]. rewrite Hunit. ring.
  - destruct (Nat.ltb_spec d Rh) as [Hlt|Hge].
    + specialize (Hunit t d Ht Hlt).
      rewrite (Hrow d), (Hrow (d + Rh)) by lia. unfold rotate_pair. cbn [negb].
      rewrite (proj2 (Nat.ltb_lt _ _) Hlt).
      rewrite (proj2 (Nat.ltb_ge (d + Rh) Rh)) by lia.
      replace (d + Rh - Rh) with d by lia.
      rewrite !flat_add.
      set (c := fmem cos _) in *. set (s := fmem sin _) in *.
      set (a := fmem x (flat T H D b t h d)).
      set (a1 := fmem x (flat T H D b t h (d + Rh))).
      transitivity (a * (c * c + s * s))%R; [ring|]. rewrite Hunit. ring.
    + specialize (Hunit t (d - Rh) Ht ltac:(lia)).
      rewrite (Hrow d), (Hrow (d - Rh)) by lia. unfold rotate_pair. cbn [negb].
      rewrite (proj2 (Nat.ltb_ge d Rh)) by lia.
      rewrite (proj2 (Nat.ltb_lt (d - Rh) Rh)) by lia.
      replace (d - Rh + Rh) with d by lia.
      rewrite !flat_add.
      set (c := fmem cos _) in *. set (s := fmem sin _) in *.
      set (a := fmem x (flat T H D b t h d)).
      set (a1 := fmem x (flat T H D b t h (d - Rh))).
      transitivity (a * (c * c + s * s))%R; [ring|]. rewrite Hunit. ring.
Qed.

(** X20: on a last axis of even size, [rotate_half] applied twice is the
    negation, in both layouts. *)
Theorem rotate_half_twice_negates (x : ftensor R) (interleaved : bool)
    (lead : list nat) (D : nat) :
  fshape x = lead ++ [D] -> 0 < D -> D mod 2 = 0 ->
  exists r1 r2,
    rotate_half x interleaved = inr r1
    /\ rotate_half r1 interleaved = inr r2
    /\ fshape r2 = fshape x
    /\ forall a, fmem r2 a = (- fmem x a)%R.
Proof.
  intros Hx HD0 Hev.
  assert (E1 : (D =? 1) = false).
  { apply Nat.eqb_neq. intros ->. discriminate. }
  assert (Eh : (D + 1) / 2 = D / 2).
  { pose proof (Nat.div_mod_eq D 2).
    symmetry. apply Nat.div_unique with (r := 1); lia. }
  assert (En : D - D / 2 = D / 2).
  { pose proof (Nat.div_mod_eq D 2). lia. }
  unfold rotate_half at 1. rewrite Hx, rev_app_distr. cbn [rev app].
  destruct interleaved; cbn [negb].
  - rewrite Hev. cbn [Nat.eqb negb].
    do 2 eexists. split; [reflexivity|].
    unfold rotate_half. cbn [fshape fmem].
    rewrite rev_app_distr. cbn [rev app]. rewrite Hev. cbn [Nat.eqb negb].
    split; [reflexivity|]. cbn [fshape fmem]. split; [reflexivity|].
    intros a.
    pose proof (Z.div_mod a 2 ltac:(lia)) as Ea.
    pose proof (Z.mod_pos_bound a 2 ltac:(lia)) as Hb.
    destruct (Z.eqb_spec (a mod 2) 0) as [Ep|Ep].
    + replace ((a + 1) mod 2 =? 0)%Z with false.
      * replace (a + 1 - 1)%Z with a by lia. reflexivity.
      * symmetry. apply Z.eqb_neq.
        rewrite <- (Z.mod_unique (a + 1) 2 (a / 2) 1) by lia. lia.
    + replace ((a - 1) mod 2 =? 0)%Z with true.
      * replace (a - 1 + 1)%Z with a by lia. ring.
      * symmetry. apply Z.eqb_eq. symmetry.
        apply Z.mod_unique with (q := (a / 2)%Z); lia.
  - rewrite E1.
    do 2 eexists. split; [reflexivity|].
    unfold rotate_half. cbn [fshape fmem].
    rewrite rev_app_distr. cbn [rev app negb]. rewrite E1.
    split; [reflexivity|]. cbn [fshape fmem]. split; [reflexivity|].
    intros a. rewrite Eh, En.
    pose proof (Nat.div_mod_eq D 2) as ED.
    pose proof (Z.div_mod a (Z.of_nat D) ltac:(lia)) as Ea.
    pose proof (Z.mod_pos_bound a (Z.of_nat D) ltac:(lia)) as Hb.
    set (p := (a / Z.of_nat D)%Z) in *. set (d := (a mod Z.of_nat D)%Z) in *.
    set (n := D / 2) in *.
    assert (ED' : Z.of_nat D = (2 * Z.of_nat n)%Z) by lia.
    destruct (Z.ltb_spec d (Z.of_nat n)) as [Hlt|Hge].
    + rewrite <- (Z.div_unique (p * Z.of_nat D + Z.of_nat n + d) (Z.of_nat D) p
                 (Z.of_nat n + d)) by lia.
      rewrite <- (Z.mod_unique (p * Z.of_nat D + Z.of_nat n + d) (Z.of_nat D) p
                    (Z.of_nat n + d)) by lia.
      rewrite (proj2 (Z.ltb_ge _ _)) by lia.
      replace (p * Z.of_nat D + (Z.of_nat n + d - Z.of_nat n))%Z with a by lia.
      reflexivity.
    + rewrite <- (Z.div_unique (p * Z.of_nat D + (d - Z.of_nat n)) (Z.of_nat D) p
                 (d - Z.of_nat n)) by lia.
      rewrite <- (Z.mod_unique (p * Z.of_nat D + (d - Z.of_nat n)) (Z.of_nat D) p
                    (d - Z.of_nat n)) by lia.
      rewrite (proj2 (Z.ltb_lt _ _)) by lia.
      replace (p * Z.of_nat D + Z.of_nat n + (d - Z.of_nat n))%Z with a by lia.
      ring.
Qed.

End RotaryTheory.

Section RotaryChecks.

Context {R : Type} {ops : Scalar R}.

(** X21: a batch of sequences of length [0] passes the assertions of
    [rotary_embedding_fwdbwd] and then raises [ZeroDivisionError] in
    [triton.cdiv]: the block of positions comes out as [0]. *)
Theorem rotary_empty_sequence_raises (sm : nat)
    (pci : itensor -> nat -> itensor) (x cos sin : ftensor R)
    (so : seqlen_offsets_t) (interleaved inplace conjugate : bool)
    (B H D TR Rh : nat) :
  fshape x = [B; 0; H; D] -> fshape cos = [TR; Rh] ->
  D <= 256 ->
  fdtype cos = fdtype sin -> fdtype x = fdtype cos ->
  match so with
  | OffsetInt off => (off <= Z.of_nat TR)%Z
  | OffsetTensor offs =>
      ishape offs = [B] /\ (idtype offs = int32 \/ idtype offs = int64)
  end ->
  rotary_embedding_fwdbwd sm pci x cos sin so None interleaved inplace conjugate
  = inl RotaryZeroDivisionError.
Proof.
  intros Hx Hc HD Hcs Hxc Hso.
  unfold rotary_embedding_fwdbwd. rewrite Hx, Hc. cbn [runpack4 runpack2 rbind].
  rewrite (proj2 (Nat.leb_le D 256) HD). cbn [Nat.leb].
  rewrite (proj2 (dtype_eqb_eq _ _) Hcs), (proj2 (dtype_eqb_eq _ _) Hxc).
  cbn [rassert rbind].
  assert (Hchk : match so with
                 | OffsetTensor offs =>
                     (rassert (match ishape offs with
                               | [n] => (Z.of_nat n =? Z.of_nat B)%Z
                               | _ => false
                               end) EmptyString ;;;
                      rassert (dtype_eqb (idtype offs) int32
                               || dtype_eqb (idtype offs) int64) EmptyString)%rotary
                 | OffsetInt off =>
                     rassert (off + Z.of_nat 0 <=? Z.of_nat TR)%Z EmptyString
                 end = inr tt).
  { destruct so as [off|offs].
    - rewrite (proj2 (Z.leb_le _ _)) by (cbn; lia). reflexivity.
    - destruct Hso as [-> Hdt]. rewrite Z.eqb_refl. cbn [rassert rbind].
      destruct Hdt as [-> | ->]; reflexivity. }
  rewrite Hchk. cbn [rbind].
  unfold py_cdiv. destruct (Nat.eqb_spec sm 0) as [E|E]; [reflexivity|].
  cbn [rbind].
  replace (cdiv 0 sm) with 0
    by (unfold cdiv; symmetry; apply Nat.div_small; lia).
  reflexivity.
Qed.

End RotaryChecks.

(** * The further properties at concrete inputs *)

Lemma ex_valid_shapes_q' : valid_shapes ex_q' ex_k' ex_v' ex_beta' 1 1 2 1 1.
Proof. repeat split; reflexivity. Qed.

Lemma ex_valid_shapes_zero : valid_shapes ex_q ex_k ex_v ex_zero 1 1 2 1 1.
Proof. repeat split; reflexivity. Qed.

Lemma cx_valid_shapes_beta : valid_shapes cx_q cx_k cx_v cx_beta 1 1 128 1 1.
Proof. repeat split; reflexivity. Qed.

Lemma output_reads_own_slice_past_witness :
  exists o attn o' attn',
    snd (parallel_delta_rule reference_solver ex_q ex_k ex_v ex_beta (Some 1%Z)
           false false []) = inr (o, attn)
    /\ snd (parallel_delta_rule reference_solver ex_q' ex_k' ex_v' ex_beta' (Some 1%Z)
              false false []) = inr (o', attn')
    /\ forall t c, t <= 0 -> t < 2 -> c < 1 -> data o 0 t c = data o' 0 t c.
Proof.
  apply (@output_reads_own_slice_past Z Z_scalar Z_ring reference_solver
           ex_q ex_k ex_v ex_beta ex_q' ex_k' ex_v' ex_beta' 1%Z false 1 1 2 1 1 0 0
           (reference_solver_triangular Z_ring) (reference_solver_causal Z_ring)
           ex_valid_shapes ex_valid_shapes_q').
  - lia.
  - lia.
  - intros t c Ht _ _. replace t with 0 by lia. reflexivity.
  - intros t c Ht _ _. replace t with 0 by lia. reflexivity.
  - intros t c Ht _ _. replace t with 0 by lia. reflexivity.
  - intros t Ht _. replace t with 0 by lia. reflexivity.
Defined.

Lemma attention_flag_keeps_output_witness :
  exists o o' attn,
    snd (forward reference_solver ex_q ex_k ex_v ex_beta (Some 1%Z) false [])
      = inr (o, None)
    /\ snd (forward reference_solver ex_q ex_k ex_v ex_beta (Some 1%Z) true [])
       = inr (o', Some attn)
    /\ shape o = shape ex_v /\ shape o' = shape ex_v /\ shape attn = [1; 1; 2; 2]
    /\ forall bh t c, bh < 1 * 1 -> t < 2 -> c < 1 ->
         data o bh t c = data o' bh t c.
Proof.
  apply (@attention_flag_keeps_output Z Z_scalar Z_ring reference_solver
           ex_q ex_k ex_v ex_beta 1%Z 1 1 2 1 1 ex_valid_shapes).
  lia.
Defined.

Lemma layout_warning_only_warns_witness :
  fst (parallel_delta_rule reference_solver ex_q ex_k ex_v ex_beta (Some 1%Z) true
         false [])
  = (if 1 <? 2 then [Warn 1 2] else [])
    ++ fst (forward reference_solver ex_q ex_k ex_v ex_beta (Some 1%Z) true [])
  /\ snd (parallel_delta_rule reference_solver ex_q ex_k ex_v ex_beta (Some 1%Z) true
            false [])
     = snd (forward reference_solver ex_q ex_k ex_v ex_beta (Some 1%Z) true []).
Proof.
  apply (@layout_warning_only_warns Z Z_scalar reference_solver
           ex_q ex_k ex_v ex_beta (Some 1%Z) true 1 1 2 1 1 ex_valid_shapes).
Defined.


Lemma attention_matrix_entries_witness :
  exists o attn,
    snd (forward reference_solver ex_q ex_k ex_v ex_beta (Some 1%Z) true [])
      = inr (o, Some attn)
    /\ forall bh tq tk, bh < 1 * 1 -> tq < 2 -> tk < 2 ->
         data attn bh tq tk
         = attention_entry (data ex_q) (data ex_k) (data ex_v) (data ex_beta)
             (data (reference_solver ex_k ex_beta 32)) 1%Z 2 1 128 32 bh tq tk.
Proof.
  apply (@attention_matrix_entries Z Z_scalar Z_ring reference_solver
           ex_q ex_k ex_v ex_beta 1%Z 1 1 2 1 1 ex_valid_shapes).
  lia.
Defined.

Lemma output_is_attention_times_values_witness :
  exists o attn,
    snd (forward reference_solver ex_q ex_k ex_v ex_beta (Some 1%Z) true [])
      = inr (o, Some attn)
    /\ forall bh t c, bh < 1 * 1 -> t < 2 -> c < 1 ->
         data o bh t c
         = sum_n 2 (fun s => data attn bh t s * data ex_v bh s c)%R.
Proof.
  apply (@output_is_attention_times_values Z Z_scalar Z_ring reference_solver
           ex_q ex_k ex_v ex_beta 1%Z 1 1 2 1 1 ex_valid_shapes).
  lia.
Defined.

Lemma attention_matches_oracle_witness :
  exists o attn o_ref A_ref,
    snd (forward reference_solver cx_q cx_k cx_v cx_beta (Some (inv_sqrt 1)) true [])
      = inr (o, Some attn)
    /\ naive_delta_rule_parallel cx_q cx_k cx_v cx_beta 128 32 = inr (o_ref, A_ref)
    /\ shape attn = shape A_ref
    /\ forall bh tq tk, bh < 1 * 1 -> tq < 128 -> tk < 128 ->
         data attn bh tq tk = data A_ref bh tq tk.
Proof.
  apply (@attention_matches_oracle Z Z_scalar Z_ring reference_solver
           cx_q cx_k cx_v cx_beta 1 1 128 1 1 cx_valid_shapes_beta).
  - lia.
  - reflexivity.
  - intros bh t c _ _ _. reflexivity.
Defined.

Lemma zero_gates_give_linear_attention_witness :
  exists o attn,
    snd (forward reference_solver ex_q ex_k ex_v ex_zero (Some 1%Z) true [])
      = inr (o, Some attn)
    /\ (forall bh tq tk, bh < 1 * 1 -> tq < 2 -> tk < 2 ->
          data attn bh tq tk
          = if tk <=? tq
            then sum_n 1 (fun c => data ex_q bh tq c * 1%Z * data ex_k bh tk c)%R
            else 0%Z)
    /\ (forall bh t c, bh < 1 * 1 -> t < 2 -> c < 1 ->
          data o bh t c
          = sum_n 2 (fun s =>
              (if s <=? t
               then sum_n 1 (fun c' => data ex_q bh t c' * 1%Z * data ex_k bh s c')
               else 0%Z) * data ex_v bh s c)%R).
Proof.
  apply (@zero_gates_give_linear_attention Z Z_scalar Z_ring reference_solver
           ex_q ex_k ex_v ex_zero 1%Z 1 1 2 1 1 ex_valid_shapes_zero).
  - lia.
  - intros bh t c _ _ _. reflexivity.
  - intros bh t _ _. reflexivity.
Defined.

Lemma forward_substitution_inverts_witness :
  let k := rearrange_split 2 (data ex_k) in
  let k_beta :=
    rearrange_split 2 (fun bh t d => data ex_k bh t d * data ex_beta bh t 0)%R in
  let X := oracle_T 1 1 1 2 k k_beta 0 0 in
  let L : Block Z := fun r j =>
    if j <? r then sum_n 1 (fun m => k_beta 0 0 r m * k 0 0 j m)%R else 0%Z in
  (X 1 0 + sum_n 2 (fun m => L 1 m * X m 0))%R = eye 1 0.
Proof.
  apply (@forward_substitution_inverts Z Z_scalar Z_ring 1 1 1 2
           (rearrange_split 2 (data ex_k))
           (rearrange_split 2 (fun bh t d => data ex_k bh t d * data ex_beta bh t 0)%R)
           0 0 1 0); lia.
Defined.

Lemma output_is_linear_in_values_witness :
  exists o1 a1 o2 a2 o12 a12,
    snd (forward reference_solver ex_q ex_k ex_v ex_beta (Some 1%Z) false [])
      = inr (o1, a1)
    /\ snd (forward reference_solver ex_q ex_k ex_v' ex_beta (Some 1%Z) false [])
         = inr (o2, a2)
    /\ snd (forward reference_solver ex_q ex_k ex_v12 ex_beta (Some 1%Z) false [])
         = inr (o12, a12)
    /\ forall bh t c, bh < 1 * 1 -> t < 2 -> c < 1 ->
         data o12 bh t c = (2%Z * data o1 bh t c + data o2 bh t c)%R.
Proof.
  apply (@output_is_linear_in_values Z Z_scalar Z_ring reference_solver
           ex_q ex_k ex_v ex_v' ex_v12 ex_beta 2%Z 1%Z false 1 1 2 1 1
           ex_valid_shapes).
  - reflexivity.
  - reflexivity.
  - lia.
  - intros bh t c _ _ _. reflexivity.
Defined.

Lemma scale_is_a_factor_witness :
  exists o attn o1 attn1,
    snd (forward reference_solver ex_q ex_k ex_v ex_beta (Some 3%Z) true [])
      = inr (o, Some attn)
    /\ snd (forward reference_solver ex_q ex_k ex_v ex_beta (Some 1%Z) true [])
       = inr (o1, Some attn1)
    /\ (forall bh tq tk, bh < 1 * 1 -> tq < 2 -> tk < 2 ->
          data attn bh tq tk = (3%Z * data attn1 bh tq tk)%R)
    /\ (forall bh t c, bh < 1 * 1 -> t < 2 -> c < 1 ->
          data o bh t c = (3%Z * data o1 bh t c)%R).
Proof.
  apply (@scale_is_a_factor Z Z_scalar Z_ring reference_solver
           ex_q ex_k ex_v ex_beta 3%Z 1 1 2 1 1 ex_valid_shapes).
  lia.
Defined.

Lemma oracle_is_engine_on_gated_values_witness :
  exists o attn o_ref A_ref,
    snd (forward reference_solver cx_q cx_k cx_gated cx_beta (Some (inv_sqrt 1))
           false [])
      = inr (o, attn)
    /\ naive_delta_rule_parallel cx_q cx_k cx_v cx_beta 128 32 = inr (o_ref, A_ref)
    /\ shape o = shape o_ref
    /\ forall bh t c, bh < 1 * 1 -> t < 128 -> c < 1 ->
         data o bh t c = data o_ref bh t c.
Proof.
  apply (@oracle_is_engine_on_gated_values Z Z_scalar Z_ring reference_solver
           cx_q cx_k cx_v cx_gated cx_beta false 1 1 128 1 1 cx_valid_shapes_beta).
  - reflexivity.
  - lia.
  - reflexivity.
  - intros bh t c _ _ _. reflexivity.
  - intros bh t c _ _ _. reflexivity.
Defined.

Lemma forward_rejects_wrong_rank_witness :
  forward reference_solver ex_q ex_beta ex_v ex_beta (Some 1%Z) false []
  = ([], inl ValueError).
Proof.
  apply (@forward_rejects_wrong_rank Z Z_scalar reference_solver
           ex_q ex_beta ex_v ex_beta (Some 1%Z) false []).
  - cbn. lia.
  - discriminate.
Defined.

Lemma rotary_kernel_rotates_pairs_witness :
  exists y,
    rotary_embedding_fwdbwd 4 no_chunk_indices rot_x rot_cos rot_sin (OffsetInt 0)
      None false false false = inr y
    /\ fshape y = fshape rot_x /\ fdtype y = fdtype rot_x
    /\ forall b t h d, b < 1 -> t < 2 -> h < 1 -> d < 2 ->
         fmem y (flat 2 1 2 b t h d)
         = if d <? 2 * 1
           then if table_ok (offsets_arg (OffsetInt 0)) 2 b t
                then rotate_pair (fmem rot_x) (fmem rot_cos) (fmem rot_sin) false false
                       1 (flat 2 1 2 b t h 0)
                       (Z.of_nat t + seq_offset (offsets_arg (OffsetInt 0)) b) d
                else if false then fmem rot_x (flat 2 1 2 b t h d) else uninit
           else fmem rot_x (flat 2 1 2 b t h d).
Proof.
  apply (@rotary_kernel_rotates_pairs Z Z_scalar 4 no_chunk_indices
           rot_x rot_cos rot_sin (OffsetInt 0) false false false 1 2 1 2 2 1);
    try reflexivity; cbn; lia.
Defined.

Lemma rotary_kernel_matches_reference_witness :
  exists y r,
    rotary_embedding_fwdbwd 4 no_chunk_indices rot_x rot_cos rot_sin (OffsetInt 0)
      None false false false = inr y
    /\ rotary_embedding_ref rot_x rot_cos rot_sin false = inr r
    /\ fshape y = fshape r
    /\ forall b t h d, b < 1 -> t < 2 -> h < 1 -> d < 2 ->
         fmem y (flat 2 1 2 b t h d) = fmem r (flat 2 1 2 b t h d).
Proof.
  apply (@rotary_kernel_matches_reference Z Z_scalar Z_ring 4 no_chunk_indices
           rot_x rot_cos rot_sin false false 1 2 1 2 1);
    try reflexivity; lia.
Defined.

Lemma rotary_inplace_agrees_with_copy_witness :
  exists y1 y2,
    rotary_embedding_fwdbwd 4 no_chunk_indices rot_x rot_cos rot_sin (OffsetInt 0)
      None true true false = inr y1
    /\ rotary_embedding_fwdbwd 4 no_chunk_indices rot_x rot_cos rot_sin (OffsetInt 0)
         None true false false = inr y2
    /\ forall b t h d, b < 1 -> t < 2 -> h < 1 -> d < 2 ->
         fmem y1 (flat 2 1 2 b t h d) = fmem y2 (flat 2 1 2 b t h d).
Proof.
  apply (@rotary_inplace_agrees_with_copy Z Z_scalar 4 no_chunk_indices
           rot_x rot_cos rot_sin (OffsetInt 0) true false 1 2 1 2 2 1);
    try reflexivity; cbn; lia.
Defined.

Lemma rotary_negative_offset_skips_rows_witness :
  exists y,
    rotary_embedding_fwdbwd 4 no_chunk_indices rot_x rot_cos rot_sin
      (OffsetInt (-1)) None false false false = inr y
    /\ forall b t h d, b < 1 -> t < 2 -> h < 1 -> d < 2 * 1 ->
         (Z.of_nat t + -1 < 0)%Z ->
         fmem y (flat 2 1 2 b t h d) = uninit.
Proof.
  apply (@rotary_negative_offset_skips_rows Z Z_scalar 4 no_chunk_indices
           rot_x rot_cos rot_sin (-1)%Z false false 1 2 1 2 2 1);
    try reflexivity; lia.
Defined.

Lemma rotary_varlen_rotates_each_sequence_witness :
  exists y,
    rotary_embedding_fwdbwd 4 rot_chunks rot_x rot_cos rot_sin (OffsetInt 0)
      (Some rot_cu) false false false = inr y
    /\ fshape y = fshape rot_x
    /\ forall n t h d, n < 2 -> n + t < S n -> h < 1 -> d < 2 ->
         fmem y (pos_offset 1 2 (n + t) h d)
         = if d <? 2 * 1
           then if table_ok (offsets_arg (OffsetInt 0)) 2 n t
                then rotate_pair (fmem rot_x) (fmem rot_cos) (fmem rot_sin) false false
                       1 (pos_offset 1 2 (n + t) h 0)
                       (Z.of_nat t + seq_offset (offsets_arg (OffsetInt 0)) n) d
                else uninit
           else fmem rot_x (pos_offset 1 2 (n + t) h d).
Proof.
  apply (@rotary_varlen_rotates_each_sequence Z Z_scalar 4 rot_chunks
           rot_x rot_cos rot_sin (OffsetInt 0) rot_cu false false 1 2 1 2 2 1 2 2
           (fun n => n));
    try reflexivity; try (cbn; lia).
  - intros r Hr. destruct r as [|[|r]]; [| |lia].
    + exists 0, 0. repeat split; lia.
    + exists 1, 0. repeat split; lia.
  - intros n i Hn Hi. assert (i = 0) by (cbn in Hi; lia). subst i.
    exists n. destruct n as [|[|n]]; [| |lia]; repeat split; lia.
Defined.

Lemma rotary_backward_undoes_forward_witness :
  exists ctx y dx,
    rotary_forward 4 no_chunk_indices rot_x rot_cos rot_sin false false (OffsetInt 0)
      None = inr (ctx, y)
    /\ rotary_backward 4 no_chunk_indices ctx y = inr dx
    /\ fshape dx = fshape rot_x
    /\ forall b t h d, b < 1 -> t < 2 -> h < 1 -> d < 2 ->
         fmem dx (flat 2 1 2 b t h d) = fmem rot_x (flat 2 1 2 b t h d).
Proof.
  apply (@rotary_backward_undoes_forward Z Z_scalar Z_ring 4 no_chunk_indices
           rot_x rot_cos rot_sin 0%Z false false 1 2 1 2 2 1);
    try reflexivity; try lia.
  intros t j Ht Hj. replace j with 0 by lia.
  destruct t as [|[|t]]; [reflexivity | reflexivity | lia].
Defined.

Lemma rotate_half_twice_negates_witness :
  exists r1 r2,
    rotate_half rot_x true = inr r1
    /\ rotate_half r1 true = inr r2
    /\ fshape r2 = fshape rot_x
    /\ forall a, fmem r2 a = (- fmem rot_x a)%R.
Proof.
  apply (@rotate_half_twice_negates Z Z_scalar Z_ring rot_x true [1; 2; 1] 2).
  - reflexivity.
  - lia.
  - reflexivity.
Defined.

Lemma rotary_empty_sequence_raises_witness :
  rotary_embedding_fwdbwd 4 no_chunk_indices rot_empty rot_cos rot_sin (OffsetInt 0)
    None false false false
  = inl RotaryZeroDivisionError.
Proof.
  apply (@rotary_empty_sequence_raises Z Z_scalar 4 no_chunk_indices
           rot_empty rot_cos rot_sin (OffsetInt 0) false false false 1 1 2 2 1);
    try reflexivity; cbn; lia.
Defined.
